(** * Game of Life on a toroidal grid: the three engines of [gol.cpp]

    [gol.cpp] holds three successive versions of the same program:
    - variant 1: a pointer-to-pointer grid ([bool **]), neighbour offsets
      kept in a vector of pairs, cycle detection checked before each step;
    - variant 2: flat [uint8_t] buffers, precomputed neighbour index tables,
      [step] swaps the buffers itself, optional [--seed];
    - variant 3: flat [vector<bool>] buffers, static offset arrays, static
      and empty board detection.

    Each variant is embedded in a module of its own ([V1], [V2], [V3]);
    the fingerprint helpers [splitmix64] and [hash_combine] are textually
    the same in the three variants and are embedded once.

    Conventions of the embedding.
    - [int] values are modelled in [Z].  Where the source computes, on
      input it accepts, an [int] that can leave the range of [int] before
      anything else stops the program (the sizes [_row * _col] and
      [_steps + 100] that [initBoard] of variant 3 passes to the
      containers), the 32-bit result is written out with [int_of].
      Elsewhere the [int]s are taken in range: a statement that depends on
      it says so ([n ≤ 2^30] for the index tables of variant 2,
      [steps < INT_MAX] for the counter of its loop).
    - [uint64_t] is [Z] reduced modulo [2^64] after every operation that
      can overflow; [size_t] is taken to be 64 bits wide.
    - a [for] loop over [0 .. n-1] is a left fold over [seqZ 0 n]; the loop
      of the driver, which can [break], is a recursion on the number of
      iterations left.
    - what the program prints is a list of [line]s; the text of a board is
      what [display] writes, a list of characters.
    - [getopt_long], [atoi], [strtoull] and the random engines are the
      libraries': what they return is a parameter of the embedding. *)

From Stdlib Require Import ZArith Lia Ascii.
From stdpp Require Import base tactics option list list_numbers gmap strings.

Local Open Scope Z_scope.

(** ** Shared data *)

(** One unit of output.  [Header n] is the line "Cycle: n", [FinalHeader n]
    the line "Final cycle: n" of variant 2, [Board b] what one call to
    [display] prints for the current buffer [b]; the three notices are the
    informational lines printed on an early stop. *)
Inductive line (B : Type) : Type :=
| Header (n : Z)
| FinalHeader (n : Z)
| Board (b : B)
| CycleNotice (gen : option Z)
| StaticNotice (gen : Z)
| EmptyNotice (gen : Z).
Arguments Header {B} n.
Arguments FinalHeader {B} n.
Arguments Board {B} b.
Arguments CycleNotice {B} gen.
Arguments StaticNotice {B} gen.
Arguments EmptyNotice {B} gen.

(** Why the driver loop was left. *)
Inductive stop_reason : Type :=
| Completed
| StoppedByCycle
| StoppedStatic
| StoppedEmpty.

(** What a run leaves behind: the printed lines, the engine's final state,
    the reason the loop ended and the number of transitions made
    (calls to [step]), which is the generation of the final board. *)
Record result (S B : Type) : Type := mkResult {
  out : list (line B);
  final : S;
  stop : stop_reason;
  generation : Z
}.
Arguments mkResult {S B} out final stop generation.
Arguments out {S B} r.
Arguments final {S B} r.
Arguments stop {S B} r.
Arguments generation {S B} r.

Definition emit {S B : Type} (ls : list (line B)) (r : result S B) : result S B :=
  mkResult (ls ++ out r) (final r) (stop r) (generation r).

(** The frames of an output: every board shown, with the number of the
    header line printed just before it, if there is one. *)
Fixpoint frames_from {B : Type} (label : option Z) (ls : list (line B))
  : list (option Z * B) :=
  match ls with
  | [] => []
  | Header n :: ls' => frames_from (Some n) ls'
  | FinalHeader n :: ls' => frames_from (Some n) ls'
  | Board b :: ls' => (label, b) :: frames_from None ls'
  | _ :: ls' => frames_from None ls'
  end.

Definition frames {B : Type} (ls : list (line B)) : list (option Z * B) :=
  frames_from None ls.

Definition is_notice {B : Type} (l : line B) : bool :=
  match l with
  | CycleNotice _ | StaticNotice _ | EmptyNotice _ => true
  | _ => false
  end.

Definition notices {B : Type} (ls : list (line B)) : list (line B) :=
  filter (λ l, is_notice l = true) ls.

(** ** 64-bit arithmetic and the fingerprint helpers *)

Definition u64 (x : Z) : Z := x mod 2 ^ 64.

(** [INT_MAX], and the value that 32-bit [int] arithmetic keeps of a result
    [x] (two's complement, the low 32 bits). *)
Definition int_max : Z := 2 ^ 31 - 1.

Definition int_of (x : Z) : Z := (x + 2 ^ 31) mod 2 ^ 32 - 2 ^ 31.

(** [static inline uint64_t splitmix64(uint64_t x)] *)
Definition splitmix64 (x : Z) : Z :=
  let x := u64 (x + 0x9e3779b97f4a7c15) in
  let x := u64 (Z.lxor x (Z.shiftr x 30) * 0xbf58476d1ce4e5b9) in
  let x := u64 (Z.lxor x (Z.shiftr x 27) * 0x94d049bb133111eb) in
  Z.lxor x (Z.shiftr x 31).

(** [static inline void hash_combine(uint64_t& h, uint64_t k)]; the new
    value of [h] is returned. *)
Definition hash_combine (h k : Z) : Z :=
  let k := splitmix64 k in
  Z.lxor h (u64 (k + 0x9e3779b97f4a7c15 + u64 (Z.shiftl h 6) + Z.shiftr h 2)).

(** The fixed seed of every fingerprint. *)
Definition hash_seed : Z := 0x243f6a8885a308d3.

(** The body of the packing loop shared by the three [hashState]s: the
    loop state is [(h, word, bitpos)], [c] is the cell just read. *)
Definition hash_cell (acc : Z * Z * Z) (c : bool) : Z * Z * Z :=
  let '(h, word, bitpos) := acc in
  let word := if c then Z.lor word (u64 (Z.shiftl 1 bitpos)) else word in
  let bitpos := bitpos + 1 in
  if bitpos =? 64 then (hash_combine h word, 0, 0) else (h, word, bitpos).

(** [if (bitpos) hash_combine(h, word);  return (size_t)h;] *)
Definition hash_flush (acc : Z * Z * Z) : Z :=
  let '(h, word, bitpos) := acc in
  if bitpos =? 0 then h else hash_combine h word.

(** Toroidal wrapping as variants 1 and 3 write it:
    [if (k < 0) k += n; else if (k >= n) k -= n;] *)
Definition wrap (n k : Z) : Z :=
  if k <? 0 then k + n else if k >=? n then k - n else k.

(** The birth/survival test [(count == 3) || (alive && count == 2)]. *)
Definition rule (alive : bool) (count : Z) : bool :=
  (count =? 3) || (alive && (count =? 2)).

(** ** Text and the command line *)

(** What is written to a stream is the list of its characters;
    [std::endl] and ['\n'] are the newline character. *)
Definition newline : ascii := "010"%char.

(** A character as the [int] that [getopt_long] returns for it. *)
Definition chr (a : ascii) : Z := Z.of_nat (nat_of_ascii a).

(** ** Variant 1: pointer-to-pointer grid *)
Module V1.

Record state : Type := mkState {
  _row : Z;
  _col : Z;
  _steps : Z;
  _finalOnly : bool;
  _detectCycle : bool;
  _cell : list (list bool);
  _nextCycle : list (list bool);
  _neighborOffset : list (Z * Z);
  _history : gset Z
}.

Definition set_nextCycle (n : list (list bool)) (st : state) : state :=
  mkState (_row st) (_col st) (_steps st) (_finalOnly st) (_detectCycle st)
          (_cell st) n (_neighborOffset st) (_history st).

Definition set_history (h : gset Z) (st : state) : state :=
  mkState (_row st) (_col st) (_steps st) (_finalOnly st) (_detectCycle st)
          (_cell st) (_nextCycle st) (_neighborOffset st) h.

(** The offsets [initBoard] stores in [_neighborOffset]. *)
Definition neighborOffset : list (Z * Z) :=
  [ (-1, -1); (0, -1); (1, -1);
    (-1, 0);           (1, 0);
    (-1, 1);  (0, 1);  (1, 1) ].

(** [_cell[i][j]]; the code only reads cells inside the grid. *)
Definition at_ (g : list (list bool)) (i j : Z) : bool :=
  default false (g !! Z.to_nat i ≫= (.!! Z.to_nat j)).

(** The loop over [_neighborOffset]: live neighbours of [(i, j)]. *)
Definition count_at (st : state) (i j : Z) : Z :=
  foldl (λ count n,
           let ni := wrap (_row st) (i + n.1) in
           let nj := wrap (_col st) (j + n.2) in
           count + (if at_ (_cell st) ni nj then 1 else 0))
        0 (_neighborOffset st).

(** [void step()]: [_nextCycle[i][j] = ...] for every cell. *)
Definition step (st : state) : state :=
  set_nextCycle
    (foldl (λ next i,
        foldl (λ next j,
            let count := count_at st i j in
            alter (<[Z.to_nat j := rule (at_ (_cell st) i j) count]>)
                  (Z.to_nat i) next)
          next (seqZ 0 (_col st)))
      (_nextCycle st) (seqZ 0 (_row st)))
    st.

(** [void update()]: the two row-pointer arrays change roles. *)
Definition update (st : state) : state :=
  mkState (_row st) (_col st) (_steps st) (_finalOnly st) (_detectCycle st)
          (_nextCycle st) (_cell st) (_neighborOffset st) (_history st).

(** [size_t hashState()] *)
Definition hashState (st : state) : Z :=
  let h := hash_seed in
  let h := hash_combine h (u64 (_row st)) in
  let h := hash_combine h (u64 (_col st)) in
  hash_flush
    (foldl (λ acc i,
        foldl (λ acc j, hash_cell acc (at_ (_cell st) i j))
              acc (seqZ 0 (_col st)))
      (h, 0, 0) (seqZ 0 (_row st))).

Definition frame (n : Z) (st : state) : list (line (list (list bool))) :=
  [Header n; Board (_cell st)].

(** The [for (int i = 0; i < _steps; i++)] loop of [start], with [n]
    iterations left and the counter at [i]. *)
Fixpoint start_loop (n : nat) (i : Z) (st : state)
  : result state (list (list bool)) :=
  match n with
  | O => mkResult [] st Completed i
  | S n' =>
    let s := hashState st in
    if _detectCycle st && bool_decide (s ∈ _history st) then
      mkResult [CycleNotice None] st StoppedByCycle i
    else
      let st := if _detectCycle st
                then set_history ({[s]} ∪ _history st) st else st in
      let st := update (step st) in
      emit (if negb (_finalOnly st) || (i =? _steps st - 1)
            then frame (i + 1) st else [])
           (start_loop n' (i + 1) st)
  end.

(** [void start()] *)
Definition start (st : state) : result state (list (list bool)) :=
  emit (if negb (_finalOnly st) then frame 0 st else [])
       (start_loop (Z.to_nat (_steps st)) 0 st).

(** The random source is the standard library's: an engine type, its
    seeding from [std::random_device], and one draw of
    [uniform_int_distribution<>(0, 1)].  [new bool[col]] leaves the cells
    of a fresh row indeterminate: [raw i j] stands for what cell [(i, j)]
    happens to hold. *)
Section RandomSource.
Variable rng : Type.
Variable rng_seed : Z → rng.
Variable bit : rng → Z * rng.

Definition alloc (row col : Z) (raw : nat → nat → bool) : list (list bool) :=
  (λ i, (λ j, raw i j) <$> seq 0 (Z.to_nat col)) <$> seq 0 (Z.to_nat row).

(** The two nested loops that randomise the board. *)
Definition randomize (row col : Z) (g : list (list bool)) (r : rng)
  : list (list bool) * rng :=
  foldl (λ acc i,
      foldl (λ acc j,
          let '(g, r) := acc in
          let '(b, r) := bit r in
          (alter (<[Z.to_nat j := (b =? 1)]>) (Z.to_nat i) g, r))
        acc (seqZ 0 col))
    (g, r) (seqZ 0 row).

(** [void initBoard(...)] on a freshly constructed engine; [None] is the
    [std::invalid_argument] it throws, [entropy] what [rd()] returns. *)
Definition initBoard (row col steps : Z) (finalOnly detectCycle : bool)
    (entropy : Z) (raw1 raw2 : nat → nat → bool) : option state :=
  if (row <=? 0) || (col <=? 0) || (steps <=? 0) then None
  else
    let cell := alloc row col raw1 in
    let nextCycle := alloc row col raw2 in
    let '(cell, _) := randomize row col cell (rng_seed entropy) in
    Some (mkState row col steps finalOnly detectCycle cell nextCycle
                  neighborOffset ∅).
End RandomSource.

(** [void display()]: what it sends to [std::cout]. *)
Definition display (st : state) : list ascii :=
  let cout :=
    foldl (λ cout i,
        let cout :=
          foldl (λ cout j,
                   cout ++ [if at_ (_cell st) i j then "o"%char else "."%char])
                cout (seqZ 0 (_col st)) in
        cout ++ [newline])
      [] (seqZ 0 (_row st)) in
  cout ++ [newline].

(** [struct Option], and the values its constructor sets. *)
Record Option : Type := mkOption {
  steps : Z;
  rows : Z;
  cols : Z;
  final_only : bool;
  detect_cycle : bool
}.

Definition Option_new : Option := mkOption (-1) (-1) (-1) false false.

(** [getopt_long] and [atoi] are the C library's: [args] lists what the
    successive calls of [getopt_long] return before [-1], each the option
    character with [optarg]; [atoi] is left as it is. *)
Section CommandLine.
Variable atoi : string → Z.
Variable rng : Type.
Variable rng_seed : Z → rng.
Variable bit : rng → Z * rng.

(** [void get(int argc, char *argv[])] of [Option]: the new value of the
    structure and the lines sent to [std::cerr]. *)
Definition get (argc : Z) (args : list (Z * string)) (o : Option)
  : Option * list string :=
  if 1 <? argc then
    foldl (λ acc a,
        let '(o, cerr) := acc in
        let '(c, optarg) := a in
        if c =? chr "s" then
          let steps := atoi optarg in
          (mkOption steps (rows o) (cols o) (final_only o) (detect_cycle o),
           if steps <=? 0 then cerr ++ ["Steps <= 0"%string] else cerr)
        else if c =? chr "r" then
          let rows := atoi optarg in
          (mkOption (steps o) rows (cols o) (final_only o) (detect_cycle o),
           if rows <=? 0 then cerr ++ ["Rows <= 0"%string] else cerr)
        else if c =? chr "c" then
          let cols := atoi optarg in
          (mkOption (steps o) (rows o) cols (final_only o) (detect_cycle o),
           if cols <=? 0 then cerr ++ ["Cols <= 0"%string] else cerr)
        else if c =? chr "f" then
          (mkOption (steps o) (rows o) (cols o) true (detect_cycle o), cerr)
        else if c =? chr "d" then
          (mkOption (steps o) (rows o) (cols o) (final_only o) true, cerr)
        else (o, cerr ++ ["Unknown option"%string]))
      (o, []) args
  else (o, []).

(** [int main(int argc, char *argv[])]: the lines sent to [std::cerr], the
    options that [print] shows, and the run.  No run is the
    [std::invalid_argument] of [initBoard], which nothing catches. *)
Definition main (argc : Z) (args : list (Z * string)) (entropy : Z)
    (raw1 raw2 : nat → nat → bool)
  : list string * Option * option (result state (list (list bool))) :=
  let '(option, cerr) := get argc args Option_new in
  (cerr, option,
   start <$> initBoard rng rng_seed bit
               (rows option) (cols option) (steps option)
               (final_only option) (detect_cycle option)
               entropy raw1 raw2).
End CommandLine.

End V1.

(** ** Variant 2: flat [uint8_t] buffers and neighbour index tables *)
Module V2.

Record Options : Type := mkOptions {
  steps : Z;
  rows : Z;
  cols : Z;
  finalOnly : bool;
  detectCycle : bool;
  hasSeed : bool;
  seed : Z
}.

Record state : Type := mkState {
  _row : Z;
  _col : Z;
  _finalOnly : bool;
  _detectCycle : bool;
  _expectedSteps : Z;
  _grid : list Z;
  _next : list Z;
  _prevR : list Z;
  _nextR : list Z;
  _prevC : list Z;
  _nextC : list Z;
  _baseHash : Z;
  _history : gset Z
}.

Definition set_history (h : gset Z) (st : state) : state :=
  mkState (_row st) (_col st) (_finalOnly st) (_detectCycle st)
          (_expectedSteps st) (_grid st) (_next st)
          (_prevR st) (_nextR st) (_prevC st) (_nextC st)
          (_baseHash st) h.

Definition set_buffers (g n : list Z) (st : state) : state :=
  mkState (_row st) (_col st) (_finalOnly st) (_detectCycle st)
          (_expectedSteps st) g n
          (_prevR st) (_nextR st) (_prevC st) (_nextC st)
          (_baseHash st) (_history st).

(** Reading a [std::vector<int>] or [std::vector<uint8_t>] at [idx]. *)
Definition at_ (l : list Z) (idx : Z) : Z :=
  default 0 (l !! Z.to_nat idx).

Definition u8 (x : Z) : Z := x mod 256.

(** The two table-filling loops of [init]; [%] is C++'s truncating
    remainder.  The sums are [int]s in the source: [i + n - 1] is in range
    for the sizes [n ≤ 2^30]. *)
Definition prev_table (n : Z) : list Z :=
  foldl (λ t i, <[Z.to_nat i := Z.rem (i + n - 1) n]> t)
        (replicate (Z.to_nat n) 0) (seqZ 0 n).

Definition next_table (n : Z) : list Z :=
  foldl (λ t i, <[Z.to_nat i := Z.rem (i + 1) n]> t)
        (replicate (Z.to_nat n) 0) (seqZ 0 n).

(** The pass of [step] over all cells, before the swap: [g] is read,
    [n] is written. *)
Definition step_pass (st : state) : list Z :=
  let g := _grid st in
  let rows := _row st in
  let cols := _col st in
  foldl (λ n i,
      let i0 := at_ (_prevR st) i in
      let i1 := i in
      let i2 := at_ (_nextR st) i in
      let base0 := i0 * cols in
      let base1 := i1 * cols in
      let base2 := i2 * cols in
      foldl (λ n j,
          let j0 := at_ (_prevC st) j in
          let j1 := j in
          let j2 := at_ (_nextC st) j in
          let count := 0 in
          let count := count + at_ g (base0 + j0) in
          let count := count + at_ g (base0 + j1) in
          let count := count + at_ g (base0 + j2) in
          let count := count + at_ g (base1 + j0) in
          let count := count + at_ g (base1 + j2) in
          let count := count + at_ g (base2 + j0) in
          let count := count + at_ g (base2 + j1) in
          let count := count + at_ g (base2 + j2) in
          let alive := at_ g (base1 + j1) in
          <[Z.to_nat (base1 + j1) :=
              Z.b2z ((count =? 3) || (negb (alive =? 0) && (count =? 2)))]> n)
        n (seqZ 0 cols))
    (_next st) (seqZ 0 rows).

(** [void step()]: the pass, then [_grid.swap(_next)]. *)
Definition step (st : state) : state :=
  set_buffers (step_pass st) (_grid st) st.

(** [size_t hashState() const] *)
Definition hashState (st : state) : Z :=
  hash_flush
    (foldl (λ acc c, hash_cell acc (negb (c =? 0)))
           (_baseHash st, 0, 0) (_grid st)).

Definition frame (n : Z) (st : state) : list (line (list Z)) :=
  [Header n; Board (_grid st)].

(** The [for (int t = 1; t <= steps; ++t)] loop of [run], with [n]
    iterations left and the counter at [t].  The counter ends at
    [steps + 1], an [int] for [steps < INT_MAX]. *)
Fixpoint run_loop (n : nat) (t : Z) (steps : Z) (printFinalOnly : bool)
    (st : state) : result state (list Z) :=
  match n with
  | O =>
    mkResult (if printFinalOnly
              then [FinalHeader steps; Board (_grid st)] else [])
             st Completed (t - 1)
  | S n' =>
    let st := step st in
    let s := hashState st in
    if _detectCycle st && bool_decide (s ∈ _history st) then
      mkResult (CycleNotice (Some t)
                :: (if printFinalOnly then [Board (_grid st)] else []))
               st StoppedByCycle t
    else
      let st := if _detectCycle st
                then set_history ({[s]} ∪ _history st) st else st in
      emit (if negb printFinalOnly then frame t st else [])
           (run_loop n' (t + 1) steps printFinalOnly st)
  end.

(** [void run(int steps, bool printFinalOnly)] *)
Definition run (st : state) (steps : Z) (printFinalOnly : bool)
  : result state (list Z) :=
  let out0 := if negb printFinalOnly then frame 0 st else [] in
  let st := if _detectCycle st
            then set_history ({[hashState st]} ∪ _history st) st else st in
  emit out0 (run_loop (Z.to_nat steps) 1 steps printFinalOnly st).

(** The random source is the standard library's: an engine type, its
    seeding, and one draw of [uniform_int_distribution<int>(0, 1)]. *)
Section RandomSource.
Variable rng : Type.
Variable rng_seed : Z → rng.
Variable bit : rng → Z * rng.

(** [for (size_t i = 0; i < N; ++i) _grid[i] = (uint8_t) bit(rng);] *)
Definition randomize (N : Z) (g : list Z) (r : rng) : list Z * rng :=
  foldl (λ acc i,
           let '(g, r) := acc in
           let '(b, r) := bit r in
           (<[Z.to_nat i := u8 b]> g, r))
        (g, r) (seqZ 0 N).

(** [void init(...)] on the engine [main] has just constructed, whose
    visited set is empty; [_expectedSteps] was set by [setExpectedSteps]
    and only sizes a [reserve]. *)
Definition init (expectedSteps rows cols : Z) (finalOnly detectCycle : bool)
    (r : rng) : state * rng :=
  let N := rows * cols in
  let '(grid, r) := randomize N (replicate (Z.to_nat N) 0) r in
  let baseHash := hash_seed in
  let baseHash := hash_combine baseHash (u64 rows) in
  let baseHash := hash_combine baseHash (u64 cols) in
  (mkState rows cols finalOnly detectCycle expectedSteps
           grid (replicate (Z.to_nat N) 0)
           (prev_table rows) (next_table rows)
           (prev_table cols) (next_table cols)
           baseHash ∅, r).

(** [main], from the parsed options on; [entropy] is what
    [std::random_device] returns when no seed was given.  [None] is the
    exit with failure of [parse_options] on invalid sizes. *)
Definition main (opt : Options) (entropy : Z)
  : option (result state (list Z)) :=
  if (steps opt <? 0) || (rows opt <=? 0) || (cols opt <=? 0) then None
  else
    let r := if hasSeed opt then rng_seed (seed opt) else rng_seed entropy in
    let '(gol, _) := init (steps opt) (rows opt) (cols opt)
                          (finalOnly opt) (detectCycle opt) r in
    Some (run gol (steps opt) (finalOnly opt)).
End RandomSource.

(** [void display() const]: every row is built in [line] and sent to
    [std::cout] with a newline. *)
Definition display (st : state) : list ascii :=
  let g := _grid st in
  let cout :=
    foldl (λ cout i,
        let base := i * _col st in
        let line :=
          foldl (λ line j,
                   line ++ [if negb (at_ g (base + j) =? 0)
                            then "o"%char else "."%char])
                [] (seqZ 0 (_col st)) in
        cout ++ line ++ [newline])
      [] (seqZ 0 (_row st)) in
  cout ++ [newline].

(** The values of a default-constructed [Options]. *)
Definition Options_new : Options := mkOptions (-1) (-1) (-1) false false false 0.

(** [static void print_usage(const char* prog)]: the line sent to
    [std::cerr]. *)
Definition print_usage (prog : string) : string :=
  ("Usage: " +:+ prog
   +:+ " -s <steps> -r <rows> -c <cols> [-f] [-d] [--seed N]")%string.

(** [getopt_long], [atoi] and [strtoull] are the C library's: [args] lists
    what the successive calls of [getopt_long] return before [-1], each the
    option character (1 for [--seed]) with [optarg]. *)
Section CommandLine.
Variable atoi : string → Z.
Variable strtoull : string → Z.
Variable rng : Type.
Variable rng_seed : Z → rng.
Variable bit : rng → Z * rng.

(** The [while] loop of [parse_options]; [None] is the exit with failure
    of its [default] branch. *)
Fixpoint parse_loop (args : list (Z * string)) (opt : Options)
  : option Options :=
  match args with
  | [] => Some opt
  | (c, optarg) :: args' =>
    if c =? chr "s" then
      parse_loop args'
        (mkOptions (atoi optarg) (rows opt) (cols opt) (finalOnly opt)
                   (detectCycle opt) (hasSeed opt) (seed opt))
    else if c =? chr "r" then
      parse_loop args'
        (mkOptions (steps opt) (atoi optarg) (cols opt) (finalOnly opt)
                   (detectCycle opt) (hasSeed opt) (seed opt))
    else if c =? chr "c" then
      parse_loop args'
        (mkOptions (steps opt) (rows opt) (atoi optarg) (finalOnly opt)
                   (detectCycle opt) (hasSeed opt) (seed opt))
    else if c =? chr "f" then
      parse_loop args'
        (mkOptions (steps opt) (rows opt) (cols opt) true
                   (detectCycle opt) (hasSeed opt) (seed opt))
    else if c =? chr "d" then
      parse_loop args'
        (mkOptions (steps opt) (rows opt) (cols opt) (finalOnly opt)
                   true (hasSeed opt) (seed opt))
    else if c =? 1 then
      parse_loop args'
        (mkOptions (steps opt) (rows opt) (cols opt) (finalOnly opt)
                   (detectCycle opt) true (u64 (strtoull optarg)))
    else None
  end.

(** [static Options parse_options(int argc, char** argv)]: the options,
    or the lines sent to [std::cerr] before [std::exit(EXIT_FAILURE)]. *)
Definition parse_options (prog : string) (args : list (Z * string))
  : Options + list string :=
  match parse_loop args Options_new with
  | None => inr [print_usage prog]
  | Some opt =>
    if (steps opt <? 0) || (rows opt <=? 0) || (cols opt <=? 0)
    then inr [print_usage prog;
              "Error: steps must be >= 0, rows/cols must be > 0."%string]
    else inl opt
  end.

(** [int main(int argc, char** argv)] from the command line on: the exit
    status, the lines sent to [std::cerr] and the run. *)
Definition main_args (prog : string) (args : list (Z * string)) (entropy : Z)
  : Z * list string * option (result state (list Z)) :=
  match parse_options prog args with
  | inr cerr => (1, cerr, None)
  | inl opt => (0, [], main rng rng_seed bit opt entropy)
  end.
End CommandLine.

End V2.

(** ** Variant 3: flat [vector<bool>] buffers *)
Module V3.

Record state : Type := mkState {
  _row : Z;
  _col : Z;
  _steps : Z;
  _finalOnly : bool;
  _detectCycle : bool;
  _cell : list bool;
  _nextCycle : list bool;
  _history : gset Z
}.

Definition set_nextCycle (n : list bool) (st : state) : state :=
  mkState (_row st) (_col st) (_steps st) (_finalOnly st) (_detectCycle st)
          (_cell st) n (_history st).

Definition set_history (h : gset Z) (st : state) : state :=
  mkState (_row st) (_col st) (_steps st) (_finalOnly st) (_detectCycle st)
          (_cell st) (_nextCycle st) h.

(** [_cell[idx]]; the code only reads indices inside the buffer. *)
Definition at_ (l : list bool) (idx : Z) : bool :=
  default false (l !! Z.to_nat idx).

(** [static const int dx[]], [dy[]]. *)
Definition dx : list Z := [-1; 0; 1; -1; 1; -1; 0; 1].
Definition dy : list Z := [-1; -1; -1; 0; 0; 1; 1; 1].

(** The inner loop over [d]: the number of live neighbours of [(i, j)]. *)
Definition count_at (st : state) (i j : Z) : Z :=
  foldl (λ count d,
           let ni := wrap (_row st) (i + d.1) in
           let nj := wrap (_col st) (j + d.2) in
           count + (if at_ (_cell st) (ni * _col st + nj) then 1 else 0))
        0 (zip dx dy).

(** [void step()]: fills [_nextCycle], leaves [_cell] alone. *)
Definition step (st : state) : state :=
  set_nextCycle
    (foldl (λ next i,
        foldl (λ next j,
            let count := count_at st i j in
            let idx := i * _col st + j in
            <[Z.to_nat idx := rule (at_ (_cell st) idx) count]> next)
          next (seqZ 0 (_col st)))
      (_nextCycle st) (seqZ 0 (_row st)))
    st.

(** [void update()]: [_cell.swap(_nextCycle)]. *)
Definition update (st : state) : state :=
  mkState (_row st) (_col st) (_steps st) (_finalOnly st) (_detectCycle st)
          (_nextCycle st) (_cell st) (_history st).

(** [bool isEmptyBoard() const] *)
Fixpoint no_live (l : list bool) : bool :=
  match l with
  | [] => true
  | cell :: l' => if cell then false else no_live l'
  end.

Definition isEmptyBoard (st : state) : bool := no_live (_cell st).

(** [size_t hashState() const] *)
Definition hashState (st : state) : Z :=
  let h := hash_seed in
  let h := hash_combine h (u64 (_row st)) in
  let h := hash_combine h (u64 (_col st)) in
  hash_flush (foldl hash_cell (h, 0, 0) (_cell st)).

(** One frame: "Cycle: n" followed by [display()]. *)
Definition frame (n : Z) (st : state) : list (line (list bool)) :=
  [Header n; Board (_cell st)].

(** The [for (int i = 0; i < _steps; i++)] loop of [start], with [n]
    iterations left and the counter at [i].  The flags [boardStatic] and
    [boardEmpty] of the code are set only on the way to a [break]: where
    [boardStatic] is tested it is still [false], and the flags are left
    out. *)
Fixpoint start_loop (n : nat) (i : Z) (st : state) : result state (list bool) :=
  match n with
  | O => mkResult [] st Completed i
  | S n' =>
    let hash := hashState st in
    if _detectCycle st && bool_decide (hash ∈ _history st) then
      mkResult [CycleNotice (Some i)] st StoppedByCycle i
    else
      let st := if _detectCycle st
                then set_history ({[hash]} ∪ _history st) st else st in
      let prevHash := hashState st in
      let st := update (step st) in
      let currHash := hashState st in
      if negb (_detectCycle st) && (prevHash =? currHash) then
        mkResult (StaticNotice (i + 1)
                  :: (if _finalOnly st then frame (i + 1) st else []))
                 st StoppedStatic (i + 1)
      else if (currHash =? 0) || isEmptyBoard st then
        mkResult (EmptyNotice (i + 1)
                  :: (if _finalOnly st then frame (i + 1) st else []))
                 st StoppedEmpty (i + 1)
      else
        emit (if negb (_finalOnly st) || (i =? _steps st - 1)
              then frame (i + 1) st else [])
             (start_loop n' (i + 1) st)
  end.

(** [void start()] *)
Definition start (st : state) : result state (list bool) :=
  emit (if negb (_finalOnly st) then frame 0 st else [])
       (start_loop (Z.to_nat (_steps st)) 0 st).

(** What [initBoard] throws: its own [std::invalid_argument] with its
    message, or the exception of the standard library when
    [std::vector<bool>::resize] or [std::unordered_set::reserve] is asked
    for more elements than a container can hold.  All of them derive from
    [std::exception]. *)
Inductive exception : Type :=
| invalid_argument (msg : string)
| resize_error
| reserve_error.

(** The random source, as in variant 1. *)
Section RandomSource.
Variable rng : Type.
Variable rng_seed : Z → rng.
Variable bit : rng → Z * rng.

(** [for (size_t i = 0; i < _cell.size(); i++) _cell[i] = ...] *)
Definition randomize (cell : list bool) (r : rng) : list bool * rng :=
  foldl (λ acc i,
           let '(c, r) := acc in
           let '(b, r) := bit r in
           (<[Z.to_nat i := (b =? 1)]> c, r))
        (cell, r) (seqZ 0 (Z.of_nat (length cell))).

(** [void initBoard(...)] on a freshly constructed engine; [inl] is what it
    throws, [entropy] what [rd()] returns.  The sizes passed to [resize]
    and [reserve] are [int] expressions, [_row * _col] and
    [std::min(10000, _steps + 100)], converted to [size_t]: a negative one
    asks for more than [2^63] elements and the container throws.  Else
    [resize] fills the two empty vectors with dead cells. *)
Definition initBoard (row col steps : Z) (finalOnly detectCycle : bool)
    (entropy : Z) : exception + state :=
  if (row <=? 0) || (col <=? 0) || (steps <=? 0)
  then inl (invalid_argument "Row, col, and steps must be positive")
  else
    let n := int_of (row * col) in
    if n <? 0 then inl resize_error
    else
      let cell := replicate (Z.to_nat n) false in
      let nextCycle := replicate (Z.to_nat n) false in
      let '(cell, _) := randomize cell (rng_seed entropy) in
      if detectCycle && (Z.min 10000 (int_of (steps + 100)) <? 0)
      then inl reserve_error
      else
        inr (mkState row col steps finalOnly detectCycle cell nextCycle ∅).
End RandomSource.

(** [void display() const]: what it sends to [std::cout]. *)
Definition display (st : state) : list ascii :=
  let cout :=
    foldl (λ cout i,
        let cout :=
          foldl (λ cout j,
                   cout ++ [if at_ (_cell st) (i * _col st + j)
                            then "o"%char else "."%char])
                cout (seqZ 0 (_col st)) in
        cout ++ [newline])
      [] (seqZ 0 (_row st)) in
  cout ++ [newline].

(** [struct Option], and the values its constructor sets. *)
Record Option : Type := mkOption {
  steps : Z;
  rows : Z;
  cols : Z;
  final_only : bool;
  detect_cycle : bool
}.

Definition Option_new : Option := mkOption 100 20 20 false false.

(** [getopt_long] and [atoi] are the C library's, as in variant 1, and so
    is the text that [what()] returns for an exception of the library. *)
Section CommandLine.
Variable atoi : string → Z.
Variable rng : Type.
Variable rng_seed : Z → rng.
Variable bit : rng → Z * rng.
Variable library_what : exception → string.

(** [e.what()] *)
Definition what (e : exception) : string :=
  match e with
  | invalid_argument msg => msg
  | _ => library_what e
  end.

(** The [while] loop of [get], which returns at the first option it
    rejects: whether it succeeded, the structure as it is then, and the
    line sent to [std::cerr]. *)
Fixpoint get_loop (args : list (Z * string)) (o : Option)
  : bool * Option * list string :=
  match args with
  | [] => (true, o, [])
  | (c, optarg) :: args' =>
    if c =? chr "s" then
      let o := mkOption (atoi optarg) (rows o) (cols o)
                        (final_only o) (detect_cycle o) in
      if steps o <=? 0 then (false, o, ["Error: Steps must be > 0"%string])
      else get_loop args' o
    else if c =? chr "r" then
      let o := mkOption (steps o) (atoi optarg) (cols o)
                        (final_only o) (detect_cycle o) in
      if rows o <=? 0 then (false, o, ["Error: Rows must be > 0"%string])
      else get_loop args' o
    else if c =? chr "c" then
      let o := mkOption (steps o) (rows o) (atoi optarg)
                        (final_only o) (detect_cycle o) in
      if cols o <=? 0 then (false, o, ["Error: Cols must be > 0"%string])
      else get_loop args' o
    else if c =? chr "f" then
      get_loop args'
        (mkOption (steps o) (rows o) (cols o) true (detect_cycle o))
    else if c =? chr "d" then
      get_loop args'
        (mkOption (steps o) (rows o) (cols o) (final_only o) true)
    else (false, o, ["Unknown option"%string])
  end.

(** [bool get(int argc, char *argv[])] of [Option]. *)
Definition get (argc : Z) (args : list (Z * string)) (o : Option)
  : bool * Option * list string :=
  if 1 <? argc then get_loop args o else (true, o, []).

(** [int main(int argc, char *argv[])]: the exit status, the lines sent to
    [std::cerr], the options that [print] shows if it is reached, and the
    run if there is one. *)
Definition main (argc : Z) (args : list (Z * string)) (entropy : Z)
  : Z * list string * option Option * option (result state (list bool)) :=
  let '(ok, option, cerr) := get argc args Option_new in
  if negb ok then (1, cerr, None, None)
  else
    match initBoard rng rng_seed bit
            (rows option) (cols option) (steps option)
            (final_only option) (detect_cycle option) entropy with
    | inr gol => (0, cerr, Some option, Some (start gol))
    | inl e =>
      (1, cerr ++ [String.append "Error: " (what e)], Some option, None)
    end.
End CommandLine.

End V3.

(** * Definitions used by the statements *)

(** ** The transition rule in the words of the specification

    The eight toroidal neighbours of [(i, j)] are listed with the
    predecessor and successor indices [(i - 1 + n) mod n] and
    [(i + 1) mod n]; a cell is alive in the next generation iff three of
    them are alive, or it is alive and two of them are. *)
Definition prevIdx (n i : Z) : Z := (i - 1 + n) mod n.
Definition nextIdx (n i : Z) : Z := (i + 1) mod n.

Definition neighbours (rows cols i j : Z) : list (Z * Z) :=
  [ (prevIdx rows i, prevIdx cols j); (prevIdx rows i, j);
    (prevIdx rows i, nextIdx cols j);
    (i, prevIdx cols j); (i, nextIdx cols j);
    (nextIdx rows i, prevIdx cols j); (nextIdx rows i, j);
    (nextIdx rows i, nextIdx cols j) ].

Definition live_neighbours (alive : Z → Z → bool) (rows cols i j : Z) : Z :=
  Z.of_nat (length (filter (λ p, alive p.1 p.2 = true)
                           (neighbours rows cols i j))).

Definition next_alive (alive : Z → Z → bool) (rows cols i j : Z) : Prop :=
  live_neighbours alive rows cols i j = 3
  ∨ (alive i j = true ∧ live_neighbours alive rows cols i j = 2).

(** The same count as a sum, one term per neighbour. *)
Definition tally (alive : Z → Z → bool) (ps : list (Z * Z)) : Z :=
  foldr (λ p acc, (if alive p.1 p.2 then 1 else 0) + acc) 0 ps.

(** A cell of variant 2 counts as alive when its byte is not zero. *)
Definition V2_alive (g : list Z) (cols : Z) (i j : Z) : bool :=
  negb (V2.at_ g (i * cols + j) =? 0).

(** The eight additions of variant 2's [step], in the order of the code. *)
Definition V2_count (st : V2.state) (i j : Z) : Z :=
  let g := V2._grid st in
  let cols := V2._col st in
  let i0 := V2.at_ (V2._prevR st) i in
  let i2 := V2.at_ (V2._nextR st) i in
  let j0 := V2.at_ (V2._prevC st) j in
  let j2 := V2.at_ (V2._nextC st) j in
  0 + V2.at_ g (i0 * cols + j0) + V2.at_ g (i0 * cols + j)
    + V2.at_ g (i0 * cols + j2) + V2.at_ g (i * cols + j0)
    + V2.at_ g (i * cols + j2) + V2.at_ g (i2 * cols + j0)
    + V2.at_ g (i2 * cols + j) + V2.at_ g (i2 * cols + j2).

(** ** The fingerprint in the words of the specification

    The cells are cut into groups of 64 in row-major order; a group is
    packed into a word whose bit [k] is the group's cell [k]; the words are
    combined in order into the seed already combined with [rows] and then
    [cols]. *)
Fixpoint pack (cells : list bool) : Z :=
  match cells with
  | [] => 0
  | c :: cs => Z.lor (Z.b2z c) (Z.shiftl (pack cs) 1)
  end.

Fixpoint chunks (fuel : nat) (l : list bool) : list (list bool) :=
  match fuel with
  | O => []
  | S fuel' =>
    match l with
    | [] => []
    | _ :: _ => take 64%nat l :: chunks fuel' (drop 64%nat l)
    end
  end.

Definition words (cells : list bool) : list Z :=
  pack <$> chunks (length cells) cells.

Definition fingerprint (rows cols : Z) (cells : list bool) : Z :=
  foldl hash_combine
        (hash_combine (hash_combine hash_seed rows) cols)
        (words cells).

(** ** Invariants of the engines *)

(** A grid of [rows] row arrays of [cols] cells each, as [initBoard]
    allocates them. *)
Definition grid_shape {A : Type} (rows cols : Z) (g : list (list A)) : Prop :=
  length g = Z.to_nat rows ∧ Forall (λ r, length r = Z.to_nat cols) g.

(** What [initBoard] establishes in variants 1 and 3, and what [init]
    establishes in variant 2; all three are kept by [step]. *)
Record V1_wf (st : V1.state) : Prop := mkV1_wf {
  V1_wf_rows : 0 < V1._row st;
  V1_wf_cols : 0 < V1._col st;
  V1_wf_cell : grid_shape (V1._row st) (V1._col st) (V1._cell st);
  V1_wf_next : grid_shape (V1._row st) (V1._col st) (V1._nextCycle st);
  V1_wf_offsets : V1._neighborOffset st = V1.neighborOffset
}.

Record V2_wf (st : V2.state) : Prop := mkV2_wf {
  V2_wf_rows : 0 < V2._row st;
  V2_wf_cols : 0 < V2._col st;
  V2_wf_grid : length (V2._grid st) = Z.to_nat (V2._row st * V2._col st);
  V2_wf_next : length (V2._next st) = Z.to_nat (V2._row st * V2._col st);
  V2_wf_bits : Forall (λ c, c = 0 ∨ c = 1) (V2._grid st);
  V2_wf_prevR : V2._prevR st = V2.prev_table (V2._row st);
  V2_wf_nextR : V2._nextR st = V2.next_table (V2._row st);
  V2_wf_prevC : V2._prevC st = V2.prev_table (V2._col st);
  V2_wf_nextC : V2._nextC st = V2.next_table (V2._col st)
}.

Record V3_wf (st : V3.state) : Prop := mkV3_wf {
  V3_wf_rows : 0 < V3._row st;
  V3_wf_cols : 0 < V3._col st;
  V3_wf_cell : length (V3._cell st) = Z.to_nat (V3._row st * V3._col st);
  V3_wf_next : length (V3._nextCycle st) = Z.to_nat (V3._row st * V3._col st)
}.

(** Two engines of variant 1 showing the same board. *)
Definition V1_same_board (st st' : V1.state) : Prop :=
  V1_wf st ∧ V1_wf st'
  ∧ V1._row st = V1._row st' ∧ V1._col st = V1._col st'
  ∧ V1._cell st = V1._cell st'.

(** Two engines of variant 1 that differ at most in the contents of the
    next buffer. *)
Definition V1_same_run (st st' : V1.state) : Prop :=
  V1_same_board st st'
  ∧ V1._steps st = V1._steps st'
  ∧ V1._finalOnly st = V1._finalOnly st'
  ∧ V1._detectCycle st = V1._detectCycle st'
  ∧ V1._history st = V1._history st'.

(** ** Loops that write a buffer *)

(** The iterations [(i, j)] of two nested loops, in order. *)
Definition pairs (rs cs : list Z) : list (Z * Z) :=
  rs ≫= λ i, pair i <$> cs.

(** A loop that writes [v k] at index [g k] of a buffer, for every [k] of
    a list of iterations. *)
Definition writes {A K : Type} (g : K → nat) (v : K → A)
    (l : list A) (ks : list K) : list A :=
  foldl (λ acc k, <[g k := v k]> acc) l ks.

(** The same for an array of rows: [v k] goes to column [c k] of row
    [r k]. *)
Definition lookup2 {A : Type} (l : list (list A)) (a b : nat) : option A :=
  l !! a ≫= (.!! b).

Definition writes2 {A K : Type} (r c : K → nat) (v : K → A)
    (l : list (list A)) (ks : list K) : list (list A) :=
  foldl (λ acc k, alter (<[c k := v k]>) (r k) acc) l ks.

(** ** Generations of a run *)

(** One transition: [step(); update();] in variants 1 and 3; variant 2's
    [step] swaps the buffers itself. *)
Definition V1_next (st : V1.state) : V1.state := V1.update (V1.step st).
Definition V3_next (st : V3.state) : V3.state := V3.update (V3.step st).

(** The engine after [k] transitions. *)
Definition V1_gen (k : nat) (st : V1.state) : V1.state :=
  Nat.iter k V1_next st.

Definition V2_gen (k : nat) (st : V2.state) : V2.state :=
  Nat.iter k V2.step st.

Definition V3_gen (k : nat) (st : V3.state) : V3.state :=
  Nat.iter k V3_next st.

(** The engine once the fingerprint of its board has been inserted in the
    visited set, which is done only with cycle detection. *)
Definition V1_noted (st : V1.state) : V1.state :=
  if V1._detectCycle st
  then V1.set_history ({[V1.hashState st]} ∪ V1._history st) st else st.

Definition V2_noted (st : V2.state) : V2.state :=
  if V2._detectCycle st
  then V2.set_history ({[V2.hashState st]} ∪ V2._history st) st else st.

Definition V3_noted (st : V3.state) : V3.state :=
  if V3._detectCycle st
  then V3.set_history ({[V3.hashState st]} ∪ V3._history st) st else st.

(** The fingerprints of the boards of generations [0 .. t-1]. *)
Fixpoint V1_fps (t : nat) (st : V1.state) : list Z :=
  match t with
  | O => []
  | S t' => V1.hashState st :: V1_fps t' (V1_next st)
  end.

(** The fingerprints of the boards of generations [1 .. t]. *)
Fixpoint V2_fps (t : nat) (st : V2.state) : list Z :=
  match t with
  | O => []
  | S t' => V2.hashState (V2.step st) :: V2_fps t' (V2.step st)
  end.

(** The frames of the [m] generations that follow generation [i], each
    labelled with its number. *)
Fixpoint V2_frames (i : Z) (m : nat) (st : V2.state)
  : list (option Z * list Z) :=
  match m with
  | O => []
  | S m' =>
    (Some (i + 1), V2._grid (V2.step st)) :: V2_frames (i + 1) m' (V2.step st)
  end.

Fixpoint V3_frames (i : Z) (m : nat) (st : V3.state)
  : list (option Z * list bool) :=
  match m with
  | O => []
  | S m' =>
    (Some (i + 1), V3._cell (V3_next st)) :: V3_frames (i + 1) m' (V3_next st)
  end.

(** The last generation that was reached without ending the run: a
    transition that triggers a stop is made but, outside final-only mode,
    its board is not shown. *)
Definition V2_rendered (r : result V2.state (list Z)) : Z :=
  match stop r with
  | StoppedByCycle => generation r - 1
  | _ => generation r
  end.

Definition V3_rendered (r : result V3.state (list bool)) : Z :=
  match stop r with
  | StoppedStatic | StoppedEmpty => generation r - 1
  | _ => generation r
  end.

(** The test of the empty-board branch of variant 3's [start]. *)
Definition V3_empty_check (st : V3.state) : bool :=
  (V3.hashState st =? 0) || V3.isEmptyBoard st.

(** The engine that variant 2's [main] runs: the one [init] builds from the
    options and the random source that [main] seeded. *)
Definition V2_engine (rng : Type) (rng_seed : Z → rng) (bit : rng → Z * rng)
    (opt : V2.Options) (entropy : Z) : V2.state :=
  (V2.init rng bit (V2.steps opt) (V2.rows opt) (V2.cols opt)
           (V2.finalOnly opt) (V2.detectCycle opt)
           (if V2.hasSeed opt then rng_seed (V2.seed opt)
            else rng_seed entropy)).1.

(** ** Boards and engines to run *)

(** The all-dead board. *)
Definition dead (rows cols : Z) : list bool :=
  replicate (Z.to_nat (rows * cols)) false.

(** An engine of variant 3 holding the board [cells], with an empty
    visited set. *)
Definition V3_board (rows cols steps : Z) (finalOnly detectCycle : bool)
    (cells next : list bool) : V3.state :=
  V3.mkState rows cols steps finalOnly detectCycle cells next ∅.

(** An engine of variant 2 as [init] leaves it, holding the board [grid]. *)
Definition V2_board (rows cols : Z) (finalOnly detectCycle : bool)
    (grid : list Z) : V2.state :=
  V2.mkState rows cols finalOnly detectCycle 0
             grid (replicate (Z.to_nat (rows * cols)) 0)
             (V2.prev_table rows) (V2.next_table rows)
             (V2.prev_table cols) (V2.next_table cols)
             (hash_combine (hash_combine hash_seed (u64 rows)) (u64 cols)) ∅.

(** An engine of variant 1 holding the flat content [cells] as a grid of
    [rows] rows of [cols] cells. *)
Definition reshape_rows (rows cols : nat) (cells : list bool)
  : list (list bool) :=
  (λ i, take cols (drop (i * cols) cells)) <$> seq 0 rows.

Definition V1_board (rows cols : Z) (cells : list bool) : V1.state :=
  let g := reshape_rows (Z.to_nat rows) (Z.to_nat cols) cells in
  V1.mkState rows cols 1 false false g g V1.neighborOffset ∅.

(** *** Avalanche

    The words [f (x ^ 2^i) ^ f x], for the inputs [x] of a sample: bit [j]
    of such a word is set when flipping bit [i] of [x] flips bit [j] of
    [f x]. *)
Definition flip_masks (f : Z → Z) (xs : list Z) (i : Z) : list Z :=
  (λ x, Z.lxor (f (Z.lxor x (2 ^ i))) (f x)) <$> xs.

(** The number of bits set in a 64-bit word. *)
Definition popcount (x : Z) : Z :=
  Z.of_nat (length (filter (λ b, b = true) (Z.testbit x <$> seqZ 0 64))).

(** On the sample [xs], every bit of the input of [f] reaches every bit of
    its output, and flipping one bit of an input flips from [lo] to [hi]
    bits of the output. *)
Definition avalanche (f : Z → Z) (xs : list Z) (lo hi : Z) : bool :=
  forallb (λ i,
      let ms := flip_masks f xs i in
      forallb (λ j, existsb (λ m, Z.testbit m j) ms) (seqZ 0 64)
      && forallb (λ m, (lo <=? popcount m) && (popcount m <=? hi)) ms)
    (seqZ 0 64).

(** *** Accumulators that no word brings together

    [hash_combine h k] is [h ^ (splitmix64 k + hash_offset h)] on 64 bits.
    For two accumulators [h] and [h'], [never_meet h h'] is a test on the
    bits of [h ^ h'] and of the difference of the two offsets which, when
    it succeeds, rules out that one and the same word brings [h] and [h']
    to the same value. *)
Definition hash_offset (h : Z) : Z :=
  0x9e3779b97f4a7c15 + u64 (Z.shiftl h 6) + Z.shiftr h 2.

Definition never_meet (h h' : Z) : bool :=
  let x := Z.lxor h h' in
  let e := u64 (x - hash_offset h + hash_offset h') in
  Z.odd e || negb (Z.ldiff (Z.shiftr e 1) x =? 0).

(** The accumulator once [rows] and [cols] are combined. *)
Definition base_hash (rows cols : Z) : Z :=
  hash_combine (hash_combine hash_seed (u64 rows)) (u64 cols).

(** The shapes with unequal sides of the boards of at most 64 cells. *)
Definition one_word_shapes : list (Z * Z) :=
  filter (λ p, p.1 ≠ p.2 ∧ p.1 * p.2 ≤ 64) (pairs (seqZ 1 64) (seqZ 1 64)).

(** Three cells in a line centred on [(r, c)] of the 6 × 6 torus, upright
    or lying. *)
Definition blinker (vertical : bool) (r c : Z) : list (list bool) :=
  (λ i,
     (λ j,
        if vertical
        then (j =? c)
             && ((i =? prevIdx 6 r) || (i =? r) || (i =? nextIdx 6 r))
        else (i =? r)
             && ((j =? prevIdx 6 c) || (j =? c) || (j =? nextIdx 6 c)))
     <$> seqZ 0 6)
  <$> seqZ 0 6.

(** An engine of variant 1 with cycle detection, holding a blinker; [next]
    is whatever the freshly allocated next buffer contains. *)
Definition V1_blinker_state (steps : Z) (finalOnly vertical : bool)
    (r c : Z) (next : list (list bool)) : V1.state :=
  V1.mkState 6 6 steps finalOnly true (blinker vertical r c) next
             V1.neighborOffset ∅.

(** What is checked of a board: three live cells, back to itself after two
    transitions and not after one, and likewise for its fingerprint. *)
Definition V1_period2_check (st : V1.state) : bool :=
  bool_decide (length (filter (λ c, c = true) (concat (V1._cell st)))
               = 3%nat)
  && bool_decide (V1._cell (V1_gen 2 st) = V1._cell st)
  && negb (bool_decide (V1._cell (V1_gen 1 st) = V1._cell st))
  && (V1.hashState (V1_gen 2 st) =? V1.hashState st)
  && negb (V1.hashState (V1_gen 1 st) =? V1.hashState st).

Definition blinker_check (vertical : bool) (p : Z * Z) : bool :=
  V1_period2_check
    (V1_blinker_state 3 false vertical p.1 p.2
                      (replicate 6 (replicate 6 false))).

(** A board of the 1 × 128 ring whose successor has 62 live cells and the
    fingerprint 0. *)
Definition zero_ring : list bool :=
  (λ d : Z, negb (d =? 0)) <$>
  [1;0;1;0;0;1;0;0;1;1;1;0;0;0;0;1;0;1;1;0;1;1;0;0;1;1;0;1;0;0;1;1;
   0;0;1;0;0;0;0;0;1;1;0;1;0;1;0;0;1;0;1;1;0;1;1;0;0;1;0;1;1;1;0;0;
   1;0;1;1;0;0;1;1;0;0;0;0;0;1;0;1;0;1;0;1;1;0;0;1;0;0;0;1;1;0;1;1;
   0;1;0;0;1;0;1;1;1;1;0;0;1;0;1;0;0;0;0;1;0;1;0;1;0;0;1;0;0;0;1;0].

(** A toy random source: the state is a number, a draw takes its lowest
    bit. *)
Definition toy_bit (r : Z) : Z * Z := (r mod 2, r / 2).

(** The upright blinker in the middle of the 6 × 6 torus, in an engine of
    each variant. *)
Definition ex_V1 (detectCycle : bool) : V1.state :=
  V1.mkState 6 6 5 false detectCycle (blinker true 2 2)
             (replicate 6 (replicate 6 false)) V1.neighborOffset ∅.

Definition ex_V2 (detectCycle : bool) : V2.state :=
  V2_board 6 6 false detectCycle (Z.b2z <$> concat (blinker true 2 2)).

Definition ex_V3 (detectCycle : bool) : V3.state :=
  V3_board 6 6 5 false detectCycle (concat (blinker true 2 2)) (dead 6 6).

(** ** Fingerprints of a run of variant 3 *)

(** The fingerprints of the boards of generations [0 .. t-1] (variant 3). *)
Fixpoint V3_fps (t : nat) (st : V3.state) : list Z :=
  match t with
  | O => []
  | S t' => V3.hashState st :: V3_fps t' (V3_next st)
  end.

(** ** The frames of variant 1 *)

(** The frames of the [m] generations that follow generation [i], each
    labelled with its number. *)
Fixpoint V1_frames (i : Z) (m : nat) (st : V1.state)
  : list (option Z * list (list bool)) :=
  match m with
  | O => []
  | S m' =>
    (Some (i + 1), V1._cell (V1_next st)) :: V1_frames (i + 1) m' (V1_next st)
  end.

(** ** A board as text *)

(** The character of a cell, a board of [rows] lines of [cols] characters
    followed by an empty line, and the cells read back from such a text. *)
Definition glyph (b : bool) : ascii := if b then "o"%char else "."%char.

Definition board_text (rows cols : Z) (alive : Z → Z → bool) : list ascii :=
  concat ((λ i, ((λ j, glyph (alive i j)) <$> seqZ 0 cols) ++ [newline])
          <$> seqZ 0 rows)
  ++ [newline].

Definition read_board (text : list ascii) : list bool :=
  (λ c, bool_decide (c = "o"%char)) <$> filter (λ c, c ≠ newline) text.

(** ** Draws of the random source *)

(** The first [n] draws of a source, and the source after them. *)
Fixpoint draws {rng : Type} (bit : rng → Z * rng) (n : nat) (r : rng)
  : list Z * rng :=
  match n with
  | O => ([], r)
  | S n' =>
    let '(b, r) := bit r in
    let '(bs, r) := draws bit n' r in
    (b :: bs, r)
  end.

(** ** The same board in the three variants *)

(** Three engines, one of each variant, holding the same board. *)
Record same_board (st1 : V1.state) (st2 : V2.state) (st3 : V3.state)
  : Prop := mkSame_board {
  same_wf1 : V1_wf st1;
  same_wf2 : V2_wf st2;
  same_wf3 : V3_wf st3;
  same_row1 : V1._row st1 = V3._row st3;
  same_col1 : V1._col st1 = V3._col st3;
  same_row2 : V2._row st2 = V3._row st3;
  same_col2 : V2._col st2 = V3._col st3;
  same_cell1 : concat (V1._cell st1) = V3._cell st3;
  same_cell2 : V2._grid st2 = Z.b2z <$> V3._cell st3;
  same_base : V2._baseHash st2
              = hash_combine (hash_combine hash_seed (u64 (V2._row st2)))
                             (u64 (V2._col st2))
}.

(** ** Command lines *)

(** Is the option [a] one that variant 3's [get] lets through: a size with
    a positive value, or a flag? *)
Definition V3_arg_ok (atoi : string → Z) (a : Z * string) : bool :=
  (((a.1 =? chr "s") || (a.1 =? chr "r") || (a.1 =? chr "c"))
   && (0 <? atoi a.2))
  || (a.1 =? chr "f") || (a.1 =? chr "d").

(** The line that variant 1's [get] writes to [std::cerr] for an option,
    if it writes one. *)
Definition V1_warning (atoi : string → Z) (a : Z * string) : option string :=
  if a.1 =? chr "s"
  then (if atoi a.2 <=? 0 then Some "Steps <= 0"%string else None)
  else if a.1 =? chr "r"
  then (if atoi a.2 <=? 0 then Some "Rows <= 0"%string else None)
  else if a.1 =? chr "c"
  then (if atoi a.2 <=? 0 then Some "Cols <= 0"%string else None)
  else if (a.1 =? chr "f") || (a.1 =? chr "d") then None
  else Some "Unknown option"%string.

(** Is the option one that variant 2's [parse_options] knows? *)
Definition V2_arg_known (a : Z * string) : bool :=
  (a.1 =? chr "s") || (a.1 =? chr "r") || (a.1 =? chr "c")
  || (a.1 =? chr "f") || (a.1 =? chr "d") || (a.1 =? 1).

(** The value of the last occurrence of option [c], [d] if there is
    none. *)
Definition last_value (conv : string → Z) (c : Z) (d : Z)
    (args : list (Z * string)) : Z :=
  foldl (λ v a, if a.1 =? c then conv a.2 else v) d args.

(** Is the flag [c] among the options? *)
Definition has_flag (c : Z) (args : list (Z * string)) : bool :=
  existsb (λ a, a.1 =? c) args.

(** ** Moving a board on the torus *)

(** The board whose cell [(i, j)] is the cell
    [((i + a) mod rows, (j + b) mod cols)] of [cells]. *)
Definition shift (rows cols a b : Z) (cells : list bool) : list bool :=
  (λ p, V3.at_ cells (((p `div` cols + a) `mod` rows) * cols
                      + (p `mod` cols + b) `mod` cols))
  <$> seqZ 0 (rows * cols).

(** ** A torus of one row *)

(** Exactly one of three cells is alive. *)
Definition exactly_one (a b c : bool) : bool :=
  (a && negb b && negb c) || (negb a && b && negb c)
  || (negb a && negb b && c).

(** ** More engines and command lines to run *)

(** A board of two cells, one of them alive, in an engine of each variant
    with cycle detection. *)
Definition pair_V1 : V1.state :=
  V1.mkState 1 2 5 false true [[true; false]] [[false; false]]
             V1.neighborOffset ∅.

Definition pair_V2 : V2.state := V2_board 1 2 false true [1; 0].

Definition pair_V3 : V3.state :=
  V3_board 1 2 5 false true [true; false] (dead 1 2).

(** A reader of decimal numerals, to stand for [atoi] and [strtoull] on
    the command lines that are run. *)
Fixpoint decimal_from (acc : Z) (s : string) : Z :=
  match s with
  | EmptyString => acc
  | String c s' =>
    decimal_from (10 * acc + (Z.of_nat (nat_of_ascii c) - 48)) s'
  end.

Definition decimal (s : string) : Z := decimal_from 0 s.

(** * Lemmas and theorems *)

(** ** The embedding on known values *)

(** The first output of the SplitMix64 generator seeded with 0. *)
Example splitmix64_zero : splitmix64 0 = 0xe220a8397b1dcdaf.
Proof. vm_compute. reflexivity. Qed.

(** A 2 × 2 block in a 4 × 4 grid is a still life, in the three variants. *)
Example block_still_V3 :
  let b := [ false; false; false; false;
             false; true;  true;  false;
             false; true;  true;  false;
             false; false; false; false ] in
  V3._cell (V3_next (V3_board 4 4 1 false false b (dead 4 4))) = b.
Proof. vm_compute. reflexivity. Qed.

Example block_still_V2 :
  let b := [ 0; 0; 0; 0;
             0; 1; 1; 0;
             0; 1; 1; 0;
             0; 0; 0; 0 ] in
  V2._grid (V2.step (V2_board 4 4 false false b)) = b.
Proof. vm_compute. reflexivity. Qed.

Example block_still_V1 :
  let b := [ [false; false; false; false];
             [false; true;  true;  false];
             [false; true;  true;  false];
             [false; false; false; false] ] in
  V1._cell (V1_next (V1.mkState 4 4 1 false false b
                                (replicate 4 (replicate 4 true))
                                V1.neighborOffset ∅)) = b.
Proof. vm_compute. reflexivity. Qed.

(** On a 2 × 2 torus every neighbour is counted with its multiplicity: a
    single live cell sees itself nowhere, and each other cell sees it
    twice or four times. *)
Example tiny_torus_counts :
  let st := V3_board 2 2 1 false false [true; false; false; false]
                     (dead 2 2) in
  (V3.count_at st 0 0, V3.count_at st 0 1,
   V3.count_at st 1 0, V3.count_at st 1 1) = (0, 2, 2, 4).
Proof. vm_compute. reflexivity. Qed.

(** ** Loops that write a buffer cell by cell *)

Lemma elem_of_pairs rs cs i j : (i, j) ∈ pairs rs cs ↔ i ∈ rs ∧ j ∈ cs.
Proof.
  unfold pairs. rewrite list_elem_of_bind. split.
  - intros (i' & Hin & Hi'). apply list_elem_of_fmap in Hin as (j' & Heq & Hj').
    by simplify_eq.
  - intros [Hi Hj]. exists i. split; [|done].
    apply list_elem_of_fmap. by exists j.
Qed.

Lemma foldl_nested {A : Type} (F : A → Z → Z → A) (rs cs : list Z) (a : A) :
  foldl (λ a i, foldl (λ a j, F a i j) a cs) a rs
  = foldl (λ a p, F a p.1 p.2) a (pairs rs cs).
Proof.
  revert a. induction rs as [|i rs IH]; intros a; [done|].
  unfold pairs in *. cbn [foldl mbind list_bind]. rewrite foldl_app, <- IH.
  f_equal. by rewrite foldl_fmap.
Qed.

Section fold_insert.
Context {A K : Type} (g : K → nat) (v : K → A).

Lemma length_writes l ks : length (writes g v l ks) = length l.
Proof.
  revert l. induction ks as [|k ks IH]; intros l; [done|].
  cbn. unfold writes in IH. by rewrite IH, length_insert.
Qed.

Lemma writes_miss l ks p :
  (∀ k, k ∈ ks → g k ≠ p) → writes g v l ks !! p = l !! p.
Proof.
  revert l. induction ks as [|k ks IH]; intros l Hks; [done|].
  cbn. unfold writes in IH. rewrite IH.
  - apply list_lookup_insert_ne, Hks. by left.
  - intros k' Hk'. apply Hks. by right.
Qed.

Lemma writes_snoc l ks k :
  writes g v l (ks ++ [k]) = <[g k := v k]> (writes g v l ks).
Proof. unfold writes. by rewrite foldl_app. Qed.

Lemma writes_hit l ks p k0 :
  (p < length l)%nat → k0 ∈ ks → g k0 = p →
  (∀ k, k ∈ ks → g k = p → v k = v k0) →
  writes g v l ks !! p = Some (v k0).
Proof.
  revert l. induction ks as [|k ks IH] using rev_ind; intros l Hp Hin Hg Hv.
  { by apply elem_of_nil in Hin. }
  rewrite writes_snoc.
  destruct (decide (g k = p)) as [Hk|Hk].
  - rewrite Hk, list_lookup_insert_eq.
    + f_equal. apply Hv; [|done]. apply elem_of_app. right. by left.
    + by rewrite length_writes.
  - rewrite list_lookup_insert_ne by done. apply IH; [done| |done|].
    + apply elem_of_app in Hin as [?|Hin]; [done|].
      apply list_elem_of_singleton in Hin. congruence.
    + intros k' Hk' ?. apply Hv; [|done]. apply elem_of_app. by left.
Qed.
End fold_insert.

Section fold_alter.
Context {A K : Type} (r c : K → nat) (v : K → A).

Lemma writes2_snoc l ks k :
  writes2 r c v l (ks ++ [k]) = alter (<[c k := v k]>) (r k) (writes2 r c v l ks).
Proof. unfold writes2. by rewrite foldl_app. Qed.

Lemma lookup2_alter_ne (l : list (list A)) ra cb x a b :
  ra ≠ a ∨ cb ≠ b →
  lookup2 (alter (<[cb := x]>) ra l) a b = lookup2 l a b.
Proof.
  intros Hne. unfold lookup2. rewrite list_lookup_alter.
  case_decide as Heq; [|done]. subst a.
  destruct (l !! ra) as [row|]; [|done]. cbn.
  apply list_lookup_insert_ne. by destruct Hne.
Qed.

Lemma lookup2_alter_eq (l : list (list A)) a b x row :
  l !! a = Some row → (b < length row)%nat →
  lookup2 (alter (<[b := x]>) a l) a b = Some x.
Proof.
  intros Hrow Hb. unfold lookup2. rewrite list_lookup_alter_eq, Hrow. cbn.
  by apply list_lookup_insert_eq.
Qed.

Lemma writes2_row_length l ks a :
  length <$> (writes2 r c v l ks !! a) = length <$> (l !! a).
Proof.
  induction ks as [|k ks IH] using rev_ind; [done|].
  rewrite writes2_snoc, list_lookup_alter. case_decide as Heq; [|done].
  subst a. rewrite <- IH. destruct (writes2 r c v l ks !! r k); [|done].
  cbn. by rewrite length_insert.
Qed.

Lemma length_writes2 l ks : length (writes2 r c v l ks) = length l.
Proof.
  induction ks as [|k ks IH] using rev_ind; [done|].
  by rewrite writes2_snoc, length_alter.
Qed.

Lemma writes2_hit l ks a b k0 row :
  l !! a = Some row → (b < length row)%nat →
  k0 ∈ ks → r k0 = a → c k0 = b →
  (∀ k, k ∈ ks → r k = a → c k = b → v k = v k0) →
  lookup2 (writes2 r c v l ks) a b = Some (v k0).
Proof.
  intros Hrow Hb.
  induction ks as [|k ks IH] using rev_ind; intros Hin Hr Hc Hv.
  { by apply elem_of_nil in Hin. }
  rewrite writes2_snoc.
  destruct (decide (r k = a ∧ c k = b)) as [[Hka Hkb]|Hk].
  - pose proof (writes2_row_length l ks a) as Hlen. rewrite Hrow in Hlen.
    destruct (writes2 r c v l ks !! a) as [row'|] eqn:Hrow'; [|done].
    injection Hlen as Hlen.
    rewrite Hka, Hkb. erewrite lookup2_alter_eq; [|done|lia].
    f_equal. apply Hv; [|done..]. apply elem_of_app. right. by left.
  - rewrite lookup2_alter_ne by (apply not_and_l in Hk; tauto).
    apply IH; [|done..|].
    + apply elem_of_app in Hin as [?|Hin]; [done|].
      apply list_elem_of_singleton in Hin. subst k0. tauto.
    + intros k' Hk' ??. apply Hv; [|done..]. apply elem_of_app. by left.
Qed.
End fold_alter.

(** ** Wrapping by branches and wrapping by remainder agree *)

Lemma wrap_pred n i : 0 ≤ i < n → wrap n (i + -1) = prevIdx n i.
Proof.
  intros Hi. unfold wrap, prevIdx.
  destruct (Z.ltb_spec (i + -1) 0).
  - replace (i - 1 + n) with (n - 1) by lia. rewrite Z.mod_small; lia.
  - destruct (Z.geb_spec (i + -1) n); [lia|].
    replace (i - 1 + n) with (i - 1 + 1 * n) by lia.
    rewrite Z.mod_add, Z.mod_small; lia.
Qed.

Lemma wrap_same n i : 0 ≤ i < n → wrap n (i + 0) = i.
Proof.
  intros Hi. unfold wrap.
  destruct (Z.ltb_spec (i + 0) 0); [lia|].
  destruct (Z.geb_spec (i + 0) n); lia.
Qed.

Lemma wrap_succ n i : 0 ≤ i < n → wrap n (i + 1) = nextIdx n i.
Proof.
  intros Hi. unfold wrap, nextIdx.
  destruct (Z.ltb_spec (i + 1) 0); [lia|].
  destruct (Z.geb_spec (i + 1) n).
  - replace (i + 1) with (0 + 1 * n) at 2 by lia.
    rewrite Z.mod_add, Z.mod_small; lia.
  - rewrite Z.mod_small; lia.
Qed.

Lemma prevIdx_range n i : 0 < n → 0 ≤ prevIdx n i < n.
Proof. intros. apply Z.mod_pos_bound. lia. Qed.

Lemma nextIdx_range n i : 0 < n → 0 ≤ nextIdx n i < n.
Proof. intros. apply Z.mod_pos_bound. lia. Qed.

(** Row-major indices of distinct cells are distinct. *)
Lemma index_inj cols i j i' j' :
  0 ≤ j < cols → 0 ≤ j' < cols → 0 ≤ i → 0 ≤ i' →
  Z.to_nat (i * cols + j) = Z.to_nat (i' * cols + j') → i = i' ∧ j = j'.
Proof.
  intros Hj Hj' Hi Hi' Heq.
  assert (i * cols + j = i' * cols + j') as Heq' by nia.
  assert (i = i') as ->; [|lia].
  destruct (Z.lt_trichotomy i i') as [Hlt|[?|Hlt]]; [|done|].
  - assert ((i + 1) * cols ≤ i' * cols) by (apply Z.mul_le_mono_nonneg_r; lia).
    lia.
  - assert ((i' + 1) * cols ≤ i * cols) by (apply Z.mul_le_mono_nonneg_r; lia).
    lia.
Qed.

Lemma index_lt rows cols i j :
  0 ≤ i < rows → 0 ≤ j < cols →
  (Z.to_nat (i * cols + j) < Z.to_nat (rows * cols))%nat.
Proof. intros. apply Z2Nat.inj_lt; nia. Qed.

(** ** Counting live neighbours *)

Lemma filter_tally alive ps :
  Z.of_nat (length (filter (λ p, alive p.1 p.2 = true) ps)) = tally alive ps.
Proof.
  induction ps as [|p ps IH]; [done|].
  rewrite filter_cons. cbn [tally foldr]. fold (tally alive ps).
  destruct (alive p.1 p.2); case_decide; try done; cbn [length]; lia.
Qed.

Lemma live_neighbours_tally alive rows cols i j :
  live_neighbours alive rows cols i j = tally alive (neighbours rows cols i j).
Proof. apply filter_tally. Qed.

Lemma next_alive_rule alive rows cols i j :
  rule (alive i j) (live_neighbours alive rows cols i j) = true
  ↔ next_alive alive rows cols i j.
Proof.
  unfold rule, next_alive.
  rewrite orb_true_iff, andb_true_iff, !Z.eqb_eq. tauto.
Qed.

Lemma V3_count_at st i j :
  0 ≤ i < V3._row st → 0 ≤ j < V3._col st →
  V3.count_at st i j
  = live_neighbours (λ a b, V3.at_ (V3._cell st) (a * V3._col st + b))
                    (V3._row st) (V3._col st) i j.
Proof.
  intros Hi Hj. rewrite live_neighbours_tally.
  unfold V3.count_at, V3.dx, V3.dy, neighbours, tally.
  cbn [zip zip_with foldl foldr fst snd].
  rewrite !wrap_pred, !wrap_same, !wrap_succ by done. lia.
Qed.

(** ** What [step] leaves in the next buffer (variant 3) *)

Lemma V3_step_writes st :
  V3._nextCycle (V3.step st)
  = writes (λ p : Z * Z, Z.to_nat (p.1 * V3._col st + p.2))
           (λ p, rule (V3.at_ (V3._cell st) (p.1 * V3._col st + p.2))
                      (V3.count_at st p.1 p.2))
           (V3._nextCycle st)
           (pairs (seqZ 0 (V3._row st)) (seqZ 0 (V3._col st))).
Proof.
  unfold V3.step, writes. cbn [V3._nextCycle V3.set_nextCycle].
  by rewrite (foldl_nested
    (λ next i j,
       <[Z.to_nat (i * V3._col st + j) :=
           rule (V3.at_ (V3._cell st) (i * V3._col st + j))
                (V3.count_at st i j)]> next)).
Qed.

Lemma V3_step_length st :
  length (V3._nextCycle (V3.step st)) = length (V3._nextCycle st).
Proof. rewrite V3_step_writes. apply length_writes. Qed.

Lemma V3_step_lookup st i j :
  0 ≤ i < V3._row st → 0 ≤ j < V3._col st →
  length (V3._nextCycle st) = Z.to_nat (V3._row st * V3._col st) →
  V3._nextCycle (V3.step st) !! Z.to_nat (i * V3._col st + j)
  = Some (rule (V3.at_ (V3._cell st) (i * V3._col st + j))
               (V3.count_at st i j)).
Proof.
  intros Hi Hj Hlen. rewrite V3_step_writes.
  rewrite (writes_hit _ _ _ _ (Z.to_nat (i * V3._col st + j)) (i, j)).
  - done.
  - rewrite Hlen. by apply index_lt.
  - apply elem_of_pairs. rewrite !elem_of_seqZ. lia.
  - done.
  - intros [i' j'] [Hi' Hj']%elem_of_pairs Heq.
    rewrite elem_of_seqZ in Hi', Hj'. cbn [fst snd] in *.
    apply index_inj in Heq as [-> ->]; [done|lia..].
Qed.

(** ** What [step] leaves in the next buffer (variant 1) *)

Lemma grid_shape_row {A : Type} rows cols (g : list (list A)) i :
  grid_shape rows cols g → 0 ≤ i < rows →
  ∃ r, g !! Z.to_nat i = Some r ∧ length r = Z.to_nat cols.
Proof.
  intros [Hlen Hall] Hi.
  destruct (lookup_lt_is_Some_2 g (Z.to_nat i)) as [r Hr]; [lia|].
  exists r. split; [done|].
  by apply (Forall_lookup_1 _ _ _ _ Hall Hr).
Qed.

Lemma V1_count_at st i j :
  V1._neighborOffset st = V1.neighborOffset →
  0 ≤ i < V1._row st → 0 ≤ j < V1._col st →
  V1.count_at st i j
  = live_neighbours (V1.at_ (V1._cell st)) (V1._row st) (V1._col st) i j.
Proof.
  intros Hoff Hi Hj. rewrite live_neighbours_tally.
  unfold V1.count_at. rewrite Hoff.
  unfold V1.neighborOffset, neighbours, tally.
  cbn [foldl foldr fst snd].
  rewrite !wrap_pred, !wrap_same, !wrap_succ by done. lia.
Qed.

Lemma V1_step_writes st :
  V1._nextCycle (V1.step st)
  = writes2 (λ p : Z * Z, Z.to_nat p.1) (λ p, Z.to_nat p.2)
            (λ p, rule (V1.at_ (V1._cell st) p.1 p.2)
                       (V1.count_at st p.1 p.2))
            (V1._nextCycle st)
            (pairs (seqZ 0 (V1._row st)) (seqZ 0 (V1._col st))).
Proof.
  unfold V1.step, writes2. cbn [V1._nextCycle V1.set_nextCycle].
  by rewrite (foldl_nested
    (λ next i j,
       alter (<[Z.to_nat j := rule (V1.at_ (V1._cell st) i j)
                                   (V1.count_at st i j)]>)
             (Z.to_nat i) next)).
Qed.

Lemma V1_step_shape st rows cols :
  grid_shape rows cols (V1._nextCycle st) →
  grid_shape rows cols (V1._nextCycle (V1.step st)).
Proof.
  intros [Hlen Hall]. rewrite V1_step_writes. split.
  - by rewrite length_writes2.
  - apply Forall_lookup_2. intros a r Hr.
    pose proof (writes2_row_length
      (λ p : Z * Z, Z.to_nat p.1) (λ p, Z.to_nat p.2)
      (λ p, rule (V1.at_ (V1._cell st) p.1 p.2) (V1.count_at st p.1 p.2))
      (V1._nextCycle st)
      (pairs (seqZ 0 (V1._row st)) (seqZ 0 (V1._col st))) a) as Hrl.
    rewrite Hr in Hrl. destruct (V1._nextCycle st !! a) as [r0|] eqn:Hr0; [|done].
    injection Hrl as ->. by apply (Forall_lookup_1 _ _ _ _ Hall Hr0).
Qed.

Lemma V1_step_lookup2 st i j :
  0 ≤ i < V1._row st → 0 ≤ j < V1._col st →
  grid_shape (V1._row st) (V1._col st) (V1._nextCycle st) →
  V1._nextCycle (V1.step st) !! Z.to_nat i ≫= (.!! Z.to_nat j)
  = Some (rule (V1.at_ (V1._cell st) i j) (V1.count_at st i j)).
Proof.
  intros Hi Hj Hshape.
  destruct (grid_shape_row _ _ _ i Hshape Hi) as (r & Hr & Hlen).
  rewrite V1_step_writes.
  change (?g !! ?a ≫= (.!! ?b)) with (lookup2 g a b).
  rewrite (writes2_hit _ _ _ _ _ (Z.to_nat i) (Z.to_nat j) (i, j) r).
  - done.
  - done.
  - lia.
  - apply elem_of_pairs. rewrite !elem_of_seqZ. lia.
  - done.
  - done.
  - intros [i' j'] [Hi' Hj']%elem_of_pairs Hr' Hc'.
    rewrite elem_of_seqZ in Hi', Hj'. cbn [fst snd] in *.
    assert (i' = i) as -> by lia. assert (j' = j) as -> by lia. done.
Qed.

Lemma V1_step_lookup st i j :
  0 ≤ i < V1._row st → 0 ≤ j < V1._col st →
  grid_shape (V1._row st) (V1._col st) (V1._nextCycle st) →
  V1.at_ (V1._nextCycle (V1.step st)) i j
  = rule (V1.at_ (V1._cell st) i j) (V1.count_at st i j).
Proof.
  intros Hi Hj Hshape. unfold V1.at_ at 1.
  by rewrite V1_step_lookup2.
Qed.

(** ** What [step] leaves in the buffers (variant 2) *)

Lemma V2_prev_table n i :
  0 ≤ i < n → V2.at_ (V2.prev_table n) i = prevIdx n i.
Proof.
  intros Hi. unfold V2.at_, V2.prev_table.
  change (foldl _ ?l ?ks)
    with (writes Z.to_nat (λ i, Z.rem (i + n - 1) n) l ks).
  rewrite (writes_hit _ _ _ _ (Z.to_nat i) i).
  - cbn. unfold prevIdx. rewrite Z.rem_mod_nonneg by lia. f_equal. lia.
  - rewrite length_replicate. lia.
  - apply elem_of_seqZ. lia.
  - done.
  - intros k Hk%elem_of_seqZ ?. assert (k = i) as -> by lia. done.
Qed.

Lemma V2_next_table n i :
  0 ≤ i < n → V2.at_ (V2.next_table n) i = nextIdx n i.
Proof.
  intros Hi. unfold V2.at_, V2.next_table.
  change (foldl _ ?l ?ks)
    with (writes Z.to_nat (λ i, Z.rem (i + 1) n) l ks).
  rewrite (writes_hit _ _ _ _ (Z.to_nat i) i).
  - cbn. unfold nextIdx. by rewrite Z.rem_mod_nonneg by lia.
  - rewrite length_replicate. lia.
  - apply elem_of_seqZ. lia.
  - done.
  - intros k Hk%elem_of_seqZ ?. assert (k = i) as -> by lia. done.
Qed.

Lemma V2_step_pass_writes st :
  V2.step_pass st
  = writes (λ p : Z * Z, Z.to_nat (p.1 * V2._col st + p.2))
           (λ p, Z.b2z ((V2_count st p.1 p.2 =? 3)
                        || (negb (V2.at_ (V2._grid st)
                                         (p.1 * V2._col st + p.2) =? 0)
                            && (V2_count st p.1 p.2 =? 2))))
           (V2._next st)
           (pairs (seqZ 0 (V2._row st)) (seqZ 0 (V2._col st))).
Proof.
  unfold V2.step_pass, writes.
  by rewrite (foldl_nested
    (λ n i j,
       <[Z.to_nat (i * V2._col st + j) :=
           Z.b2z ((V2_count st i j =? 3)
                  || (negb (V2.at_ (V2._grid st) (i * V2._col st + j) =? 0)
                      && (V2_count st i j =? 2)))]> n)).
Qed.

Lemma V2_at_bit g idx :
  Forall (λ c, c = 0 ∨ c = 1) g →
  V2.at_ g idx = if negb (V2.at_ g idx =? 0) then 1 else 0.
Proof.
  intros Hall. unfold V2.at_.
  destruct (g !! Z.to_nat idx) as [c|] eqn:Hc; [|done]. cbn.
  by destruct (Forall_lookup_1 _ _ _ _ Hall Hc) as [-> | ->].
Qed.

Lemma V2_count_live st i j :
  V2_wf st → 0 ≤ i < V2._row st → 0 ≤ j < V2._col st →
  V2_count st i j
  = live_neighbours (V2_alive (V2._grid st) (V2._col st))
                    (V2._row st) (V2._col st) i j.
Proof.
  intros Hwf Hi Hj. rewrite live_neighbours_tally.
  unfold V2_count, neighbours, tally, V2_alive. cbn [foldr fst snd].
  rewrite (V2_wf_prevR _ Hwf), (V2_wf_nextR _ Hwf),
          (V2_wf_prevC _ Hwf), (V2_wf_nextC _ Hwf).
  rewrite !V2_prev_table, !V2_next_table by done.
  pose proof (V2_at_bit (V2._grid st)) as Hbit.
  rewrite <- !Hbit by apply (V2_wf_bits _ Hwf). lia.
Qed.

Lemma V2_step_pass_lookup st i j :
  V2_wf st → 0 ≤ i < V2._row st → 0 ≤ j < V2._col st →
  V2.step_pass st !! Z.to_nat (i * V2._col st + j)
  = Some (Z.b2z (rule (V2_alive (V2._grid st) (V2._col st) i j)
                      (V2_count st i j))).
Proof.
  intros Hwf Hi Hj. rewrite V2_step_pass_writes.
  rewrite (writes_hit _ _ _ _ (Z.to_nat (i * V2._col st + j)) (i, j)).
  - done.
  - rewrite (V2_wf_next _ Hwf). by apply index_lt.
  - apply elem_of_pairs. rewrite !elem_of_seqZ. lia.
  - done.
  - intros [i' j'] [Hi' Hj']%elem_of_pairs Heq.
    rewrite elem_of_seqZ in Hi', Hj'. cbn [fst snd] in *.
    apply index_inj in Heq as [-> ->]; [done|lia..].
Qed.

Lemma V2_step_pass_length st :
  length (V2.step_pass st) = length (V2._next st).
Proof. rewrite V2_step_pass_writes. apply length_writes. Qed.

Lemma index_decomp rows cols p :
  0 < cols → (p < Z.to_nat (rows * cols))%nat →
  ∃ i j, 0 ≤ i < rows ∧ 0 ≤ j < cols ∧ p = Z.to_nat (i * cols + j).
Proof.
  intros Hc Hp. exists (Z.of_nat p / cols), (Z.of_nat p mod cols).
  pose proof (Z.mod_pos_bound (Z.of_nat p) cols Hc) as Hmod.
  pose proof (Z.div_mod (Z.of_nat p) cols ltac:(lia)) as Hdm.
  assert (0 ≤ Z.of_nat p / cols) by (apply Z.div_pos; lia).
  assert (Z.of_nat p < rows * cols) by lia.
  split; [split; [done|]|split; [done|]].
  - apply Z.div_lt_upper_bound; lia.
  - rewrite (Z.mul_comm _ cols), <- Hdm. lia.
Qed.

Lemma V2_step_pass_bits st :
  V2_wf st → Forall (λ c, c = 0 ∨ c = 1) (V2.step_pass st).
Proof.
  intros Hwf. apply Forall_lookup_2. intros p c Hc.
  pose proof (lookup_lt_Some _ _ _ Hc) as Hp.
  rewrite V2_step_pass_length, (V2_wf_next _ Hwf) in Hp.
  destruct (index_decomp _ _ _ (V2_wf_cols _ Hwf) Hp) as (i & j & Hi & Hj & ->).
  rewrite V2_step_pass_lookup in Hc by done. injection Hc as <-.
  destruct (rule _ _); auto.
Qed.

Lemma V2_step_wf st : V2_wf st → V2_wf (V2.step st).
Proof.
  intros Hwf. pose proof (V2_step_pass_bits st Hwf) as Hbits.
  pose proof (V2_step_pass_length st) as Hlen.
  destruct Hwf as [Hr Hc Hg Hn Hb HpR HnR HpC HnC].
  split; cbn; try done. by rewrite Hlen.
Qed.

(** ** The transition rule *)

(** C1.  For a well-formed engine (so [rows > 0] and [cols > 0]) and every
    cell [(i, j)] of the grid, one pass of [step] leaves in the next
    buffer a cell that is alive iff exactly three of the eight toroidal
    neighbours are alive in the current buffer, or the cell is alive and
    exactly two are; the current buffer is not touched.  Variants 1 and 3
    leave the swap to [update]; variant 2 writes [_next] and then swaps, so
    that after [step] the new generation is [_grid] and the untouched old
    one is [_next]. *)
Theorem C1_step_rule :
  (∀ st i j, V1_wf st → 0 ≤ i < V1._row st → 0 ≤ j < V1._col st →
     (V1.at_ (V1._nextCycle (V1.step st)) i j = true
      ↔ next_alive (V1.at_ (V1._cell st)) (V1._row st) (V1._col st) i j)
     ∧ V1._cell (V1.step st) = V1._cell st)
  ∧ (∀ st i j, V2_wf st → 0 ≤ i < V2._row st → 0 ≤ j < V2._col st →
     (V2_alive (V2.step_pass st) (V2._col st) i j = true
      ↔ next_alive (V2_alive (V2._grid st) (V2._col st))
                   (V2._row st) (V2._col st) i j)
     ∧ Forall (λ c, c = 0 ∨ c = 1) (V2.step_pass st)
     ∧ V2._grid (V2.step st) = V2.step_pass st
     ∧ V2._next (V2.step st) = V2._grid st)
  ∧ (∀ st i j, V3_wf st → 0 ≤ i < V3._row st → 0 ≤ j < V3._col st →
     (V3.at_ (V3._nextCycle (V3.step st)) (i * V3._col st + j) = true
      ↔ next_alive (λ a b, V3.at_ (V3._cell st) (a * V3._col st + b))
                   (V3._row st) (V3._col st) i j)
     ∧ V3._cell (V3.step st) = V3._cell st).
Proof.
  split; [|split].
  - intros st i j Hwf Hi Hj. split; [|done].
    rewrite V1_step_lookup by (done || apply Hwf).
    rewrite V1_count_at by (done || apply Hwf).
    apply next_alive_rule.
  - intros st i j Hwf Hi Hj. split; [|split; [|done]].
    + unfold V2_alive at 1. unfold V2.at_.
      rewrite V2_step_pass_lookup by done. cbn [default].
      rewrite V2_count_live by done.
      rewrite <- (next_alive_rule (V2_alive (V2._grid st) (V2._col st))).
      by destruct (rule _ _).
    + by apply V2_step_pass_bits.
  - intros st i j Hwf Hi Hj. split; [|done].
    unfold V3.at_ at 1.
    rewrite V3_step_lookup by (done || apply Hwf). cbn [default].
    rewrite V3_count_at by done.
    apply (next_alive_rule
             (λ a b, V3.at_ (V3._cell st) (a * V3._col st + b))).
Qed.

(** ** The three [step]s compute the same grid *)

Lemma neighbours_in_range rows cols i j :
  0 ≤ i < rows → 0 ≤ j < cols →
  Forall (λ p, 0 ≤ p.1 < rows ∧ 0 ≤ p.2 < cols) (neighbours rows cols i j).
Proof.
  intros Hi Hj.
  pose proof (prevIdx_range rows i ltac:(lia)).
  pose proof (nextIdx_range rows i ltac:(lia)).
  pose proof (prevIdx_range cols j ltac:(lia)).
  pose proof (nextIdx_range cols j ltac:(lia)).
  unfold neighbours. repeat constructor; cbn [fst snd]; lia.
Qed.

Lemma tally_ext alive1 alive2 ps :
  Forall (λ p, alive1 p.1 p.2 = alive2 p.1 p.2) ps →
  tally alive1 ps = tally alive2 ps.
Proof.
  induction 1 as [|p ps Hp _ IH]; [done|].
  cbn [tally foldr]. fold (tally alive1 ps) (tally alive2 ps).
  by rewrite Hp, IH.
Qed.

Lemma live_neighbours_ext alive1 alive2 rows cols i j :
  0 ≤ i < rows → 0 ≤ j < cols →
  (∀ a b, 0 ≤ a < rows → 0 ≤ b < cols → alive1 a b = alive2 a b) →
  live_neighbours alive1 rows cols i j = live_neighbours alive2 rows cols i j.
Proof.
  intros Hi Hj Hext. rewrite !live_neighbours_tally. apply tally_ext.
  eapply Forall_impl; [by apply neighbours_in_range|].
  intros [a b] [??]. by apply Hext.
Qed.

Lemma concat_lookup_nat {A : Type} (g : list (list A)) (c a b : nat) :
  Forall (λ r, length r = c) g → (b < c)%nat →
  concat g !! (a * c + b)%nat = g !! a ≫= (.!! b).
Proof.
  intros Hall Hb. revert a. induction Hall as [|r g Hr _ IH]; intros a.
  { by rewrite lookup_nil. }
  destruct a as [|a]; cbn [concat].
  - rewrite lookup_app_l by lia. done.
  - rewrite lookup_app_r by (cbn; lia).
    replace (S a * c + b - length r)%nat with (a * c + b)%nat by (cbn; lia).
    apply IH.
Qed.

Lemma concat_lookup {A : Type} rows cols (g : list (list A)) i j :
  grid_shape rows cols g → 0 ≤ i → 0 ≤ j < cols →
  concat g !! Z.to_nat (i * cols + j) = g !! Z.to_nat i ≫= (.!! Z.to_nat j).
Proof.
  intros [_ Hall] Hi Hj.
  rewrite <- (concat_lookup_nat g (Z.to_nat cols)) by (done || lia).
  assert (0 ≤ i * cols) by (apply Z.mul_nonneg_nonneg; lia).
  f_equal. rewrite Z2Nat.inj_add, Z2Nat.inj_mul; lia.
Qed.

Lemma concat_length {A : Type} rows cols (g : list (list A)) :
  0 ≤ rows → 0 ≤ cols →
  grid_shape rows cols g → length (concat g) = Z.to_nat (rows * cols).
Proof.
  intros Hr Hc [Hlen Hall]. rewrite Z2Nat.inj_mul, <- Hlen by lia. clear Hlen.
  induction Hall as [|r g Hrl _ IH]; [done|].
  cbn [concat length]. rewrite length_app, IH, Hrl. lia.
Qed.

(** C10.  Started from the same dimensions and the same current buffer
    (variant 1 holding it row by row, variant 3 flat, variant 2 flat with
    one byte per cell), the three implementations of [step] produce the
    same next generation. *)
Theorem C10_steps_agree (st1 : V1.state) (st2 : V2.state) (st3 : V3.state) :
  V1_wf st1 → V2_wf st2 → V3_wf st3 →
  V1._row st1 = V3._row st3 → V1._col st1 = V3._col st3 →
  V2._row st2 = V3._row st3 → V2._col st2 = V3._col st3 →
  concat (V1._cell st1) = V3._cell st3 →
  V2._grid st2 = Z.b2z <$> V3._cell st3 →
  concat (V1._nextCycle (V1.step st1)) = V3._nextCycle (V3.step st3)
  ∧ V2._grid (V2.step st2) = Z.b2z <$> V3._nextCycle (V3.step st3).
Proof.
  intros Hwf1 Hwf2 Hwf3 Hr1 Hc1 Hr2 Hc2 Hcell1 Hcell2.
  pose proof (V3_wf_rows _ Hwf3) as Hrows.
  pose proof (V3_wf_cols _ Hwf3) as Hcols.
  assert (Halive1 : ∀ a b, 0 ≤ a < V3._row st3 → 0 ≤ b < V3._col st3 →
            V1.at_ (V1._cell st1) a b
            = V3.at_ (V3._cell st3) (a * V3._col st3 + b)).
  { intros a b Ha Hb. unfold V1.at_, V3.at_. rewrite <- Hcell1.
    rewrite (concat_lookup (V3._row st3) (V3._col st3)); [done| |lia|done].
    rewrite <- Hr1, <- Hc1. apply Hwf1. }
  assert (Halive2 : ∀ a b,
            V2_alive (V2._grid st2) (V2._col st2) a b
            = V3.at_ (V3._cell st3) (a * V3._col st3 + b)).
  { intros a b. unfold V2_alive, V2.at_, V3.at_.
    rewrite Hcell2, Hc2, list_lookup_fmap.
    by destruct (V3._cell st3 !! _) as [[]|]. }
  assert (Hi1 : ∀ i, 0 ≤ i < V3._row st3 → 0 ≤ i < V1._row st1)
    by (intros; lia).
  assert (Hj1 : ∀ j, 0 ≤ j < V3._col st3 → 0 ≤ j < V1._col st1)
    by (intros; lia).
  assert (Hi2 : ∀ i, 0 ≤ i < V3._row st3 → 0 ≤ i < V2._row st2)
    by (intros; lia).
  assert (Hj2 : ∀ j, 0 ≤ j < V3._col st3 → 0 ≤ j < V2._col st2)
    by (intros; lia).
  pose proof (V1_step_shape st1 _ _ (V1_wf_next _ Hwf1)) as Hshape1.
  split; apply list_eq; intros p.
  - destruct (decide (p < Z.to_nat (V3._row st3 * V3._col st3))%nat) as [Hp|Hp].
    + destruct (index_decomp _ _ _ Hcols Hp) as (i & j & Hi & Hj & ->).
      rewrite V3_step_lookup by (done || apply Hwf3).
      rewrite V3_count_at by done.
      replace (Z.to_nat (i * V3._col st3 + j))
        with (Z.to_nat (i * V1._col st1 + j)) by (by rewrite Hc1).
      rewrite (concat_lookup (V1._row st1) (V1._col st1));
        [|done|lia|by apply Hj1].
      rewrite V1_step_lookup2 by (auto || apply Hwf1).
      rewrite V1_count_at by (auto || apply Hwf1).
      rewrite Hr1, Hc1, Halive1 by done. do 2 f_equal.
      by apply live_neighbours_ext.
    + rewrite !lookup_ge_None_2; [done| |].
      * rewrite V3_step_length, (V3_wf_next _ Hwf3). lia.
      * rewrite (concat_length (V1._row st1) (V1._col st1)); [|lia..|done].
        rewrite Hr1, Hc1. lia.
  - cbn [V2.step V2._grid V2.set_buffers]. rewrite list_lookup_fmap.
    destruct (decide (p < Z.to_nat (V3._row st3 * V3._col st3))%nat) as [Hp|Hp].
    + destruct (index_decomp _ _ _ Hcols Hp) as (i & j & Hi & Hj & ->).
      rewrite V3_step_lookup by (done || apply Hwf3).
      rewrite V3_count_at by done.
      replace (Z.to_nat (i * V3._col st3 + j))
        with (Z.to_nat (i * V2._col st2 + j)) by (by rewrite Hc2).
      rewrite V2_step_pass_lookup by auto.
      rewrite V2_count_live by auto.
      cbn [fmap option_fmap option_map]. do 2 f_equal.
      rewrite Halive2. f_equal.
      rewrite (live_neighbours_ext
                 (V2_alive (V2._grid st2) (V2._col st2))
                 (λ a b, V3.at_ (V3._cell st3) (a * V3._col st3 + b)))
        by auto.
      by rewrite Hr2, Hc2.
    + rewrite !lookup_ge_None_2; [done| |].
      * rewrite V3_step_length, (V3_wf_next _ Hwf3). lia.
      * rewrite V2_step_pass_length, (V2_wf_next _ Hwf2), Hr2, Hc2. lia.
Qed.

(** ** The packing loop of [hashState] *)

(** Bit [k] of a packed word is cell [k] of the group. *)
Lemma pack_testbit cells k :
  Z.testbit (pack cells) (Z.of_nat k) = default false (cells !! k).
Proof.
  revert k. induction cells as [|c cs IH]; intros k.
  { cbn. by rewrite Z.testbit_0_l. }
  cbn [pack]. rewrite Z.lor_spec. destruct k as [|k].
  - cbn [lookup list_lookup default]. change (Z.of_nat 0) with 0.
    rewrite Z.b2z_bit0, Z.shiftl_spec_low by lia. by destruct c.
  - rewrite Z.shiftl_spec by lia.
    replace (Z.of_nat (S k) - 1) with (Z.of_nat k) by lia.
    rewrite IH. cbn [lookup list_lookup].
    replace (Z.testbit (Z.b2z c) (Z.of_nat (S k))) with false; [done|].
    destruct c; cbn [Z.b2z].
    + symmetry. apply (Z.bits_above_log2 1); cbn; lia.
    + by rewrite Z.testbit_0_l.
Qed.

Lemma u64_bit b : 0 ≤ b < 64 → u64 (Z.shiftl 1 b) = Z.shiftl 1 b.
Proof.
  intros Hb. unfold u64. rewrite Z.shiftl_1_l. apply Z.mod_small.
  split; [apply Z.pow_nonneg; lia|]. apply Z.pow_lt_mono_r; lia.
Qed.

Lemma pack_cons_shift w b (c : bool) cs :
  0 ≤ b →
  Z.lor (if c then Z.lor w (Z.shiftl 1 b) else w) (Z.shiftl (pack cs) (b + 1))
  = Z.lor w (Z.shiftl (pack (c :: cs)) b).
Proof.
  intros Hb. cbn [pack]. rewrite Z.shiftl_lor, Z.shiftl_shiftl by lia.
  rewrite (Z.add_comm 1 b). destruct c; cbn [Z.b2z].
  - by rewrite Z.lor_assoc.
  - by rewrite Z.shiftl_0_l, Z.lor_0_l.
Qed.

(** The packing loop on less than a word's worth of cells, and on exactly
    what fills the word. *)
Lemma hash_cells_partial c h w b :
  0 ≤ b → b + Z.of_nat (length c) < 64 →
  foldl hash_cell (h, w, b) c
  = (h, Z.lor w (Z.shiftl (pack c) b), b + Z.of_nat (length c)).
Proof.
  revert w b. induction c as [|x c IH]; intros w b Hb Hlen.
  { cbn. by rewrite Z.shiftl_0_l, Z.lor_0_r, Z.add_0_r. }
  cbn [foldl length] in *. unfold hash_cell at 2.
  rewrite u64_bit by lia.
  destruct (Z.eqb_spec (b + 1) 64) as [?|_]; [lia|].
  rewrite IH by lia. rewrite pack_cons_shift by lia. f_equal. lia.
Qed.

Lemma hash_cells_full c h w b :
  0 ≤ b → b + Z.of_nat (length c) = 64 → c ≠ [] →
  foldl hash_cell (h, w, b) c
  = (hash_combine h (Z.lor w (Z.shiftl (pack c) b)), 0, 0).
Proof.
  revert w b. induction c as [|x c IH]; intros w b Hb Hlen Hne; [done|].
  cbn [foldl length] in *. unfold hash_cell at 2.
  rewrite u64_bit by lia.
  destruct (Z.eqb_spec (b + 1) 64) as [Hfull|Hnot].
  - destruct c; [|cbn [length] in Hlen; lia].
    cbn [foldl]. rewrite <- (pack_cons_shift w b x []) by lia.
    cbn [pack]. by rewrite Z.shiftl_0_l, Z.lor_0_r.
  - destruct c as [|y c]; [cbn [length] in Hlen; lia|].
    rewrite IH by (done || cbn [length] in *; lia).
    by rewrite pack_cons_shift by lia.
Qed.

Lemma chunks_step fuel l :
  l ≠ [] → chunks (S fuel) l = take 64%nat l :: chunks fuel (drop 64%nat l).
Proof. by destruct l. Qed.

Lemma chunks_nil fuel : chunks fuel [] = [].
Proof. by destruct fuel. Qed.

Lemma hash_cells_words fuel l h :
  (length l ≤ fuel)%nat →
  hash_flush (foldl hash_cell (h, 0, 0) l)
  = foldl hash_combine h (pack <$> chunks fuel l).
Proof.
  revert l h. induction fuel as [|fuel IH]; intros l h Hlen.
  { destruct l; [done|cbn in Hlen; lia]. }
  destruct (decide (l = [])) as [->|Hne]; [done|].
  assert (0 < length l)%nat by (destruct l; [done|cbn; lia]).
  rewrite chunks_step by done. rewrite fmap_cons. cbn [foldl].
  destruct (decide (length l < 64)%nat) as [Hshort|Hlong].
  - rewrite take_ge, drop_ge, chunks_nil by lia.
    rewrite hash_cells_partial by lia.
    cbn [hash_flush fmap list_fmap foldl].
    destruct (Z.eqb_spec (0 + Z.of_nat (length l)) 0) as [Hz|_]; [lia|].
    by rewrite Z.shiftl_0_r, Z.lor_0_l.
  - rewrite <- (take_drop 64%nat l) at 1. rewrite foldl_app.
    rewrite hash_cells_full.
    + rewrite Z.shiftl_0_r, Z.lor_0_l. apply IH.
      rewrite length_drop. lia.
    + lia.
    + rewrite length_take. lia.
    + intros Hnil. apply (f_equal length) in Hnil.
      rewrite length_take in Hnil. cbn [length] in *. lia.
Qed.

(** A loop over the indices of a buffer reads the buffer in order. *)
Lemma foldl_ext_in {A B : Type} (f g : A → B → A) (l : list B) (a : A) :
  (∀ acc x, x ∈ l → f acc x = g acc x) → foldl f a l = foldl g a l.
Proof.
  revert a. induction l as [|x l IH]; intros a Hfg; [done|].
  cbn [foldl]. rewrite Hfg by (by left). apply IH.
  intros acc y Hy. apply Hfg. by right.
Qed.

Lemma foldl_seqZ_lookup {A B : Type} (F : A → B → A) (get : Z → B)
    (l : list B) (a : A) :
  (∀ k x, l !! k = Some x → get (Z.of_nat k) = x) →
  foldl (λ acc j, F acc (get j)) a (seqZ 0 (Z.of_nat (length l)))
  = foldl F a l.
Proof.
  induction l as [|x l IH] using rev_ind; intros Hget; [done|].
  rewrite length_app. cbn [length].
  replace (length l + 1)%nat with (S (length l)) by lia.
  rewrite seqZ_S, !foldl_app. cbn [foldl]. rewrite IH.
  - f_equal. change (0 + Z.of_nat (length l)) with (Z.of_nat (length l)).
    apply Hget. rewrite lookup_app_r by lia.
    by rewrite Nat.sub_diag.
  - intros k y Hk. apply Hget. rewrite lookup_app_l; [done|].
    by apply lookup_lt_Some in Hk.
Qed.

Lemma V1_hash_fold (g : list (list bool)) cols acc :
  0 ≤ cols → Forall (λ r, length r = Z.to_nat cols) g →
  foldl (λ acc i,
      foldl (λ acc j, hash_cell acc (V1.at_ g i j)) acc (seqZ 0 cols))
    acc (seqZ 0 (Z.of_nat (length g)))
  = foldl hash_cell acc (concat g).
Proof.
  intros Hcols Hall.
  transitivity
    (foldl (λ acc i, foldl hash_cell acc (default [] (g !! Z.to_nat i)))
           acc (seqZ 0 (Z.of_nat (length g)))).
  - apply foldl_ext_in. intros acc' i Hi%elem_of_seqZ.
    destruct (lookup_lt_is_Some_2 g (Z.to_nat i)) as [r Hr]; [lia|].
    rewrite Hr. cbn [default].
    pose proof (Forall_lookup_1 _ _ _ _ Hall Hr) as Hlen. cbn beta in Hlen.
    replace cols with (Z.of_nat (length r)) by lia.
    apply (foldl_seqZ_lookup hash_cell (λ j, V1.at_ g i j)).
    intros k x Hk. unfold V1.at_. rewrite Hr. cbn [mbind option_bind].
    unfold id in Hk. by rewrite Nat2Z.id, Hk.
  - rewrite (foldl_seqZ_lookup
      (λ acc r, foldl hash_cell acc r)
      (λ i, default [] (g !! Z.to_nat i)) g acc).
    + clear. revert acc. induction g as [|r g IH]; intros acc; [done|].
      cbn [foldl concat]. by rewrite foldl_app, IH.
    + intros k r Hr. by rewrite Nat2Z.id, Hr.
Qed.

Lemma V3_hashState_fingerprint st :
  V3.hashState st
  = fingerprint (u64 (V3._row st)) (u64 (V3._col st)) (V3._cell st).
Proof. unfold V3.hashState, fingerprint, words. by apply hash_cells_words. Qed.

Lemma V1_hashState_fingerprint st :
  0 ≤ V1._row st → 0 ≤ V1._col st →
  grid_shape (V1._row st) (V1._col st) (V1._cell st) →
  V1.hashState st
  = fingerprint (u64 (V1._row st)) (u64 (V1._col st)) (concat (V1._cell st)).
Proof.
  intros Hr Hc [Hlen Hall]. unfold V1.hashState, fingerprint, words.
  replace (V1._row st) with (Z.of_nat (length (V1._cell st))) at 2 by lia.
  rewrite V1_hash_fold by done. by apply hash_cells_words.
Qed.

Lemma V2_hashState_fingerprint st :
  V2._baseHash st
  = hash_combine (hash_combine hash_seed (u64 (V2._row st))) (u64 (V2._col st)) →
  V2.hashState st
  = fingerprint (u64 (V2._row st)) (u64 (V2._col st))
                ((λ c, negb (c =? 0)) <$> V2._grid st).
Proof.
  intros Hbase. unfold V2.hashState, fingerprint, words.
  rewrite Hbase, <- (foldl_fmap hash_cell). by apply hash_cells_words.
Qed.

(** ** The words of the cell stream, and the range of fingerprints *)

(** Word [k] of the stream holds the cells [64 k .. 64 k + 63] that exist,
    and there is no empty word. *)
Lemma chunks_lookup fuel l k c :
  (length l ≤ fuel)%nat → chunks fuel l !! k = Some c →
  c = take 64%nat (drop (64 * k)%nat l) ∧ c ≠ [].
Proof.
  revert l k. induction fuel as [|fuel IH]; intros l k Hlen Hc; [done|].
  destruct (decide (l = [])) as [->|Hne]; [done|].
  assert (0 < length l)%nat by (destruct l; [done|cbn; lia]).
  rewrite chunks_step in Hc by done. destruct k as [|k].
  - injection Hc as <-. split; [done|].
    intros Hnil%(f_equal length). rewrite length_take in Hnil.
    cbn [length] in Hnil. lia.
  - cbn [lookup list_lookup] in Hc. apply IH in Hc as [-> ?].
    + split; [|done]. rewrite drop_drop. do 2 f_equal. lia.
    + rewrite length_drop. lia.
Qed.

Lemma foldl_inv {A B : Type} (P : A → Prop) (f : A → B → A) (l : list B)
    (a : A) :
  P a → (∀ a x, P a → P (f a x)) → P (foldl f a l).
Proof.
  intros Ha Hf. revert a Ha. induction l as [|x l IH]; intros a Ha; [done|].
  cbn. apply IH. by apply Hf.
Qed.

(** Fingerprints are 64-bit values. *)
Lemma lxor_range a b :
  0 ≤ a < 2 ^ 64 → 0 ≤ b < 2 ^ 64 → 0 ≤ Z.lxor a b < 2 ^ 64.
Proof.
  intros Ha Hb. split; [apply Z.lxor_nonneg; lia|].
  destruct (decide (Z.lxor a b = 0)) as [->|Hne]; [done|].
  assert (0 < Z.lxor a b) by (pose proof (Z.lxor_nonneg a b); lia).
  apply Z.log2_lt_pow2; [done|].
  eapply Z.le_lt_trans; [apply Z.log2_lxor; lia|].
  apply Z.max_lub_lt.
  - destruct (decide (a = 0)) as [->|?]; [done|]. apply Z.log2_lt_pow2; lia.
  - destruct (decide (b = 0)) as [->|?]; [done|]. apply Z.log2_lt_pow2; lia.
Qed.

Lemma u64_range x : 0 ≤ u64 x < 2 ^ 64.
Proof. apply Z.mod_pos_bound. lia. Qed.

Lemma hash_combine_range h k :
  0 ≤ h < 2 ^ 64 → 0 ≤ hash_combine h k < 2 ^ 64.
Proof. intros Hh. apply lxor_range; [done|apply u64_range]. Qed.

Lemma hash_cell_range acc c :
  0 ≤ acc.1.1 < 2 ^ 64 → 0 ≤ (hash_cell acc c).1.1 < 2 ^ 64.
Proof.
  destruct acc as [[h w] b]. cbn [fst]. intros Hh. unfold hash_cell.
  destruct (b + 1 =? 64); cbn [fst]; [|done]. by apply hash_combine_range.
Qed.

Lemma hash_flush_range acc :
  0 ≤ acc.1.1 < 2 ^ 64 → 0 ≤ hash_flush acc < 2 ^ 64.
Proof.
  destruct acc as [[h w] b]. cbn [fst]. intros Hh. unfold hash_flush.
  destruct (b =? 0); [done|]. by apply hash_combine_range.
Qed.

Lemma V1_hashState_range st : 0 ≤ V1.hashState st < 2 ^ 64.
Proof.
  unfold V1.hashState. apply hash_flush_range.
  apply (foldl_inv (λ acc, 0 ≤ acc.1.1 < 2 ^ 64)).
  - cbn [fst]. do 2 apply hash_combine_range. done.
  - intros acc i Hacc.
    apply (foldl_inv (λ acc, 0 ≤ acc.1.1 < 2 ^ 64)); [done|].
    intros acc' j Hacc'. by apply hash_cell_range.
Qed.

(** ** The driver of variant 3 *)

Lemma V3_next_set_history h st :
  V3_next (V3.set_history h st) = V3.set_history h (V3_next st).
Proof. reflexivity. Qed.

Lemma V3_gen_S k st : V3_gen (S k) st = V3_gen k (V3_next st).
Proof. unfold V3_gen. by rewrite Nat.iter_succ_r. Qed.

Lemma no_live_Forall l : V3.no_live l = true ↔ Forall (λ c, c = false) l.
Proof.
  induction l as [|c l IH]; cbn [V3.no_live].
  - split; [constructor|done].
  - destruct c.
    + split; [done|]. by intros [? _]%Forall_cons.
    + rewrite IH. split; [by constructor|]. by intros [_ ?]%Forall_cons.
Qed.

(** One turn of the loop, case by case. *)
Lemma V3_loop_cycle n i st :
  V3._detectCycle st = true → V3.hashState st ∈ V3._history st →
  V3.start_loop (S n) i st = mkResult [CycleNotice (Some i)] st StoppedByCycle i.
Proof.
  intros Hd Hin. cbn [V3.start_loop]. by rewrite Hd, bool_decide_eq_true_2.
Qed.

Lemma V3_noted_flags st :
  V3._row (V3_noted st) = V3._row st ∧ V3._col (V3_noted st) = V3._col st
  ∧ V3._steps (V3_noted st) = V3._steps st
  ∧ V3._finalOnly (V3_noted st) = V3._finalOnly st
  ∧ V3._detectCycle (V3_noted st) = V3._detectCycle st
  ∧ V3._cell (V3_noted st) = V3._cell st
  ∧ V3.hashState (V3_noted st) = V3.hashState st.
Proof.
  unfold V3_noted. destruct (V3._detectCycle st) eqn:Hd; repeat split; done.
Qed.

Lemma V3_next_noted st :
  V3_next (V3_noted st)
  = (if V3._detectCycle st
     then V3.set_history ({[V3.hashState st]} ∪ V3._history st) (V3_next st)
     else V3_next st).
Proof. unfold V3_noted. by destruct (V3._detectCycle st). Qed.

Lemma V3_loop_go n i st :
  (V3._detectCycle st = false ∨ V3.hashState st ∉ V3._history st) →
  V3.start_loop (S n) i st =
    let st' := V3_next (V3_noted st) in
    if negb (V3._detectCycle st) && (V3.hashState st =? V3.hashState st')
    then mkResult (StaticNotice (i + 1)
                   :: (if V3._finalOnly st then V3.frame (i + 1) st' else []))
                  st' StoppedStatic (i + 1)
    else if V3_empty_check st'
    then mkResult (EmptyNotice (i + 1)
                   :: (if V3._finalOnly st then V3.frame (i + 1) st' else []))
                  st' StoppedEmpty (i + 1)
    else emit (if negb (V3._finalOnly st) || (i =? V3._steps st - 1)
               then V3.frame (i + 1) st' else [])
              (V3.start_loop n (i + 1) st').
Proof.
  intros Hgo. cbn [V3.start_loop].
  assert (V3._detectCycle st
          && bool_decide (V3.hashState st ∈ V3._history st) = false) as ->.
  { destruct Hgo as [->|Hnin]; [done|].
    rewrite bool_decide_eq_false_2 by done. by rewrite andb_false_r. }
  clear Hgo. unfold V3_noted.
  destruct st as [r c s f d cell nxt h]. cbn [V3._detectCycle].
  destruct d; reflexivity.
Qed.

Lemma V3_next_wf st : V3_wf st → V3_wf (V3_next st).
Proof.
  intros [Hr Hc Hcell Hnext]. split; try done.
  change (V3._cell (V3_next st)) with (V3._nextCycle (V3.step st)).
  by rewrite V3_step_length.
Qed.

Lemma V3_hashState_ext st st' :
  V3._row st = V3._row st' → V3._col st = V3._col st' →
  V3._cell st = V3._cell st' → V3.hashState st = V3.hashState st'.
Proof. unfold V3.hashState. by intros -> -> ->. Qed.

(** *** The all-dead board *)

Lemma V3_at_dead rows cols idx : V3.at_ (dead rows cols) idx = false.
Proof.
  unfold V3.at_, dead.
  destruct (replicate _ _ !! _) as [c|] eqn:Hc; [|done].
  by apply lookup_replicate in Hc as [-> _].
Qed.

Lemma live_neighbours_none rows cols i j :
  live_neighbours (λ _ _, false) rows cols i j = 0.
Proof. by rewrite live_neighbours_tally. Qed.

Lemma V3_next_dead st :
  V3_wf st → V3._cell st = dead (V3._row st) (V3._col st) →
  V3._cell (V3_next st) = dead (V3._row st) (V3._col st).
Proof.
  intros Hwf Hdead. change (V3._cell (V3_next st)) with (V3._nextCycle (V3.step st)).
  apply list_eq. intros p. unfold dead at 1.
  destruct (decide (p < Z.to_nat (V3._row st * V3._col st))%nat) as [Hp|Hp].
  - rewrite lookup_replicate_2 by done.
    destruct (index_decomp _ _ _ (V3_wf_cols _ Hwf) Hp)
      as (i & j & Hi & Hj & ->).
    rewrite V3_step_lookup by (done || apply Hwf).
    rewrite V3_count_at by done. rewrite Hdead, V3_at_dead.
    rewrite (live_neighbours_ext _ (λ _ _, false))
      by (done || (intros; apply V3_at_dead)).
    by rewrite live_neighbours_none.
  - rewrite !lookup_ge_None_2; [done| |].
    + rewrite length_replicate. lia.
    + rewrite V3_step_length, (V3_wf_next _ Hwf). lia.
Qed.

Lemma V3_gen_dead k st :
  V3_wf st → V3._cell st = dead (V3._row st) (V3._col st) →
  V3_wf (V3_gen k st) ∧ V3._row (V3_gen k st) = V3._row st
  ∧ V3._col (V3_gen k st) = V3._col st
  ∧ V3._cell (V3_gen k st) = dead (V3._row st) (V3._col st).
Proof.
  intros Hwf Hdead. induction k as [|k (Hwfk & Hr & Hc & Hcell)]; [done|].
  change (V3_gen (S k) st) with (V3_next (V3_gen k st)).
  split; [by apply V3_next_wf|]. split; [done|]. split; [done|].
  rewrite <- Hr, <- Hc. apply V3_next_dead; [done|]. by rewrite Hr, Hc.
Qed.

Lemma no_live_dead rows cols : V3.no_live (dead rows cols) = true.
Proof. apply no_live_Forall. unfold dead. by apply Forall_replicate. Qed.

(** On the all-dead board the static test of variant 3 fires before the
    empty test is reached. *)
Lemma C6_counterexample :
  let st := V3_board 2 2 1 false false (dead 2 2) (dead 2 2) in
  V3_wf st
  ∧ V3._detectCycle st = false
  ∧ stop (V3.start st) = StoppedStatic
  ∧ stop (V3.start st) ≠ StoppedEmpty
  ∧ out (V3.start st)
    = [Header 0; Board [false; false; false; false]; StaticNotice 1].
Proof.
  cbv zeta. split; [|split; [|split; [|split]]].
  - split; vm_compute; reflexivity.
  - reflexivity.
  - vm_compute. reflexivity.
  - vm_compute. discriminate.
  - vm_compute. reflexivity.
Qed.

(** C6, as the code has it.  For [rows > 0] and [cols > 0] the all-dead
    board stays all-dead after any number of transitions and its
    fingerprint never changes; a run on it of at least one step stops at
    generation 1: as a static board when cycle detection is disabled (the
    static test comes first), as an empty board when it is enabled. *)
Theorem C6_all_dead (st : V3.state) :
  V3_wf st → 0 < V3._steps st → V3._history st = ∅ →
  V3._cell st = dead (V3._row st) (V3._col st) →
  (∀ k, V3._cell (V3_gen k st) = dead (V3._row st) (V3._col st))
  ∧ (∀ k, V3.hashState (V3_gen k st) = V3.hashState st)
  ∧ (V3._detectCycle st = false →
       stop (V3.start st) = StoppedStatic
       ∧ generation (V3.start st) = 1
       ∧ out (V3.start st)
         = (if V3._finalOnly st then [] else V3.frame 0 st)
           ++ StaticNotice 1
              :: (if V3._finalOnly st then V3.frame 1 (V3_next st) else []))
  ∧ (V3._detectCycle st = true →
       stop (V3.start st) = StoppedEmpty
       ∧ generation (V3.start st) = 1
       ∧ notices (out (V3.start st)) = [EmptyNotice 1]).
Proof.
  intros Hwf Hsteps Hhist Hdead.
  assert (Hhash : V3.hashState (V3_next st) = V3.hashState st).
  { apply V3_hashState_ext; [done..|]. by rewrite V3_next_dead. }
  split; [|split; [|split]].
  - intros k. by apply V3_gen_dead.
  - intros k. destruct (V3_gen_dead k st Hwf Hdead) as (_ & Hr & Hc & Hcell).
    apply V3_hashState_ext; [done..|]. by rewrite Hcell.
  - intros Hd. unfold V3.start.
    destruct (Z.to_nat (V3._steps st)) as [|n] eqn:Hn; [lia|].
    rewrite V3_loop_go by auto. cbn zeta.
    assert (V3_noted st = st) as -> by (unfold V3_noted; by rewrite Hd).
    rewrite Hd, Hhash, Z.eqb_refl. cbn [negb andb].
    unfold emit. cbn [out stop generation].
    repeat split; try done. by destruct (V3._finalOnly st).
  - intros Hd. unfold V3.start.
    destruct (Z.to_nat (V3._steps st)) as [|n] eqn:Hn; [lia|].
    rewrite V3_loop_go by (right; rewrite Hhist; set_solver). cbn zeta.
    rewrite Hd. cbn [negb andb].
    assert (V3_empty_check (V3_next (V3_noted st)) = true) as ->.
    { unfold V3_empty_check, V3.isEmptyBoard.
      rewrite V3_next_noted, Hd. cbn [V3._cell V3.set_history].
      rewrite V3_next_dead by done. by rewrite no_live_dead, orb_true_r. }
    unfold emit. cbn [out stop generation].
    repeat split; try done. by destruct (V3._finalOnly st).
Qed.

(** *** The empty-board stop *)

Lemma emit_stop {S B : Type} (ls : list (line B)) (r : result S B) :
  stop (emit ls r) = stop r ∧ final (emit ls r) = final r
  ∧ generation (emit ls r) = generation r ∧ out (emit ls r) = ls ++ out r.
Proof. done. Qed.

Lemma V3_loop_cases st :
  (V3._detectCycle st = true ∧ V3.hashState st ∈ V3._history st)
  ∨ (V3._detectCycle st = false ∨ V3.hashState st ∉ V3._history st).
Proof.
  destruct (V3._detectCycle st); [|by right; left].
  destruct (decide (V3.hashState st ∈ V3._history st)); [by left|].
  right. by right.
Qed.

(** A stop with the empty-board notice happens on a board that passes the
    empty test, after at least one transition. *)
Lemma V3_loop_empty_sound n i st :
  stop (V3.start_loop n i st) = StoppedEmpty →
  V3_empty_check (final (V3.start_loop n i st)) = true
  ∧ i < generation (V3.start_loop n i st)
  ∧ EmptyNotice (generation (V3.start_loop n i st))
    ∈ out (V3.start_loop n i st).
Proof.
  revert i st. induction n as [|n IH]; intros i st; [done|].
  destruct (V3_loop_cases st) as [[Hd Hin]|Hgo]; cycle 1.
  - rewrite V3_loop_go by done. cbn zeta.
    destruct (negb _ && _); [done|].
    destruct (V3_empty_check _) eqn:Hchk.
    + cbn [stop final generation out]. intros _.
      split; [done|]. split; [lia|]. by left.
    + rewrite !(proj1 (emit_stop _ _)). intros Hstop.
      destruct (IH _ _ Hstop) as (Hc & Hg & Hout).
      cbn [emit final generation out]. split; [done|]. split; [lia|].
      apply elem_of_app. by right.
  - by rewrite V3_loop_cycle.
Qed.

(** A board that passes the empty test is never run past: the loop ends on
    it with the empty-board notice, unless the static test, which comes
    first and is made only without cycle detection, has already ended it. *)
Lemma V3_loop_empty_complete n i st :
  V3_empty_check st = false
  ∨ ((0 < n)%nat
     ∧ (V3._detectCycle st = false ∨ V3.hashState st ∉ V3._history st)) →
  V3_empty_check (final (V3.start_loop n i st)) = true →
  stop (V3.start_loop n i st) = StoppedEmpty
  ∨ (stop (V3.start_loop n i st) = StoppedStatic
     ∧ V3._detectCycle st = false).
Proof.
  revert i st. induction n as [|n IH]; intros i st Hpre.
  { cbn [V3.start_loop final]. intros Hc.
    destruct Hpre as [Hne|[? _]]; [congruence|lia]. }
  destruct (V3_loop_cases st) as [[Hd Hin]|Hgo]; cycle 1.
  - rewrite V3_loop_go by done. cbn zeta.
    destruct (negb _ && _) eqn:Hstatic.
    + intros _. right. split; [done|].
      apply andb_true_iff in Hstatic as [Hd _].
      by apply negb_true_iff in Hd.
    + destruct (V3_empty_check (V3_next (V3_noted st))) eqn:Hchk.
      * intros _. by left.
      * rewrite !(proj1 (emit_stop _ _)).
        cbn [emit final]. intros Hc.
        destruct (IH (i + 1) _ (or_introl Hchk) Hc) as [?|[? Hd]]; [by left|].
        right. split; [done|]. rewrite <- Hd. symmetry.
        apply V3_noted_flags.
  - rewrite V3_loop_cycle by done.
    cbn [final]. intros Hc.
    destruct Hpre as [Hne|[_ [?|?]]]; [congruence..|done].
Qed.

Lemma V3_loop_static_detect n i st :
  stop (V3.start_loop n i st) = StoppedStatic → V3._detectCycle st = false.
Proof.
  revert i st. induction n as [|n IH]; intros i st; [done|].
  destruct (V3_loop_cases st) as [[Hd Hin]|Hgo]; cycle 1.
  - rewrite V3_loop_go by done. cbn zeta.
    destruct (negb _ && _) eqn:Hstatic.
    + intros _. apply andb_true_iff in Hstatic as [Hd _].
      by apply negb_true_iff in Hd.
    + destruct (V3_empty_check _); [done|].
      cbn [emit stop]. intros Hd%IH. rewrite <- Hd. symmetry.
      apply V3_noted_flags.
  - by rewrite V3_loop_cycle.
Qed.

(** One boundary: the board after the transition has no live cell, and the
    static test does not apply or does not fire. *)
Lemma V3_loop_empty_boundary n i st :
  V3._detectCycle st = false ∨ V3.hashState st ∉ V3._history st →
  V3._detectCycle st = true
  ∨ V3.hashState st ≠ V3.hashState (V3_next (V3_noted st)) →
  V3.isEmptyBoard (V3_next (V3_noted st)) = true →
  stop (V3.start_loop (S n) i st) = StoppedEmpty
  ∧ generation (V3.start_loop (S n) i st) = i + 1
  ∧ EmptyNotice (i + 1) ∈ out (V3.start_loop (S n) i st).
Proof.
  intros Hgo Hns Hempty. rewrite V3_loop_go by done. cbn zeta.
  assert (negb (V3._detectCycle st)
          && (V3.hashState st =? V3.hashState (V3_next (V3_noted st)))
          = false) as ->.
  { destruct Hns as [->|Hne]; [done|].
    apply Z.eqb_neq in Hne. rewrite Hne. apply andb_false_r. }
  unfold V3_empty_check. rewrite Hempty, orb_true_r.
  cbn [stop generation out]. repeat split. by left.
Qed.

(** With cycle detection disabled, a board that was all dead before the
    transition is all dead after it: the run stops as static and prints no
    empty-board notice. *)
Lemma C5_counterexample :
  let st := V3_board 3 3 2 false false (dead 3 3) (dead 3 3) in
  V3._detectCycle st = false
  ∧ V3.isEmptyBoard (V3_next st) = true
  ∧ final (V3.start st) = V3_next st
  ∧ stop (V3.start st) = StoppedStatic
  ∧ notices (out (V3.start st)) = [StaticNotice 1].
Proof.
  cbv zeta. split; [reflexivity|]. repeat split; vm_compute; reflexivity.
Qed.

(** C5, as the code has it.  For a run of at least one step started with
    an empty visited set: the empty test of [isEmptyBoard] holds exactly of
    a buffer with no live cell; when the final board's fingerprint is not 0,
    the run stops with the empty-board notice iff that board has no live
    cell and the run was not stopped as static, which happens only without
    cycle detection; the notice carries the generation reached; and at every
    boundary that is reached, with cycle detection or without, a board left
    with no live cell by the transition stops the run there unless the
    static test fires. *)
Theorem C5_empty_stop (st : V3.state) :
  0 < V3._steps st → V3._history st = ∅ →
  let r := V3.start st in
  (V3.isEmptyBoard (final r) = true
     ↔ Forall (λ c, c = false) (V3._cell (final r)))
  ∧ (V3.hashState (final r) ≠ 0 →
       (stop r = StoppedEmpty
        ↔ V3.isEmptyBoard (final r) = true ∧ stop r ≠ StoppedStatic))
  ∧ (stop r = StoppedStatic → V3._detectCycle st = false)
  ∧ (stop r = StoppedEmpty →
       1 ≤ generation r ∧ EmptyNotice (generation r) ∈ out r)
  ∧ (∀ n i st',
       V3._detectCycle st' = false ∨ V3.hashState st' ∉ V3._history st' →
       V3._detectCycle st' = true
       ∨ V3.hashState st' ≠ V3.hashState (V3_next (V3_noted st')) →
       V3.isEmptyBoard (V3_next (V3_noted st')) = true →
       stop (V3.start_loop (S n) i st') = StoppedEmpty
       ∧ generation (V3.start_loop (S n) i st') = i + 1
       ∧ EmptyNotice (i + 1) ∈ out (V3.start_loop (S n) i st')).
Proof.
  intros Hsteps Hhist r.
  assert (Hpre : V3_empty_check st = false
    ∨ ((0 < Z.to_nat (V3._steps st))%nat
       ∧ (V3._detectCycle st = false
          ∨ V3.hashState st ∉ V3._history st))).
  { right. split; [lia|]. right. rewrite Hhist. set_solver. }
  subst r. unfold V3.start. cbn [emit final stop generation out].
  set (r := V3.start_loop (Z.to_nat (V3._steps st)) 0 st) in *.
  split; [apply no_live_Forall|]. split; [|split; [|split]].
  - intros Hnz. split.
    + intros Hstop. split; [|congruence].
      destruct (V3_loop_empty_sound _ _ _ Hstop) as (Hchk & _).
      unfold V3_empty_check in Hchk. apply orb_true_iff in Hchk as [Hz|?]; [|done].
      by apply Z.eqb_eq in Hz.
    + intros [Hempty Hns].
      destruct (V3_loop_empty_complete _ 0 st Hpre) as [?|[? _]]; [|done..].
      unfold V3_empty_check. fold r. by rewrite Hempty, orb_true_r.
  - apply V3_loop_static_detect.
  - intros Hstop. destruct (V3_loop_empty_sound _ _ _ Hstop) as (_ & Hg & Hout).
    fold r in Hg, Hout. split; [lia|]. apply elem_of_app. by right.
  - intros n i st'. apply V3_loop_empty_boundary.
Qed.

(** The other half of the empty test, [currHash == 0], does fire on boards
    that are not empty: on [zero_ring] the first transition leaves 62 live
    cells and a fingerprint of 0, and the run stops with the empty-board
    notice. *)
Lemma V3_zero_fingerprint_stop :
  let st := V3_board 1 128 1 false false zero_ring (dead 1 128) in
  V3_wf st
  ∧ stop (V3.start st) = StoppedEmpty
  ∧ final (V3.start st) = V3_next st
  ∧ V3.hashState (V3_next st) = 0
  ∧ V3.isEmptyBoard (V3_next st) = false
  ∧ length (filter (λ c, c = true) (V3._cell (V3_next st))) = 62%nat.
Proof.
  cbv zeta. split; [split; vm_compute; reflexivity|].
  repeat split; vm_compute; reflexivity.
Qed.

(** *** The static-board stop *)

Lemma V3_noted_off st : V3._detectCycle st = false → V3_noted st = st.
Proof. intros Hd. unfold V3_noted. by rewrite Hd. Qed.

Lemma V3_loop_static_boundary n i st :
  V3._detectCycle st = false →
  V3.hashState st = V3.hashState (V3_next st) →
  V3.start_loop (S n) i st
  = mkResult (StaticNotice (i + 1)
              :: (if V3._finalOnly st then V3.frame (i + 1) (V3_next st)
                  else []))
             (V3_next st) StoppedStatic (i + 1).
Proof.
  intros Hd Heq. rewrite V3_loop_go by auto. cbn zeta.
  rewrite V3_noted_off by done. by rewrite Hd, <- Heq, Z.eqb_refl.
Qed.

Lemma V3_loop_static_run n i st :
  V3._detectCycle st = false →
  ∃ t : nat,
    (t ≤ n)%nat
    ∧ generation (V3.start_loop n i st) = i + Z.of_nat t
    ∧ final (V3.start_loop n i st) = V3_gen t st
    ∧ (∀ k, (k + 1 < t)%nat →
         V3.hashState (V3_gen k st) ≠ V3.hashState (V3_gen (k + 1) st))
    ∧ (stop (V3.start_loop n i st) = StoppedStatic
       ↔ (1 ≤ t)%nat
         ∧ V3.hashState (V3_gen (t - 1) st) = V3.hashState (V3_gen t st))
    ∧ (stop (V3.start_loop n i st) = StoppedStatic →
       StaticNotice (i + Z.of_nat t) ∈ out (V3.start_loop n i st)).
Proof.
  revert i st. induction n as [|n IH]; intros i st Hd.
  { exists 0%nat. cbn [V3.start_loop generation final stop].
    repeat split; try done; lia. }
  rewrite V3_loop_go by auto. cbn zeta. rewrite V3_noted_off by done.
  rewrite Hd. cbn [negb andb].
  destruct (Z.eqb_spec (V3.hashState st) (V3.hashState (V3_next st)))
    as [Heq|Hne].
  { exists 1%nat. cbn [generation final stop out].
    repeat split; try done; try lia. by left. }
  destruct (V3_empty_check (V3_next st)).
  { exists 1%nat. cbn [generation final stop out].
    repeat split; try done; try lia. by intros [_ ?]. }
  destruct (IH (i + 1) (V3_next st) Hd)
    as (t & Ht & Hgen & Hfin & Hdiff & Hstatic & Hnote).
  exists (S t). cbn [emit generation final stop out].
  split; [lia|]. split; [lia|]. split; [by rewrite V3_gen_S|].
  split; [|split].
  - intros [|k] Hk; [done|].
    replace (S k + 1)%nat with (S (k + 1)) by lia.
    rewrite !V3_gen_S. apply Hdiff. lia.
  - rewrite Hstatic. replace (S t - 1)%nat with t by lia.
    rewrite V3_gen_S. split.
    + intros [Hge Heq]. split; [lia|].
      destruct t as [|t]; [lia|].
      replace (S t - 1)%nat with t in Heq by lia. by rewrite V3_gen_S.
    + intros [_ Heq]. destruct t as [|t]; [done|]. split; [lia|].
      replace (S t - 1)%nat with t by lia. by rewrite V3_gen_S in Heq.
  - intros Hs. apply elem_of_app. right.
    replace (i + Z.of_nat (S t)) with (i + 1 + Z.of_nat t) by lia. auto.
Qed.

(** ** The driver of variant 1 *)

Lemma V1_next_set_history h st :
  V1_next (V1.set_history h st) = V1.set_history h (V1_next st).
Proof. reflexivity. Qed.

Lemma V1_gen_S k st : V1_gen (S k) st = V1_gen k (V1_next st).
Proof. unfold V1_gen. by rewrite Nat.iter_succ_r. Qed.

Lemma V1_gen_set_history k h st :
  V1_gen k (V1.set_history h st) = V1.set_history h (V1_gen k st).
Proof.
  revert st. induction k as [|k IH]; intros st; [done|].
  by rewrite !V1_gen_S, V1_next_set_history, IH.
Qed.

Lemma V1_loop_cases st :
  (V1._detectCycle st = true ∧ V1.hashState st ∈ V1._history st)
  ∨ (V1._detectCycle st = false ∨ V1.hashState st ∉ V1._history st).
Proof.
  destruct (V1._detectCycle st); [|by right; left].
  destruct (decide (V1.hashState st ∈ V1._history st)); [by left|].
  right. by right.
Qed.

Lemma V1_loop_cycle n i st :
  V1._detectCycle st = true → V1.hashState st ∈ V1._history st →
  V1.start_loop (S n) i st = mkResult [CycleNotice None] st StoppedByCycle i.
Proof.
  intros Hd Hin. cbn [V1.start_loop]. by rewrite Hd, bool_decide_eq_true_2.
Qed.

Lemma V1_loop_go n i st :
  V1._detectCycle st = false ∨ V1.hashState st ∉ V1._history st →
  V1.start_loop (S n) i st =
    let st' := V1_next (V1_noted st) in
    emit (if negb (V1._finalOnly st) || (i =? V1._steps st - 1)
          then V1.frame (i + 1) st' else [])
         (V1.start_loop n (i + 1) st').
Proof.
  intros Hgo. cbn [V1.start_loop].
  assert (V1._detectCycle st
          && bool_decide (V1.hashState st ∈ V1._history st) = false) as ->.
  { destruct Hgo as [->|Hnin]; [done|].
    rewrite bool_decide_eq_false_2 by done. by rewrite andb_false_r. }
  clear Hgo. unfold V1_noted.
  destruct st as [r c s f d cell nxt off h]. cbn [V1._detectCycle].
  destruct d; reflexivity.
Qed.

Lemma V1_noted_off st : V1._detectCycle st = false → V1_noted st = st.
Proof. intros Hd. unfold V1_noted. by rewrite Hd. Qed.

(** Without cycle detection variant 1 has no reason to stop early. *)
Lemma V1_loop_no_detect n i st :
  V1._detectCycle st = false →
  stop (V1.start_loop n i st) = Completed
  ∧ generation (V1.start_loop n i st) = i + Z.of_nat n
  ∧ final (V1.start_loop n i st) = V1_gen n st
  ∧ notices (out (V1.start_loop n i st)) = [].
Proof.
  revert i st. induction n as [|n IH]; intros i st Hd.
  { cbn. repeat split; try done. lia. }
  rewrite V1_loop_go by auto. cbn zeta. rewrite V1_noted_off by done.
  destruct (IH (i + 1) (V1_next st) Hd) as (Hs & Hg & Hf & Hn).
  cbn [emit stop generation final out].
  split; [done|]. split; [lia|]. split; [by rewrite V1_gen_S|].
  unfold notices in *. rewrite filter_app, Hn.
  by destruct (negb _ || _).
Qed.

(** A 2 × 2 board of variant 1, all dead: the fingerprint is the same
    before and after every transition, cycle detection is disabled, and
    the run makes both requested steps and prints all three frames. *)
Lemma C4_counterexample :
  let g := [[false; false]; [false; false]] in
  let st := V1.mkState 2 2 2 false false g g V1.neighborOffset ∅ in
  V1._detectCycle st = false
  ∧ V1.hashState st = V1.hashState (V1_next st)
  ∧ stop (V1.start st) = Completed
  ∧ generation (V1.start st) = 2
  ∧ out (V1.start st)
    = [Header 0; Board g; Header 1; Board g; Header 2; Board g].
Proof.
  cbv zeta. split; [reflexivity|]. repeat split; vm_compute; reflexivity.
Qed.

(** C4, as the code has it.  In variant 3 with cycle detection disabled:
    whenever the fingerprint is the same before and after a transition the
    loop ends there as static, at the generation just reached; so a run
    ends after some number [t] of transitions none of which but possibly
    the last left the fingerprint unchanged, and it ends as static exactly
    when the last one did.  Variant 1 has no static test: without cycle
    detection it always makes all the requested steps. *)
Theorem C4_static_stop :
  (∀ n i st,
     V3._detectCycle st = false →
     V3.hashState st = V3.hashState (V3_next st) →
     stop (V3.start_loop (S n) i st) = StoppedStatic
     ∧ generation (V3.start_loop (S n) i st) = i + 1
     ∧ final (V3.start_loop (S n) i st) = V3_next st
     ∧ StaticNotice (i + 1) ∈ out (V3.start_loop (S n) i st))
  ∧ (∀ st,
     V3._detectCycle st = false →
     ∃ t : nat,
       Z.of_nat t ≤ Z.max 0 (V3._steps st)
       ∧ generation (V3.start st) = Z.of_nat t
       ∧ final (V3.start st) = V3_gen t st
       ∧ (∀ k, (k + 1 < t)%nat →
            V3.hashState (V3_gen k st) ≠ V3.hashState (V3_gen (k + 1) st))
       ∧ (stop (V3.start st) = StoppedStatic
          ↔ (1 ≤ t)%nat
            ∧ V3.hashState (V3_gen (t - 1) st) = V3.hashState (V3_gen t st))
       ∧ (stop (V3.start st) = StoppedStatic →
          StaticNotice (Z.of_nat t) ∈ out (V3.start st)))
  ∧ (∀ st,
     V1._detectCycle st = false →
     stop (V1.start st) = Completed
     ∧ generation (V1.start st) = Z.max 0 (V1._steps st)
     ∧ notices (out (V1.start st)) = []).
Proof.
  split; [|split].
  - intros n i st Hd Heq. rewrite V3_loop_static_boundary by done.
    cbn [stop generation final out]. repeat split. by left.
  - intros st Hd. unfold V3.start.
    destruct (V3_loop_static_run (Z.to_nat (V3._steps st)) 0 st Hd)
      as (t & Ht & Hgen & Hfin & Hdiff & Hstatic & Hnote).
    exists t. cbn [emit generation final stop out].
    split; [lia|]. split; [lia|]. split; [done|]. split; [done|].
    split; [done|]. intros Hs. apply elem_of_app. right.
    rewrite Z.add_0_l in Hnote. auto.
  - intros st Hd. unfold V1.start.
    destruct (V1_loop_no_detect (Z.to_nat (V1._steps st)) 0 st Hd)
      as (Hs & Hg & _ & Hn).
    cbn [emit generation stop out]. split; [done|]. split; [lia|].
    unfold notices in *. rewrite filter_app, Hn.
    by destruct (V1._finalOnly st).
Qed.

(** *** Cycle detection in variant 1 *)

Lemma V1_fps_set_history t h st :
  V1_fps t (V1.set_history h st) = V1_fps t st.
Proof.
  revert st. induction t as [|t IH]; intros st; [done|].
  cbn [V1_fps]. by rewrite V1_next_set_history, IH.
Qed.

Lemma V1_set_history_id st : V1.set_history (V1._history st) st = st.
Proof. by destruct st. Qed.

Lemma notices_app {B : Type} (l1 l2 : list (line B)) :
  notices (l1 ++ l2) = notices l1 ++ notices l2.
Proof. apply filter_app. Qed.

Lemma V1_loop_detect n i st :
  V1._detectCycle st = true →
  ∃ t : nat,
    (t ≤ n)%nat
    ∧ generation (V1.start_loop n i st) = i + Z.of_nat t
    ∧ final (V1.start_loop n i st)
      = V1.set_history (list_to_set (V1_fps t st) ∪ V1._history st)
                       (V1_gen t st)
    ∧ NoDup (V1_fps t st)
    ∧ (∀ x, x ∈ V1_fps t st → x ∉ V1._history st)
    ∧ ((stop (V1.start_loop n i st) = StoppedByCycle
        ∧ (t < n)%nat
        ∧ V1.hashState (V1_gen t st)
          ∈ (list_to_set (V1_fps t st) ∪ V1._history st : gset Z)
        ∧ notices (out (V1.start_loop n i st)) = [CycleNotice None])
       ∨ (stop (V1.start_loop n i st) = Completed
          ∧ t = n
          ∧ notices (out (V1.start_loop n i st)) = [])).
Proof.
  revert i st. induction n as [|n IH]; intros i st Hd.
  { exists 0%nat. cbn [V1.start_loop V1_fps V1_gen Nat.iter
                      generation final stop out list_to_set].
    rewrite (left_id_L ∅ (∪)), V1_set_history_id.
    split; [lia|]. split; [lia|]. split; [done|]. split; [constructor|].
    split; [intros x Hx; by apply elem_of_nil in Hx|]. by right. }
  destruct (V1_loop_cases st) as [[_ Hin]|Hgo].
  { exists 0%nat. rewrite V1_loop_cycle by done.
    cbn [V1_fps V1_gen Nat.iter generation final stop out list_to_set].
    rewrite (left_id_L ∅ (∪)), V1_set_history_id.
    split; [lia|]. split; [lia|]. split; [done|]. split; [constructor|].
    split; [intros x Hx; by apply elem_of_nil in Hx|].
    left. repeat split; try done. lia. }
  assert (Hfresh : V1.hashState st ∉ V1._history st)
    by (destruct Hgo; [congruence|done]).
  rewrite V1_loop_go by done. cbn zeta.
  unfold V1_noted. rewrite Hd.
  set (H' := {[V1.hashState st]} ∪ V1._history st).
  rewrite V1_next_set_history.
  destruct (IH (i + 1) (V1.set_history H' (V1_next st)) Hd)
    as (t & Ht & Hgen & Hfin & Hnd & Hnew & Hend).
  rewrite V1_fps_set_history, V1_gen_set_history in *.
  cbn [V1._history V1.set_history] in Hnew, Hend, Hfin.
  exists (S t). cbn [emit generation final stop out V1_fps list_to_set].
  rewrite V1_gen_S.
  assert (Hset : list_to_set (V1_fps t (V1_next st)) ∪ H'
                 = {[V1.hashState st]} ∪ list_to_set (V1_fps t (V1_next st))
                   ∪ V1._history st)
    by (subst H'; by rewrite (assoc_L (∪)), (comm_L (∪) (list_to_set _))).
  split; [lia|]. split; [lia|]. split; [|split; [|split]].
  - rewrite Hfin. cbn [V1.set_history V1._row V1._col V1._steps V1._finalOnly
                       V1._detectCycle V1._cell V1._nextCycle
                       V1._neighborOffset V1._history].
    by rewrite Hset.
  - constructor; [|done]. intros Hx. apply Hnew in Hx.
    apply Hx, elem_of_union_l. by apply elem_of_singleton.
  - intros x [->|Hx]%elem_of_cons; [done|].
    apply Hnew in Hx. intros Hin. by apply Hx, elem_of_union_r.
  - rewrite notices_app.
    assert (notices (if negb (V1._finalOnly st) || (i =? V1._steps st - 1)
                     then V1.frame (i + 1) (V1.set_history H' (V1_next st))
                     else []) = []) as -> by (by destruct (negb _ || _)).
    cbn [app]. rewrite <- Hset.
    destruct Hend as [(Hs & Hlt & Hin & Hn)|(Hs & -> & Hn)].
    + left. repeat split; try done. lia.
    + right. by repeat split.
Qed.

(** ** The driver of variant 2 *)

Lemma V2_step_set_history h st :
  V2.step (V2.set_history h st) = V2.set_history h (V2.step st).
Proof. reflexivity. Qed.

Lemma V2_gen_S k st : V2_gen (S k) st = V2_gen k (V2.step st).
Proof. unfold V2_gen. by rewrite Nat.iter_succ_r. Qed.

Lemma V2_gen_set_history k h st :
  V2_gen k (V2.set_history h st) = V2.set_history h (V2_gen k st).
Proof.
  revert st. induction k as [|k IH]; intros st; [done|].
  by rewrite !V2_gen_S, V2_step_set_history, IH.
Qed.

Lemma V2_fps_set_history t h st :
  V2_fps t (V2.set_history h st) = V2_fps t st.
Proof.
  revert st. induction t as [|t IH]; intros st; [done|].
  cbn [V2_fps]. by rewrite V2_step_set_history, IH.
Qed.

Lemma V2_set_history_id st : V2.set_history (V2._history st) st = st.
Proof. by destruct st. Qed.

Lemma V2_loop_cases st :
  (V2._detectCycle st = true
   ∧ V2.hashState (V2.step st) ∈ V2._history st)
  ∨ (V2._detectCycle st = false
     ∨ V2.hashState (V2.step st) ∉ V2._history st).
Proof.
  destruct (V2._detectCycle st); [|by right; left].
  destruct (decide (V2.hashState (V2.step st) ∈ V2._history st)); [by left|].
  right. by right.
Qed.

Lemma V2_loop_cycle n t steps pfo st :
  V2._detectCycle st = true →
  V2.hashState (V2.step st) ∈ V2._history st →
  V2.run_loop (S n) t steps pfo st
  = mkResult (CycleNotice (Some t)
              :: (if pfo then [Board (V2._grid (V2.step st))] else []))
             (V2.step st) StoppedByCycle t.
Proof.
  intros Hd Hin. cbn [V2.run_loop].
  change (V2._detectCycle (V2.step st)) with (V2._detectCycle st).
  change (V2._history (V2.step st)) with (V2._history st).
  by rewrite Hd, bool_decide_eq_true_2.
Qed.

Lemma V2_loop_go n t steps pfo st :
  V2._detectCycle st = false
  ∨ V2.hashState (V2.step st) ∉ V2._history st →
  V2.run_loop (S n) t steps pfo st =
    let st' := V2_noted (V2.step st) in
    emit (if negb pfo then V2.frame t st' else [])
         (V2.run_loop n (t + 1) steps pfo st').
Proof.
  intros Hgo. cbn [V2.run_loop].
  change (V2._detectCycle (V2.step st)) with (V2._detectCycle st).
  change (V2._history (V2.step st)) with (V2._history st).
  assert (V2._detectCycle st
          && bool_decide (V2.hashState (V2.step st) ∈ V2._history st)
          = false) as ->.
  { destruct Hgo as [->|Hnin]; [done|].
    rewrite bool_decide_eq_false_2 by done. by rewrite andb_false_r. }
  unfold V2_noted.
  change (V2._detectCycle (V2.step st)) with (V2._detectCycle st).
  by destruct (V2._detectCycle st).
Qed.

Lemma V2_loop_detect n t steps pfo st :
  V2._detectCycle st = true →
  ∃ m k : nat,
    (m ≤ n)%nat
    ∧ final (V2.run_loop n t steps pfo st)
      = V2.set_history (list_to_set (V2_fps m st) ∪ V2._history st)
                       (V2_gen k st)
    ∧ NoDup (V2_fps m st)
    ∧ (∀ x, x ∈ V2_fps m st → x ∉ V2._history st)
    ∧ ((stop (V2.run_loop n t steps pfo st) = StoppedByCycle
        ∧ (m < n)%nat ∧ k = S m
        ∧ generation (V2.run_loop n t steps pfo st) = t + Z.of_nat m
        ∧ V2.hashState (V2_gen k st)
          ∈ (list_to_set (V2_fps m st) ∪ V2._history st : gset Z)
        ∧ notices (out (V2.run_loop n t steps pfo st))
          = [CycleNotice (Some (t + Z.of_nat m))])
       ∨ (stop (V2.run_loop n t steps pfo st) = Completed
          ∧ m = n ∧ k = n
          ∧ generation (V2.run_loop n t steps pfo st) = t + Z.of_nat n - 1
          ∧ notices (out (V2.run_loop n t steps pfo st)) = [])).
Proof.
  revert t st. induction n as [|n IH]; intros t st Hd.
  { exists 0%nat, 0%nat.
    cbn [V2.run_loop V2_fps V2_gen Nat.iter
         generation final stop out list_to_set].
    rewrite (left_id_L ∅ (∪)), V2_set_history_id.
    split; [lia|]. split; [done|]. split; [constructor|].
    split; [intros x Hx; by apply elem_of_nil in Hx|].
    right. repeat split; try done; try lia. by destruct pfo. }
  destruct (V2_loop_cases st) as [[_ Hin]|Hgo].
  { exists 0%nat, 1%nat. rewrite V2_loop_cycle by done.
    cbn [V2_fps V2_gen Nat.iter generation final stop out list_to_set].
    rewrite (left_id_L ∅ (∪)).
    change (V2._history st) with (V2._history (V2.step st)) at 1.
    rewrite V2_set_history_id.
    split; [lia|]. split; [done|]. split; [constructor|].
    split; [intros x Hx; by apply elem_of_nil in Hx|].
    left. rewrite Z.add_0_r. repeat split; try done; try lia.
    by destruct pfo. }
  assert (Hfresh : V2.hashState (V2.step st) ∉ V2._history st)
    by (destruct Hgo; [congruence|done]).
  rewrite V2_loop_go by done. cbn zeta.
  unfold V2_noted.
  change (V2._detectCycle (V2.step st)) with (V2._detectCycle st).
  change (V2._history (V2.step st)) with (V2._history st).
  rewrite Hd.
  set (H' := {[V2.hashState (V2.step st)]} ∪ V2._history st).
  destruct (IH (t + 1) (V2.set_history H' (V2.step st)) Hd)
    as (m & k & Hm & Hfin & Hnd & Hnew & Hend).
  rewrite V2_fps_set_history, V2_gen_set_history in *.
  cbn [V2._history V2.set_history] in Hnew, Hend, Hfin.
  exists (S m), (S k).
  cbn [emit generation final stop out V2_fps list_to_set].
  rewrite V2_gen_S.
  assert (Hset : list_to_set (V2_fps m (V2.step st)) ∪ H'
                 = {[V2.hashState (V2.step st)]}
                   ∪ list_to_set (V2_fps m (V2.step st))
                   ∪ V2._history st)
    by (subst H'; by rewrite (assoc_L (∪)), (comm_L (∪) (list_to_set _))).
  split; [lia|]. split; [|split; [|split]].
  - rewrite Hfin.
    cbn [V2.set_history V2._row V2._col V2._finalOnly V2._detectCycle
         V2._expectedSteps V2._grid V2._next V2._prevR V2._nextR
         V2._prevC V2._nextC V2._baseHash V2._history].
    by rewrite Hset.
  - constructor; [|done]. intros Hx. apply Hnew in Hx.
    apply Hx, elem_of_union_l. by apply elem_of_singleton.
  - intros x [->|Hx]%elem_of_cons; [done|].
    apply Hnew in Hx. intros Hin. by apply Hx, elem_of_union_r.
  - rewrite notices_app.
    assert (notices (if negb pfo
                     then V2.frame t (V2.set_history H' (V2.step st))
                     else []) = []) as -> by (by destruct pfo).
    cbn [app]. rewrite <- Hset.
    destruct Hend as [(Hs & Hlt & -> & Hg & Hin & Hn)|(Hs & -> & -> & Hg & Hn)].
    + left. repeat split; try done; try lia.
      rewrite Hn. do 3 f_equal. lia.
    + right. repeat split; try done; lia.
Qed.

Lemma V1_loop_history_mono n i st :
  V1._history st ⊆ V1._history (final (V1.start_loop n i st)).
Proof.
  revert i st. induction n as [|n IH]; intros i st; [done|].
  destruct (V1_loop_cases st) as [[Hd Hin]|Hgo].
  { by rewrite V1_loop_cycle. }
  rewrite V1_loop_go by done. cbn zeta. cbn [emit final].
  etrans; [|apply IH].
  change (V1._history (V1_next (V1_noted st)))
    with (V1._history (V1_noted st)).
  unfold V1_noted. destruct (V1._detectCycle st); [|done].
  apply union_subseteq_r.
Qed.

Lemma V2_loop_history_mono n t steps pfo st :
  V2._history st ⊆ V2._history (final (V2.run_loop n t steps pfo st)).
Proof.
  revert t st. induction n as [|n IH]; intros t st; [done|].
  destruct (V2_loop_cases st) as [[Hd Hin]|Hgo].
  { by rewrite V2_loop_cycle. }
  rewrite V2_loop_go by done. cbn zeta. cbn [emit final].
  etrans; [|apply IH].
  unfold V2_noted.
  change (V2._detectCycle (V2.step st)) with (V2._detectCycle st).
  destruct (V2._detectCycle st); [|done].
  apply union_subseteq_r.
Qed.

(** The fingerprints of the first [t] examined generations, cut at
    generation [j]. *)
Lemma V1_fps_split (j t : nat) st :
  (j < t)%nat →
  V1_fps t st
  = V1_fps j st
    ++ V1.hashState (V1_gen j st) :: V1_fps (t - S j) (V1_gen (S j) st).
Proof.
  revert t st. induction j as [|j IH]; intros t st Hjt.
  - destruct t as [|t]; [lia|]. cbn [V1_fps app].
    replace (S t - 1)%nat with t by lia. done.
  - destruct t as [|t]; [lia|]. cbn [V1_fps app].
    rewrite (IH t (V1_next st)) by lia.
    replace (S t - S (S j))%nat with (t - S j)%nat by lia.
    by rewrite <- !V1_gen_S.
Qed.

Lemma V2_fps_split (j t : nat) st :
  (j < t)%nat →
  V2_fps t st
  = V2_fps j st
    ++ V2.hashState (V2_gen (S j) st) :: V2_fps (t - S j) (V2_gen (S j) st).
Proof.
  revert t st. induction j as [|j IH]; intros t st Hjt.
  - destruct t as [|t]; [lia|]. cbn [V2_fps app].
    replace (S t - 1)%nat with t by lia. done.
  - destruct t as [|t]; [lia|]. cbn [V2_fps app].
    rewrite (IH t (V2.step st)) by lia.
    replace (S t - S (S j))%nat with (t - S j)%nat by lia.
    by rewrite <- !V2_gen_S.
Qed.

(** Fingerprints that were all new when they were inserted: none of them
    was in the visited set, or among the earlier ones, when its generation
    was examined. *)
Lemma V1_fps_fresh (j t : nat) st :
  NoDup (V1_fps t st) → (∀ x, x ∈ V1_fps t st → x ∉ V1._history st) →
  (j < t)%nat →
  V1.hashState (V1_gen j st)
  ∉ (list_to_set (V1_fps j st) ∪ V1._history st : gset Z).
Proof.
  intros Hnd Hnew Hjt. rewrite (V1_fps_split j t) in Hnd, Hnew by done.
  apply NoDup_app in Hnd as (_ & Hdisj & _).
  intros [Hin|Hin]%elem_of_union.
  - apply elem_of_list_to_set in Hin. apply (Hdisj _ Hin).
    apply elem_of_cons. by left.
  - apply (Hnew (V1.hashState (V1_gen j st))); [|done].
    apply elem_of_app. right. apply elem_of_cons. by left.
Qed.

Lemma V2_fps_fresh (j t : nat) st :
  NoDup (V2_fps t st) →
  (∀ x, x ∈ V2_fps t st → x ≠ V2.hashState st ∧ x ∉ V2._history st) →
  (j < t)%nat →
  V2.hashState (V2_gen (S j) st)
  ∉ (list_to_set (V2.hashState st :: V2_fps j st) ∪ V2._history st : gset Z).
Proof.
  intros Hnd Hnew Hjt. rewrite (V2_fps_split j t) in Hnd, Hnew by done.
  apply NoDup_app in Hnd as (_ & Hdisj & _).
  assert (Hx : V2.hashState (V2_gen (S j) st)
               ∈ V2_fps j st
                 ++ V2.hashState (V2_gen (S j) st)
                    :: V2_fps (t - S j) (V2_gen (S j) st)).
  { apply elem_of_app. right. apply elem_of_cons. by left. }
  destruct (Hnew _ Hx) as [Hne Hnin].
  intros [Hin|Hin]%elem_of_union; [|done].
  apply elem_of_list_to_set, elem_of_cons in Hin as [Heq|Hin]; [done|].
  apply (Hdisj _ Hin). apply elem_of_cons. by left.
Qed.

(** A 2 × 2 board, all dead, with cycle detection and one step requested.
    The board of generation 1 has the fingerprint of generation 0, which
    is in the visited set by then.  Variant 1 never examines generation 1:
    its run completes and prints no notice.  Variant 2 on the same board
    stops with the notice at generation 1. *)
Lemma C3_counterexample :
  let g := [[false; false]; [false; false]] in
  let st := V1.mkState 2 2 1 false true g g V1.neighborOffset ∅ in
  let st2 := V2_board 2 2 false true [0; 0; 0; 0] in
  (V1._detectCycle st = true
   ∧ generation (V1.start st) = 1
   ∧ V1.hashState (V1_gen 1 st) = V1.hashState st
   ∧ V1._history (final (V1.start st)) = {[V1.hashState st]}
   ∧ V1.hashState (final (V1.start st))
     ∈ V1._history (final (V1.start st))
   ∧ stop (V1.start st) = Completed
   ∧ notices (out (V1.start st)) = [])
  ∧ (stop (V2.run st2 1 false) = StoppedByCycle
     ∧ generation (V2.run st2 1 false) = 1
     ∧ notices (out (V2.run st2 1 false)) = [CycleNotice (Some 1)]).
Proof.
  cbv zeta. split.
  - split; [reflexivity|]. split; [by vm_compute|].
    split; [by vm_compute|]. split; [by vm_compute|]. split.
    + apply (bool_decide_unpack _). by vm_compute.
    + split; by vm_compute.
  - repeat split; by vm_compute.
Qed.

(** C3, as the code has it.  With cycle detection enabled, a run of
    variant 1 and a run of variant 2 make some number of transitions and
    then either stop with the cycle-detected notice, on the first examined
    board whose fingerprint is already in the visited set, or complete.
    The visited set at the end is the one of the start with the
    fingerprints of all earlier generations added; each of these was new
    when it was inserted, so they are pairwise distinct; and the set only
    ever grows, over any number of turns of the loop from any state.
    Variant 1 examines the generations [0 .. steps - 1], each at the start
    of the next turn: it stops on a cycle iff one of them has a fingerprint
    already present, and the generation [steps] is never examined.  Variant
    2 examines the generations [1 .. steps], each as soon as it is made. *)
Theorem C3_cycle_detection :
  (∀ st,
     V1._detectCycle st = true →
     ∃ t : nat,
       Z.of_nat t ≤ Z.max 0 (V1._steps st)
       ∧ generation (V1.start st) = Z.of_nat t
       ∧ final (V1.start st)
         = V1.set_history (list_to_set (V1_fps t st) ∪ V1._history st)
                          (V1_gen t st)
       ∧ NoDup (V1_fps t st)
       ∧ (∀ x, x ∈ V1_fps t st → x ∉ V1._history st)
       ∧ ((stop (V1.start st) = StoppedByCycle
           ∧ Z.of_nat t < V1._steps st
           ∧ V1.hashState (V1_gen t st)
             ∈ (list_to_set (V1_fps t st) ∪ V1._history st : gset Z)
           ∧ notices (out (V1.start st)) = [CycleNotice None])
          ∨ (stop (V1.start st) = Completed
             ∧ Z.of_nat t = Z.max 0 (V1._steps st)
             ∧ notices (out (V1.start st)) = [])))
  ∧ (∀ st steps pfo,
     V2._detectCycle st = true →
     ∃ m k : nat,
       Z.of_nat m ≤ Z.max 0 steps
       ∧ final (V2.run st steps pfo)
         = V2.set_history
             (list_to_set (V2.hashState st :: V2_fps m st) ∪ V2._history st)
             (V2_gen k st)
       ∧ NoDup (V2_fps m st)
       ∧ (∀ x, x ∈ V2_fps m st →
            x ≠ V2.hashState st ∧ x ∉ V2._history st)
       ∧ ((stop (V2.run st steps pfo) = StoppedByCycle
           ∧ Z.of_nat m < steps ∧ k = S m
           ∧ generation (V2.run st steps pfo) = Z.of_nat k
           ∧ V2.hashState (V2_gen k st)
             ∈ (list_to_set (V2.hashState st :: V2_fps m st)
                ∪ V2._history st : gset Z)
           ∧ notices (out (V2.run st steps pfo))
             = [CycleNotice (Some (Z.of_nat k))])
          ∨ (stop (V2.run st steps pfo) = Completed
             ∧ Z.of_nat m = Z.max 0 steps ∧ k = m
             ∧ generation (V2.run st steps pfo) = Z.of_nat k
             ∧ notices (out (V2.run st steps pfo)) = [])))
  ∧ (∀ n i st, V1._history st ⊆ V1._history (final (V1.start_loop n i st)))
  ∧ (∀ n t steps pfo st,
       V2._history st
       ⊆ V2._history (final (V2.run_loop n t steps pfo st)))
  ∧ (∀ st,
     V1._detectCycle st = true →
     (stop (V1.start st) = StoppedByCycle
      ↔ ∃ j : nat,
          Z.of_nat j < V1._steps st
          ∧ V1.hashState (V1_gen j st)
            ∈ (list_to_set (V1_fps j st) ∪ V1._history st : gset Z)))
  ∧ (∀ st steps pfo,
     V2._detectCycle st = true →
     (stop (V2.run st steps pfo) = StoppedByCycle
      ↔ ∃ j : nat,
          Z.of_nat j < steps
          ∧ V2.hashState (V2_gen (S j) st)
            ∈ (list_to_set (V2.hashState st :: V2_fps j st)
               ∪ V2._history st : gset Z))).
Proof.
  split; [|split; [|split; [|split; [|split]]]].
  - intros st Hd. unfold V1.start.
    destruct (V1_loop_detect (Z.to_nat (V1._steps st)) 0 st Hd)
      as (t & Ht & Hgen & Hfin & Hnd & Hnew & Hend).
    exists t. cbn [emit generation final stop out].
    split; [lia|]. split; [lia|]. split; [done|]. split; [done|].
    split; [done|]. rewrite notices_app.
    assert (notices (if negb (V1._finalOnly st) then V1.frame 0 st else [])
            = []) as -> by (by destruct (V1._finalOnly st)).
    destruct Hend as [(Hs & Hlt & Hin & Hn)|(Hs & -> & Hn)].
    + left. repeat split; try done. lia.
    + right. repeat split; try done. lia.
  - intros st steps pfo Hd. unfold V2.run. rewrite Hd.
    set (H0 := {[V2.hashState st]} ∪ V2._history st).
    destruct (V2_loop_detect (Z.to_nat steps) 1 steps pfo
                (V2.set_history H0 st) Hd)
      as (m & k & Hm & Hfin & Hnd & Hnew & Hend).
    rewrite V2_fps_set_history, V2_gen_set_history in *.
    cbn [V2._history V2.set_history] in Hnew, Hend, Hfin.
    assert (Hset : list_to_set (V2_fps m st) ∪ H0
                   = list_to_set (V2.hashState st :: V2_fps m st)
                     ∪ V2._history st).
    { subst H0. cbn [list_to_set].
      by rewrite (assoc_L (∪)), (comm_L (∪) (list_to_set _)). }
    exists m, k. cbn [emit generation final stop out].
    split; [lia|]. split; [|split; [done|split]].
    + rewrite Hfin.
      cbn [V2.set_history V2._row V2._col V2._finalOnly V2._detectCycle
           V2._expectedSteps V2._grid V2._next V2._prevR V2._nextR
           V2._prevC V2._nextC V2._baseHash V2._history].
      by rewrite Hset.
    + intros x Hx. apply Hnew in Hx. split.
      * intros ->. apply Hx, elem_of_union_l. by apply elem_of_singleton.
      * intros Hin. by apply Hx, elem_of_union_r.
    + rewrite notices_app.
      assert (notices (if negb pfo then V2.frame 0 st else []) = []) as ->
        by (by destruct pfo).
      cbn [app]. rewrite <- Hset.
      destruct Hend as [(Hs & Hlt & -> & Hg & Hin & Hn)
                       |(Hs & -> & -> & Hg & Hn)].
      * left. repeat split; try done; try lia.
        rewrite Hn. do 3 f_equal. lia.
      * right. repeat split; try done; lia.
  - apply V1_loop_history_mono.
  - apply V2_loop_history_mono.
  - intros st Hd. unfold V1.start. cbn [emit stop].
    destruct (V1_loop_detect (Z.to_nat (V1._steps st)) 0 st Hd)
      as (t & Ht & _ & _ & Hnd & Hnew & Hend).
    split.
    + intros Hstop.
      destruct Hend as [(_ & Hlt & Hin & _)|(Hs & _)]; [|congruence].
      exists t. split; [lia|done].
    + intros (j & Hj & Hin).
      destruct Hend as [(Hs & _)|(_ & -> & _)]; [done|].
      exfalso. revert Hin. apply (V1_fps_fresh j _ st Hnd Hnew). lia.
  - intros st steps pfo Hd. unfold V2.run. rewrite Hd. cbn [emit stop].
    set (H0 := {[V2.hashState st]} ∪ V2._history st).
    destruct (V2_loop_detect (Z.to_nat steps) 1 steps pfo
                (V2.set_history H0 st) Hd)
      as (m & k & Hm & _ & Hnd & Hnew & Hend).
    rewrite V2_fps_set_history, V2_gen_set_history in *.
    cbn [V2._history V2.set_history] in Hnew, Hend.
    assert (Hset : ∀ j, list_to_set (V2_fps j st) ∪ H0
                   = list_to_set (V2.hashState st :: V2_fps j st)
                     ∪ V2._history st).
    { intros j. subst H0. cbn [list_to_set].
      by rewrite (assoc_L (∪)), (comm_L (∪) (list_to_set _)). }
    assert (Hnew' : ∀ x, x ∈ V2_fps m st →
                      x ≠ V2.hashState st ∧ x ∉ V2._history st).
    { intros x Hx. apply Hnew in Hx. split.
      - intros ->. apply Hx, elem_of_union_l. by apply elem_of_singleton.
      - intros Hin. by apply Hx, elem_of_union_r. }
    split.
    + intros Hstop.
      destruct Hend as [(_ & Hlt & -> & _ & Hin & _)|(Hs & _)];
        [|congruence].
      exists m. split; [lia|]. by rewrite <- Hset.
    + intros (j & Hj & Hin).
      destruct Hend as [(Hs & _)|(_ & -> & _)]; [done|].
      exfalso. revert Hin.
      apply (V2_fps_fresh j _ st Hnd Hnew'). lia.
Qed.

(** *** The contents of the next buffer do not matter *)

Lemma V1_next_wf st : V1_wf st → V1_wf (V1_next st).
Proof.
  intros [Hr Hc Hcell Hnext Hoff]. split; try done.
  change (V1._cell (V1_next st)) with (V1._nextCycle (V1.step st)).
  by apply V1_step_shape.
Qed.

Lemma grid_ext {A : Type} rows cols (g g' : list (list A)) :
  grid_shape rows cols g → grid_shape rows cols g' →
  (∀ i j, 0 ≤ i < rows → 0 ≤ j < cols →
     g !! Z.to_nat i ≫= (.!! Z.to_nat j)
     = g' !! Z.to_nat i ≫= (.!! Z.to_nat j)) →
  g = g'.
Proof.
  intros [Hlen Hall] [Hlen' Hall'] Hext. apply list_eq. intros a.
  destruct (decide (a < Z.to_nat rows)%nat) as [Ha|Ha].
  - destruct (lookup_lt_is_Some_2 g a) as [r Hr]; [lia|].
    destruct (lookup_lt_is_Some_2 g' a) as [r' Hr']; [lia|].
    rewrite Hr, Hr'. f_equal. apply list_eq. intros b.
    pose proof (Forall_lookup_1 _ _ _ _ Hall Hr) as Hrl.
    pose proof (Forall_lookup_1 _ _ _ _ Hall' Hr') as Hrl'.
    cbn beta in Hrl, Hrl'.
    destruct (decide (b < Z.to_nat cols)%nat) as [Hb|Hb].
    + specialize (Hext (Z.of_nat a) (Z.of_nat b) ltac:(lia) ltac:(lia)).
      by rewrite !Nat2Z.id, Hr, Hr' in Hext.
    + rewrite !lookup_ge_None_2; [done|lia..].
  - rewrite !lookup_ge_None_2; [done|lia..].
Qed.

Lemma V1_count_at_ext st st' i j :
  V1._row st = V1._row st' → V1._col st = V1._col st' →
  V1._cell st = V1._cell st' →
  V1._neighborOffset st = V1._neighborOffset st' →
  V1.count_at st i j = V1.count_at st' i j.
Proof. unfold V1.count_at. by intros -> -> -> ->. Qed.

Lemma V1_next_same_board st st' :
  V1_same_board st st' → V1_same_board (V1_next st) (V1_next st').
Proof.
  intros (Hwf & Hwf' & Hr & Hc & Hcell).
  split; [by apply V1_next_wf|]. split; [by apply V1_next_wf|].
  split; [done|]. split; [done|].
  change (V1._nextCycle (V1.step st) = V1._nextCycle (V1.step st')).
  apply (grid_ext (V1._row st) (V1._col st)).
  - apply V1_step_shape, Hwf.
  - rewrite Hr, Hc. apply V1_step_shape, Hwf'.
  - intros i j Hi Hj.
    rewrite (V1_step_lookup2 st) by (done || apply Hwf).
    rewrite (V1_step_lookup2 st'); [|lia|lia|apply Hwf'].
    rewrite Hcell. do 2 f_equal. apply V1_count_at_ext; try done.
    by rewrite (V1_wf_offsets _ Hwf), (V1_wf_offsets _ Hwf').
Qed.

Lemma V1_gen_same_board k st st' :
  V1_same_board st st' → V1_same_board (V1_gen k st) (V1_gen k st').
Proof.
  intros Hsame. induction k as [|k IH]; [done|].
  by apply V1_next_same_board in IH.
Qed.

Lemma V1_hashState_ext st st' :
  V1._row st = V1._row st' → V1._col st = V1._col st' →
  V1._cell st = V1._cell st' → V1.hashState st = V1.hashState st'.
Proof. unfold V1.hashState. by intros -> -> ->. Qed.

Lemma V1_same_board_hash st st' :
  V1_same_board st st' → V1.hashState st = V1.hashState st'.
Proof. intros (_ & _ & Hr & Hc & Hcell). by apply V1_hashState_ext. Qed.

(** *** The blinker *)

Lemma V1_period2_check_spec st :
  V1_period2_check st = true →
  length (filter (λ c, c = true) (concat (V1._cell st))) = 3%nat
  ∧ V1._cell (V1_gen 2 st) = V1._cell st
  ∧ V1._cell (V1_gen 1 st) ≠ V1._cell st
  ∧ V1.hashState (V1_gen 2 st) = V1.hashState st
  ∧ V1.hashState (V1_gen 1 st) ≠ V1.hashState st.
Proof.
  unfold V1_period2_check. rewrite !andb_true_iff, !negb_true_iff.
  rewrite !bool_decide_eq_true, bool_decide_eq_false, Z.eqb_eq, Z.eqb_neq.
  tauto.
Qed.

Lemma blinker_check_all :
  forallb (λ p, blinker_check true p && blinker_check false p)
          (pairs (seqZ 0 6) (seqZ 0 6)) = true.
Proof. vm_compute. reflexivity. Qed.

Lemma blinker_shape vertical r c : grid_shape 6 6 (blinker vertical r c).
Proof.
  split; [done|]. unfold blinker. apply Forall_fmap, Forall_forall.
  intros i _. cbn. by rewrite length_fmap.
Qed.

(** A board of period two makes variant 1 report a cycle on generation 2,
    when the run is long enough for that generation to be examined. *)
Lemma V1_period2_detect st :
  V1._detectCycle st = true → V1._history st = ∅ → 3 ≤ V1._steps st →
  V1.hashState (V1_gen 1 st) ≠ V1.hashState st →
  V1.hashState (V1_gen 2 st) = V1.hashState st →
  stop (V1.start st) = StoppedByCycle
  ∧ generation (V1.start st) = 2
  ∧ notices (out (V1.start st)) = [CycleNotice None].
Proof.
  intros Hd Hhist Hsteps Hne Heq. unfold V1.start.
  destruct (V1_loop_detect (Z.to_nat (V1._steps st)) 0 st Hd)
    as (t & Ht & Hgen & Hfin & Hnd & Hnew & Hend).
  rewrite Hhist, (right_id_L ∅ (∪)) in Hend.
  cbn [emit stop generation out]. rewrite notices_app.
  assert (notices (if negb (V1._finalOnly st) then V1.frame 0 st else [])
          = []) as -> by (by destruct (V1._finalOnly st)).
  assert (t = 2%nat) as ->.
  { destruct t as [|[|[|t]]]; [| |done|].
    - destruct Hend as [(_ & _ & Hin & _)|(_ & ? & _)]; [|lia].
      cbn in Hin. by apply not_elem_of_empty in Hin.
    - destruct Hend as [(_ & _ & Hin & _)|(_ & ? & _)]; [|lia].
      cbn [V1_fps list_to_set] in Hin.
      rewrite (right_id_L ∅ (∪)) in Hin.
      by apply elem_of_singleton in Hin.
    - cbn [V1_fps] in Hnd. apply NoDup_cons in Hnd as [Hnin _].
      exfalso. apply Hnin. apply elem_of_cons. right.
      apply elem_of_cons. left. by rewrite <- Heq. }
  destruct Hend as [(Hs & _ & _ & Hn)|(_ & ? & _)]; [|lia].
  split; [done|]. split; [lia|done].
Qed.

(** On a run of at most two steps variant 1 never examines generation 2:
    a board of period two goes unnoticed and the run completes. *)
Lemma V1_period2_short st :
  V1._detectCycle st = true → V1._history st = ∅ → V1._steps st ≤ 2 →
  V1.hashState (V1_gen 1 st) ≠ V1.hashState st →
  stop (V1.start st) = Completed
  ∧ generation (V1.start st) = Z.max 0 (V1._steps st)
  ∧ notices (out (V1.start st)) = [].
Proof.
  intros Hd Hhist Hsteps Hne. unfold V1.start.
  destruct (V1_loop_detect (Z.to_nat (V1._steps st)) 0 st Hd)
    as (t & Ht & Hgen & _ & _ & _ & Hend).
  rewrite Hhist, (right_id_L ∅ (∪)) in Hend.
  cbn [emit stop generation out]. rewrite notices_app.
  assert (notices (if negb (V1._finalOnly st) then V1.frame 0 st else [])
          = []) as -> by (by destruct (V1._finalOnly st)).
  destruct Hend as [(_ & Hlt & Hin & _)|(Hs & -> & Hn)].
  - exfalso. destruct t as [|[|t]]; [| |lia].
    + cbn in Hin. by apply not_elem_of_empty in Hin.
    + cbn [V1_fps list_to_set] in Hin.
      rewrite (right_id_L ∅ (∪)) in Hin.
      by apply elem_of_singleton in Hin.
  - split; [done|]. split; [lia|done].
Qed.

(** The upright blinker in the middle of the 6 × 6 torus, with cycle
    detection and two steps requested: the board and the fingerprint of
    generation 2 are those of generation 0, yet the run of variant 1 makes
    both steps, completes and reports no cycle. *)
Lemma C7_counterexample :
  let st := V1_blinker_state 2 false true 2 2
                             (replicate 6 (replicate 6 false)) in
  V1._detectCycle st = true
  ∧ V1._cell (V1_gen 2 st) = V1._cell st
  ∧ V1.hashState (V1_gen 2 st) = V1.hashState st
  ∧ stop (V1.start st) = Completed
  ∧ generation (V1.start st) = 2
  ∧ notices (out (V1.start st)) = [].
Proof.
  cbv zeta. split; [reflexivity|]. repeat split; by vm_compute.
Qed.

(** C7, as the code has it.  A blinker anywhere on the 6 × 6 torus,
    upright or lying, is back to its original configuration after two
    transitions and not after one; its fingerprints at generations 0 and 2
    are equal.  A run of variant 1 with cycle detection examines
    generation 2 at the start of its third turn: with three steps or more
    requested it stops with the cycle notice on generation 2; with two
    steps or fewer it makes all its steps and reports nothing. *)
Theorem C7_blinker (vertical finalOnly : bool) (r c steps : Z)
    (next : list (list bool)) :
  0 ≤ r < 6 → 0 ≤ c < 6 → grid_shape 6 6 next →
  let st := V1_blinker_state steps finalOnly vertical r c next in
  length (filter (λ x, x = true) (concat (V1._cell st))) = 3%nat
  ∧ V1._cell (V1_gen 2 st) = V1._cell st
  ∧ V1._cell (V1_gen 1 st) ≠ V1._cell st
  ∧ V1.hashState (V1_gen 2 st) = V1.hashState st
  ∧ (3 ≤ steps →
     stop (V1.start st) = StoppedByCycle
     ∧ generation (V1.start st) = 2
     ∧ notices (out (V1.start st)) = [CycleNotice None])
  ∧ (steps ≤ 2 →
     stop (V1.start st) = Completed
     ∧ generation (V1.start st) = Z.max 0 steps
     ∧ notices (out (V1.start st)) = []).
Proof.
  intros Hr Hc Hnext st.
  set (st0 := V1_blinker_state 3 false vertical r c
                               (replicate 6 (replicate 6 false))).
  assert (Hsame : V1_same_board st st0).
  { split; [|split; [|repeat split; reflexivity]].
    - split; [reflexivity|reflexivity|apply blinker_shape|exact Hnext
             |reflexivity].
    - split; [reflexivity|reflexivity|apply blinker_shape| |reflexivity].
      split; [reflexivity|]. apply Forall_replicate. reflexivity. }
  assert (Hchk : V1_period2_check st0 = true).
  { pose proof blinker_check_all as Hall. rewrite forallb_forall in Hall.
    specialize (Hall (r, c)). rewrite <- list_elem_of_In in Hall.
    rewrite elem_of_pairs, !elem_of_seqZ in Hall.
    specialize (Hall ltac:(lia)). apply andb_true_iff in Hall as [Hv Hh].
    destruct vertical; [exact Hv|exact Hh]. }
  assert (Hd : V1._detectCycle st = true) by reflexivity.
  assert (Hhist : V1._history st = ∅) by reflexivity.
  assert (Hst : V1._steps st = steps) by reflexivity.
  clearbody st st0.
  apply V1_period2_check_spec in Hchk as (H3 & Hp2 & Hp1 & Hf2 & Hf1).
  pose proof (V1_gen_same_board 1 _ _ Hsame) as Hsame1.
  pose proof (V1_gen_same_board 2 _ _ Hsame) as Hsame2.
  pose proof (V1_same_board_hash _ _ Hsame) as Hh0.
  pose proof (V1_same_board_hash _ _ Hsame1) as Hh1.
  pose proof (V1_same_board_hash _ _ Hsame2) as Hh2.
  destruct Hsame as (_ & _ & _ & _ & Hc0).
  destruct Hsame1 as (_ & _ & _ & _ & Hc1).
  destruct Hsame2 as (_ & _ & _ & _ & Hc2).
  rewrite Hc0, Hc1, Hc2, Hh2, Hh0.
  split; [exact H3|]. split; [exact Hp2|]. split; [exact Hp1|].
  split; [exact Hf2|]. split.
  - intros Hsteps.
    apply V1_period2_detect; [exact Hd|exact Hhist|lia| |].
    + by rewrite Hh1, Hh0.
    + by rewrite Hh2, Hh0.
  - intros Hsteps. rewrite <- Hst.
    apply V1_period2_short; [exact Hd|exact Hhist|lia|].
    by rewrite Hh1, Hh0.
Qed.

(** ** What is rendered *)

Lemma V3_frames_set_history i m h st :
  V3_frames i m (V3.set_history h st) = V3_frames i m st.
Proof.
  revert i st. induction m as [|m IH]; intros i st; [done|].
  cbn [V3_frames]. by rewrite V3_next_set_history, IH.
Qed.

Lemma V2_frames_set_history i m h st :
  V2_frames i m (V2.set_history h st) = V2_frames i m st.
Proof.
  revert i st. induction m as [|m IH]; intros i st; [done|].
  cbn [V2_frames]. by rewrite V2_step_set_history, IH.
Qed.

Lemma V2_frames_noted i m st : V2_frames i m (V2_noted st) = V2_frames i m st.
Proof.
  unfold V2_noted. destruct (V2._detectCycle st); [|done].
  apply V2_frames_set_history.
Qed.

Lemma length_V3_frames i m st : length (V3_frames i m st) = m.
Proof.
  revert i st. induction m as [|m IH]; intros i st; [done|].
  cbn. by rewrite IH.
Qed.

Lemma length_V2_frames i m st : length (V2_frames i m st) = m.
Proof.
  revert i st. induction m as [|m IH]; intros i st; [done|].
  cbn. by rewrite IH.
Qed.

(** Variant 3, every generation rendered. *)
Lemma V3_loop_render_all n i st :
  V3._finalOnly st = false →
  ∃ m : nat,
    V3_rendered (V3.start_loop n i st) = i + Z.of_nat m
    ∧ frames (out (V3.start_loop n i st)) = V3_frames i m st.
Proof.
  revert i st. induction n as [|n IH]; intros i st Hf.
  { exists 0%nat. unfold V3_rendered. cbn. split; [lia|done]. }
  destruct (V3_loop_cases st) as [[Hd Hin]|Hgo].
  { exists 0%nat. rewrite V3_loop_cycle by done. unfold V3_rendered. cbn.
    split; [lia|done]. }
  rewrite V3_loop_go by done. cbn zeta. rewrite Hf. cbn [negb orb].
  destruct (negb _ && _).
  { exists 0%nat. unfold V3_rendered. cbn. split; [lia|done]. }
  destruct (V3_empty_check _).
  { exists 0%nat. unfold V3_rendered. cbn. split; [lia|done]. }
  destruct (IH (i + 1) (V3_next (V3_noted st))) as (m & Hm & Hfr).
  { change (V3._finalOnly (V3_noted st) = false).
    rewrite <- Hf. apply V3_noted_flags. }
  exists (S m). unfold V3_rendered in *.
  cbn [emit stop generation out]. split.
  - rewrite Hm. lia.
  - cbn [V3.frame app]. unfold frames in *. cbn [frames_from V3_frames].
    rewrite Hfr, V3_next_noted.
    destruct (V3._detectCycle st); [|done].
    by rewrite V3_frames_set_history.
Qed.

Lemma V3_loop_completed n i st :
  stop (V3.start_loop n i st) = Completed →
  generation (V3.start_loop n i st) = i + Z.of_nat n.
Proof.
  revert i st. induction n as [|n IH]; intros i st.
  { cbn. lia. }
  destruct (V3_loop_cases st) as [[Hd Hin]|Hgo].
  { by rewrite V3_loop_cycle. }
  rewrite V3_loop_go by done. cbn zeta.
  destruct (negb _ && _); [done|].
  destruct (V3_empty_check _); [done|].
  cbn [emit stop generation]. intros Hs%IH. lia.
Qed.

(** Variant 3, final-only mode. *)
Lemma V3_loop_render_final n i st :
  V3._finalOnly st = true → i + Z.of_nat n = V3._steps st →
  let r := V3.start_loop n i st in
  out r = match stop r with
          | Completed =>
              match n with
              | O => []
              | S _ => V3.frame (V3._steps st) (final r)
              end
          | StoppedByCycle => [CycleNotice (Some (generation r))]
          | StoppedStatic =>
              StaticNotice (generation r)
              :: V3.frame (generation r) (final r)
          | StoppedEmpty =>
              EmptyNotice (generation r)
              :: V3.frame (generation r) (final r)
          end.
Proof.
  revert i st. induction n as [|n IH]; intros i st Hf Hn; [done|].
  cbv zeta. destruct (V3_loop_cases st) as [[Hd Hin]|Hgo].
  { by rewrite V3_loop_cycle. }
  rewrite V3_loop_go by done. cbn zeta. rewrite Hf. cbn [negb orb].
  destruct (negb _ && _); [done|].
  destruct (V3_empty_check _); [done|].
  assert (Hf' : V3._finalOnly (V3_next (V3_noted st)) = true).
  { change (V3._finalOnly (V3_noted st) = true).
    rewrite <- Hf. apply V3_noted_flags. }
  assert (Hs' : V3._steps (V3_next (V3_noted st)) = V3._steps st).
  { change (V3._steps (V3_noted st) = V3._steps st). apply V3_noted_flags. }
  specialize (IH (i + 1) (V3_next (V3_noted st)) Hf' ltac:(lia)).
  cbv zeta in IH. cbn [emit stop generation final out].
  rewrite IH, Hs'. destruct n as [|n].
  - cbn [V3.start_loop stop final].
    destruct (Z.eqb_spec i (V3._steps st - 1)); [|lia].
    replace (i + 1) with (V3._steps st) by lia. done.
  - destruct (Z.eqb_spec i (V3._steps st - 1)); [lia|]. done.
Qed.

(** Variant 2, every generation rendered. *)
Lemma V2_loop_render_all n t steps st :
  ∃ m : nat,
    V2_rendered (V2.run_loop n t steps false st) = t - 1 + Z.of_nat m
    ∧ frames (out (V2.run_loop n t steps false st)) = V2_frames (t - 1) m st.
Proof.
  revert t st. induction n as [|n IH]; intros t st.
  { exists 0%nat. unfold V2_rendered. cbn. split; [lia|done]. }
  destruct (V2_loop_cases st) as [[Hd Hin]|Hgo].
  { exists 0%nat. rewrite V2_loop_cycle by done. unfold V2_rendered. cbn.
    split; [lia|done]. }
  rewrite V2_loop_go by done. cbn zeta. cbn [negb].
  destruct (IH (t + 1) (V2_noted (V2.step st))) as (m & Hm & Hfr).
  exists (S m). unfold V2_rendered in *.
  cbn [emit stop generation out]. split.
  - rewrite Hm. lia.
  - cbn [V2.frame app]. unfold frames in *. cbn [frames_from V2_frames].
    rewrite Hfr, V2_frames_noted.
    replace (t + 1 - 1) with t by lia.
    replace (t - 1 + 1) with t by lia.
    unfold V2_noted. by destruct (V2._detectCycle (V2.step st)).
Qed.

(** Variant 2, final-only mode. *)
Lemma V2_loop_render_final n t steps st :
  let r := V2.run_loop n t steps true st in
  out r = match stop r with
          | Completed => [FinalHeader steps; Board (V2._grid (final r))]
          | _ => [CycleNotice (Some (generation r));
                  Board (V2._grid (final r))]
          end.
Proof.
  revert t st. induction n as [|n IH]; intros t st; [done|].
  cbv zeta. destruct (V2_loop_cases st) as [[Hd Hin]|Hgo].
  { by rewrite V2_loop_cycle. }
  rewrite V2_loop_go by done. cbn zeta.
  cbn [negb emit stop generation final out app]. apply IH.
Qed.

Lemma V2_loop_stops n t steps pfo st :
  let r := V2.run_loop n t steps pfo st in
  (stop r = Completed ∧ generation r = t + Z.of_nat n - 1)
  ∨ stop r = StoppedByCycle.
Proof.
  revert t st. induction n as [|n IH]; intros t st.
  { left. cbn. split; [done|lia]. }
  cbv zeta. destruct (V2_loop_cases st) as [[Hd Hin]|Hgo].
  { right. by rewrite V2_loop_cycle. }
  rewrite V2_loop_go by done. cbn zeta. cbn [emit stop generation].
  destruct (IH (t + 1) (V2_noted (V2.step st))) as [[Hs Hg]|Hs].
  - left. split; [done|]. cbv zeta in Hg. lia.
  - by right.
Qed.

(** In final-only mode variant 2 does display the board on which a cycle
    is detected; and outside final-only mode variant 3 shows one frame
    only for a run that made one transition and stopped as static. *)
Lemma C2_counterexample :
  let st2 := V2_board 2 2 true true [0; 0; 0; 0] in
  let st3 := V3_board 2 2 3 false false (dead 2 2) (dead 2 2) in
  (stop (V2.run st2 3 true) = StoppedByCycle
   ∧ out (V2.run st2 3 true) = [CycleNotice (Some 1); Board [0; 0; 0; 0]]
   ∧ frames (out (V2.run st2 3 true)) = [(None, [0; 0; 0; 0])])
  ∧ (stop (V3.start st3) = StoppedStatic
     ∧ generation (V3.start st3) = 1
     ∧ frames (out (V3.start st3)) = [(Some 0, dead 2 2)]).
Proof.
  cbv zeta. repeat split; vm_compute; reflexivity.
Qed.

(** C2, as the code has it.  Call rendered generations those reached
    without ending the run: all generations made, less the last one when
    its transition triggered the stop (a cycle in variant 2, a static or
    empty board in variant 3).  Outside final-only mode the frames are
    those of generations 0 to the last rendered one, in order, each
    labelled with its number.  In final-only mode a completed run shows
    exactly the final board, labelled with the requested number of steps;
    in variant 3 a cycle stop shows the notice alone and a static or empty
    stop shows the notice and then the board that triggered it, labelled
    with its generation; in variant 2 a cycle stop shows the notice and
    then the board that triggered it, without a label. *)
Theorem C2_rendering :
  (∀ st steps pfo,
     0 ≤ steps →
     let r := V2.run st steps pfo in
     (stop r = Completed ∨ stop r = StoppedByCycle)
     ∧ (stop r = Completed → generation r = steps)
     ∧ (pfo = false →
          frames (out r)
          = (Some 0, V2._grid st)
            :: V2_frames 0 (Z.to_nat (V2_rendered r)) st
          ∧ length (frames (out r)) = Z.to_nat (1 + V2_rendered r))
     ∧ (pfo = true →
          out r = match stop r with
                  | Completed =>
                      [FinalHeader steps; Board (V2._grid (final r))]
                  | _ => [CycleNotice (Some (generation r));
                          Board (V2._grid (final r))]
                  end))
  ∧ (∀ st,
     0 < V3._steps st →
     let r := V3.start st in
     (stop r = Completed → generation r = V3._steps st)
     ∧ (V3._finalOnly st = false →
          frames (out r)
          = (Some 0, V3._cell st)
            :: V3_frames 0 (Z.to_nat (V3_rendered r)) st
          ∧ length (frames (out r)) = Z.to_nat (1 + V3_rendered r))
     ∧ (V3._finalOnly st = true →
          out r = match stop r with
                  | Completed => V3.frame (V3._steps st) (final r)
                  | StoppedByCycle => [CycleNotice (Some (generation r))]
                  | StoppedStatic =>
                      StaticNotice (generation r)
                      :: V3.frame (generation r) (final r)
                  | StoppedEmpty =>
                      EmptyNotice (generation r)
                      :: V3.frame (generation r) (final r)
                  end)).
Proof.
  split.
  - intros st steps pfo Hsteps r. subst r. unfold V2.run.
    set (st0 := if V2._detectCycle st then _ else st).
    assert (Hst0 : st0 = V2_noted st) by done.
    split; [|split; [|split]].
    + cbn [emit stop].
      destruct (V2_loop_stops (Z.to_nat steps) 1 steps pfo st0) as [[? _]|?];
        auto.
    + cbn [emit stop generation]. intros Hs.
      destruct (V2_loop_stops (Z.to_nat steps) 1 steps pfo st0)
        as [[_ Hg]|Hc]; [|cbv zeta in Hc; congruence].
      cbv zeta in Hg. lia.
    + intros ->. cbn [negb].
      destruct (V2_loop_render_all (Z.to_nat steps) 1 steps st0)
        as (m & Hm & Hfr).
      unfold V2_rendered in *. cbn [emit stop generation out].
      rewrite Hm. cbn [V2.frame app]. unfold frames in *.
      cbn [frames_from]. rewrite Hfr, Hst0, V2_frames_noted.
      replace (Z.to_nat (1 - 1 + Z.of_nat m)) with m by lia.
      change (1 - 1) with 0. split; [done|].
      cbn [length]. rewrite length_V2_frames. lia.
    + intros ->. cbn [negb emit stop generation final out app].
      apply V2_loop_render_final.
  - intros st Hsteps r. subst r. unfold V3.start.
    split; [|split].
    + cbn [emit stop generation]. intros Hs%V3_loop_completed. lia.
    + intros Hf. rewrite Hf. cbn [negb].
      destruct (V3_loop_render_all (Z.to_nat (V3._steps st)) 0 st Hf)
        as (m & Hm & Hfr).
      unfold V3_rendered in *. cbn [emit stop generation out].
      rewrite Hm. cbn [V3.frame app]. unfold frames in *.
      cbn [frames_from]. rewrite Hfr.
      replace (Z.to_nat (0 + Z.of_nat m)) with m by lia.
      split; [done|].
      cbn [length]. rewrite length_V3_frames. lia.
    + intros Hf. rewrite Hf. cbn [negb emit stop generation final out app].
      pose proof (V3_loop_render_final (Z.to_nat (V3._steps st)) 0 st Hf
                    ltac:(lia)) as Hout.
      cbv zeta in Hout. rewrite Hout.
      destruct (Z.to_nat (V3._steps st)) eqn:Hn; [lia|done].
Qed.

(** ** Runs with a seed *)

Lemma V2_main_run rng rng_seed bit opt entropy :
  V2.main rng rng_seed bit opt entropy
  = if (V2.steps opt <? 0) || (V2.rows opt <=? 0) || (V2.cols opt <=? 0)
    then None
    else Some (V2.run (V2_engine rng rng_seed bit opt entropy)
                      (V2.steps opt) (V2.finalOnly opt)).
Proof.
  unfold V2.main, V2_engine. destruct (_ || _); [done|].
  by destruct (V2.init _ _ _ _ _ _ _ _).
Qed.

(** Without [--seed] the output does depend on what the entropy source
    returns. *)
Lemma V2_unseeded_differs :
  let opt := V2.mkOptions 0 1 1 false false false 0 in
  V2.main Z id toy_bit opt 0 ≠ V2.main Z id toy_bit opt 1.
Proof. vm_compute. discriminate. Qed.

(** ** What initialisation establishes *)

Lemma alloc_shape row col raw : grid_shape row col (V1.alloc row col raw).
Proof.
  unfold V1.alloc. split; [by rewrite length_fmap, length_seq|].
  apply Forall_fmap, Forall_forall. intros i _. cbn.
  by rewrite length_fmap, length_seq.
Qed.

Lemma alter_insert_shape {A : Type} rows cols (g : list (list A)) i j x :
  grid_shape rows cols g → grid_shape rows cols (alter (<[j := x]>) i g).
Proof.
  intros [Hlen Hall]. split; [by rewrite length_alter|].
  apply Forall_lookup_2. intros a r Hr.
  rewrite list_lookup_alter in Hr. case_decide as Heq.
  - subst a. destruct (g !! i) as [r0|] eqn:Hr0; [|done].
    injection Hr as <-. rewrite length_insert.
    by apply (Forall_lookup_1 _ _ _ _ Hall Hr0).
  - by apply (Forall_lookup_1 _ _ _ _ Hall Hr).
Qed.

Lemma V1_randomize_shape rng bit row col g r :
  grid_shape row col g →
  grid_shape row col (V1.randomize rng bit row col g r).1.
Proof.
  intros Hg. unfold V1.randomize.
  apply (foldl_inv (λ acc, grid_shape row col acc.1)); [done|].
  intros acc i Hacc.
  apply (foldl_inv (λ acc, grid_shape row col acc.1)); [done|].
  intros [g' r'] j Hg'. destruct (bit r') as [b r''].
  by apply alter_insert_shape.
Qed.

Lemma V1_initBoard_wf rng rng_seed bit row col steps f d e raw1 raw2 st :
  V1.initBoard rng rng_seed bit row col steps f d e raw1 raw2 = Some st →
  V1_wf st ∧ V1._history st = ∅ ∧ 0 < V1._steps st
  ∧ V1._row st = row ∧ V1._col st = col ∧ V1._steps st = steps
  ∧ V1._finalOnly st = f ∧ V1._detectCycle st = d.
Proof.
  unfold V1.initBoard.
  destruct (Z.leb_spec row 0); [done|]. destruct (Z.leb_spec col 0); [done|].
  destruct (Z.leb_spec steps 0); [done|]. cbn [orb].
  pose proof (V1_randomize_shape rng bit row col
                (V1.alloc row col raw1) (rng_seed e)
                (alloc_shape row col raw1)) as Hshape.
  destruct (V1.randomize _ _ _ _ _ _) as [cell r'].
  intros [= <-]. split; [|done].
  split; [done|done|exact Hshape|apply alloc_shape|done].
Qed.

Lemma V3_randomize_length rng bit cell r :
  length (V3.randomize rng bit cell r).1 = length cell.
Proof.
  unfold V3.randomize.
  apply (foldl_inv (λ acc, length acc.1 = length cell)); [done|].
  intros [c r'] i Hc. destruct (bit r') as [b r''].
  cbn in *. by rewrite length_insert.
Qed.

Lemma int_of_small x : - 2 ^ 31 ≤ x ≤ int_max → int_of x = x.
Proof.
  unfold int_of, int_max. intros Hx. rewrite Z.mod_small by lia. lia.
Qed.

Lemma V3_initBoard_wf rng rng_seed bit row col steps f d e st :
  row * col ≤ int_max →
  V3.initBoard rng rng_seed bit row col steps f d e = inr st →
  V3_wf st ∧ V3._history st = ∅ ∧ 0 < V3._steps st
  ∧ V3._row st = row ∧ V3._col st = col ∧ V3._steps st = steps
  ∧ V3._finalOnly st = f ∧ V3._detectCycle st = d.
Proof.
  intros Hfit. unfold V3.initBoard.
  destruct (Z.leb_spec row 0); [done|]. destruct (Z.leb_spec col 0); [done|].
  destruct (Z.leb_spec steps 0); [done|]. cbn [orb].
  rewrite int_of_small by (unfold int_max in *; nia). cbv zeta.
  destruct (row * col <? 0); [done|].
  pose proof (V3_randomize_length rng bit
                (replicate (Z.to_nat (row * col)) false) (rng_seed e))
    as Hlen.
  destruct (V3.randomize _ _ _ _) as [cell r'].
  destruct (d && _); [done|].
  intros [= <-]. cbn in Hlen. rewrite length_replicate in Hlen.
  split; [|done]. split; [done|done|exact Hlen|].
  cbn. by rewrite length_replicate.
Qed.

Lemma V2_randomize_spec rng bit N g r :
  (∀ r, (bit r).1 = 0 ∨ (bit r).1 = 1) →
  Forall (λ c, c = 0 ∨ c = 1) g →
  length (V2.randomize rng bit N g r).1 = length g
  ∧ Forall (λ c, c = 0 ∨ c = 1) (V2.randomize rng bit N g r).1.
Proof.
  intros Hbit Hg. unfold V2.randomize.
  apply (foldl_inv (λ acc, length acc.1 = length g
                           ∧ Forall (λ c, c = 0 ∨ c = 1) acc.1)); [done|].
  intros [g' r'] i [Hlen Hall]. pose proof (Hbit r') as Hb.
  destruct (bit r') as [b r'']. cbn in *. split.
  - by rewrite length_insert.
  - apply Forall_insert; [done|]. by destruct Hb as [-> | ->]; [left|right].
Qed.

Lemma V2_init_wf rng bit expected rows cols f d r :
  (∀ r, (bit r).1 = 0 ∨ (bit r).1 = 1) → 0 < rows → 0 < cols →
  V2_wf (V2.init rng bit expected rows cols f d r).1
  ∧ V2._history (V2.init rng bit expected rows cols f d r).1 = ∅
  ∧ V2._baseHash (V2.init rng bit expected rows cols f d r).1
    = hash_combine (hash_combine hash_seed (u64 rows)) (u64 cols).
Proof.
  intros Hbit Hr Hc. unfold V2.init.
  destruct (V2_randomize_spec rng bit (rows * cols)
              (replicate (Z.to_nat (rows * cols)) 0) r Hbit)
    as [Hlen Hall].
  { apply Forall_replicate. by left. }
  destruct (V2.randomize _ _ _ _ _) as [grid r'].
  cbn in *. rewrite length_replicate in Hlen.
  split; [|done]. split; cbn; try done. by rewrite length_replicate.
Qed.

(** ** Nothing is read from uninitialised memory (variant 1) *)

Lemma V1_noted_same_run st st' :
  V1_same_run st st' → V1_same_run (V1_noted st) (V1_noted st').
Proof.
  intros (Hsame & Hs & Hf & Hd & Hh).
  pose proof (V1_same_board_hash _ _ Hsame) as Hhash.
  unfold V1_noted. rewrite <- Hd, <- Hhash, <- Hh.
  destruct (V1._detectCycle st) eqn:Hdet;
    [|by (split; [done|repeat split; congruence])].
  destruct Hsame as (Hwf & Hwf' & Hr & Hc & Hcell).
  split; [|by (repeat split; cbn; congruence)].
  split; [|split; [|by (repeat split; cbn; congruence)]].
  - destruct Hwf. by split.
  - destruct Hwf'. by split.
Qed.

Lemma V1_next_same_run st st' :
  V1_same_run st st' → V1_same_run (V1_next st) (V1_next st').
Proof.
  intros (Hsame & Hs & Hf & Hd & Hh).
  split; [by apply V1_next_same_board|]. repeat split; cbn; congruence.
Qed.

Lemma V1_loop_same_run n i st st' :
  V1_same_run st st' →
  out (V1.start_loop n i st) = out (V1.start_loop n i st')
  ∧ stop (V1.start_loop n i st) = stop (V1.start_loop n i st')
  ∧ generation (V1.start_loop n i st) = generation (V1.start_loop n i st')
  ∧ V1_same_run (final (V1.start_loop n i st))
                (final (V1.start_loop n i st')).
Proof.
  revert i st st'. induction n as [|n IH]; intros i st st' Hrun; [done|].
  pose proof Hrun as (Hsame & Hs & Hf & Hd & Hh).
  pose proof (V1_same_board_hash _ _ Hsame) as Hhash.
  destruct (V1_loop_cases st) as [[Hdet Hin]|Hgo].
  { rewrite !V1_loop_cycle; [done|congruence|congruence|done..]. }
  assert (Hgo' : V1._detectCycle st' = false
                 ∨ V1.hashState st' ∉ V1._history st')
    by (rewrite <- Hd, <- Hhash, <- Hh; done).
  rewrite !V1_loop_go by done. cbn zeta.
  pose proof (V1_next_same_run _ _ (V1_noted_same_run _ _ Hrun)) as Hrun1.
  destruct (IH (i + 1) _ _ Hrun1) as (Ho & Hst & Hg & Hfin).
  cbn [emit out stop generation final].
  rewrite Ho, <- Hs, <- Hf.
  destruct Hrun1 as ((_ & _ & _ & _ & Hcell) & _).
  unfold V1.frame. by rewrite Hcell.
Qed.

(** The board that [initBoard] draws does not depend on what the fresh
    arrays contained. *)
Lemma V1_randomize_agree rng (bit : rng → Z * rng) rows cols
    (ks : list (Z * Z)) (g1 g2 : list (list bool)) (r : rng) :
  grid_shape rows cols g1 → grid_shape rows cols g2 →
  (∀ a b, (∀ k, k ∈ ks → Z.to_nat k.1 ≠ a ∨ Z.to_nat k.2 ≠ b) →
     lookup2 g1 a b = lookup2 g2 a b) →
  let F := λ (acc : list (list bool) * rng) (k : Z * Z),
             let '(g, r) := acc in
             let '(b, r) := bit r in
             (alter (<[Z.to_nat k.2 := (b =? 1)]>) (Z.to_nat k.1) g, r) in
  (foldl F (g1, r) ks).1 = (foldl F (g2, r) ks).1
  ∧ (foldl F (g1, r) ks).2 = (foldl F (g2, r) ks).2.
Proof.
  intros Hs1 Hs2 Hagree F. revert g1 g2 r Hs1 Hs2 Hagree.
  induction ks as [|k ks IH]; intros g1 g2 r Hs1 Hs2 Hagree.
  { cbn. split; [|done]. apply (grid_ext rows cols); [done..|].
    intros i j _ _. apply (Hagree (Z.to_nat i) (Z.to_nat j)).
    intros k Hk. by apply elem_of_nil in Hk. }
  cbn [foldl]. unfold F at 2 4 6 8. destruct (bit r) as [b r'].
  apply IH; [by apply alter_insert_shape..|].
  intros a b0 Hout.
  destruct (decide (Z.to_nat k.1 = a ∧ Z.to_nat k.2 = b0)) as [[<- <-]|Hne].
  - destruct Hs1 as [Hl1 Ha1], Hs2 as [Hl2 Ha2].
    destruct (g1 !! Z.to_nat k.1) as [row1|] eqn:Hr1.
    + destruct (lookup_lt_is_Some_2 g2 (Z.to_nat k.1)) as [row2 Hr2].
      { apply lookup_lt_Some in Hr1. lia. }
      pose proof (Forall_lookup_1 _ _ _ _ Ha1 Hr1) as Hlen1.
      pose proof (Forall_lookup_1 _ _ _ _ Ha2 Hr2) as Hlen2.
      cbn beta in Hlen1, Hlen2. unfold lookup2.
      rewrite !list_lookup_alter_eq, Hr1, Hr2. cbn.
      destruct (decide (Z.to_nat k.2 < Z.to_nat cols)%nat).
      * rewrite !list_lookup_insert_eq by lia. done.
      * rewrite !lookup_ge_None_2; [done|rewrite length_insert; lia..].
    + assert (g2 !! Z.to_nat k.1 = None) as Hr2.
      { apply lookup_ge_None. apply lookup_ge_None in Hr1. lia. }
      unfold lookup2. by rewrite !list_lookup_alter_eq, Hr1, Hr2.
  - rewrite !lookup2_alter_ne by (apply not_and_l in Hne; tauto).
    apply Hagree. intros k' [->|Hk']%elem_of_cons; [|by apply Hout].
    apply not_and_l in Hne. tauto.
Qed.

Lemma V1_randomize_raw rng (bit : rng → Z * rng) row col g1 g2 r :
  grid_shape row col g1 → grid_shape row col g2 →
  (V1.randomize rng bit row col g1 r).1
  = (V1.randomize rng bit row col g2 r).1.
Proof.
  intros Hs1 Hs2. unfold V1.randomize.
  rewrite !(foldl_nested
    (λ (acc : list (list bool) * rng) i j,
       let '(g, r) := acc in
       let '(b, r) := bit r in
       (alter (<[Z.to_nat j := (b =? 1)]>) (Z.to_nat i) g, r))).
  apply (V1_randomize_agree rng bit row col); [done..|].
  intros a b Hout.
  destruct (decide (a < Z.to_nat row ∧ b < Z.to_nat col)%nat) as [[Ha Hb]|Hne].
  - exfalso. destruct (Hout (Z.of_nat a, Z.of_nat b)) as [Hk|Hk].
    + apply elem_of_pairs. rewrite !elem_of_seqZ. lia.
    + cbn in Hk. lia.
    + cbn in Hk. lia.
  - destruct Hs1 as [Hl1 Ha1], Hs2 as [Hl2 Ha2]. unfold lookup2.
    destruct (g1 !! a) as [row1|] eqn:Hr1.
    + destruct (lookup_lt_is_Some_2 g2 a) as [row2 Hr2].
      { apply lookup_lt_Some in Hr1. lia. }
      pose proof (Forall_lookup_1 _ _ _ _ Ha1 Hr1) as Hlen1.
      pose proof (Forall_lookup_1 _ _ _ _ Ha2 Hr2) as Hlen2.
      cbn beta in Hlen1, Hlen2. rewrite Hr2. cbn.
      apply lookup_lt_Some in Hr1.
      rewrite !lookup_ge_None_2; [done|lia..].
    + assert (g2 !! a = None) as ->; [|done].
      apply lookup_ge_None. apply lookup_ge_None in Hr1. lia.
Qed.

Lemma V1_initBoard_same_run rng rng_seed bit row col steps f d e
    raw1 raw2 raw1' raw2' st st' :
  V1.initBoard rng rng_seed bit row col steps f d e raw1 raw2 = Some st →
  V1.initBoard rng rng_seed bit row col steps f d e raw1' raw2' = Some st' →
  V1_same_run st st'.
Proof.
  intros Hst Hst'.
  destruct (V1_initBoard_wf _ _ _ _ _ _ _ _ _ _ _ _ Hst)
    as (Hwf & Hh & _ & Hr & Hc & Hs & Hf & Hd).
  destruct (V1_initBoard_wf _ _ _ _ _ _ _ _ _ _ _ _ Hst')
    as (Hwf' & Hh' & _ & Hr' & Hc' & Hs' & Hf' & Hd').
  split; [|repeat split; congruence].
  split; [done|]. split; [done|]. split; [congruence|]. split; [congruence|].
  unfold V1.initBoard in Hst, Hst'.
  destruct (_ || _); [done|].
  pose proof (V1_randomize_raw rng bit row col
                (V1.alloc row col raw1) (V1.alloc row col raw1')
                (rng_seed e) (alloc_shape _ _ _) (alloc_shape _ _ _)) as Heq.
  destruct (V1.randomize _ _ _ _ (V1.alloc row col raw1) _) as [c1 r1].
  destruct (V1.randomize _ _ _ _ (V1.alloc row col raw1') _) as [c2 r2].
  injection Hst as <-. injection Hst' as <-. done.
Qed.

(** ** Runs are reproducible *)

(** C8.  When a seed is given, everything a run of variant 2 produces, the
    rendered frames and notices, the final engine with its visited
    fingerprints, and the fingerprint of every generation, is the same
    whatever the entropy source would have returned: it is a function of
    the options (steps, rows, cols, flags, seed) alone.  Variant 1 always
    seeds its engine with what [std::random_device] returns; for a given
    value of that seed, and given sizes and flags, two runs print the same
    lines and go through the same fingerprints, whatever the freshly
    allocated arrays contained. *)
Theorem C8_determinism :
  (∀ (rng : Type) (rng_seed : Z → rng) (bit : rng → Z * rng)
     (opt : V2.Options) (entropy1 entropy2 : Z),
     V2.hasSeed opt = true →
     V2.main rng rng_seed bit opt entropy1
     = V2.main rng rng_seed bit opt entropy2
     ∧ (∀ k,
          V2.hashState (V2_gen k (V2_engine rng rng_seed bit opt entropy1))
          = V2.hashState (V2_gen k (V2_engine rng rng_seed bit opt entropy2))))
  ∧ (∀ (rng : Type) (rng_seed : Z → rng) (bit : rng → Z * rng)
       row col steps f d seed raw1 raw2 raw1' raw2' st st',
       V1.initBoard rng rng_seed bit row col steps f d seed raw1 raw2
       = Some st →
       V1.initBoard rng rng_seed bit row col steps f d seed raw1' raw2'
       = Some st' →
       out (V1.start st) = out (V1.start st')
       ∧ stop (V1.start st) = stop (V1.start st')
       ∧ generation (V1.start st) = generation (V1.start st')
       ∧ (∀ k, V1.hashState (V1_gen k st) = V1.hashState (V1_gen k st'))).
Proof.
  split.
  - intros rng rng_seed bit opt entropy1 entropy2 Hseed.
    rewrite !V2_main_run. unfold V2_engine. by rewrite Hseed.
  - intros rng rng_seed bit row col steps f d seed raw1 raw2 raw1' raw2'
           st st' Hst Hst'.
    pose proof (V1_initBoard_same_run _ _ _ _ _ _ _ _ _ _ _ _ _ _ _ Hst Hst')
      as Hrun.
    pose proof Hrun as (Hsame & Hs & Hf & _ & _).
    destruct (V1_loop_same_run (Z.to_nat (V1._steps st)) 0 _ _ Hrun)
      as (Ho & Hstop & Hg & _).
    unfold V1.start. cbn [emit out stop generation].
    rewrite <- Hs, Ho, Hstop, Hg, <- Hf.
    pose proof Hsame as (_ & _ & _ & _ & Hcell).
    unfold V1.frame. rewrite Hcell. repeat split; try done.
    intros k. by apply V1_same_board_hash, V1_gen_same_board.
Qed.

(** ** The fingerprint mixer loses nothing *)

Lemma u64_small x : 0 ≤ x < 2 ^ 64 → u64 x = x.
Proof. intros Hx. unfold u64. by apply Z.mod_small. Qed.

Lemma testbit_above x n : 0 ≤ x < 2 ^ 64 → 64 ≤ n → Z.testbit x n = false.
Proof.
  intros Hx Hn. destruct (decide (x = 0)) as [->|Hne]; [apply Z.bits_0|].
  apply Z.bits_above_log2; [lia|].
  assert (Z.log2 x < 64); [|lia]. apply Z.log2_lt_pow2; lia.
Qed.

Lemma shiftr_range x s : 0 ≤ x < 2 ^ 64 → 0 ≤ s → 0 ≤ Z.shiftr x s < 2 ^ 64.
Proof.
  intros Hx Hs. rewrite Z.shiftr_div_pow2 by done.
  assert (0 < 2 ^ s) by (apply Z.pow_pos_nonneg; lia).
  split; [apply Z.div_pos; lia|].
  apply Z.le_lt_trans with x; [|lia].
  apply Z.div_le_upper_bound; [done|]. nia.
Qed.

(** [x ^ (x >> s)] can be undone, from the top bit down. *)
Lemma xorshift_inj s x y :
  0 < s → 0 ≤ x < 2 ^ 64 → 0 ≤ y < 2 ^ 64 →
  Z.lxor x (Z.shiftr x s) = Z.lxor y (Z.shiftr y s) → x = y.
Proof.
  intros Hs Hx Hy Heq. apply Z.bits_inj'. intros n Hn.
  assert (Hall : ∀ k : nat, ∀ n, 0 ≤ n → 64 - Z.of_nat k ≤ n →
            Z.testbit x n = Z.testbit y n); [|by apply (Hall 64%nat); lia].
  clear n Hn. induction k as [|k IH]; intros n Hn Hk.
  { rewrite !testbit_above by (done || lia). done. }
  pose proof (f_equal (λ z, Z.testbit z n) Heq) as Hbit. cbn beta in Hbit.
  rewrite !Z.lxor_spec, !Z.shiftr_spec in Hbit by done.
  rewrite (IH (n + s)) in Hbit by lia.
  by apply xorb_move_l_r_2 in Hbit; rewrite Hbit, xorb_assoc, xorb_nilpotent, xorb_false_r.
Qed.

Lemma u64_add_inj c x y :
  0 ≤ x < 2 ^ 64 → 0 ≤ y < 2 ^ 64 → u64 (x + c) = u64 (y + c) → x = y.
Proof.
  unfold u64. change (2 ^ 64) with 18446744073709551616. intros Hx Hy Heq.
  pose proof (Z.div_mod (x + c) 18446744073709551616 ltac:(lia)).
  pose proof (Z.div_mod (y + c) 18446744073709551616 ltac:(lia)).
  lia.
Qed.

Lemma u64_mul_inj c cinv x y :
  u64 (c * cinv) = 1 →
  0 ≤ x < 2 ^ 64 → 0 ≤ y < 2 ^ 64 → u64 (x * c) = u64 (y * c) → x = y.
Proof.
  intros Hinv Hx Hy Heq.
  assert (Hback : ∀ z, 0 ≤ z < 2 ^ 64 → u64 (u64 (z * c) * cinv) = z).
  { intros z Hz. unfold u64 in *. rewrite Z.mul_mod_idemp_l by lia.
    rewrite <- Z.mul_assoc, <- Z.mul_mod_idemp_r, Hinv by lia.
    rewrite Z.mul_1_r. by apply Z.mod_small. }
  by rewrite <- (Hback x), <- (Hback y), Heq.
Qed.

Lemma splitmix64_range x : 0 ≤ splitmix64 x < 2 ^ 64.
Proof.
  unfold splitmix64. cbv zeta.
  apply lxor_range; [apply u64_range|].
  apply shiftr_range; [apply u64_range|lia].
Qed.

Lemma splitmix64_inj x y :
  0 ≤ x < 2 ^ 64 → 0 ≤ y < 2 ^ 64 → splitmix64 x = splitmix64 y → x = y.
Proof.
  unfold splitmix64. cbv zeta. intros Hx Hy Heq.
  apply xorshift_inj in Heq; [|lia|apply u64_range..].
  apply (u64_mul_inj _ 0x319642b2d24d8ec3) in Heq;
    [|vm_compute; reflexivity
     |apply lxor_range; [apply u64_range|apply shiftr_range;
                                          [apply u64_range|lia]]..].
  apply xorshift_inj in Heq; [|lia|apply u64_range..].
  apply (u64_mul_inj _ 0x96de1b173f119089) in Heq;
    [|vm_compute; reflexivity
     |apply lxor_range; [apply u64_range|apply shiftr_range;
                                          [apply u64_range|lia]]..].
  apply xorshift_inj in Heq; [|lia|apply u64_range..].
  by apply u64_add_inj in Heq.
Qed.

Lemma lxor_cancel_l h a b : Z.lxor h a = Z.lxor h b → a = b.
Proof.
  intros Heq.
  by rewrite <- (Z.lxor_0_l a), <- (Z.lxor_nilpotent h), Z.lxor_assoc, Heq,
     <- Z.lxor_assoc, Z.lxor_nilpotent, Z.lxor_0_l.
Qed.

Lemma hash_combine_inj h k k' :
  0 ≤ k < 2 ^ 64 → 0 ≤ k' < 2 ^ 64 →
  hash_combine h k = hash_combine h k' → k = k'.
Proof.
  unfold hash_combine. cbv zeta. intros Hk Hk' Heq.
  apply lxor_cancel_l in Heq.
  rewrite <- !Z.add_assoc in Heq.
  apply u64_add_inj in Heq; [|apply splitmix64_range..].
  by apply splitmix64_inj.
Qed.

(** X1.  [splitmix64] maps 64-bit words to 64-bit words and never sends
    two of them to the same value; so, for a given accumulator [h],
    [hash_combine h] gives different results for different 64-bit words. *)
Theorem X1_mixer_injective :
  (∀ x, 0 ≤ splitmix64 x < 2 ^ 64)
  ∧ (∀ x y, 0 ≤ x < 2 ^ 64 → 0 ≤ y < 2 ^ 64 →
       splitmix64 x = splitmix64 y → x = y)
  ∧ (∀ h k k', 0 ≤ k < 2 ^ 64 → 0 ≤ k' < 2 ^ 64 →
       hash_combine h k = hash_combine h k' → k = k').
Proof.
  split; [apply splitmix64_range|].
  split; [apply splitmix64_inj|apply hash_combine_inj].
Qed.

(** ** Boards that fit one word *)

Lemma pack_cons c cs : pack (c :: cs) = 2 * pack cs + Z.b2z c.
Proof.
  cbn [pack]. apply Z.bits_inj'. intros n Hn. rewrite Z.lor_spec.
  destruct (decide (n = 0)) as [->|Hne].
  - rewrite Z.testbit_0_r, Z.b2z_bit0, Z.shiftl_spec_low by lia.
    apply orb_false_r.
  - replace n with (Z.succ (n - 1)) by lia.
    rewrite Z.testbit_succ_r, Z.shiftl_spec by lia.
    replace (Z.succ (n - 1) - 1) with (n - 1) by lia.
    replace (Z.testbit (Z.b2z c) (Z.succ (n - 1))) with false; [done|].
    destruct c; cbn [Z.b2z].
    + symmetry. apply (Z.bits_above_log2 1); cbn; lia.
    + by rewrite Z.testbit_0_l.
Qed.

Lemma pack_range cells : 0 ≤ pack cells < 2 ^ Z.of_nat (length cells).
Proof.
  induction cells as [|c cs IH]; [cbn; lia|].
  rewrite pack_cons. cbn [length].
  rewrite Nat2Z.inj_succ, Z.pow_succ_r by lia.
  destruct c; cbn [Z.b2z]; lia.
Qed.

Lemma pack_inj cells cells' :
  length cells = length cells' → pack cells = pack cells' → cells = cells'.
Proof.
  intros Hlen Heq. apply list_eq. intros k.
  pose proof (pack_testbit cells k) as H1.
  pose proof (pack_testbit cells' k) as H2.
  rewrite Heq, H2 in H1.
  destruct (decide (k < length cells)%nat) as [Hk|Hk].
  - destruct (lookup_lt_is_Some_2 cells k Hk) as [b Hb].
    destruct (lookup_lt_is_Some_2 cells' k ltac:(lia)) as [b' Hb'].
    rewrite Hb, Hb' in *. cbn in H1. by subst.
  - rewrite !lookup_ge_None_2 by lia. done.
Qed.

Lemma words_single cells :
  cells ≠ [] → (length cells ≤ 64)%nat → words cells = [pack cells].
Proof.
  intros Hne Hlen. unfold words.
  destruct cells as [|c cs]; [done|].
  cbn [length chunks]. rewrite take_ge, drop_ge by done.
  by rewrite chunks_nil.
Qed.

Lemma pack_u64 cells : (length cells ≤ 64)%nat → 0 ≤ pack cells < 2 ^ 64.
Proof.
  intros Hlen. pose proof (pack_range cells) as Hr.
  assert (2 ^ Z.of_nat (length cells) ≤ 2 ^ 64)
    by (apply Z.pow_le_mono_r; lia).
  split; [apply Hr|]. eapply Z.lt_le_trans; [apply Hr|done].
Qed.

(** Two groups of cells of the same size, at most 64, combined into the
    same value give the same result only if they are equal. *)
Lemma hash_words_small_inj h cells cells' :
  length cells = length cells' → (length cells ≤ 64)%nat →
  foldl hash_combine h (words cells) = foldl hash_combine h (words cells') →
  cells = cells'.
Proof.
  intros Hlen Hle Heq.
  destruct (decide (cells = [])) as [->|Hne].
  { symmetry. apply nil_length_inv. by rewrite <- Hlen. }
  assert (Hne' : cells' ≠ []).
  { intros ->. apply Hne, nil_length_inv. by rewrite Hlen. }
  rewrite !words_single in Heq by (done || lia).
  apply pack_inj; [done|].
  eapply hash_combine_inj; [| |exact Heq]; apply pack_u64; lia.
Qed.

Lemma fingerprint_small_inj rows cols cells cells' :
  length cells = length cells' → (length cells ≤ 64)%nat →
  fingerprint rows cols cells = fingerprint rows cols cells' →
  cells = cells'.
Proof. apply hash_words_small_inj. Qed.

(** ** Fingerprints: mixing and dimensions *)

Lemma avalanche_spec f xs lo hi i :
  avalanche f xs lo hi = true → 0 ≤ i < 64 →
  (∀ j, 0 ≤ j < 64 →
     ∃ x, x ∈ xs ∧ Z.testbit (f (Z.lxor x (2 ^ i))) j ≠ Z.testbit (f x) j)
  ∧ (∀ x, x ∈ xs →
       lo ≤ popcount (Z.lxor (f (Z.lxor x (2 ^ i))) (f x)) ≤ hi).
Proof.
  unfold avalanche. intros Hall Hi. rewrite forallb_forall in Hall.
  specialize (Hall i). rewrite <- list_elem_of_In, elem_of_seqZ in Hall.
  specialize (Hall ltac:(lia)). cbv zeta in Hall.
  apply andb_true_iff in Hall as [Hbits Hpop]. split.
  - intros j Hj. rewrite forallb_forall in Hbits. specialize (Hbits j).
    rewrite <- list_elem_of_In, elem_of_seqZ in Hbits.
    specialize (Hbits ltac:(lia)).
    apply existsb_exists in Hbits as (m & Hm & Hbit).
    apply list_elem_of_In, list_elem_of_fmap in Hm as (x & -> & Hx).
    exists x. split; [done|]. rewrite Z.lxor_spec in Hbit.
    by destruct (Z.testbit _ j), (Z.testbit _ j).
  - intros x Hx. rewrite forallb_forall in Hpop.
    specialize (Hpop (Z.lxor (f (Z.lxor x (2 ^ i))) (f x))).
    rewrite <- list_elem_of_In in Hpop.
    assert (Hin : Z.lxor (f (Z.lxor x (2 ^ i))) (f x) ∈ flip_masks f xs i).
    { apply list_elem_of_fmap. by exists x. }
    apply Hpop, andb_true_iff in Hin as [Hlo Hhi]. lia.
Qed.

Lemma splitmix64_avalanche : avalanche splitmix64 (seqZ 0 16) 19 45 = true.
Proof. vm_compute. reflexivity. Qed.

Lemma hash_combine_avalanche :
  avalanche (hash_combine hash_seed) (seqZ 0 24) 18 45 = true.
Proof. vm_compute. reflexivity. Qed.

Lemma hash_combine_offset h k :
  hash_combine h k = Z.lxor h (u64 (splitmix64 k + hash_offset h)).
Proof.
  unfold hash_combine, hash_offset. cbv zeta. do 2 f_equal. lia.
Qed.

(** Subtraction through exclusive or: the bits in which [u] and [v] differ
    count with a plus sign where [u] has the one and with a minus sign
    where [v] has it. *)
Lemma sub_lxor u v :
  u - v = Z.lxor u v - 2 * Z.land v (Z.lxor u v).
Proof.
  set (x := Z.lxor u v). set (c := Z.land u v).
  set (m := Z.land u x). set (n := Z.land v x).
  assert (Hu : u = c + m).
  { rewrite Z.add_nocarry_lxor.
    - subst c m x. apply Z.bits_inj'. intros k Hk.
      rewrite !Z.lxor_spec, !Z.land_spec, !Z.lxor_spec.
      by destruct (Z.testbit u k), (Z.testbit v k).
    - subst c m x. apply Z.bits_inj'. intros k Hk.
      rewrite !Z.land_spec, !Z.lxor_spec, Z.bits_0.
      by destruct (Z.testbit u k), (Z.testbit v k). }
  assert (Hv : v = c + n).
  { rewrite Z.add_nocarry_lxor.
    - subst c n x. apply Z.bits_inj'. intros k Hk.
      rewrite !Z.lxor_spec, !Z.land_spec, !Z.lxor_spec.
      by destruct (Z.testbit u k), (Z.testbit v k).
    - subst c n x. apply Z.bits_inj'. intros k Hk.
      rewrite !Z.land_spec, !Z.lxor_spec, Z.bits_0.
      by destruct (Z.testbit u k), (Z.testbit v k). }
  assert (Hx : x = m + n).
  { rewrite Z.add_nocarry_lxor.
    - subst m n x. apply Z.bits_inj'. intros k Hk.
      rewrite !Z.lxor_spec, !Z.land_spec, !Z.lxor_spec.
      by destruct (Z.testbit u k), (Z.testbit v k).
    - subst m n x. apply Z.bits_inj'. intros k Hk.
      rewrite !Z.land_spec, !Z.lxor_spec, Z.bits_0.
      by destruct (Z.testbit u k), (Z.testbit v k). }
  lia.
Qed.

(** If the same word [k] brought [h] and [h'] to the same value, the two
    sums [splitmix64 k + hash_offset _] would differ exactly in the bits of
    [h ^ h'], so twice a part of [h ^ h'] would make up for the difference
    of the offsets: this is what [never_meet] excludes. *)
Lemma never_meet_sound h h' k :
  never_meet h h' = true → hash_combine h k ≠ hash_combine h' k.
Proof.
  unfold never_meet. cbv zeta. intros Htest Heq.
  rewrite !hash_combine_offset in Heq.
  set (m := splitmix64 k) in *.
  set (u := u64 (m + hash_offset h)) in *.
  set (v := u64 (m + hash_offset h')) in *.
  set (x := Z.lxor h h') in *.
  assert (Hx : Z.lxor u v = x).
  { subst x.
    rewrite <- (Z.lxor_0_l v), <- (Z.lxor_nilpotent h'), (Z.lxor_assoc h' h' v).
    rewrite <- Heq. rewrite <- !Z.lxor_assoc.
    rewrite (Z.lxor_comm u h'), (Z.lxor_comm (Z.lxor h' u) h).
    rewrite <- Z.lxor_assoc, (Z.lxor_assoc (Z.lxor h h') u u).
    by rewrite Z.lxor_nilpotent, Z.lxor_0_r. }
  set (n := Z.land v x).
  assert (He : u64 (x - hash_offset h + hash_offset h') = u64 (2 * n)).
  { pose proof (sub_lxor u v) as Hsub. rewrite Hx in Hsub. fold n in Hsub.
    subst u v. unfold u64 in *.
    pose proof (Z.div_mod (m + hash_offset h) (2 ^ 64) ltac:(lia)) as H1.
    pose proof (Z.div_mod (m + hash_offset h') (2 ^ 64) ltac:(lia)) as H2.
    replace (x - hash_offset h + hash_offset h')
      with (2 * n + ((m + hash_offset h') `div` 2 ^ 64
                     - (m + hash_offset h) `div` 2 ^ 64) * 2 ^ 64) by lia.
    by rewrite Z_mod_plus_full. }
  rewrite He in Htest. clear He.
  apply orb_true_iff in Htest as [Hodd|Hbits].
  - unfold u64 in Hodd. rewrite <- Z.bit0_odd in Hodd.
    rewrite Z.mod_pow2_bits_low in Hodd by lia.
    by rewrite Z.testbit_even_0 in Hodd.
  - apply negb_true_iff, Z.eqb_neq in Hbits. apply Hbits.
    apply Z.bits_inj'. intros i Hi.
    rewrite Z.ldiff_spec, Z.shiftr_spec, Z.bits_0 by done.
    unfold u64. destruct (decide (i + 1 < 64)) as [Hlt|Hge].
    + rewrite Z.mod_pow2_bits_low by lia.
      replace (i + 1) with (Z.succ i) by lia.
      rewrite Z.testbit_even_succ by done.
      subst n. rewrite Z.land_spec.
      by destruct (Z.testbit v i), (Z.testbit x i).
    + rewrite Z.mod_pow2_bits_high by lia. done.
Qed.

Lemma one_word_shapes_never_meet :
  forallb (λ p, never_meet (base_hash p.1 p.2) (base_hash p.2 p.1))
          one_word_shapes = true.
Proof. vm_compute. reflexivity. Qed.

(** The fingerprint of a board that fits one word. *)
Lemma V1_hashState_one_word st :
  0 < V1._row st → 0 < V1._col st → V1._row st * V1._col st ≤ 64 →
  grid_shape (V1._row st) (V1._col st) (V1._cell st) →
  V1.hashState st
  = hash_combine (base_hash (V1._row st) (V1._col st))
                 (pack (concat (V1._cell st))).
Proof.
  intros Hr Hc Hsmall Hshape.
  rewrite V1_hashState_fingerprint by (done || lia).
  pose proof (concat_length (V1._row st) (V1._col st) _
                ltac:(lia) ltac:(lia) Hshape) as Hlen.
  unfold fingerprint, base_hash. rewrite words_single; [reflexivity| |lia].
  intros Hnil. rewrite Hnil in Hlen. cbn [length] in Hlen. nia.
Qed.

(** C9.  The fingerprint of a board is a 64-bit value.  [splitmix64] is
    the output function of the SplitMix64 generator: it gives the first
    three outputs of the generator seeded with 0; it is an avalanche
    mixing, in that each of the 64 bits of its argument reaches each of the
    64 bits of its result (for one of the arguments [x ^ 2^i], [x < 16])
    and that flipping one bit of an argument below 16 flips from 19 to 45
    bits of the result.  [hash_combine h k] mixes [k] with [splitmix64] and
    folds it into [h] by an exclusive or with a sum of shifts of [h]; two
    different words give two different accumulators, and each bit of [k]
    reaches each bit of the new accumulator.  [hashState]
    starts from the fixed seed, combines [rows], then [cols], then the
    words of the row-major cell stream, 64 cells to a word, bit [k] of a
    word being its cell [k], a last partial word included; the flat buffers
    of variants 2 and 3 are fingerprinted the same way.  Two boards of at
    most 64 cells with the same flat content, whatever it is, and swapped
    unequal sides have different fingerprints. *)
Theorem C9_fingerprint :
  (∀ st, 0 ≤ V1.hashState st < 2 ^ 64)
  ∧ (splitmix64 0 = 0xe220a8397b1dcdaf
     ∧ splitmix64 0x9e3779b97f4a7c15 = 0x6e789e6aa1b965f4
     ∧ splitmix64 (u64 (2 * 0x9e3779b97f4a7c15)) = 0x06c45d188009454f)
  ∧ (∀ i j, 0 ≤ i < 64 → 0 ≤ j < 64 →
       ∃ x, 0 ≤ x < 16
            ∧ Z.testbit (splitmix64 (Z.lxor x (2 ^ i))) j
              ≠ Z.testbit (splitmix64 x) j)
  ∧ (∀ i x, 0 ≤ i < 64 → 0 ≤ x < 16 →
       19 ≤ popcount (Z.lxor (splitmix64 (Z.lxor x (2 ^ i))) (splitmix64 x))
          ≤ 45)
  ∧ (∀ h k, hash_combine h k
          = Z.lxor h (u64 (splitmix64 k + 0x9e3779b97f4a7c15
                           + u64 (Z.shiftl h 6) + Z.shiftr h 2)))
  ∧ (∀ h k k', 0 ≤ k < 2 ^ 64 → 0 ≤ k' < 2 ^ 64 →
       hash_combine h k = hash_combine h k' → k = k')
  ∧ (∀ i j, 0 ≤ i < 64 → 0 ≤ j < 64 →
       ∃ k, 0 ≤ k < 24
            ∧ Z.testbit (hash_combine hash_seed (Z.lxor k (2 ^ i))) j
              ≠ Z.testbit (hash_combine hash_seed k) j)
  ∧ (∀ st, 0 ≤ V1._row st → 0 ≤ V1._col st →
       grid_shape (V1._row st) (V1._col st) (V1._cell st) →
       V1.hashState st
       = foldl hash_combine
           (hash_combine (hash_combine hash_seed (u64 (V1._row st)))
                         (u64 (V1._col st)))
           (words (concat (V1._cell st))))
  ∧ (∀ st, V3.hashState st
           = fingerprint (u64 (V3._row st)) (u64 (V3._col st)) (V3._cell st))
  ∧ (∀ st,
       V2._baseHash st
       = hash_combine (hash_combine hash_seed (u64 (V2._row st)))
                      (u64 (V2._col st)) →
       V2.hashState st
       = fingerprint (u64 (V2._row st)) (u64 (V2._col st))
                     ((λ c, negb (c =? 0)) <$> V2._grid st))
  ∧ (∀ cells k w, words cells !! k = Some w →
       ∃ c, c = take 64%nat (drop (64 * k)%nat cells) ∧ c ≠ [] ∧ w = pack c
            ∧ ∀ b, Z.testbit w (Z.of_nat b) = default false (c !! b))
  ∧ (∀ st st',
       0 < V1._row st → 0 < V1._col st → V1._row st * V1._col st ≤ 64 →
       V1._row st ≠ V1._col st →
       V1._row st' = V1._col st → V1._col st' = V1._row st →
       grid_shape (V1._row st) (V1._col st) (V1._cell st) →
       grid_shape (V1._row st') (V1._col st') (V1._cell st') →
       concat (V1._cell st') = concat (V1._cell st) →
       V1.hashState st' ≠ V1.hashState st).
Proof.
  split; [apply V1_hashState_range|].
  split; [repeat split; by vm_compute|].
  split.
  { intros i j Hi Hj.
    destruct (avalanche_spec _ _ _ _ i splitmix64_avalanche Hi) as [Hb _].
    destruct (Hb j Hj) as (x & Hx%elem_of_seqZ & Hne).
    exists x. split; [lia|done]. }
  split.
  { intros i x Hi Hx.
    destruct (avalanche_spec _ _ _ _ i splitmix64_avalanche Hi) as [_ Hp].
    apply Hp, elem_of_seqZ. lia. }
  split; [done|].
  split; [apply hash_combine_inj|].
  split.
  { intros i j Hi Hj.
    destruct (avalanche_spec _ _ _ _ i hash_combine_avalanche Hi) as [Hb _].
    destruct (Hb j Hj) as (x & Hx%elem_of_seqZ & Hne).
    exists x. split; [lia|done]. }
  split; [|split; [|split; [|split]]].
  - intros st Hr Hc Hshape. by rewrite V1_hashState_fingerprint.
  - apply V3_hashState_fingerprint.
  - apply V2_hashState_fingerprint.
  - intros cells k w Hw. unfold words in Hw.
    rewrite list_lookup_fmap in Hw.
    destruct (chunks _ _ !! k) as [c|] eqn:Hc; [|done].
    injection Hw as <-. apply chunks_lookup in Hc as [Hc Hne]; [|done].
    exists c. repeat split; try done. intros b. apply pack_testbit.
  - intros st st' Hr Hc Hsmall Hne Hr' Hc' Hshape Hshape' Hcells.
    rewrite (V1_hashState_one_word st) by done.
    rewrite (V1_hashState_one_word st'); [|lia|lia|nia|done].
    rewrite Hr', Hc', Hcells.
    apply never_meet_sound.
    pose proof one_word_shapes_never_meet as Hall.
    rewrite forallb_forall in Hall.
    apply (Hall (V1._col st, V1._row st)).
    apply list_elem_of_In, list_elem_of_filter. cbn [fst snd].
    split; [split; [done|lia]|].
    apply elem_of_pairs. rewrite !elem_of_seqZ. nia.
Qed.

(** ** Counting boards *)

(** There are no more than [2 ^ N] different boards of [N] cells. *)
Lemma boards_bound (N : nat) (l : list (list bool)) :
  NoDup l → Forall (λ b, length b = N) l →
  Z.of_nat (length l) ≤ 2 ^ Z.of_nat N.
Proof.
  intros Hnd Hlen.
  assert (Hnd' : NoDup (pack <$> l)).
  { apply NoDup_fmap_2_strong; [|done].
    intros b b' Hb Hb' Heq. apply pack_inj; [|done].
    rewrite Forall_forall in Hlen. by rewrite (Hlen b), (Hlen b'). }
  assert (Hsub : pack <$> l ⊆+ seqZ 0 (2 ^ Z.of_nat N)).
  { apply NoDup_submseteq; [done|].
    intros x (b & -> & Hb)%list_elem_of_fmap.
    rewrite Forall_forall in Hlen. apply elem_of_seqZ.
    pose proof (pack_range b) as Hr. rewrite (Hlen b Hb) in Hr. lia. }
  apply submseteq_length in Hsub.
  rewrite length_fmap, length_seqZ in Hsub.
  assert (0 ≤ 2 ^ Z.of_nat N) by (apply Z.pow_nonneg; lia). lia.
Qed.

(** ** Cycle detection in variant 3 *)

Lemma V3_gen_set_history k h st :
  V3_gen k (V3.set_history h st) = V3.set_history h (V3_gen k st).
Proof.
  revert st. induction k as [|k IH]; intros st; [done|].
  by rewrite !V3_gen_S, V3_next_set_history, IH.
Qed.

Lemma V3_fps_set_history t h st :
  V3_fps t (V3.set_history h st) = V3_fps t st.
Proof.
  revert st. induction t as [|t IH]; intros st; [done|].
  cbn [V3_fps]. by rewrite V3_next_set_history, IH.
Qed.

Lemma V3_set_history_id st : V3.set_history (V3._history st) st = st.
Proof. by destruct st. Qed.

Lemma V3_empty_check_set_history h st :
  V3_empty_check (V3.set_history h st) = V3_empty_check st.
Proof. reflexivity. Qed.

Lemma V3_loop_detect n i st :
  V3._detectCycle st = true →
  ∃ t : nat,
    (t ≤ n)%nat
    ∧ generation (V3.start_loop n i st) = i + Z.of_nat t
    ∧ final (V3.start_loop n i st)
      = V3.set_history (list_to_set (V3_fps t st) ∪ V3._history st)
                       (V3_gen t st)
    ∧ NoDup (V3_fps t st)
    ∧ (∀ x, x ∈ V3_fps t st → x ∉ V3._history st)
    ∧ ((stop (V3.start_loop n i st) = StoppedByCycle
        ∧ (t < n)%nat
        ∧ V3.hashState (V3_gen t st)
          ∈ (list_to_set (V3_fps t st) ∪ V3._history st : gset Z)
        ∧ notices (out (V3.start_loop n i st))
          = [CycleNotice (Some (i + Z.of_nat t))])
       ∨ (stop (V3.start_loop n i st) = StoppedEmpty
          ∧ (1 ≤ t)%nat
          ∧ V3_empty_check (V3_gen t st) = true
          ∧ notices (out (V3.start_loop n i st))
            = [EmptyNotice (i + Z.of_nat t)])
       ∨ (stop (V3.start_loop n i st) = Completed
          ∧ t = n
          ∧ notices (out (V3.start_loop n i st)) = [])).
Proof.
  revert i st. induction n as [|n IH]; intros i st Hd.
  { exists 0%nat. cbn [V3.start_loop V3_fps V3_gen Nat.iter
                      generation final stop out list_to_set].
    rewrite (left_id_L ∅ (∪)), V3_set_history_id.
    split; [lia|]. split; [lia|]. split; [done|]. split; [constructor|].
    split; [intros x Hx; by apply elem_of_nil in Hx|]. by right; right. }
  destruct (V3_loop_cases st) as [[_ Hin]|Hgo].
  { exists 0%nat. rewrite V3_loop_cycle by done.
    cbn [V3_fps V3_gen Nat.iter generation final stop out list_to_set].
    rewrite (left_id_L ∅ (∪)), V3_set_history_id, Z.add_0_r.
    split; [lia|]. split; [lia|]. split; [done|]. split; [constructor|].
    split; [intros x Hx; by apply elem_of_nil in Hx|].
    left. repeat split; try done. lia. }
  assert (Hfresh : V3.hashState st ∉ V3._history st)
    by (destruct Hgo; [congruence|done]).
  rewrite V3_loop_go by done. cbn zeta.
  rewrite V3_next_noted, Hd. cbn [negb andb].
  set (H' := {[V3.hashState st]} ∪ V3._history st).
  rewrite V3_empty_check_set_history.
  destruct (V3_empty_check (V3_next st)) eqn:Hempty.
  { exists 1%nat. cbn [V3_fps V3_gen Nat.iter generation final stop out
                       list_to_set].
    rewrite (right_id_L ∅ (∪)).
    split; [lia|]. split; [lia|]. split; [done|].
    split; [apply NoDup_singleton|].
    split; [by intros x ->%list_elem_of_singleton|].
    right; left. repeat split; try done.
    unfold notices. cbn [filter list_filter].
    rewrite decide_True by done.
    by destruct (V3._finalOnly st). }
  destruct (IH (i + 1) (V3.set_history H' (V3_next st)) Hd)
    as (t & Ht & Hgen & Hfin & Hnd & Hnew & Hend).
  rewrite V3_fps_set_history, V3_gen_set_history in *.
  cbn [V3._history V3.set_history] in Hnew, Hend, Hfin.
  exists (S t). cbn [emit generation final stop out V3_fps list_to_set].
  rewrite V3_gen_S.
  assert (Hset : list_to_set (V3_fps t (V3_next st)) ∪ H'
                 = {[V3.hashState st]} ∪ list_to_set (V3_fps t (V3_next st))
                   ∪ V3._history st)
    by (subst H'; by rewrite (assoc_L (∪)), (comm_L (∪) (list_to_set _))).
  split; [lia|]. split; [lia|]. split; [|split; [|split]].
  - rewrite Hfin. cbn [V3.set_history V3._row V3._col V3._steps V3._finalOnly
                       V3._detectCycle V3._cell V3._nextCycle V3._history].
    by rewrite Hset.
  - constructor; [|done]. intros Hx. apply Hnew in Hx.
    apply Hx, elem_of_union_l. by apply elem_of_singleton.
  - intros x [->|Hx]%elem_of_cons; [done|].
    apply Hnew in Hx. intros Hin. by apply Hx, elem_of_union_r.
  - rewrite notices_app.
    assert (notices (if negb (V3._finalOnly st) || (i =? V3._steps st - 1)
                     then V3.frame (i + 1) (V3.set_history H' (V3_next st))
                     else []) = []) as -> by (by destruct (negb _ || _)).
    cbn [app]. rewrite <- Hset.
    replace (i + Z.of_nat (S t)) with (i + 1 + Z.of_nat t) by lia.
    destruct Hend as [(Hs & Hlt & Hin & Hn)|[(Hs & Hlt & He & Hn)
                                             |(Hs & -> & Hn)]].
    + left. repeat split; try done. lia.
    + right; left. repeat split; try done. lia.
    + right; right. by repeat split.
Qed.

(** ** What the generations of a run have in common *)

Lemma V1_gen_succ k st : V1_gen (S k) st = V1_next (V1_gen k st).
Proof. reflexivity. Qed.

Lemma V2_gen_succ k st : V2_gen (S k) st = V2.step (V2_gen k st).
Proof. reflexivity. Qed.

Lemma V3_gen_succ k st : V3_gen (S k) st = V3_next (V3_gen k st).
Proof. reflexivity. Qed.

Lemma V1_gen_wf k st : V1_wf st → V1_wf (V1_gen k st).
Proof.
  intros Hwf. induction k as [|k IH]; [done|].
  rewrite V1_gen_succ. by apply V1_next_wf.
Qed.

Lemma V2_gen_wf k st : V2_wf st → V2_wf (V2_gen k st).
Proof.
  intros Hwf. induction k as [|k IH]; [done|].
  rewrite V2_gen_succ. by apply V2_step_wf.
Qed.

Lemma V3_gen_wf k st : V3_wf st → V3_wf (V3_gen k st).
Proof.
  intros Hwf. induction k as [|k IH]; [done|].
  rewrite V3_gen_succ. by apply V3_next_wf.
Qed.

Lemma V1_gen_dims k st :
  V1._row (V1_gen k st) = V1._row st ∧ V1._col (V1_gen k st) = V1._col st.
Proof. induction k as [|k IH]; [done|]. rewrite V1_gen_succ. apply IH. Qed.

Lemma V2_gen_dims k st :
  V2._row (V2_gen k st) = V2._row st ∧ V2._col (V2_gen k st) = V2._col st
  ∧ V2._baseHash (V2_gen k st) = V2._baseHash st.
Proof. induction k as [|k IH]; [done|]. rewrite V2_gen_succ. apply IH. Qed.

Lemma V3_gen_dims k st :
  V3._row (V3_gen k st) = V3._row st ∧ V3._col (V3_gen k st) = V3._col st.
Proof. induction k as [|k IH]; [done|]. rewrite V3_gen_succ. apply IH. Qed.

(** The recorded fingerprints are those of the generations, in order. *)
Lemma V1_fps_gens t st :
  V1_fps t st = (λ k, V1.hashState (V1_gen k st)) <$> seq 0 t.
Proof.
  revert st. induction t as [|t IH]; intros st; [done|].
  cbn [V1_fps seq fmap list_fmap]. f_equal.
  rewrite IH, <- fmap_S_seq, <- list_fmap_compose.
  apply list_fmap_ext. intros _ k _. cbn [compose]. by rewrite V1_gen_S.
Qed.

Lemma V2_fps_gens t st :
  V2_fps t st = (λ k, V2.hashState (V2_gen (S k) st)) <$> seq 0 t.
Proof.
  revert st. induction t as [|t IH]; intros st; [done|].
  cbn [V2_fps seq fmap list_fmap]. f_equal.
  rewrite IH, <- fmap_S_seq, <- list_fmap_compose.
  apply list_fmap_ext. intros _ k _. cbn [compose]. by rewrite (V2_gen_S (S k)).
Qed.

Lemma V3_fps_gens t st :
  V3_fps t st = (λ k, V3.hashState (V3_gen k st)) <$> seq 0 t.
Proof.
  revert st. induction t as [|t IH]; intros st; [done|].
  cbn [V3_fps seq fmap list_fmap]. f_equal.
  rewrite IH, <- fmap_S_seq, <- list_fmap_compose.
  apply list_fmap_ext. intros _ k _. cbn [compose]. by rewrite V3_gen_S.
Qed.

Lemma length_V1_fps t st : length (V1_fps t st) = t.
Proof. by rewrite V1_fps_gens, length_fmap, length_seq. Qed.

Lemma length_V2_fps t st : length (V2_fps t st) = t.
Proof. by rewrite V2_fps_gens, length_fmap, length_seq. Qed.

Lemma length_V3_fps t st : length (V3_fps t st) = t.
Proof. by rewrite V3_fps_gens, length_fmap, length_seq. Qed.

(** ** Fingerprints of boards of at most 64 cells *)

Lemma concat_grid_inj {A : Type} rows cols (g g' : list (list A)) :
  0 ≤ rows → 0 ≤ cols →
  grid_shape rows cols g → grid_shape rows cols g' →
  concat g = concat g' → g = g'.
Proof.
  intros Hr Hc Hg Hg' Heq. apply (grid_ext rows cols); [done..|].
  intros i j Hi Hj.
  rewrite <- !(concat_lookup rows cols) by (done || lia). by rewrite Heq.
Qed.

Lemma V1_hash_small_inj st st' :
  V1_wf st → V1_wf st' →
  V1._row st = V1._row st' → V1._col st = V1._col st' →
  V1._row st * V1._col st ≤ 64 →
  V1.hashState st = V1.hashState st' → V1._cell st = V1._cell st'.
Proof.
  intros Hwf Hwf' Hr Hc Hsmall Heq.
  pose proof (V1_wf_rows _ Hwf). pose proof (V1_wf_cols _ Hwf).
  rewrite !V1_hashState_fingerprint in Heq
    by (try apply Hwf; try apply Hwf'; lia).
  rewrite <- Hr, <- Hc in Heq.
  pose proof (V1_wf_cell _ Hwf') as Hshape'. rewrite <- Hr, <- Hc in Hshape'.
  apply (concat_grid_inj (V1._row st) (V1._col st));
    [lia|lia|apply Hwf|done|].
  apply fingerprint_small_inj in Heq; [done|..].
  - rewrite !(concat_length (V1._row st) (V1._col st));
      (done || lia || apply Hwf).
  - rewrite (concat_length (V1._row st) (V1._col st));
      (lia || apply Hwf).
Qed.

(** What variant 2's [hashState] computes from the base hash. *)
Lemma V2_hashState_words st :
  V2.hashState st
  = foldl hash_combine (V2._baseHash st)
          (words ((λ c, negb (c =? 0)) <$> V2._grid st)).
Proof.
  unfold V2.hashState, words.
  rewrite <- (hash_cells_words _ _ _ (reflexivity _)).
  f_equal. by rewrite foldl_fmap.
Qed.

Lemma bits_fmap_inj (g g' : list Z) :
  Forall (λ c, c = 0 ∨ c = 1) g → Forall (λ c, c = 0 ∨ c = 1) g' →
  (λ c, negb (c =? 0)) <$> g = (λ c, negb (c =? 0)) <$> g' → g = g'.
Proof.
  revert g'. induction g as [|c g IH]; intros [|c' g'] Hg Hg' Heq;
    try done.
  apply Forall_cons in Hg as [Hc Hg]. apply Forall_cons in Hg' as [Hc' Hg'].
  cbn in Heq. injection Heq as Hhd Htl. f_equal; [|by apply IH].
  destruct Hc as [->| ->], Hc' as [->| ->]; done.
Qed.

Lemma V2_hash_small_inj st st' :
  V2_wf st → V2_wf st' →
  V2._row st = V2._row st' → V2._col st = V2._col st' →
  V2._baseHash st = V2._baseHash st' →
  V2._row st * V2._col st ≤ 64 →
  V2.hashState st = V2.hashState st' → V2._grid st = V2._grid st'.
Proof.
  intros Hwf Hwf' Hr Hc Hb Hsmall Heq.
  rewrite !V2_hashState_words, <- Hb in Heq.
  apply bits_fmap_inj; [apply Hwf|apply Hwf'|].
  apply hash_words_small_inj in Heq; [done|..].
  - rewrite !length_fmap, (V2_wf_grid _ Hwf), (V2_wf_grid _ Hwf').
    by rewrite Hr, Hc.
  - rewrite length_fmap, (V2_wf_grid _ Hwf). lia.
Qed.

Lemma V3_hash_small_inj st st' :
  V3_wf st → V3_wf st' →
  V3._row st = V3._row st' → V3._col st = V3._col st' →
  V3._row st * V3._col st ≤ 64 →
  V3.hashState st = V3.hashState st' → V3._cell st = V3._cell st'.
Proof.
  intros Hwf Hwf' Hr Hc Hsmall Heq.
  rewrite !V3_hashState_fingerprint, <- Hr, <- Hc in Heq.
  apply fingerprint_small_inj in Heq; [done|..].
  - rewrite (V3_wf_cell _ Hwf), (V3_wf_cell _ Hwf'). by rewrite Hr, Hc.
  - rewrite (V3_wf_cell _ Hwf). lia.
Qed.

(** X2.  For two engines of the same variant and the same dimensions
    whose boards have at most 64 cells, which the packing loop puts in one
    word, the fingerprints are equal exactly when the boards are equal
    (in variant 2, for the same base hash). *)
Theorem X2_fingerprint_small :
  (∀ st st',
     V1_wf st → V1_wf st' →
     V1._row st = V1._row st' → V1._col st = V1._col st' →
     V1._row st * V1._col st ≤ 64 →
     (V1.hashState st = V1.hashState st' ↔ V1._cell st = V1._cell st'))
  ∧ (∀ st st',
     V2_wf st → V2_wf st' →
     V2._row st = V2._row st' → V2._col st = V2._col st' →
     V2._baseHash st = V2._baseHash st' →
     V2._row st * V2._col st ≤ 64 →
     (V2.hashState st = V2.hashState st' ↔ V2._grid st = V2._grid st'))
  ∧ (∀ st st',
     V3_wf st → V3_wf st' →
     V3._row st = V3._row st' → V3._col st = V3._col st' →
     V3._row st * V3._col st ≤ 64 →
     (V3.hashState st = V3.hashState st' ↔ V3._cell st = V3._cell st')).
Proof.
  split; [|split].
  - intros st st' Hwf Hwf' Hr Hc Hsmall. split.
    + by apply V1_hash_small_inj.
    + by apply V1_hashState_ext.
  - intros st st' Hwf Hwf' Hr Hc Hb Hsmall. split.
    + by apply V2_hash_small_inj.
    + intros Hg. unfold V2.hashState. by rewrite Hb, Hg.
  - intros st st' Hwf Hwf' Hr Hc Hsmall. split.
    + by apply V3_hash_small_inj.
    + by apply V3_hashState_ext.
Qed.

(** The next board depends on the dimensions and the current board only. *)
Lemma V3_count_at_ext st st' i j :
  V3._row st = V3._row st' → V3._col st = V3._col st' →
  V3._cell st = V3._cell st' → V3.count_at st i j = V3.count_at st' i j.
Proof. unfold V3.count_at. by intros -> -> ->. Qed.

Lemma V3_next_cell_ext st st' :
  V3_wf st → V3_wf st' →
  V3._row st = V3._row st' → V3._col st = V3._col st' →
  V3._cell st = V3._cell st' →
  V3._cell (V3_next st) = V3._cell (V3_next st').
Proof.
  intros Hwf Hwf' Hr Hc Hcell.
  change (V3._nextCycle (V3.step st) = V3._nextCycle (V3.step st')).
  apply list_eq. intros p.
  destruct (decide (p < Z.to_nat (V3._row st * V3._col st))%nat) as [Hp|Hp].
  - destruct (index_decomp _ _ _ (V3_wf_cols _ Hwf) Hp)
      as (i & j & Hi & Hj & ->).
    rewrite V3_step_lookup by (done || apply Hwf).
    rewrite (V3_count_at_ext st st' i j) by done.
    rewrite Hcell, Hc. symmetry. apply V3_step_lookup; [lia|lia|apply Hwf'].
  - rewrite !lookup_ge_None_2; [done|..].
    + rewrite V3_step_length, (V3_wf_next _ Hwf'), <- Hr, <- Hc. lia.
    + rewrite V3_step_length, (V3_wf_next _ Hwf). lia.
Qed.

Lemma elem_of_fps (f : nat → Z) x t :
  x ∈ f <$> seq 0 t → ∃ k, (k < t)%nat ∧ x = f k.
Proof.
  intros (k & -> & Hk)%list_elem_of_fmap. exists k. split; [|done].
  apply elem_of_seq in Hk. lia.
Qed.

(** Distinct fingerprints are fingerprints of distinct boards. *)
Lemma gens_bound (N t : nat) (board : nat → list bool) (h : list bool → Z) :
  (∀ k, length (board k) = N) →
  NoDup ((λ k, h (board k)) <$> seq 0 t) →
  Z.of_nat t ≤ 2 ^ Z.of_nat N.
Proof.
  intros Hlen Hnd.
  rewrite (list_fmap_compose board h) in Hnd. apply NoDup_fmap_1 in Hnd.
  apply (boards_bound N) in Hnd.
  - by rewrite length_fmap, length_seq in Hnd.
  - apply Forall_fmap, Forall_forall. intros k _. apply Hlen.
Qed.

Lemma V1_board_length k st :
  V1_wf st →
  length (concat (V1._cell (V1_gen k st)))
  = Z.to_nat (V1._row st * V1._col st).
Proof.
  intros Hwf. pose proof (V1_gen_wf k st Hwf) as Hk.
  destruct (V1_gen_dims k st) as [Hr Hc].
  rewrite <- Hr, <- Hc.
  apply concat_length; [| |apply Hk].
  - pose proof (V1_wf_rows _ Hk). lia.
  - pose proof (V1_wf_cols _ Hk). lia.
Qed.

Lemma V1_fps_boards t st :
  V1_wf st →
  V1_fps t st
  = (λ k, fingerprint (u64 (V1._row st)) (u64 (V1._col st))
                      (concat (V1._cell (V1_gen k st)))) <$> seq 0 t.
Proof.
  intros Hwf. rewrite V1_fps_gens. apply list_fmap_ext. intros _ k _.
  pose proof (V1_gen_wf k st Hwf) as Hk.
  destruct (V1_gen_dims k st) as [Hr Hc].
  rewrite V1_hashState_fingerprint, Hr, Hc; [done| | |apply Hk].
  - pose proof (V1_wf_rows _ Hk). lia.
  - pose proof (V1_wf_cols _ Hk). lia.
Qed.

Lemma V3_fps_boards t st :
  V3_fps t st
  = (λ k, fingerprint (u64 (V3._row st)) (u64 (V3._col st))
                      (V3._cell (V3_gen k st))) <$> seq 0 t.
Proof.
  rewrite V3_fps_gens. apply list_fmap_ext. intros _ k _.
  destruct (V3_gen_dims k st) as [Hr Hc].
  by rewrite V3_hashState_fingerprint, Hr, Hc.
Qed.

Lemma V2_fps_boards t st :
  V2.hashState st :: V2_fps t st
  = (λ k, foldl hash_combine (V2._baseHash st)
            (words ((λ c, negb (c =? 0)) <$> V2._grid (V2_gen k st))))
    <$> seq 0 (S t).
Proof.
  cbn [seq fmap list_fmap]. f_equal; [apply V2_hashState_words|].
  rewrite V2_fps_gens, <- fmap_S_seq, <- list_fmap_compose.
  apply list_fmap_ext. intros _ k _. cbn [compose].
  destruct (V2_gen_dims (S k) st) as (_ & _ & Hb).
  by rewrite V2_hashState_words, Hb.
Qed.

Lemma V2_hashState_set_history h st :
  V2.hashState (V2.set_history h st) = V2.hashState st.
Proof. reflexivity. Qed.

Lemma V2_noted_wf st : V2_wf st → V2_wf (V2_noted st).
Proof.
  intros Hwf. unfold V2_noted. destruct (V2._detectCycle st); [|done].
  by destruct Hwf.
Qed.

(** X3.  Variant 3 with cycle detection.  A run makes some number [t] of
    transitions, at most the requested steps; the visited set at the end is
    the one of the start with the fingerprints of generations [0 .. t-1]
    added, each of them new when it was inserted.  The run ends with the
    cycle notice, when the fingerprint of generation [t] is already in the
    set; or with the empty-board notice, when the empty test holds of
    generation [t]; or having made all the steps, with no notice.  It does
    not end as static. *)
Theorem X3_V3_cycle_detection (st : V3.state) :
  V3._detectCycle st = true →
  let r := V3.start st in
  ∃ t : nat,
    Z.of_nat t ≤ Z.max 0 (V3._steps st)
    ∧ generation r = Z.of_nat t
    ∧ final r
      = V3.set_history (list_to_set (V3_fps t st) ∪ V3._history st)
                       (V3_gen t st)
    ∧ NoDup (V3_fps t st)
    ∧ (∀ x, x ∈ V3_fps t st → x ∉ V3._history st)
    ∧ ((stop r = StoppedByCycle
        ∧ Z.of_nat t < V3._steps st
        ∧ V3.hashState (V3_gen t st)
          ∈ (list_to_set (V3_fps t st) ∪ V3._history st : gset Z)
        ∧ notices (out r) = [CycleNotice (Some (Z.of_nat t))])
       ∨ (stop r = StoppedEmpty
          ∧ (1 ≤ t)%nat
          ∧ V3_empty_check (V3_gen t st) = true
          ∧ notices (out r) = [EmptyNotice (Z.of_nat t)])
       ∨ (stop r = Completed
          ∧ Z.of_nat t = Z.max 0 (V3._steps st)
          ∧ notices (out r) = [])).
Proof.
  intros Hd. cbv zeta. unfold V3.start.
  destruct (V3_loop_detect (Z.to_nat (V3._steps st)) 0 st Hd)
    as (t & Ht & Hgen & Hfin & Hnd & Hnew & Hend).
  exists t. cbn [emit generation final stop out].
  rewrite notices_app.
  assert (notices (if negb (V3._finalOnly st) then V3.frame 0 st else [])
          = []) as -> by (by destruct (negb _)).
  cbn [app]. rewrite Z.add_0_l in *.
  split; [lia|]. split; [done|]. split; [done|]. split; [done|].
  split; [done|].
  destruct Hend as [(Hs & Hlt & Hin & Hn)|[(Hs & Hlt & He & Hn)
                                           |(Hs & -> & Hn)]].
  - left. repeat split; try done. lia.
  - right; left. by repeat split.
  - right; right. repeat split; try done. lia.
Qed.

Lemma nodup_distinct (f : nat → Z) (t i j : nat) :
  NoDup (f <$> seq 0 t) → (i < j < t)%nat → f i ≠ f j.
Proof.
  intros Hnd Hij Heq.
  assert (Hi : (f <$> seq 0 t) !! i = Some (f i)).
  { rewrite list_lookup_fmap, lookup_seq_lt by lia. done. }
  assert (Hj : (f <$> seq 0 t) !! j = Some (f i)).
  { rewrite list_lookup_fmap, lookup_seq_lt by lia. cbn. by rewrite Heq. }
  pose proof (NoDup_lookup _ _ _ _ Hnd Hi Hj). lia.
Qed.

(** X4.  On boards of at most 64 cells, in a run started with an empty
    visited set, a stop on a detected cycle is no false alarm and comes at
    the first repeat: the board of the generation reached is the board of
    an earlier generation, and the boards of the generations before it are
    pairwise different.  In the three variants. *)
Theorem X4_cycle_exact :
  (∀ st,
     V1_wf st → V1._row st * V1._col st ≤ 64 →
     V1._detectCycle st = true → V1._history st = ∅ →
     stop (V1.start st) = StoppedByCycle →
     ∃ k t : nat,
       generation (V1.start st) = Z.of_nat t ∧ (k < t)%nat
       ∧ V1._cell (final (V1.start st)) = V1._cell (V1_gen t st)
       ∧ V1._cell (V1_gen k st) = V1._cell (V1_gen t st)
       ∧ (∀ i j, (i < j < t)%nat →
            V1._cell (V1_gen i st) ≠ V1._cell (V1_gen j st)))
  ∧ (∀ st steps pfo,
     V2_wf st → V2._row st * V2._col st ≤ 64 →
     V2._detectCycle st = true → V2._history st = ∅ →
     stop (V2.run st steps pfo) = StoppedByCycle →
     ∃ k t : nat,
       generation (V2.run st steps pfo) = Z.of_nat t ∧ (k < t)%nat
       ∧ V2._grid (final (V2.run st steps pfo)) = V2._grid (V2_gen t st)
       ∧ V2._grid (V2_gen k st) = V2._grid (V2_gen t st)
       ∧ (∀ i j, (i < j < t)%nat →
            V2._grid (V2_gen i st) ≠ V2._grid (V2_gen j st)))
  ∧ (∀ st,
     V3_wf st → V3._row st * V3._col st ≤ 64 →
     V3._detectCycle st = true → V3._history st = ∅ →
     stop (V3.start st) = StoppedByCycle →
     ∃ k t : nat,
       generation (V3.start st) = Z.of_nat t ∧ (k < t)%nat
       ∧ V3._cell (final (V3.start st)) = V3._cell (V3_gen t st)
       ∧ V3._cell (V3_gen k st) = V3._cell (V3_gen t st)
       ∧ (∀ i j, (i < j < t)%nat →
            V3._cell (V3_gen i st) ≠ V3._cell (V3_gen j st))).
Proof.
  split; [|split].
  - intros st Hwf Hsmall Hd Hh Hstop. unfold V1.start in *.
    destruct (V1_loop_detect (Z.to_nat (V1._steps st)) 0 st Hd)
      as (t & _ & Hgen & Hfin & Hnd & _ & Hend).
    cbn [emit generation final stop out] in *.
    destruct Hend as [(_ & _ & Hin & _)|(Hs & _)]; [|congruence].
    rewrite V1_fps_gens in Hnd.
    rewrite Hh, (right_id_L ∅ (∪)), elem_of_list_to_set, V1_fps_gens in Hin.
    apply elem_of_fps in Hin as (k & Hk & Heq).
    exists k, t. split; [lia|]. split; [done|]. split; [by rewrite Hfin|].
    split.
    + destruct (V1_gen_dims k st) as [Hrk Hck].
      destruct (V1_gen_dims t st) as [Hrt Hct].
      apply V1_hash_small_inj; try (by apply V1_gen_wf); congruence.
    + intros i j Hij Hcell. apply (nodup_distinct _ t i j Hnd Hij).
      destruct (V1_gen_dims i st) as [Hri Hci].
      destruct (V1_gen_dims j st) as [Hrj Hcj].
      apply V1_hashState_ext; congruence.
  - intros st steps pfo Hwf Hsmall Hd Hh Hstop. unfold V2.run in *.
    rewrite Hd in *. cbv zeta in *.
    set (st0 := V2.set_history _ st) in *.
    destruct (V2_loop_detect (Z.to_nat steps) 1 steps pfo st0 Hd)
      as (m & k & _ & Hfin & Hnd & Hnew & Hend).
    cbn [emit generation final stop out] in *.
    destruct Hend as [(_ & _ & -> & Hgen & Hin & _)|(Hs & _)]; [|congruence].
    assert (Hnd' : NoDup ((λ k, V2.hashState (V2_gen k st)) <$> seq 0 (S m))).
    { cbn [seq fmap list_fmap]. rewrite <- fmap_S_seq, <- list_fmap_compose.
      subst st0. rewrite V2_fps_set_history in Hnd, Hnew.
      rewrite V2_fps_gens in Hnd, Hnew.
      constructor; [|done]. intros Hin'. apply (Hnew _ Hin').
      cbn [V2._history V2.set_history].
      apply elem_of_union_l. by apply elem_of_singleton. }
    assert (Hin' : V2.hashState (V2_gen (S m) st)
                   ∈ V2.hashState st :: V2_fps m st).
    { subst st0. rewrite V2_gen_set_history, V2_fps_set_history in Hin.
      cbn [V2._history V2.set_history] in Hin.
      rewrite Hh, (right_id_L ∅ (∪)) in Hin.
      rewrite V2_hashState_set_history in Hin.
      apply elem_of_union in Hin as [Hin|Hin].
      - apply elem_of_list_to_set in Hin. apply elem_of_cons. by right.
      - apply elem_of_singleton in Hin. apply elem_of_cons. by left. }
    assert (Hk : ∃ j, (j < S m)%nat
                 ∧ V2.hashState (V2_gen (S m) st) = V2.hashState (V2_gen j st)).
    { apply elem_of_cons in Hin' as [Heq|Hin'].
      - exists 0%nat. split; [lia|done].
      - rewrite V2_fps_gens in Hin'.
        apply elem_of_fps in Hin' as (j & Hj & Heq).
        exists (S j). split; [lia|done]. }
    destruct Hk as (j & Hj & Heq).
    exists j, (S m). split; [lia|]. split; [done|]. split.
    { rewrite Hfin. subst st0. by rewrite V2_gen_set_history. }
    split.
    + destruct (V2_gen_dims j st) as (Hrj & Hcj & Hbj).
      destruct (V2_gen_dims (S m) st) as (Hrt & Hct & Hbt).
      apply V2_hash_small_inj; try (by apply V2_gen_wf); congruence.
    + intros a b Hab Hgrid. apply (nodup_distinct _ (S m) a b Hnd' Hab).
      destruct (V2_gen_dims a st) as (_ & _ & Hba).
      destruct (V2_gen_dims b st) as (_ & _ & Hbb).
      unfold V2.hashState. by rewrite Hba, Hbb, Hgrid.
  - intros st Hwf Hsmall Hd Hh Hstop. unfold V3.start in *.
    destruct (V3_loop_detect (Z.to_nat (V3._steps st)) 0 st Hd)
      as (t & _ & Hgen & Hfin & Hnd & _ & Hend).
    cbn [emit generation final stop out] in *.
    destruct Hend as [(_ & _ & Hin & _)|[(Hs & _)|(Hs & _)]];
      [|congruence..].
    rewrite V3_fps_gens in Hnd.
    rewrite Hh, (right_id_L ∅ (∪)), elem_of_list_to_set, V3_fps_gens in Hin.
    apply elem_of_fps in Hin as (k & Hk & Heq).
    exists k, t. split; [lia|]. split; [done|]. split; [by rewrite Hfin|].
    split.
    + destruct (V3_gen_dims k st) as [Hrk Hck].
      destruct (V3_gen_dims t st) as [Hrt Hct].
      apply V3_hash_small_inj; try (by apply V3_gen_wf); congruence.
    + intros i j Hij Hcell. apply (nodup_distinct _ t i j Hnd Hij).
      destruct (V3_gen_dims i st) as [Hri Hci].
      destruct (V3_gen_dims j st) as [Hrj Hcj].
      apply V3_hashState_ext; congruence.
Qed.

(** X5.  Variant 3 without cycle detection, on boards of at most 64
    cells: the run goes on as long as each transition changes the board, it
    stops as static exactly when the last transition made left the board
    unchanged, and the final board is then a still life. *)
Theorem X5_static_exact (st : V3.state) :
  V3_wf st → V3._row st * V3._col st ≤ 64 → V3._detectCycle st = false →
  let r := V3.start st in
  ∃ t : nat,
    generation r = Z.of_nat t
    ∧ final r = V3_gen t st
    ∧ (∀ k, (k + 1 < t)%nat →
         V3._cell (V3_gen k st) ≠ V3._cell (V3_gen (k + 1) st))
    ∧ (stop r = StoppedStatic
       ↔ (1 ≤ t)%nat ∧ V3._cell (V3_gen (t - 1) st) = V3._cell (V3_gen t st))
    ∧ (stop r = StoppedStatic →
       V3._cell (V3_next (final r)) = V3._cell (final r)).
Proof.
  intros Hwf Hsmall Hd. cbv zeta. unfold V3.start.
  destruct (V3_loop_static_run (Z.to_nat (V3._steps st)) 0 st Hd)
    as (t & _ & Hgen & Hfin & Hbefore & Hiff & _).
  cbn [emit generation final stop out].
  assert (Hinj : ∀ a b, V3.hashState (V3_gen a st) = V3.hashState (V3_gen b st)
                 ↔ V3._cell (V3_gen a st) = V3._cell (V3_gen b st)).
  { intros a b.
    destruct (V3_gen_dims a st) as [Hra Hca].
    destruct (V3_gen_dims b st) as [Hrb Hcb]. split.
    - apply V3_hash_small_inj; try (by apply V3_gen_wf); congruence.
    - apply V3_hashState_ext; congruence. }
  exists t. split; [lia|]. split; [done|]. split; [|split].
  - intros k Hk Heq. by apply (Hbefore k Hk), Hinj.
  - by rewrite Hiff, Hinj.
  - intros Hs. apply Hiff in Hs as [Ht Heq]. apply Hinj in Heq.
    rewrite Hfin. destruct t as [|t]; [lia|].
    replace (S t - 1)%nat with t in Heq by lia.
    destruct (V3_gen_dims t st) as [Hrt Hct].
    destruct (V3_gen_dims (S t) st) as [Hrs Hcs].
    transitivity (V3._cell (V3_next (V3_gen t st))); [|done].
    apply V3_next_cell_ext; try (by apply V3_gen_wf); congruence.
Qed.

(** X6.  With cycle detection a run cannot go through more generations
    than there are boards, [2 ^ (rows * cols)]: when more steps than that
    are requested (as many, in variant 2) the run does not complete.
    Variants 1 and 2 stop on a cycle, variant 3 on a cycle or on an empty
    board. *)
Theorem X6_must_stop :
  (∀ st,
     V1_wf st → V1._detectCycle st = true →
     2 ^ (V1._row st * V1._col st) < V1._steps st →
     stop (V1.start st) = StoppedByCycle
     ∧ generation (V1.start st) ≤ 2 ^ (V1._row st * V1._col st))
  ∧ (∀ st steps pfo,
     V2_wf st → V2._detectCycle st = true →
     2 ^ (V2._row st * V2._col st) ≤ steps →
     stop (V2.run st steps pfo) = StoppedByCycle
     ∧ generation (V2.run st steps pfo) ≤ 2 ^ (V2._row st * V2._col st))
  ∧ (∀ st,
     V3_wf st → V3._detectCycle st = true →
     2 ^ (V3._row st * V3._col st) < V3._steps st →
     (stop (V3.start st) = StoppedByCycle
      ∨ stop (V3.start st) = StoppedEmpty)
     ∧ generation (V3.start st) ≤ 2 ^ (V3._row st * V3._col st)).
Proof.
  split; [|split].
  - intros st Hwf Hd Hlong. unfold V1.start.
    destruct (V1_loop_detect (Z.to_nat (V1._steps st)) 0 st Hd)
      as (t & _ & Hgen & _ & Hnd & _ & Hend).
    cbn [emit generation final stop out].
    pose proof (V1_wf_rows _ Hwf). pose proof (V1_wf_cols _ Hwf).
    rewrite V1_fps_boards in Hnd by done.
    apply (gens_bound (Z.to_nat (V1._row st * V1._col st))) in Hnd;
      [|intros k; by apply V1_board_length].
    rewrite Z2Nat.id in Hnd by nia.
    destruct Hend as [(Hs & _)|(_ & -> & _)]; [|lia].
    split; [done|lia].
  - intros st steps pfo Hwf Hd Hlong. unfold V2.run. rewrite Hd. cbv zeta.
    set (st0 := V2.set_history _ st).
    destruct (V2_loop_detect (Z.to_nat steps) 1 steps pfo st0 Hd)
      as (m & k & _ & _ & Hnd & Hnew & Hend).
    cbn [emit generation final stop out].
    pose proof (V2_wf_rows _ Hwf). pose proof (V2_wf_cols _ Hwf).
    assert (Hnd' : NoDup (V2.hashState st :: V2_fps m st)).
    { subst st0. rewrite V2_fps_set_history in Hnd, Hnew.
      constructor; [|done]. intros Hin. apply (Hnew _ Hin).
      cbn [V2._history V2.set_history].
      apply elem_of_union_l. by apply elem_of_singleton. }
    rewrite V2_fps_boards in Hnd'.
    apply (gens_bound (Z.to_nat (V2._row st * V2._col st)) (S m)
             (λ k, (λ c, negb (c =? 0)) <$> V2._grid (V2_gen k st))
             (λ b, foldl hash_combine (V2._baseHash st) (words b))) in Hnd'.
    + rewrite Z2Nat.id in Hnd' by nia.
      destruct Hend as [(Hs & _ & _ & Hgen & _)|(_ & -> & _)]; [|lia].
      split; [done|lia].
    + intros j. rewrite length_fmap.
      pose proof (V2_gen_wf j st Hwf) as Hj.
      destruct (V2_gen_dims j st) as (Hr & Hc & _).
      by rewrite (V2_wf_grid _ Hj), Hr, Hc.
  - intros st Hwf Hd Hlong. unfold V3.start.
    destruct (V3_loop_detect (Z.to_nat (V3._steps st)) 0 st Hd)
      as (t & _ & Hgen & _ & Hnd & _ & Hend).
    cbn [emit generation final stop out].
    pose proof (V3_wf_rows _ Hwf). pose proof (V3_wf_cols _ Hwf).
    rewrite V3_fps_boards in Hnd.
    apply (gens_bound (Z.to_nat (V3._row st * V3._col st))) in Hnd.
    + rewrite Z2Nat.id in Hnd by nia.
      destruct Hend as [(Hs & _)|[(Hs & _)|(_ & -> & _)]]; [| |lia].
      * split; [by left|lia].
      * split; [by right|lia].
    + intros j. pose proof (V3_gen_wf j st Hwf) as Hj.
      destruct (V3_gen_dims j st) as (Hr & Hc).
      by rewrite (V3_wf_cell _ Hj), Hr, Hc.
Qed.

(** X7.  A run started with an empty visited set leaves in it one
    fingerprint for each generation it examined: with cycle detection, as
    many as generations made in variants 1 and 3, and in variant 2 one more
    unless the run stopped on a cycle; none without cycle detection.  The
    set never holds more than [steps] fingerprints, [steps + 1] in
    variant 2. *)
Theorem X7_history_size :
  (∀ st,
     V1._history st = ∅ →
     let r := V1.start st in
     Z.of_nat (size (V1._history (final r)))
     = (if V1._detectCycle st then generation r else 0)
     ∧ Z.of_nat (size (V1._history (final r))) ≤ Z.max 0 (V1._steps st))
  ∧ (∀ st steps pfo,
     V2._history st = ∅ →
     let r := V2.run st steps pfo in
     Z.of_nat (size (V2._history (final r)))
     = (if V2._detectCycle st
        then match stop r with
             | StoppedByCycle => generation r
             | _ => generation r + 1
             end
        else 0)
     ∧ Z.of_nat (size (V2._history (final r))) ≤ Z.max 0 steps + 1)
  ∧ (∀ st,
     V3._history st = ∅ → V3._detectCycle st = true →
     let r := V3.start st in
     Z.of_nat (size (V3._history (final r))) = generation r
     ∧ Z.of_nat (size (V3._history (final r))) ≤ Z.max 0 (V3._steps st)).
Proof.
  split; [|split].
  - intros st Hh. cbv zeta. unfold V1.start.
    cbn [emit generation final stop out].
    destruct (V1._detectCycle st) eqn:Hd.
    + destruct (V1_loop_detect (Z.to_nat (V1._steps st)) 0 st Hd)
        as (t & Ht & Hgen & Hfin & Hnd & _ & _).
      rewrite Hfin, Hgen. cbn [V1._history V1.set_history].
      rewrite Hh, (right_id_L ∅ (∪)), size_list_to_set, length_V1_fps by done.
      lia.
    + destruct (V1_loop_no_detect (Z.to_nat (V1._steps st)) 0 st Hd)
        as (_ & _ & Hfin & _).
      rewrite Hfin.
      assert (Hk : ∀ k, V1._history (V1_gen k st) = V1._history st).
      { induction k as [|k IH]; [done|]. rewrite V1_gen_succ. apply IH. }
      rewrite Hk, Hh, size_empty. lia.
  - intros st steps pfo Hh. cbv zeta. unfold V2.run.
    destruct (V2._detectCycle st) eqn:Hd; cbv zeta.
    + set (st0 := V2.set_history _ st).
      destruct (V2_loop_detect (Z.to_nat steps) 1 steps pfo st0 Hd)
        as (m & k & Hm & Hfin & Hnd & Hnew & Hend).
      cbn [emit generation final stop out].
      rewrite Hfin. cbn [V2._history V2.set_history].
      subst st0. rewrite V2_fps_set_history in *.
      cbn [V2._history V2.set_history] in *.
      rewrite Hh, (right_id_L ∅ (∪)) in *.
      rewrite size_union, size_list_to_set, size_singleton, length_V2_fps;
        [|done|].
      * destruct Hend as [(-> & _ & _ & -> & _)|(-> & -> & _ & -> & _)]; lia.
      * intros x Hx%elem_of_list_to_set. by apply Hnew.
    + assert (Hloop : ∀ n t st',
                V2._detectCycle st' = false →
                V2._history (final (V2.run_loop n t steps pfo st'))
                = V2._history st').
      { induction n as [|n IH]; intros t st' Hd'; [done|].
        rewrite V2_loop_go by (by left). cbv zeta.
        cbn [emit final]. unfold V2_noted.
        change (V2._detectCycle (V2.step st')) with (V2._detectCycle st').
        rewrite Hd'. by rewrite IH. }
      cbn [emit generation final stop out].
      rewrite Hloop, Hh, size_empty by done. lia.
  - intros st Hh Hd. cbv zeta. unfold V3.start.
    cbn [emit generation final stop out].
    destruct (V3_loop_detect (Z.to_nat (V3._steps st)) 0 st Hd)
      as (t & Ht & Hgen & Hfin & Hnd & _ & _).
    rewrite Hfin, Hgen. cbn [V3._history V3.set_history].
    rewrite Hh, (right_id_L ∅ (∪)), size_list_to_set, length_V3_fps by done.
    lia.
Qed.

(** ** A board that comes back is detected *)

Lemma nodup_period (f : nat → Z) (t p : nat) :
  NoDup (f <$> seq 0 t) → f p = f 0%nat → (1 ≤ p)%nat → (t ≤ p)%nat.
Proof.
  intros Hnd Heq Hp.
  destruct (decide (t ≤ p)%nat) as [|Hlt]; [done|]. exfalso.
  assert (H0 : (f <$> seq 0 t) !! 0%nat = Some (f 0%nat)).
  { rewrite list_lookup_fmap, lookup_seq_lt by lia. done. }
  assert (Hp' : (f <$> seq 0 t) !! p = Some (f 0%nat)).
  { rewrite list_lookup_fmap, lookup_seq_lt by lia. cbn. by rewrite Heq. }
  pose proof (NoDup_lookup _ _ _ _ Hnd H0 Hp'). lia.
Qed.

(** X8.  With cycle detection a board that comes back is detected: if the
    board of generation [p >= 1] is the board of the start and more than [p]
    steps are requested ([p] or more in variant 2), the run stops within
    [p] generations, on a cycle in variants 1 and 2, on a cycle or an empty
    board in variant 3.  Whatever the size of the board and the contents of
    the visited set at the start. *)
Theorem X8_cycle_complete :
  (∀ st (p : nat),
     V1._detectCycle st = true → (1 ≤ p)%nat →
     V1._cell (V1_gen p st) = V1._cell st →
     Z.of_nat p < V1._steps st →
     stop (V1.start st) = StoppedByCycle
     ∧ generation (V1.start st) ≤ Z.of_nat p)
  ∧ (∀ st steps pfo (p : nat),
     V2._detectCycle st = true → (1 ≤ p)%nat →
     V2._grid (V2_gen p st) = V2._grid st →
     Z.of_nat p ≤ steps →
     stop (V2.run st steps pfo) = StoppedByCycle
     ∧ generation (V2.run st steps pfo) ≤ Z.of_nat p)
  ∧ (∀ st (p : nat),
     V3._detectCycle st = true → (1 ≤ p)%nat →
     V3._cell (V3_gen p st) = V3._cell st →
     Z.of_nat p < V3._steps st →
     (stop (V3.start st) = StoppedByCycle
      ∨ stop (V3.start st) = StoppedEmpty)
     ∧ generation (V3.start st) ≤ Z.of_nat p).
Proof.
  split; [|split].
  - intros st p Hd Hp Hback Hsteps. unfold V1.start.
    destruct (V1_loop_detect (Z.to_nat (V1._steps st)) 0 st Hd)
      as (t & _ & Hgen & _ & Hnd & _ & Hend).
    cbn [emit generation final stop out].
    rewrite V1_fps_gens in Hnd.
    apply (nodup_period _ t p) in Hnd; [|  |done].
    + destruct Hend as [(Hs & _)|(_ & -> & _)]; [|lia]. split; [done|lia].
    + destruct (V1_gen_dims p st) as [Hr Hc]. by apply V1_hashState_ext.
  - intros st steps pfo p Hd Hp Hback Hsteps. unfold V2.run.
    rewrite Hd. cbv zeta. set (st0 := V2.set_history _ st).
    destruct (V2_loop_detect (Z.to_nat steps) 1 steps pfo st0 Hd)
      as (m & k & _ & _ & Hnd & Hnew & Hend).
    cbn [emit generation final stop out].
    assert (Hnd' : NoDup (V2.hashState st :: V2_fps m st)).
    { subst st0. rewrite V2_fps_set_history in Hnd, Hnew.
      constructor; [|done]. intros Hin. apply (Hnew _ Hin).
      cbn [V2._history V2.set_history].
      apply elem_of_union_l. by apply elem_of_singleton. }
    assert (Hfps : V2.hashState st :: V2_fps m st
                   = (λ k, V2.hashState (V2_gen k st)) <$> seq 0 (S m)).
    { cbn [seq fmap list_fmap]. f_equal.
      by rewrite V2_fps_gens, <- fmap_S_seq, <- list_fmap_compose. }
    rewrite Hfps in Hnd'.
    apply (nodup_period _ (S m) p) in Hnd'; [| |done].
    + destruct Hend as [(Hs & _ & _ & Hgen & _)|(_ & -> & _)]; [|lia].
      split; [done|lia].
    + destruct (V2_gen_dims p st) as (_ & _ & Hb).
      unfold V2.hashState. by rewrite Hb, Hback.
  - intros st p Hd Hp Hback Hsteps. unfold V3.start.
    destruct (V3_loop_detect (Z.to_nat (V3._steps st)) 0 st Hd)
      as (t & _ & Hgen & _ & Hnd & _ & Hend).
    cbn [emit generation final stop out].
    rewrite V3_fps_gens in Hnd.
    apply (nodup_period _ t p) in Hnd; [| |done].
    + destruct Hend as [(Hs & _)|[(Hs & _)|(_ & -> & _)]]; [| |lia].
      * split; [by left|lia].
      * split; [by right|lia].
    + destruct (V3_gen_dims p st) as [Hr Hc]. by apply V3_hashState_ext.
Qed.

(** ** What variant 1 renders *)

Lemma V1_noted_flags st :
  V1._steps (V1_noted st) = V1._steps st
  ∧ V1._finalOnly (V1_noted st) = V1._finalOnly st
  ∧ V1._cell (V1_noted st) = V1._cell st.
Proof. unfold V1_noted. by destruct (V1._detectCycle st). Qed.

Lemma V1_next_noted st :
  V1_next (V1_noted st)
  = (if V1._detectCycle st
     then V1.set_history ({[V1.hashState st]} ∪ V1._history st) (V1_next st)
     else V1_next st).
Proof. unfold V1_noted. by destruct (V1._detectCycle st). Qed.

Lemma V1_frames_set_history i m h st :
  V1_frames i m (V1.set_history h st) = V1_frames i m st.
Proof.
  revert i st. induction m as [|m IH]; intros i st; [done|].
  cbn [V1_frames]. by rewrite V1_next_set_history, IH.
Qed.

Lemma V1_frames_noted i m st : V1_frames i m (V1_noted st) = V1_frames i m st.
Proof.
  unfold V1_noted. destruct (V1._detectCycle st); [|done].
  apply V1_frames_set_history.
Qed.

Lemma length_V1_frames i m st : length (V1_frames i m st) = m.
Proof.
  revert i st. induction m as [|m IH]; intros i st; [done|].
  cbn. by rewrite IH.
Qed.

Lemma V1_loop_generation n i st :
  ∃ t : nat, (t ≤ n)%nat ∧ generation (V1.start_loop n i st) = i + Z.of_nat t.
Proof.
  revert i st. induction n as [|n IH]; intros i st.
  { exists 0%nat. cbn. lia. }
  destruct (V1_loop_cases st) as [[Hd Hin]|Hgo].
  { exists 0%nat. rewrite V1_loop_cycle by done. cbn. lia. }
  rewrite V1_loop_go by done. cbn zeta.
  destruct (IH (i + 1) (V1_next (V1_noted st))) as (t & Ht & Hg).
  exists (S t). cbn [emit generation]. lia.
Qed.

(** Every generation rendered: each transition made is shown. *)
Lemma V1_loop_render_all n i st :
  V1._finalOnly st = false →
  ∃ m : nat,
    generation (V1.start_loop n i st) = i + Z.of_nat m
    ∧ frames (out (V1.start_loop n i st)) = V1_frames i m st.
Proof.
  revert i st. induction n as [|n IH]; intros i st Hf.
  { exists 0%nat. cbn. split; [lia|done]. }
  destruct (V1_loop_cases st) as [[Hd Hin]|Hgo].
  { exists 0%nat. rewrite V1_loop_cycle by done. cbn. split; [lia|done]. }
  rewrite V1_loop_go by done. cbn zeta. rewrite Hf. cbn [negb orb].
  destruct (IH (i + 1) (V1_next (V1_noted st))) as (m & Hm & Hfr).
  { change (V1._finalOnly (V1_noted st) = false).
    rewrite <- Hf. apply V1_noted_flags. }
  exists (S m). cbn [emit stop generation out]. split.
  - rewrite Hm. lia.
  - cbn [V1.frame app]. unfold frames in *. cbn [frames_from V1_frames].
    rewrite Hfr, V1_next_noted.
    destruct (V1._detectCycle st); [|done].
    by rewrite V1_frames_set_history.
Qed.

(** Final-only mode: the frame of the last requested generation, or the
    notice alone. *)
Lemma V1_loop_render_final n i st :
  V1._finalOnly st = true → i + Z.of_nat n = V1._steps st →
  let r := V1.start_loop n i st in
  out r = match stop r with
          | Completed =>
              match n with
              | O => []
              | S _ => V1.frame (V1._steps st) (final r)
              end
          | _ => [CycleNotice None]
          end.
Proof.
  revert i st. induction n as [|n IH]; intros i st Hf Hn; [done|].
  cbv zeta. destruct (V1_loop_cases st) as [[Hd Hin]|Hgo].
  { by rewrite V1_loop_cycle. }
  rewrite V1_loop_go by done. cbn zeta. rewrite Hf. cbn [negb orb].
  assert (Hf' : V1._finalOnly (V1_next (V1_noted st)) = true).
  { change (V1._finalOnly (V1_noted st) = true).
    rewrite <- Hf. apply V1_noted_flags. }
  assert (Hs' : V1._steps (V1_next (V1_noted st)) = V1._steps st).
  { change (V1._steps (V1_noted st) = V1._steps st). apply V1_noted_flags. }
  specialize (IH (i + 1) (V1_next (V1_noted st)) Hf' ltac:(lia)).
  cbv zeta in IH. cbn [emit stop generation final out].
  rewrite IH, Hs'. destruct n as [|n].
  - cbn [V1.start_loop stop final].
    destruct (Z.eqb_spec i (V1._steps st - 1)); [|lia].
    replace (i + 1) with (V1._steps st) by lia. done.
  - destruct (Z.eqb_spec i (V1._steps st - 1)); [lia|].
    cbn [app]. by destruct (stop _).
Qed.

(** X9.  What variant 1 prints, for at least one requested step.  A run
    ends completed or on a cycle, after at most [steps] transitions.
    Outside final-only mode every generation made is shown, from
    generation 0, each labelled with its number: there are as many frames
    as 1 + the generations made.  In final-only mode a completed run shows
    the last generation alone, labelled [steps], and a run stopped on a
    cycle shows nothing but the notice. *)
Theorem X9_V1_rendering (st : V1.state) :
  0 < V1._steps st →
  let r := V1.start st in
  (stop r = Completed ∨ stop r = StoppedByCycle)
  ∧ 0 ≤ generation r ≤ V1._steps st
  ∧ (stop r = Completed → generation r = V1._steps st)
  ∧ (V1._finalOnly st = false →
       frames (out r)
       = (Some 0, V1._cell st) :: V1_frames 0 (Z.to_nat (generation r)) st
       ∧ length (frames (out r)) = Z.to_nat (1 + generation r))
  ∧ (V1._finalOnly st = true →
       out r = match stop r with
               | Completed => V1.frame (V1._steps st) (final r)
               | _ => [CycleNotice None]
               end).
Proof.
  intros Hsteps. cbv zeta. unfold V1.start.
  cbn [emit stop generation final out].
  destruct (V1_loop_generation (Z.to_nat (V1._steps st)) 0 st)
    as (t & Ht & Hg).
  split; [|split; [|split; [|split]]].
  - destruct (V1._detectCycle st) eqn:Hd.
    + destruct (V1_loop_detect (Z.to_nat (V1._steps st)) 0 st Hd)
        as (? & _ & _ & _ & _ & _ & [(-> & _)|(-> & _)]); auto.
    + destruct (V1_loop_no_detect (Z.to_nat (V1._steps st)) 0 st Hd)
        as (-> & _); auto.
  - lia.
  - intros Hs. destruct (V1._detectCycle st) eqn:Hd.
    + destruct (V1_loop_detect (Z.to_nat (V1._steps st)) 0 st Hd)
        as (t' & _ & Hg' & _ & _ & _ & [(Hc & _)|(_ & -> & _)]);
        [congruence|lia].
    + destruct (V1_loop_no_detect (Z.to_nat (V1._steps st)) 0 st Hd)
        as (_ & -> & _). lia.
  - intros Hf. rewrite Hf. cbn [negb].
    destruct (V1_loop_render_all (Z.to_nat (V1._steps st)) 0 st Hf)
      as (m & Hm & Hfr).
    rewrite Hm. cbn [V1.frame app]. unfold frames in *.
    cbn [frames_from]. rewrite Hfr.
    replace (Z.to_nat (0 + Z.of_nat m)) with m by lia.
    split; [done|].
    cbn [length]. rewrite length_V1_frames. lia.
  - intros Hf. rewrite Hf. cbn [negb app].
    pose proof (V1_loop_render_final (Z.to_nat (V1._steps st)) 0 st Hf
                  ltac:(lia)) as Hout.
    cbv zeta in Hout. rewrite Hout.
    destruct (Z.to_nat (V1._steps st)) eqn:Hn; [lia|done].
Qed.

(** ** What [display] prints *)

Lemma foldl_snoc {A B : Type} (f : B → A) (l : list B) (acc : list A) :
  foldl (λ out x, out ++ [f x]) acc l = acc ++ (f <$> l).
Proof.
  revert acc. induction l as [|x l IH]; intros acc; cbn [foldl fmap list_fmap].
  - by rewrite app_nil_r.
  - by rewrite IH, <- app_assoc.
Qed.

Lemma foldl_app_concat {A B : Type} (g : B → list A) (l : list B)
    (acc : list A) :
  foldl (λ out x, out ++ g x) acc l = acc ++ concat (g <$> l).
Proof.
  revert acc. induction l as [|x l IH]; intros acc;
    cbn [foldl fmap list_fmap concat].
  - by rewrite app_nil_r.
  - by rewrite IH, <- app_assoc.
Qed.

Lemma V1_display_text st :
  V1.display st = board_text (V1._row st) (V1._col st) (V1.at_ (V1._cell st)).
Proof.
  unfold V1.display, board_text. cbv zeta. f_equal.
  rewrite <- (app_nil_l (concat _)), <- foldl_app_concat.
  apply foldl_ext_in. intros cout i _.
  by rewrite (foldl_snoc (λ j, glyph (V1.at_ (V1._cell st) i j))), app_assoc.
Qed.

Lemma V3_display_text st :
  V3.display st
  = board_text (V3._row st) (V3._col st)
               (λ i j, V3.at_ (V3._cell st) (i * V3._col st + j)).
Proof.
  unfold V3.display, board_text. cbv zeta. f_equal.
  rewrite <- (app_nil_l (concat _)), <- foldl_app_concat.
  apply foldl_ext_in. intros cout i _.
  by rewrite (foldl_snoc
                (λ j, glyph (V3.at_ (V3._cell st) (i * V3._col st + j)))),
     app_assoc.
Qed.

Lemma V2_display_text st :
  V2.display st
  = board_text (V2._row st) (V2._col st) (V2_alive (V2._grid st) (V2._col st)).
Proof.
  unfold V2.display, board_text. cbv zeta. f_equal.
  rewrite <- (app_nil_l (concat _)), <- foldl_app_concat.
  apply foldl_ext_in. intros cout i _.
  by rewrite (foldl_snoc
                (λ j, glyph (V2_alive (V2._grid st) (V2._col st) i j))).
Qed.

Lemma board_text_ext rows cols alive alive' :
  (∀ i j, 0 ≤ i < rows → 0 ≤ j < cols → alive i j = alive' i j) →
  board_text rows cols alive = board_text rows cols alive'.
Proof.
  intros Hext. unfold board_text. do 2 f_equal.
  apply list_fmap_ext. intros _ i Hi%list_elem_of_lookup_2%elem_of_seqZ.
  f_equal. apply list_fmap_ext.
  intros _ j Hj%list_elem_of_lookup_2%elem_of_seqZ.
  f_equal. apply Hext; lia.
Qed.

Lemma read_board_app a b : read_board (a ++ b) = read_board a ++ read_board b.
Proof. unfold read_board. by rewrite filter_app, fmap_app. Qed.

Lemma read_board_glyphs {K : Type} (f : K → bool) (ks : list K) :
  read_board ((λ k, glyph (f k)) <$> ks) = f <$> ks.
Proof.
  induction ks as [|k ks IH]; [done|].
  rewrite !fmap_cons.
  change (read_board ([glyph (f k)] ++ ((λ k, glyph (f k)) <$> ks))
          = f k :: (f <$> ks)).
  rewrite read_board_app, IH. by destruct (f k).
Qed.

Lemma read_board_text rows cols alive :
  read_board (board_text rows cols alive)
  = concat ((λ i, alive i <$> seqZ 0 cols) <$> seqZ 0 rows).
Proof.
  unfold board_text. rewrite read_board_app.
  change (read_board [newline]) with (@nil bool). rewrite app_nil_r.
  induction (seqZ 0 rows) as [|i rs IH]; [done|].
  rewrite !fmap_cons. cbn [concat].
  by rewrite !read_board_app, read_board_glyphs, IH, app_nil_r.
Qed.

Lemma length_board_text rows cols alive :
  0 ≤ rows → 0 ≤ cols →
  length (board_text rows cols alive) = Z.to_nat (rows * (cols + 1) + 1).
Proof.
  intros Hr Hc. unfold board_text. rewrite length_app. cbn [length].
  assert (Hlen : ∀ rs : list Z,
            length (concat ((λ i, ((λ j, glyph (alive i j)) <$> seqZ 0 cols)
                                  ++ [newline]) <$> rs))
            = (length rs * Z.to_nat (cols + 1))%nat).
  { induction rs as [|i rs IH]; [done|].
    rewrite fmap_cons. cbn [concat length].
    rewrite !length_app, IH, length_fmap, length_seqZ. cbn [length]. lia. }
  rewrite Hlen, length_seqZ. nia.
Qed.

(** A row of a flat buffer, read cell by cell. *)
Lemma row_slice (cell : list bool) cols i :
  0 ≤ i → 0 ≤ cols → (Z.to_nat ((i + 1) * cols) ≤ length cell)%nat →
  (λ j, V3.at_ cell (i * cols + j)) <$> seqZ 0 cols
  = take (Z.to_nat cols) (drop (Z.to_nat (i * cols)) cell).
Proof.
  intros Hi Hc Hlen. apply list_eq. intros k.
  rewrite list_lookup_fmap.
  destruct (decide (Z.of_nat k < cols)) as [Hk|Hk].
  - rewrite lookup_seqZ_lt by lia. cbn [fmap option_fmap option_map].
    rewrite lookup_take_lt, lookup_drop by lia.
    unfold V3.at_.
    replace (Z.to_nat (i * cols + (0 + Z.of_nat k)))
      with (Z.to_nat (i * cols) + k)%nat by nia.
    destruct (lookup_lt_is_Some_2 cell (Z.to_nat (i * cols) + k))
      as [x ->]; [nia|done].
  - rewrite lookup_seqZ_ge by lia.
    rewrite lookup_take_ge by lia. done.
Qed.

Lemma concat_slices (cell : list bool) (cols : Z) (r : nat) :
  0 ≤ cols →
  concat ((λ i, take (Z.to_nat cols) (drop (Z.to_nat (i * cols)) cell))
          <$> seqZ 0 (Z.of_nat r))
  = take (r * Z.to_nat cols) cell.
Proof.
  intros Hc. induction r as [|r IH]; [done|].
  rewrite Nat2Z.inj_succ, <- Z.add_1_r, seqZ_app by lia.
  rewrite fmap_app, concat_app, IH. cbn [seqZ fmap list_fmap concat].
  change (seqZ (0 + Z.of_nat r) 1) with [0 + Z.of_nat r].
  cbn [fmap list_fmap concat]. rewrite app_nil_r.
  replace (Z.to_nat ((0 + Z.of_nat r) * cols))
    with (r * Z.to_nat cols)%nat by nia.
  rewrite take_take_drop. f_equal. lia.
Qed.

Lemma read_flat rows cols (cell : list bool) alive :
  0 ≤ rows → 0 ≤ cols → length cell = Z.to_nat (rows * cols) →
  (∀ i j, 0 ≤ i < rows → 0 ≤ j < cols →
     alive i j = V3.at_ cell (i * cols + j)) →
  read_board (board_text rows cols alive) = cell.
Proof.
  intros Hr Hc Hlen Halive. rewrite read_board_text.
  transitivity (concat ((λ i, take (Z.to_nat cols)
                                   (drop (Z.to_nat (i * cols)) cell))
                        <$> seqZ 0 rows)).
  - f_equal. apply list_fmap_ext.
    intros _ i Hi%list_elem_of_lookup_2%elem_of_seqZ.
    rewrite <- row_slice by nia.
    apply list_fmap_ext. intros _ j Hj%list_elem_of_lookup_2%elem_of_seqZ.
    apply Halive; lia.
  - rewrite <- (Z2Nat.id rows) at 1 by done.
    rewrite concat_slices by done. apply take_ge. nia.
Qed.

Lemma same_board_display st1 st2 st3 :
  V1_wf st1 → V3_wf st3 →
  V1._row st1 = V3._row st3 → V1._col st1 = V3._col st3 →
  V2._row st2 = V3._row st3 → V2._col st2 = V3._col st3 →
  concat (V1._cell st1) = V3._cell st3 →
  V2._grid st2 = Z.b2z <$> V3._cell st3 →
  V1.display st1 = V3.display st3 ∧ V2.display st2 = V3.display st3.
Proof.
  intros Hwf1 Hwf3 Hr1 Hc1 Hr2 Hc2 Hcell1 Hcell2.
  rewrite V1_display_text, V2_display_text, V3_display_text.
  rewrite Hr1, Hc1, Hr2, Hc2. split; apply board_text_ext; intros i j Hi Hj.
  - unfold V1.at_, V3.at_. rewrite <- Hcell1.
    rewrite (concat_lookup (V3._row st3) (V3._col st3)); [done| |lia|done].
    rewrite <- Hr1, <- Hc1. apply Hwf1.
  - unfold V2_alive, V2.at_, V3.at_. rewrite Hcell2, list_lookup_fmap.
    by destruct (V3._cell st3 !! _) as [[]|].
Qed.

(** X10.  For the same board the three [display]s print the same text,
    character for character. *)
Theorem X10_display_agree (st1 : V1.state) (st2 : V2.state) (st3 : V3.state) :
  V1_wf st1 → V3_wf st3 →
  V1._row st1 = V3._row st3 → V1._col st1 = V3._col st3 →
  V2._row st2 = V3._row st3 → V2._col st2 = V3._col st3 →
  concat (V1._cell st1) = V3._cell st3 →
  V2._grid st2 = Z.b2z <$> V3._cell st3 →
  V1.display st1 = V3.display st3 ∧ V2.display st2 = V3.display st3.
Proof. apply same_board_display. Qed.

(** X11.  The text that [display] prints has [rows] lines of [cols]
    characters, then an empty line, [rows * (cols + 1) + 1] characters in
    all; and reading the characters other than newlines, ['o'] as alive,
    gives back the cells in row-major order. *)
Theorem X11_display_read_back :
  (∀ st, V1_wf st →
     read_board (V1.display st) = concat (V1._cell st)
     ∧ length (V1.display st)
       = Z.to_nat (V1._row st * (V1._col st + 1) + 1))
  ∧ (∀ st, V2_wf st →
     read_board (V2.display st) = (λ c, negb (c =? 0)) <$> V2._grid st
     ∧ length (V2.display st)
       = Z.to_nat (V2._row st * (V2._col st + 1) + 1))
  ∧ (∀ st, V3_wf st →
     read_board (V3.display st) = V3._cell st
     ∧ length (V3.display st)
       = Z.to_nat (V3._row st * (V3._col st + 1) + 1)).
Proof.
  split; [|split].
  - intros st Hwf. pose proof (V1_wf_rows _ Hwf). pose proof (V1_wf_cols _ Hwf).
    rewrite V1_display_text. split; [|apply length_board_text; lia].
    apply read_flat; [lia|lia| |].
    + apply concat_length; [lia|lia|apply Hwf].
    + intros i j Hi Hj. unfold V1.at_, V3.at_.
      rewrite (concat_lookup (V1._row st) (V1._col st)); [done| |lia|done].
      apply Hwf.
  - intros st Hwf. pose proof (V2_wf_rows _ Hwf). pose proof (V2_wf_cols _ Hwf).
    rewrite V2_display_text. split; [|apply length_board_text; lia].
    apply read_flat; [lia|lia| |].
    + rewrite length_fmap. apply Hwf.
    + intros i j Hi Hj. unfold V2_alive, V2.at_, V3.at_.
      rewrite list_lookup_fmap. by destruct (V2._grid st !! _).
  - intros st Hwf. pose proof (V3_wf_rows _ Hwf). pose proof (V3_wf_cols _ Hwf).
    rewrite V3_display_text. split; [|apply length_board_text; lia].
    apply read_flat; [lia|lia|apply Hwf|done].
Qed.

(** ** The board that initialisation draws *)

(** A loop that overwrites a buffer from left to right with values made
    from successive draws. *)
Lemma fill_draws {A rng : Type} (bit : rng → Z * rng) (f : Z → A)
    (pre suf : list A) (r : rng) :
  foldl (λ acc i,
           let '(c, r) := acc in
           let '(b, r) := bit r in
           (<[Z.to_nat i := f b]> c, r))
        (pre ++ suf, r)
        (seqZ (Z.of_nat (length pre)) (Z.of_nat (length suf)))
  = (pre ++ (f <$> (draws bit (length suf) r).1),
     (draws bit (length suf) r).2).
Proof.
  revert pre r. induction suf as [|x suf IH]; intros pre r; [done|].
  cbn [length]. rewrite Nat2Z.inj_succ, <- Z.add_1_l, seqZ_cons by lia.
  replace (Z.pred (1 + Z.of_nat (length suf))) with (Z.of_nat (length suf))
    by lia.
  cbn [foldl draws]. destruct (bit r) as [b r'].
  rewrite Nat2Z.id, insert_app_r_alt, Nat.sub_diag by lia.
  cbn [insert list_insert].
  replace (Z.succ (Z.of_nat (length pre)))
    with (Z.of_nat (length (pre ++ [f b])))
    by (rewrite length_app; cbn [length]; lia).
  rewrite (cons_middle (f b)), app_assoc, IH.
  destruct (draws bit (length suf) r') as [bs r''].
  cbn [fst snd fmap list_fmap]. by rewrite <- app_assoc.
Qed.

Lemma V3_randomize_draws rng (bit : rng → Z * rng) cell r :
  V3.randomize rng bit cell r
  = ((λ b, b =? 1) <$> (draws bit (length cell) r).1,
     (draws bit (length cell) r).2).
Proof.
  unfold V3.randomize.
  apply (fill_draws bit (λ b, b =? 1) [] cell r).
Qed.

Lemma V2_randomize_draws rng (bit : rng → Z * rng) g r :
  V2.randomize rng bit (Z.of_nat (length g)) g r
  = (V2.u8 <$> (draws bit (length g) r).1, (draws bit (length g) r).2).
Proof.
  unfold V2.randomize. apply (fill_draws bit V2.u8 [] g r).
Qed.

(** Writing a cell of a grid of rows is writing the flat buffer at the
    row-major index of the cell. *)
Lemma concat_alter_insert {A : Type} rows cols (g : list (list A)) i j x :
  grid_shape rows cols g → 0 ≤ i < rows → 0 ≤ j < cols →
  concat (alter (<[Z.to_nat j := x]>) (Z.to_nat i) g)
  = <[Z.to_nat (i * cols + j) := x]> (concat g).
Proof.
  intros Hg Hi Hj. apply list_eq. intros p.
  pose proof (alter_insert_shape rows cols g (Z.to_nat i) (Z.to_nat j) x Hg)
    as Hg'.
  destruct (decide (p < Z.to_nat (rows * cols))%nat) as [Hp|Hp].
  - destruct (index_decomp rows cols p ltac:(lia) Hp)
      as (a & b & Ha & Hb & ->).
    rewrite (concat_lookup rows cols) by (done || lia).
    destruct (decide (a = i ∧ b = j)) as [[-> ->]|Hne].
    + destruct (grid_shape_row rows cols g i Hg Hi) as (row & Hrow & Hlen).
      rewrite list_lookup_insert_eq
        by (rewrite (concat_length rows cols); [by apply index_lt|lia..|done]).
      apply (lookup2_alter_eq g _ _ x row Hrow). lia.
    + rewrite list_lookup_insert_ne.
      * rewrite (concat_lookup rows cols) by (done || lia).
        apply (lookup2_alter_ne g). destruct (decide (a = i)) as [->|?].
        -- right. intros ?. apply Hne. split; [done|lia].
        -- left. lia.
      * intros Heq. apply index_inj in Heq; [|lia..]. apply Hne.
        by destruct Heq.
  - rewrite !lookup_ge_None_2; [done|..].
    + rewrite length_insert, (concat_length rows cols); (done || lia).
    + rewrite (concat_length rows cols); (done || lia).
Qed.

(** The iterations of two nested loops visit the row-major indices in
    order. *)
Lemma pairs_index (r : nat) cols :
  0 ≤ cols →
  (λ p : Z * Z, p.1 * cols + p.2) <$> pairs (seqZ 0 (Z.of_nat r)) (seqZ 0 cols)
  = seqZ 0 (Z.of_nat r * cols).
Proof.
  intros Hc. induction r as [|r IH]; [done|].
  rewrite Nat2Z.inj_succ, <- Z.add_1_r, seqZ_app by lia.
  unfold pairs in *. rewrite bind_app, fmap_app, IH.
  change (seqZ (0 + Z.of_nat r) 1) with [0 + Z.of_nat r].
  cbn [mbind list_bind]. rewrite app_nil_r, <- list_fmap_compose.
  replace ((Z.of_nat r + 1) * cols) with (Z.of_nat r * cols + cols) by lia.
  rewrite (seqZ_app _ (Z.of_nat r * cols)) by nia. f_equal.
  transitivity (Z.add (Z.of_nat r * cols) <$> seqZ 0 cols).
  - apply list_fmap_ext. intros _ j _. cbn. lia.
  - rewrite fmap_add_seqZ. f_equal. lia.
Qed.

Lemma V1_randomize_flat rng (bit : rng → Z * rng) rows cols
    (ks : list (Z * Z)) (g : list (list bool)) (r : rng) :
  grid_shape rows cols g →
  Forall (λ k : Z * Z, 0 ≤ k.1 < rows ∧ 0 ≤ k.2 < cols) ks →
  let F := λ (acc : list (list bool) * rng) (k : Z * Z),
             let '(g, r) := acc in
             let '(b, r) := bit r in
             (alter (<[Z.to_nat k.2 := (b =? 1)]>) (Z.to_nat k.1) g, r) in
  let G := λ (acc : list bool * rng) (i : Z),
             let '(c, r) := acc in
             let '(b, r) := bit r in
             (<[Z.to_nat i := (b =? 1)]> c, r) in
  concat (foldl F (g, r) ks).1
  = (foldl G (concat g, r) ((λ p, p.1 * cols + p.2) <$> ks)).1
  ∧ (foldl F (g, r) ks).2
    = (foldl G (concat g, r) ((λ p, p.1 * cols + p.2) <$> ks)).2.
Proof.
  intros Hg Hks F G. revert g r Hg.
  induction Hks as [|k ks [Hk1 Hk2] Hks IH]; intros g r Hg; [done|].
  rewrite fmap_cons. cbn [foldl]. unfold F at 2 4, G at 2 4.
  destruct (bit r) as [b r'].
  rewrite <- (concat_alter_insert rows cols) by done.
  apply IH. by apply alter_insert_shape.
Qed.

Lemma V1_randomize_draws rng (bit : rng → Z * rng) row col g r :
  0 ≤ row → 0 ≤ col → grid_shape row col g →
  concat (V1.randomize rng bit row col g r).1
  = (λ b, b =? 1) <$> (draws bit (Z.to_nat (row * col)) r).1.
Proof.
  intros Hr Hc Hg. unfold V1.randomize.
  rewrite (foldl_nested
    (λ (acc : list (list bool) * rng) i j,
       let '(g, r) := acc in
       let '(b, r) := bit r in
       (alter (<[Z.to_nat j := (b =? 1)]>) (Z.to_nat i) g, r))).
  destruct (V1_randomize_flat rng bit row col
              (pairs (seqZ 0 row) (seqZ 0 col)) g r Hg) as [Hflat _].
  { apply Forall_forall. intros [i j] Hij%elem_of_pairs.
    rewrite !elem_of_seqZ in Hij. cbn. lia. }
  cbv zeta in Hflat. rewrite Hflat.
  rewrite <- (Z2Nat.id row) at 1 by done. rewrite pairs_index by done.
  rewrite Z2Nat.id by done.
  pose proof (fill_draws bit (λ b, b =? 1) [] (concat g) r) as Hfill.
  rewrite (concat_length row col) in Hfill by done.
  rewrite Z2Nat.id in Hfill by nia.
  cbn [length app] in Hfill. change (Z.of_nat 0) with 0 in Hfill.
  by rewrite Hfill.
Qed.

Lemma prev_next_idx n i : 0 ≤ i < n → prevIdx n (nextIdx n i) = i.
Proof.
  intros Hi. unfold prevIdx, nextIdx.
  destruct (decide (i + 1 < n)) as [Hlt|Hge].
  - rewrite (Z.mod_small (i + 1)) by lia.
    replace (i + 1 - 1 + n) with (i + 1 * n) by lia.
    rewrite Z_mod_plus_full. apply Z.mod_small. lia.
  - replace (i + 1) with n by lia. rewrite Z_mod_same_full.
    rewrite Z.mod_small by lia. lia.
Qed.

Lemma next_prev_idx n i : 0 ≤ i < n → nextIdx n (prevIdx n i) = i.
Proof.
  intros Hi. unfold prevIdx, nextIdx.
  destruct (decide (i = 0)) as [->|Hne].
  - rewrite (Z.mod_small (0 - 1 + n)) by lia.
    replace (0 - 1 + n + 1) with n by lia. apply Z_mod_same_full.
  - replace (i - 1 + n) with (i - 1 + 1 * n) by lia.
    rewrite Z_mod_plus_full, (Z.mod_small (i - 1)) by lia.
    replace (i - 1 + 1) with i by lia. apply Z.mod_small. lia.
Qed.

(** X12.  [initBoard] of variants 1 and 3 throws [std::invalid_argument]
    exactly when a size or the number of steps is not positive.  Otherwise
    variant 1 builds a well-formed engine with the sizes and flags given
    and an empty visited set.  So does variant 3 when [row * col] fits an
    [int] and, with cycle detection, [steps + 100] does.  When the [int]
    product [row * col] is negative (as for 46341 × 46341), [resize]
    throws; when the [int] sum [steps + 100] is negative (2147483548 steps
    or more) and cycle detection is on, [reserve] throws.  The board built
    is made of the first [row * col] draws of the random source, in
    row-major order, a cell being alive iff its draw is 1, so that for the
    same seed both variants start from the same board.  The next buffer is
    all dead in variant 3 and left as allocated in variant 1. *)
Theorem X12_initBoard (rng : Type) (rng_seed : Z → rng) (bit : rng → Z * rng)
    (row col steps : Z) (f d : bool) (e : Z) (raw1 raw2 : nat → nat → bool) :
  let bits := (λ b, b =? 1)
              <$> (draws bit (Z.to_nat (row * col)) (rng_seed e)).1 in
  let r1 := V1.initBoard rng rng_seed bit row col steps f d e raw1 raw2 in
  let r3 := V3.initBoard rng rng_seed bit row col steps f d e in
  (row ≤ 0 ∨ col ≤ 0 ∨ steps ≤ 0 →
     r1 = None
     ∧ r3 = inl (V3.invalid_argument "Row, col, and steps must be positive"))
  ∧ (0 < row → 0 < col → 0 < steps →
     (∃ st1,
        r1 = Some st1 ∧ V1_wf st1
        ∧ concat (V1._cell st1) = bits
        ∧ V1._nextCycle st1 = V1.alloc row col raw2
        ∧ V1._history st1 = ∅
        ∧ (V1._row st1, V1._col st1, V1._steps st1) = (row, col, steps)
        ∧ (V1._finalOnly st1, V1._detectCycle st1) = (f, d))
     ∧ (row * col ≤ int_max → (d = true → steps + 100 ≤ int_max) →
        ∃ st3,
          r3 = inr st3 ∧ V3_wf st3
          ∧ V3._cell st3 = bits
          ∧ V3._nextCycle st3 = dead row col
          ∧ V3._history st3 = ∅
          ∧ (V3._row st3, V3._col st3, V3._steps st3) = (row, col, steps)
          ∧ (V3._finalOnly st3, V3._detectCycle st3) = (f, d))
     ∧ (int_of (row * col) < 0 → r3 = inl V3.resize_error)
     ∧ (0 ≤ int_of (row * col) → d = true → int_of (steps + 100) < 0 →
        r3 = inl V3.reserve_error)).
Proof.
  cbv zeta. split.
  - intros Hbad. unfold V1.initBoard, V3.initBoard.
    assert ((row <=? 0) || (col <=? 0) || (steps <=? 0) = true) as ->;
      [|done].
    destruct (Z.leb_spec row 0); [done|].
    destruct (Z.leb_spec col 0); [done|].
    destruct (Z.leb_spec steps 0); [done|lia].
  - intros Hr Hc Hs.
    assert (Hpos : (row <=? 0) || (col <=? 0) || (steps <=? 0) = false).
    { destruct (Z.leb_spec row 0); [lia|].
      destruct (Z.leb_spec col 0); [lia|].
      destruct (Z.leb_spec steps 0); [lia|done]. }
    split; [|split; [|split]].
    + destruct (V1.initBoard rng rng_seed bit row col steps f d e raw1 raw2)
        as [st1|] eqn:H1; cycle 1.
      { unfold V1.initBoard in H1. rewrite Hpos in H1.
        by destruct (V1.randomize _ _ _ _ _ _). }
      exists st1. split; [done|].
      destruct (V1_initBoard_wf _ _ _ _ _ _ _ _ _ _ _ _ H1)
        as (Hwf1 & Hh1 & _ & Hr1 & Hc1 & Hs1 & Hf1 & Hd1).
      split; [done|].
      unfold V1.initBoard in H1. rewrite Hpos in H1.
      pose proof (V1_randomize_draws rng bit row col (V1.alloc row col raw1)
                    (rng_seed e) ltac:(lia) ltac:(lia) (alloc_shape _ _ _))
        as Hd1'.
      destruct (V1.randomize _ _ _ _ _ _) as [c1 r1'].
      injection H1 as <-. cbn in *. repeat split; done.
    + intros Hfit Hsteps.
      assert (Hn : int_of (row * col) = row * col).
      { apply int_of_small. unfold int_max in *. nia. }
      destruct (V3.initBoard rng rng_seed bit row col steps f d e)
        as [ex|st3] eqn:H3.
      { unfold V3.initBoard in H3. rewrite Hpos, Hn in H3. cbv zeta in H3.
        assert ((row * col <? 0) = false) as Hge by (apply Z.ltb_ge; nia).
        rewrite Hge in H3.
        destruct (V3.randomize _ _ _ _) as [c3 r3'].
        destruct d; [|done]. cbn [andb] in H3.
        rewrite int_of_small in H3 by (unfold int_max in *; lia).
        assert ((Z.min 10000 (steps + 100) <? 0) = false) as Hmin
          by (apply Z.ltb_ge; lia).
        by rewrite Hmin in H3. }
      exists st3. split; [done|].
      destruct (V3_initBoard_wf _ _ _ _ _ _ _ _ _ _ Hfit H3)
        as (Hwf3 & Hh3 & _ & Hr3 & Hc3 & Hs3 & Hf3 & Hd3).
      split; [done|].
      unfold V3.initBoard in H3. rewrite Hpos, Hn in H3. cbv zeta in H3.
      destruct (row * col <? 0); [done|].
      pose proof (V3_randomize_draws rng bit
                    (replicate (Z.to_nat (row * col)) false) (rng_seed e))
        as Hd3'.
      rewrite length_replicate in Hd3'.
      destruct (V3.randomize _ _ _ _) as [c3 r3'].
      destruct (d && _); [done|].
      injection H3 as <-. injection Hd3' as -> _.
      cbn in *. repeat split; done.
    + intros Hneg. unfold V3.initBoard. rewrite Hpos. cbv zeta.
      by assert ((int_of (row * col) <? 0) = true) as ->
        by (apply Z.ltb_lt; lia).
    + intros Hnn -> Hneg. unfold V3.initBoard. rewrite Hpos. cbv zeta.
      assert ((int_of (row * col) <? 0) = false) as ->
        by (apply Z.ltb_ge; lia).
      destruct (V3.randomize _ _ _ _) as [c3 r3']. cbn [andb].
      by assert ((Z.min 10000 (int_of (steps + 100)) <? 0) = true) as ->
        by (apply Z.ltb_lt; lia).
Qed.

Lemma draws_bits {rng : Type} (bit : rng → Z * rng) n r :
  (∀ r, (bit r).1 = 0 ∨ (bit r).1 = 1) →
  Forall (λ c, c = 0 ∨ c = 1) (draws bit n r).1.
Proof.
  intros Hbit. revert r. induction n as [|n IH]; intros r; [constructor|].
  cbn [draws]. pose proof (Hbit r) as Hb. specialize (IH (bit r).2).
  destruct (bit r) as [b r']. cbn [fst snd] in *.
  destruct (draws bit n r') as [bs r'']. cbn [fst] in *. by constructor.
Qed.

Lemma length_draws {rng : Type} (bit : rng → Z * rng) n r :
  length (draws bit n r).1 = n.
Proof.
  revert r. induction n as [|n IH]; intros r; [done|].
  cbn [draws]. specialize (IH (bit r).2).
  destruct (bit r) as [b r']. cbn [snd] in IH.
  destruct (draws bit n r') as [bs r'']. cbn [fst length] in *. by rewrite IH.
Qed.

(** X13.  [init] of variant 2, for positive sizes, fills the grid with the
    first [rows * cols] draws of the random source, in order, each reduced
    to a byte, and leaves the source as it is after these draws; the next
    buffer is all zero, the visited set empty and the base hash the seed
    combined with [rows] and then [cols].  When every draw is 0 or 1 the
    engine is well formed and the grid holds the draws themselves. *)
Theorem X13_V2_init (rng : Type) (bit : rng → Z * rng)
    (expected rows cols : Z) (f d : bool) (r : rng) :
  0 < rows → 0 < cols →
  let N := Z.to_nat (rows * cols) in
  let st := (V2.init rng bit expected rows cols f d r).1 in
  V2._grid st = V2.u8 <$> (draws bit N r).1
  ∧ (V2.init rng bit expected rows cols f d r).2 = (draws bit N r).2
  ∧ V2._next st = replicate N 0
  ∧ V2._history st = ∅
  ∧ V2._baseHash st
    = hash_combine (hash_combine hash_seed (u64 rows)) (u64 cols)
  ∧ (V2._row st, V2._col st, V2._finalOnly st, V2._detectCycle st)
    = (rows, cols, f, d)
  ∧ ((∀ r, (bit r).1 = 0 ∨ (bit r).1 = 1) →
     V2_wf st ∧ V2._grid st = (draws bit N r).1).
Proof.
  intros Hr Hc. cbv zeta.
  assert (Hgrid : V2._grid (V2.init rng bit expected rows cols f d r).1
                  = V2.u8 <$> (draws bit (Z.to_nat (rows * cols)) r).1
                  ∧ (V2.init rng bit expected rows cols f d r).2
                    = (draws bit (Z.to_nat (rows * cols)) r).2).
  { unfold V2.init.
    pose proof (V2_randomize_draws rng bit
                  (replicate (Z.to_nat (rows * cols)) 0) r) as Hd.
    rewrite length_replicate, Z2Nat.id in Hd by nia.
    rewrite Hd. done. }
  destruct Hgrid as [Hgrid Hrng].
  split; [done|]. split; [done|].
  split; [unfold V2.init; by destruct (V2.randomize _ _ _ _ _)|].
  split; [unfold V2.init; by destruct (V2.randomize _ _ _ _ _)|].
  split; [unfold V2.init; by destruct (V2.randomize _ _ _ _ _)|].
  split; [unfold V2.init; by destruct (V2.randomize _ _ _ _ _)|].
  intros Hbit. split; [by apply V2_init_wf|].
  rewrite Hgrid. clear Hgrid.
  pose proof (draws_bits bit (Z.to_nat (rows * cols)) r Hbit) as Hall.
  induction Hall as [|c cs Hc' Hall IH]; [done|].
  rewrite fmap_cons, IH. f_equal. by destruct Hc' as [-> | ->].
Qed.

(** X14.  The neighbour tables that [init] fills, for a size [n] of at
    most [2^30] and an index [i] of [0 .. n-1].  The [int] sums
    [i + n - 1] and [i + 1] of which [init] takes the remainder do not
    overflow for such a size.  The predecessor is [i - 1], or [n - 1] for
    [i = 0]; the successor is [i + 1], or [0] for [i = n - 1]; both are
    indices of [0 .. n-1] and each table undoes the other. *)
Theorem X14_V2_tables (n i : Z) :
  0 ≤ i < n → n ≤ 2 ^ 30 →
  let prev := V2.at_ (V2.prev_table n) in
  let next := V2.at_ (V2.next_table n) in
  int_of (i + n - 1) = i + n - 1 ∧ int_of (i + 1) = i + 1
  ∧ prev i = (if i =? 0 then n - 1 else i - 1)
  ∧ next i = (if i =? n - 1 then 0 else i + 1)
  ∧ 0 ≤ prev i < n ∧ 0 ≤ next i < n
  ∧ prev (next i) = i ∧ next (prev i) = i
  ∧ length (V2.prev_table n) = Z.to_nat n
  ∧ length (V2.next_table n) = Z.to_nat n.
Proof.
  intros Hi Hfit. cbv zeta.
  split; [apply int_of_small; unfold int_max; lia|].
  split; [apply int_of_small; unfold int_max; lia|].
  pose proof (prevIdx_range n i ltac:(lia)) as Hp.
  pose proof (nextIdx_range n i ltac:(lia)) as Hn.
  rewrite (V2_prev_table n i), (V2_next_table n i) by done.
  rewrite (V2_prev_table n (nextIdx n i)) by done.
  rewrite (V2_next_table n (prevIdx n i)) by done.
  rewrite prev_next_idx, next_prev_idx by done.
  split; [|split; [|split; [done|split; [done|split; [done|split; [done|]]]]]].
  - unfold prevIdx. destruct (Z.eqb_spec i 0) as [->|Hne].
    + rewrite Z.mod_small by lia. lia.
    + replace (i - 1 + n) with (i - 1 + 1 * n) by lia.
      rewrite Z_mod_plus_full. apply Z.mod_small. lia.
  - unfold nextIdx. destruct (Z.eqb_spec i (n - 1)) as [->|Hne].
    + replace (n - 1 + 1) with n by lia. apply Z_mod_same_full.
    + apply Z.mod_small. lia.
  - unfold V2.prev_table, V2.next_table. split.
    + apply (foldl_inv (λ t, length t = Z.to_nat n));
        [apply length_replicate|].
      intros t k Ht. by rewrite length_insert.
    + apply (foldl_inv (λ t, length t = Z.to_nat n));
        [apply length_replicate|].
      intros t k Ht. by rewrite length_insert.
Qed.

(** ** The three variants go through the same boards *)

Lemma same_board_next st1 st2 st3 :
  same_board st1 st2 st3 →
  same_board (V1_next st1) (V2.step st2) (V3_next st3).
Proof.
  intros [Hwf1 Hwf2 Hwf3 Hr1 Hc1 Hr2 Hc2 Hcell1 Hcell2 Hbase].
  split; [by apply V1_next_wf|by apply V2_step_wf|by apply V3_next_wf
         |done..| | |done].
  - change (concat (V1._nextCycle (V1.step st1))
            = V3._nextCycle (V3.step st3)).
    pose proof (V3_wf_rows _ Hwf3) as Hrows.
    pose proof (V3_wf_cols _ Hwf3) as Hcols.
    assert (Halive1 : ∀ a b, 0 ≤ a < V3._row st3 → 0 ≤ b < V3._col st3 →
              V1.at_ (V1._cell st1) a b
              = V3.at_ (V3._cell st3) (a * V3._col st3 + b)).
    { intros a b Ha Hb. unfold V1.at_, V3.at_. rewrite <- Hcell1.
      rewrite (concat_lookup (V3._row st3) (V3._col st3)); [done| |lia|done].
      rewrite <- Hr1, <- Hc1. apply Hwf1. }
    pose proof (V1_step_shape st1 _ _ (V1_wf_next _ Hwf1)) as Hshape1.
    apply list_eq. intros p.
    destruct (decide (p < Z.to_nat (V3._row st3 * V3._col st3))%nat)
      as [Hp|Hp].
    + destruct (index_decomp _ _ _ Hcols Hp) as (i & j & Hi & Hj & ->).
      rewrite V3_step_lookup by (done || apply Hwf3).
      rewrite V3_count_at by done.
      replace (Z.to_nat (i * V3._col st3 + j))
        with (Z.to_nat (i * V1._col st1 + j)) by (by rewrite Hc1).
      rewrite (concat_lookup (V1._row st1) (V1._col st1));
        [|done|lia|lia].
      rewrite V1_step_lookup2 by (lia || apply Hwf1).
      rewrite V1_count_at by (lia || apply Hwf1).
      rewrite Hr1, Hc1, Halive1 by done. do 2 f_equal.
      by apply live_neighbours_ext.
    + rewrite !lookup_ge_None_2; [done| |].
      * rewrite V3_step_length, (V3_wf_next _ Hwf3). lia.
      * rewrite (concat_length (V1._row st1) (V1._col st1)); [|lia..|done].
        rewrite Hr1, Hc1. lia.
  - change (V2.step_pass st2 = Z.b2z <$> V3._nextCycle (V3.step st3)).
    pose proof (V3_wf_rows _ Hwf3) as Hrows.
    pose proof (V3_wf_cols _ Hwf3) as Hcols.
    assert (Halive2 : ∀ a b,
              V2_alive (V2._grid st2) (V2._col st2) a b
              = V3.at_ (V3._cell st3) (a * V3._col st3 + b)).
    { intros a b. unfold V2_alive, V2.at_, V3.at_.
      rewrite Hcell2, Hc2, list_lookup_fmap.
      by destruct (V3._cell st3 !! _) as [[]|]. }
    apply list_eq. intros p. rewrite list_lookup_fmap.
    destruct (decide (p < Z.to_nat (V3._row st3 * V3._col st3))%nat)
      as [Hp|Hp].
    + destruct (index_decomp _ _ _ Hcols Hp) as (i & j & Hi & Hj & ->).
      rewrite V3_step_lookup by (done || apply Hwf3).
      rewrite V3_count_at by done.
      replace (Z.to_nat (i * V3._col st3 + j))
        with (Z.to_nat (i * V2._col st2 + j)) by (by rewrite Hc2).
      rewrite V2_step_pass_lookup by (done || lia).
      rewrite V2_count_live by (done || lia).
      cbn [fmap option_fmap option_map]. do 2 f_equal.
      rewrite Halive2. f_equal.
      rewrite (live_neighbours_ext
                 (V2_alive (V2._grid st2) (V2._col st2))
                 (λ a b, V3.at_ (V3._cell st3) (a * V3._col st3 + b)))
        by (auto || lia).
      by rewrite Hr2, Hc2.
    + rewrite !lookup_ge_None_2; [done| |].
      * rewrite V3_step_length, (V3_wf_next _ Hwf3). lia.
      * rewrite V2_step_pass_length, (V2_wf_next _ Hwf2), Hr2, Hc2. lia.
Qed.

Lemma same_board_gen k st1 st2 st3 :
  same_board st1 st2 st3 →
  same_board (V1_gen k st1) (V2_gen k st2) (V3_gen k st3).
Proof.
  intros Hsame. induction k as [|k IH]; [done|].
  rewrite V1_gen_succ, V2_gen_succ, V3_gen_succ. by apply same_board_next.
Qed.

Lemma b2z_bools (cells : list bool) :
  (λ c, negb (c =? 0)) <$> (Z.b2z <$> cells) = cells.
Proof.
  induction cells as [|c cells IH]; [done|].
  rewrite !fmap_cons, IH. by destruct c.
Qed.

Lemma same_board_hash st1 st2 st3 :
  same_board st1 st2 st3 →
  V1.hashState st1 = V3.hashState st3 ∧ V2.hashState st2 = V3.hashState st3.
Proof.
  intros [Hwf1 Hwf2 Hwf3 Hr1 Hc1 Hr2 Hc2 Hcell1 Hcell2 Hbase].
  pose proof (V1_wf_rows _ Hwf1). pose proof (V1_wf_cols _ Hwf1).
  rewrite V1_hashState_fingerprint by (lia || apply Hwf1).
  rewrite V2_hashState_fingerprint by done.
  rewrite V3_hashState_fingerprint.
  by rewrite Hr1, Hc1, Hr2, Hc2, Hcell1, Hcell2, b2z_bools.
Qed.

(** X15.  Three engines, one of each variant, that hold the same board
    (variant 2's base hash being that of its dimensions) hold the same
    board after any number of transitions, with the same fingerprint, and
    display the same text. *)
Theorem X15_runs_agree (st1 : V1.state) (st2 : V2.state) (st3 : V3.state)
    (k : nat) :
  same_board st1 st2 st3 →
  concat (V1._cell (V1_gen k st1)) = V3._cell (V3_gen k st3)
  ∧ V2._grid (V2_gen k st2) = Z.b2z <$> V3._cell (V3_gen k st3)
  ∧ V1.hashState (V1_gen k st1) = V3.hashState (V3_gen k st3)
  ∧ V2.hashState (V2_gen k st2) = V3.hashState (V3_gen k st3)
  ∧ V1.display (V1_gen k st1) = V3.display (V3_gen k st3)
  ∧ V2.display (V2_gen k st2) = V3.display (V3_gen k st3).
Proof.
  intros Hsame. apply (same_board_gen k) in Hsame.
  destruct (same_board_hash _ _ _ Hsame) as [Hh1 Hh2].
  destruct Hsame as [Hwf1 Hwf2 Hwf3 Hr1 Hc1 Hr2 Hc2 Hcell1 Hcell2 Hbase].
  split; [done|]. split; [done|]. split; [done|]. split; [done|].
  by apply same_board_display.
Qed.

(** A fingerprint that repeats an earlier one cannot lie inside a run of
    distinct fingerprints. *)
Lemma first_repeat (f : nat → Z) (a b : nat) :
  NoDup (f <$> seq 0 b) → f a ∈ f <$> seq 0 a → (b ≤ a)%nat.
Proof.
  intros Hnd Hin. apply elem_of_fps in Hin as (j & Hj & Heq).
  destruct (decide (b ≤ a)%nat) as [|Hlt]; [done|]. exfalso.
  assert (Ha : (f <$> seq 0 b) !! a = Some (f a)).
  { rewrite list_lookup_fmap, lookup_seq_lt by lia. done. }
  assert (Hj' : (f <$> seq 0 b) !! j = Some (f a)).
  { rewrite list_lookup_fmap, lookup_seq_lt by lia. cbn. by rewrite Heq. }
  pose proof (NoDup_lookup _ _ _ _ Hnd Ha Hj'). lia.
Qed.

(** X16.  Variants 1 and 2 on the same board, with the same number of
    steps, cycle detection and empty visited sets, end at the same
    generation.  When variant 1 reports a cycle, so does variant 2.  When
    variant 2 reports a cycle before the last requested step, so does
    variant 1; a cycle that variant 2 finds at the last step goes
    unreported in variant 1, which completes. *)
Theorem X16_V1_V2_cycle (st1 : V1.state) (st2 : V2.state) (st3 : V3.state)
    (pfo : bool) :
  same_board st1 st2 st3 →
  V1._detectCycle st1 = true → V2._detectCycle st2 = true →
  V1._history st1 = ∅ → V2._history st2 = ∅ →
  let r1 := V1.start st1 in
  let r2 := V2.run st2 (V1._steps st1) pfo in
  generation r1 = generation r2
  ∧ (stop r1 = StoppedByCycle → stop r2 = StoppedByCycle)
  ∧ (stop r2 = StoppedByCycle →
     if generation r2 <? V1._steps st1
     then stop r1 = StoppedByCycle else stop r1 = Completed).
Proof.
  intros Hsame Hd1 Hd2 Hh1 Hh2. cbv zeta.
  set (f := λ k, V3.hashState (V3_gen k st3)).
  assert (Hf1' : ∀ k, V1.hashState (V1_gen k st1) = f k).
  { intros k.
    apply (same_board_hash _ _ _ (same_board_gen k _ _ _ Hsame)). }
  assert (Hf1 : ∀ t, V1_fps t st1 = f <$> seq 0 t).
  { intros t. rewrite V1_fps_gens. apply list_fmap_ext. intros _ k _.
    apply Hf1'. }
  assert (Hf2 : ∀ k, V2.hashState (V2_gen k st2) = f k).
  { intros k.
    apply (same_board_hash _ _ _ (same_board_gen k _ _ _ Hsame)). }
  assert (Hf2' : ∀ m, V2.hashState st2 :: V2_fps m st2 = f <$> seq 0 (S m)).
  { intros m. cbn [seq fmap list_fmap]. f_equal; [apply (Hf2 0%nat)|].
    rewrite V2_fps_gens, <- fmap_S_seq, <- list_fmap_compose.
    apply list_fmap_ext. intros _ k _. apply (Hf2 (S k)). }
  unfold V1.start, V2.run. rewrite Hd2. cbv zeta.
  set (n := Z.to_nat (V1._steps st1)).
  set (st0 := V2.set_history _ st2).
  destruct (V1_loop_detect n 0 st1 Hd1)
    as (t & Ht & Hgen1 & _ & Hnd1 & _ & Hend1).
  destruct (V2_loop_detect n 1 (V1._steps st1) pfo st0 Hd2)
    as (m & k & Hm & _ & Hnd2 & Hnew2 & Hend2).
  cbn [emit generation final stop out].
  rewrite Hh1, (right_id_L ∅ (∪)), elem_of_list_to_set, Hf1, Hf1' in Hend1.
  rewrite Hf1 in Hnd1.
  assert (Hnd2' : NoDup (f <$> seq 0 (S m))).
  { rewrite <- Hf2'. subst st0. rewrite V2_fps_set_history in Hnd2, Hnew2.
    constructor; [|done]. intros Hin. apply (Hnew2 _ Hin).
    cbn [V2._history V2.set_history].
    apply elem_of_union_l. by apply elem_of_singleton. }
  assert (Hin2 : V2.hashState (V2_gen k st0)
                 ∈ (list_to_set (V2_fps m st0)
                    ∪ V2._history st0 : gset Z) →
                 f k ∈ f <$> seq 0 (S m)).
  { subst st0. rewrite V2_gen_set_history, V2_fps_set_history.
    cbn [V2._history V2.set_history].
    rewrite Hh2, (right_id_L ∅ (∪)), V2_hashState_set_history, Hf2, <- Hf2'.
    intros [Hin|Hin]%elem_of_union.
    - apply elem_of_list_to_set in Hin. apply elem_of_cons. by right.
    - apply elem_of_singleton in Hin. apply elem_of_cons. by left. }
  rewrite Hgen1.
  destruct Hend1 as [(Hs1 & Hlt1 & Hin1 & _)|(Hs1 & -> & _)];
    destruct Hend2 as [(Hs2 & Hlt2 & -> & Hgen2 & Hink & _)
                      |(Hs2 & -> & -> & Hgen2 & _)];
    rewrite Hs1, Hs2, Hgen2.
  - pose proof (first_repeat f t (S m) Hnd2' Hin1).
    pose proof (first_repeat f (S m) t Hnd1 (Hin2 Hink)).
    split; [lia|]. split; [done|]. intros _.
    destruct (Z.ltb_spec (1 + Z.of_nat m) (V1._steps st1)); [done|lia].
  - pose proof (first_repeat f t (S n) Hnd2' Hin1). lia.
  - pose proof (first_repeat f (S m) n Hnd1 (Hin2 Hink)).
    split; [lia|]. split; [done|]. intros _.
    destruct (Z.ltb_spec (1 + Z.of_nat m) (V1._steps st1)); [lia|done].
  - split; [lia|]. split; [done|]. done.
Qed.

(** ** Variant 3: [get] checks what [initBoard] checks *)

Lemma V3_get_loop_spec atoi args o :
  0 < V3.steps o → 0 < V3.rows o → 0 < V3.cols o →
  match V3.get_loop atoi args o with
  | (true, o', cerr) =>
      forallb (V3_arg_ok atoi) args = true ∧ cerr = []
      ∧ 0 < V3.steps o' ∧ 0 < V3.rows o' ∧ 0 < V3.cols o'
  | (false, _, cerr) =>
      forallb (V3_arg_ok atoi) args = false
      ∧ ∃ msg, cerr = [msg]
          ∧ msg ∈ [ "Error: Steps must be > 0"; "Error: Rows must be > 0";
                    "Error: Cols must be > 0"; "Unknown option" ]%string
  end.
Proof.
  revert o. induction args as [|[c optarg] args IH]; intros o Hs Hr Hc.
  { cbn. done. }
  cbn [V3.get_loop forallb]. unfold V3_arg_ok at 1 3. cbn [fst snd].
  destruct (c =? chr "s") eqn:Es.
  { cbn [V3.steps orb andb].
    destruct (Z.leb_spec (atoi optarg) 0) as [Hle|Hgt].
    - assert ((0 <? atoi optarg) = false) as -> by (apply Z.ltb_ge; lia).
      apply Z.eqb_eq in Es. subst c.
      split; [by vm_compute|]. eexists. split; [done|].
      apply elem_of_cons. by left.
    - assert ((0 <? atoi optarg) = true) as -> by (apply Z.ltb_lt; lia).
      cbn [orb andb]. by apply IH. }
  destruct (c =? chr "r") eqn:Er.
  { cbn [V3.rows orb andb].
    destruct (Z.leb_spec (atoi optarg) 0) as [Hle|Hgt].
    - assert ((0 <? atoi optarg) = false) as -> by (apply Z.ltb_ge; lia).
      apply Z.eqb_eq in Er. subst c.
      split; [by vm_compute|]. eexists. split; [done|].
      apply elem_of_cons. right. apply elem_of_cons. by left.
    - assert ((0 <? atoi optarg) = true) as -> by (apply Z.ltb_lt; lia).
      cbn [orb andb]. by apply IH. }
  destruct (c =? chr "c") eqn:Ec.
  { cbn [V3.cols orb andb].
    destruct (Z.leb_spec (atoi optarg) 0) as [Hle|Hgt].
    - assert ((0 <? atoi optarg) = false) as -> by (apply Z.ltb_ge; lia).
      apply Z.eqb_eq in Ec. subst c.
      split; [by vm_compute|]. eexists. split; [done|].
      do 2 (apply elem_of_cons; right). apply elem_of_cons. by left.
    - assert ((0 <? atoi optarg) = true) as -> by (apply Z.ltb_lt; lia).
      cbn [orb andb]. by apply IH. }
  cbn [orb andb].
  destruct (c =? chr "f") eqn:Ef; [cbn [orb andb]; by apply IH|].
  destruct (c =? chr "d") eqn:Ed; [cbn [orb andb]; by apply IH|].
  cbn [orb andb]. split; [done|]. eexists. split; [done|].
  do 3 (apply elem_of_cons; right). apply elem_of_cons. by left.
Qed.

Lemma V3_get_loop_values atoi args o o' cerr :
  V3.get_loop atoi args o = (true, o', cerr) →
  o' = V3.mkOption (last_value atoi (chr "s") (V3.steps o) args)
                   (last_value atoi (chr "r") (V3.rows o) args)
                   (last_value atoi (chr "c") (V3.cols o) args)
                   (V3.final_only o || has_flag (chr "f") args)
                   (V3.detect_cycle o || has_flag (chr "d") args).
Proof.
  revert o. induction args as [|[c optarg] args IH]; intros o.
  { cbn. intros [= <- _]. rewrite !orb_false_r. by destruct o. }
  cbn [V3.get_loop]. unfold last_value, has_flag in *.
  cbn [foldl existsb fst snd].
  destruct (c =? chr "s") eqn:Es.
  { apply Z.eqb_eq in Es. subst c.
    change (chr "s" =? chr "r") with false.
    change (chr "s" =? chr "c") with false.
    change (chr "s" =? chr "f") with false.
    change (chr "s" =? chr "d") with false.
    cbn [V3.steps]. destruct (atoi optarg <=? 0); [done|].
    intros Hget%IH. by rewrite Hget. }
  destruct (c =? chr "r") eqn:Er.
  { apply Z.eqb_eq in Er. subst c.
    change (chr "r" =? chr "c") with false.
    change (chr "r" =? chr "f") with false.
    change (chr "r" =? chr "d") with false.
    cbn [V3.rows]. destruct (atoi optarg <=? 0); [done|].
    intros Hget%IH. by rewrite Hget. }
  destruct (c =? chr "c") eqn:Ec.
  { apply Z.eqb_eq in Ec. subst c.
    change (chr "c" =? chr "f") with false.
    change (chr "c" =? chr "d") with false.
    cbn [V3.cols]. destruct (atoi optarg <=? 0); [done|].
    intros Hget%IH. by rewrite Hget. }
  destruct (c =? chr "f") eqn:Ef.
  { apply Z.eqb_eq in Ef. subst c.
    change (chr "f" =? chr "d") with false.
    intros Hget%IH. rewrite Hget.
    cbn [V3.steps V3.rows V3.cols V3.final_only V3.detect_cycle orb].
    by rewrite orb_true_r. }
  destruct (c =? chr "d") eqn:Ed; [|done].
  intros Hget%IH. rewrite Hget.
  cbn [V3.steps V3.rows V3.cols V3.final_only V3.detect_cycle orb].
  by rewrite orb_true_r.
Qed.

Lemma V3_initBoard_ok rng rng_seed bit row col steps f d e :
  0 < row → 0 < col → 0 < steps →
  row * col ≤ int_max → (d = true → steps + 100 ≤ int_max) →
  ∃ st, V3.initBoard rng rng_seed bit row col steps f d e = inr st
        ∧ V3_wf st.
Proof.
  intros Hr Hc Hs Hfit Hsteps.
  destruct (V3.initBoard rng rng_seed bit row col steps f d e)
    as [ex|st] eqn:H3.
  - unfold V3.initBoard in H3.
    destruct (Z.leb_spec row 0); [lia|].
    destruct (Z.leb_spec col 0); [lia|].
    destruct (Z.leb_spec steps 0); [lia|]. cbn [orb] in H3.
    rewrite int_of_small in H3 by (unfold int_max in *; nia).
    cbv zeta in H3.
    assert ((row * col <? 0) = false) as Hge by (apply Z.ltb_ge; nia).
    rewrite Hge in H3.
    destruct (V3.randomize _ _ _ _) as [c3 r3'].
    destruct d; [|done]. cbn [andb] in H3.
    rewrite int_of_small in H3 by (unfold int_max in *; lia).
    assert ((Z.min 10000 (steps + 100) <? 0) = false) as Hmin
      by (apply Z.ltb_ge; lia).
    by rewrite Hmin in H3.
  - exists st. split; [done|]. by eapply V3_initBoard_wf.
Qed.

Lemma V3_initBoard_throws rng rng_seed bit row col steps f d e :
  0 < row → 0 < col → 0 < steps →
  int_of (row * col) < 0 ∨ (d = true ∧ int_of (steps + 100) < 0) →
  ∃ ex, V3.initBoard rng rng_seed bit row col steps f d e = inl ex
        ∧ (ex = V3.resize_error ∨ ex = V3.reserve_error).
Proof.
  intros Hr Hc Hs Hover. unfold V3.initBoard.
  destruct (Z.leb_spec row 0); [lia|].
  destruct (Z.leb_spec col 0); [lia|].
  destruct (Z.leb_spec steps 0); [lia|]. cbn [orb]. cbv zeta.
  destruct (Z.ltb_spec (int_of (row * col)) 0) as [Hneg|Hnn].
  { eexists. split; [done|by left]. }
  destruct Hover as [?|[-> Hneg]]; [lia|].
  destruct (V3.randomize _ _ _ _) as [c3 r3']. cbn [andb].
  assert ((Z.min 10000 (int_of (steps + 100)) <? 0) = true) as ->
    by (apply Z.ltb_lt; lia).
  eexists. split; [done|by right].
Qed.

(** X17.  [main] of variant 3.  [get] succeeds iff there are no arguments
    or every option is a flag or a size with a positive value.  The options
    are then the defaults (100 steps on 20 × 20) or, with arguments, the
    value of the last occurrence of each size and the flags that occur, and
    they are positive.  If moreover [rows * cols] fits an [int] and, with
    cycle detection, [steps + 100] does, [initBoard] does not throw, the
    run takes place, nothing is written to [std::cerr] and the exit status
    is 0.  If the [int] product [rows * cols] is negative, or the [int] sum
    [steps + 100] is with cycle detection, the library throws in
    [initBoard]: the options are printed, the line of the [catch] block
    goes to [std::cerr] with the library's text, nothing runs and the exit
    status is 1.  When [get] fails it has stopped at the first option it
    rejects: one line goes to [std::cerr], the options are not printed,
    nothing runs and the exit status is 1. *)
Theorem X17_V3_main (atoi : string → Z) (rng : Type) (rng_seed : Z → rng)
    (bit : rng → Z * rng) (library_what : V3.exception → string)
    (argc : Z) (args : list (Z * string)) (entropy : Z) :
  let ok := (argc <=? 1) || forallb (V3_arg_ok atoi) args in
  let o := (V3.get atoi argc args V3.Option_new).1.2 in
  let r := V3.main atoi rng rng_seed bit library_what argc args entropy in
  (V3.get atoi argc args V3.Option_new).1.1 = ok
  ∧ (ok = true →
     o = (if argc <=? 1 then V3.Option_new
          else V3.mkOption (last_value atoi (chr "s") 100 args)
                           (last_value atoi (chr "r") 20 args)
                           (last_value atoi (chr "c") 20 args)
                           (has_flag (chr "f") args)
                           (has_flag (chr "d") args))
     ∧ 0 < V3.steps o ∧ 0 < V3.rows o ∧ 0 < V3.cols o
     ∧ (V3.rows o * V3.cols o ≤ int_max →
        (V3.detect_cycle o = true → V3.steps o + 100 ≤ int_max) →
        ∃ gol,
          V3.initBoard rng rng_seed bit (V3.rows o) (V3.cols o) (V3.steps o)
                       (V3.final_only o) (V3.detect_cycle o) entropy
          = inr gol
          ∧ V3_wf gol
          ∧ r = (0, [], Some o, Some (V3.start gol)))
     ∧ (int_of (V3.rows o * V3.cols o) < 0
        ∨ (V3.detect_cycle o = true ∧ int_of (V3.steps o + 100) < 0) →
        ∃ ex,
          (ex = V3.resize_error ∨ ex = V3.reserve_error)
          ∧ r = (1, [String.append "Error: " (library_what ex)],
                 Some o, None)))
  ∧ (ok = false →
     ∃ msg,
       r = (1, [msg], None, None)
       ∧ msg ∈ [ "Error: Steps must be > 0"; "Error: Rows must be > 0";
                 "Error: Cols must be > 0"; "Unknown option" ]%string).
Proof.
  cbv zeta. unfold V3.main, V3.get.
  destruct (Z.ltb_spec 1 argc) as [Hargc|Hargc].
  - assert ((argc <=? 1) = false) as -> by (apply Z.leb_gt; lia).
    cbn [orb].
    pose proof (V3_get_loop_spec atoi args V3.Option_new
                  ltac:(cbn; lia) ltac:(cbn; lia) ltac:(cbn; lia)) as Hspec.
    destruct (V3.get_loop atoi args V3.Option_new) as [[[] o] cerr] eqn:Hget.
    + destruct Hspec as (-> & -> & Hs & Hr & Hc). cbn [fst snd negb].
      split; [done|]. split; [|done]. intros _.
      split; [by apply V3_get_loop_values in Hget|].
      split; [done|]. split; [done|]. split; [done|]. split.
      * intros Hfit Hsteps.
        destruct (V3_initBoard_ok rng rng_seed bit
                    (V3.rows o) (V3.cols o) (V3.steps o)
                    (V3.final_only o) (V3.detect_cycle o) entropy
                    Hr Hc Hs Hfit Hsteps)
          as (gol & Hgol & Hwf).
        exists gol. rewrite Hgol. done.
      * intros Hover.
        destruct (V3_initBoard_throws rng rng_seed bit
                    (V3.rows o) (V3.cols o) (V3.steps o)
                    (V3.final_only o) (V3.detect_cycle o) entropy
                    Hr Hc Hs Hover)
          as (ex & Hex & Hkind).
        exists ex. rewrite Hex. split; [done|].
        by destruct Hkind as [-> | ->].
    + destruct Hspec as (-> & msg & -> & Hmsg). cbn [fst snd negb].
      split; [done|]. split; [done|]. intros _. by exists msg.
  - assert ((argc <=? 1) = true) as -> by (apply Z.leb_le; lia).
    cbn [orb fst snd negb]. split; [done|]. split; [|done]. intros _.
    split; [done|].
    split; [cbn; lia|]. split; [cbn; lia|]. split; [cbn; lia|].
    cbn [V3.rows V3.cols V3.steps V3.final_only V3.detect_cycle
         V3.Option_new]. split.
    + intros _ _.
      destruct (V3_initBoard_ok rng rng_seed bit 20 20 100 false false
                  entropy ltac:(lia) ltac:(lia) ltac:(lia)
                  ltac:(by vm_compute) ltac:(done)) as (gol & Hgol & Hwf).
      exists gol. rewrite Hgol. done.
    + intros [Hneg|[? _]]; [|done]. by vm_compute in Hneg.
Qed.

(** ** Variant 1: [get] warns, [initBoard] rejects *)

Lemma V1_initBoard_ok rng rng_seed bit row col steps f d e raw1 raw2 :
  0 < row → 0 < col → 0 < steps →
  ∃ st, V1.initBoard rng rng_seed bit row col steps f d e raw1 raw2 = Some st
        ∧ V1_wf st.
Proof.
  intros Hr Hc Hs.
  destruct (V1.initBoard rng rng_seed bit row col steps f d e raw1 raw2)
    as [st|] eqn:H1.
  - exists st. split; [done|]. by eapply V1_initBoard_wf.
  - unfold V1.initBoard in H1.
    destruct (Z.leb_spec row 0); [lia|].
    destruct (Z.leb_spec col 0); [lia|].
    destruct (Z.leb_spec steps 0); [lia|]. cbn [orb] in H1.
    by destruct (V1.randomize _ _ _ _ _ _).
Qed.

Lemma V1_initBoard_bad rng rng_seed bit row col steps f d e raw1 raw2 :
  row ≤ 0 ∨ col ≤ 0 ∨ steps ≤ 0 →
  V1.initBoard rng rng_seed bit row col steps f d e raw1 raw2 = None.
Proof.
  intros Hbad. unfold V1.initBoard.
  assert ((row <=? 0) || (col <=? 0) || (steps <=? 0) = true) as ->; [|done].
  destruct (Z.leb_spec row 0); [done|].
  destruct (Z.leb_spec col 0); [done|].
  destruct (Z.leb_spec steps 0); [done|lia].
Qed.

Lemma V1_get_fold atoi args o cerr :
  foldl (λ acc a,
      let '(o, cerr) := acc in
      let '(c, optarg) := a in
      if c =? chr "s" then
        let steps := atoi optarg in
        (V1.mkOption steps (V1.rows o) (V1.cols o) (V1.final_only o)
                     (V1.detect_cycle o),
         if steps <=? 0 then cerr ++ ["Steps <= 0"%string] else cerr)
      else if c =? chr "r" then
        let rows := atoi optarg in
        (V1.mkOption (V1.steps o) rows (V1.cols o) (V1.final_only o)
                     (V1.detect_cycle o),
         if rows <=? 0 then cerr ++ ["Rows <= 0"%string] else cerr)
      else if c =? chr "c" then
        let cols := atoi optarg in
        (V1.mkOption (V1.steps o) (V1.rows o) cols (V1.final_only o)
                     (V1.detect_cycle o),
         if cols <=? 0 then cerr ++ ["Cols <= 0"%string] else cerr)
      else if c =? chr "f" then
        (V1.mkOption (V1.steps o) (V1.rows o) (V1.cols o) true
                     (V1.detect_cycle o), cerr)
      else if c =? chr "d" then
        (V1.mkOption (V1.steps o) (V1.rows o) (V1.cols o) (V1.final_only o)
                     true, cerr)
      else (o, cerr ++ ["Unknown option"%string]))
    (o, cerr) args
  = (V1.mkOption (last_value atoi (chr "s") (V1.steps o) args)
                 (last_value atoi (chr "r") (V1.rows o) args)
                 (last_value atoi (chr "c") (V1.cols o) args)
                 (V1.final_only o || has_flag (chr "f") args)
                 (V1.detect_cycle o || has_flag (chr "d") args),
     cerr ++ omap (V1_warning atoi) args).
Proof.
  revert o cerr. induction args as [|[c optarg] args IH]; intros o cerr.
  { cbn. rewrite !orb_false_r, app_nil_r. by destruct o. }
  cbn [foldl]. unfold last_value, has_flag in *.
  cbn [foldl existsb omap list_omap fst snd]. unfold V1_warning at 1.
  cbn [fst snd].
  destruct (c =? chr "s") eqn:Es.
  { apply Z.eqb_eq in Es. subst c.
    change (chr "s" =? chr "r") with false.
    change (chr "s" =? chr "c") with false.
    change (chr "s" =? chr "f") with false.
    change (chr "s" =? chr "d") with false.
    rewrite IH. cbn [V1.steps V1.rows V1.cols V1.final_only V1.detect_cycle
                     orb].
    f_equal. destruct (atoi optarg <=? 0); [by rewrite <- app_assoc|done]. }
  destruct (c =? chr "r") eqn:Er.
  { apply Z.eqb_eq in Er. subst c.
    change (chr "r" =? chr "c") with false.
    change (chr "r" =? chr "f") with false.
    change (chr "r" =? chr "d") with false.
    rewrite IH. cbn [V1.steps V1.rows V1.cols V1.final_only V1.detect_cycle
                     orb].
    f_equal. destruct (atoi optarg <=? 0); [by rewrite <- app_assoc|done]. }
  destruct (c =? chr "c") eqn:Ec.
  { apply Z.eqb_eq in Ec. subst c.
    change (chr "c" =? chr "f") with false.
    change (chr "c" =? chr "d") with false.
    rewrite IH. cbn [V1.steps V1.rows V1.cols V1.final_only V1.detect_cycle
                     orb].
    f_equal. destruct (atoi optarg <=? 0); [by rewrite <- app_assoc|done]. }
  destruct (c =? chr "f") eqn:Ef.
  { apply Z.eqb_eq in Ef. subst c.
    change (chr "f" =? chr "d") with false.
    rewrite IH. cbn [V1.steps V1.rows V1.cols V1.final_only V1.detect_cycle
                     orb].
    by rewrite orb_true_r. }
  destruct (c =? chr "d") eqn:Ed.
  { rewrite IH. cbn [V1.steps V1.rows V1.cols V1.final_only V1.detect_cycle
                     orb].
    by rewrite orb_true_r. }
  rewrite IH. cbn [orb]. by rewrite <- app_assoc.
Qed.

(** X18.  [main] of variant 1.  With arguments, a size is the value of the
    last occurrence of its option, -1 if there is none, and [get] writes
    one line to [std::cerr] for each size given that is not positive and
    for each unknown option, and goes on.  Without arguments the options
    keep their initial values and [initBoard] throws.  In general the run
    takes place iff the three sizes end up positive. *)
Theorem X18_V1_main (atoi : string → Z) (rng : Type) (rng_seed : Z → rng)
    (bit : rng → Z * rng) (argc : Z) (args : list (Z * string))
    (entropy : Z) (raw1 raw2 : nat → nat → bool) :
  let r := V1.main atoi rng rng_seed bit argc args entropy raw1 raw2 in
  let o := r.1.2 in
  (1 < argc →
     o = V1.mkOption (last_value atoi (chr "s") (-1) args)
                     (last_value atoi (chr "r") (-1) args)
                     (last_value atoi (chr "c") (-1) args)
                     (has_flag (chr "f") args) (has_flag (chr "d") args)
     ∧ r.1.1 = omap (V1_warning atoi) args)
  ∧ (argc ≤ 1 → o = V1.Option_new ∧ r.1.1 = [] ∧ r.2 = None)
  ∧ (r.2 = None ↔ V1.steps o ≤ 0 ∨ V1.rows o ≤ 0 ∨ V1.cols o ≤ 0)
  ∧ (0 < V1.steps o → 0 < V1.rows o → 0 < V1.cols o →
     ∃ gol,
       V1.initBoard rng rng_seed bit (V1.rows o) (V1.cols o) (V1.steps o)
                    (V1.final_only o) (V1.detect_cycle o)
                    entropy raw1 raw2 = Some gol
       ∧ V1_wf gol ∧ r.2 = Some (V1.start gol)).
Proof.
  cbv zeta. unfold V1.main.
  destruct (V1.get atoi argc args V1.Option_new) as [o cerr] eqn:Hget.
  cbn [fst snd].
  assert (Hrun : ∀ gol,
            V1.initBoard rng rng_seed bit (V1.rows o) (V1.cols o) (V1.steps o)
                         (V1.final_only o) (V1.detect_cycle o)
                         entropy raw1 raw2 = gol →
            (V1.start <$> gol = None
             ↔ V1.steps o ≤ 0 ∨ V1.rows o ≤ 0 ∨ V1.cols o ≤ 0)).
  { intros gol Hgol. split.
    - intros Hnone.
      destruct (decide (0 < V1.steps o ∧ 0 < V1.rows o ∧ 0 < V1.cols o))
        as [(Hs & Hr & Hc)|Hbad]; [|lia].
      destruct (V1_initBoard_ok rng rng_seed bit (V1.rows o) (V1.cols o)
                  (V1.steps o) (V1.final_only o) (V1.detect_cycle o)
                  entropy raw1 raw2 Hr Hc Hs) as (st & Hst & _).
      rewrite Hst in Hgol. by subst gol.
    - intros Hbad. rewrite <- Hgol, V1_initBoard_bad; [done|lia]. }
  split; [|split; [|split]].
  - intros Hargc. unfold V1.get in Hget.
    destruct (Z.ltb_spec 1 argc); [|lia].
    rewrite V1_get_fold in Hget. by injection Hget as <- <-.
  - intros Hargc. unfold V1.get in Hget.
    destruct (Z.ltb_spec 1 argc); [lia|]. injection Hget as <- <-.
    split; [done|]. split; [done|]. apply (Hrun _ eq_refl). cbn. lia.
  - apply (Hrun _ eq_refl).
  - intros Hs Hr Hc.
    destruct (V1_initBoard_ok rng rng_seed bit (V1.rows o) (V1.cols o)
                (V1.steps o) (V1.final_only o) (V1.detect_cycle o)
                entropy raw1 raw2 Hr Hc Hs) as (st & Hst & Hwf).
    exists st. by rewrite Hst.
Qed.

(** ** Variant 2: [parse_options] validates before anything is built *)

Lemma V2_parse_loop_spec atoi strtoull args opt :
  V2.parse_loop atoi strtoull args opt
  = if forallb V2_arg_known args
    then Some (V2.mkOptions
                 (last_value atoi (chr "s") (V2.steps opt) args)
                 (last_value atoi (chr "r") (V2.rows opt) args)
                 (last_value atoi (chr "c") (V2.cols opt) args)
                 (V2.finalOnly opt || has_flag (chr "f") args)
                 (V2.detectCycle opt || has_flag (chr "d") args)
                 (V2.hasSeed opt || has_flag 1 args)
                 (last_value (λ s, u64 (strtoull s)) 1 (V2.seed opt) args))
    else None.
Proof.
  revert opt. induction args as [|[c optarg] args IH]; intros opt.
  { cbn. rewrite !orb_false_r. by destruct opt. }
  cbn [V2.parse_loop forallb]. unfold V2_arg_known at 1.
  unfold last_value, has_flag in *.
  cbn [foldl existsb fst snd].
  destruct (c =? chr "s") eqn:Es.
  { apply Z.eqb_eq in Es. subst c.
    change (chr "s" =? chr "r") with false.
    change (chr "s" =? chr "c") with false.
    change (chr "s" =? chr "f") with false.
    change (chr "s" =? chr "d") with false.
    change (chr "s" =? 1) with false.
    rewrite IH. cbn [orb andb]. done. }
  destruct (c =? chr "r") eqn:Er.
  { apply Z.eqb_eq in Er. subst c.
    change (chr "r" =? chr "c") with false.
    change (chr "r" =? chr "f") with false.
    change (chr "r" =? chr "d") with false.
    change (chr "r" =? 1) with false.
    rewrite IH. cbn [orb andb]. done. }
  destruct (c =? chr "c") eqn:Ec.
  { apply Z.eqb_eq in Ec. subst c.
    change (chr "c" =? chr "f") with false.
    change (chr "c" =? chr "d") with false.
    change (chr "c" =? 1) with false.
    rewrite IH. cbn [orb andb]. done. }
  destruct (c =? chr "f") eqn:Ef.
  { apply Z.eqb_eq in Ef. subst c.
    change (chr "f" =? chr "d") with false.
    change (chr "f" =? 1) with false.
    rewrite IH. cbn [orb andb V2.steps V2.rows V2.cols V2.finalOnly
                     V2.detectCycle V2.hasSeed V2.seed].
    by rewrite orb_true_r. }
  destruct (c =? chr "d") eqn:Ed.
  { apply Z.eqb_eq in Ed. subst c.
    change (chr "d" =? 1) with false.
    rewrite IH. cbn [orb andb V2.steps V2.rows V2.cols V2.finalOnly
                     V2.detectCycle V2.hasSeed V2.seed].
    by rewrite orb_true_r. }
  destruct (c =? 1) eqn:E1.
  { rewrite IH. cbn [orb andb V2.steps V2.rows V2.cols V2.finalOnly
                     V2.detectCycle V2.hasSeed V2.seed].
    by rewrite orb_true_r. }
  done.
Qed.

(** X19.  [main] of variant 2.  An unknown option ends the program with
    the usage line and status 1.  Known options whose last values leave
    the steps negative or a size not positive end it with the usage line
    and the error line.  Otherwise the options are the last values given,
    which may be zero steps, and the run is that of the engine built from
    them, with status 0 and nothing on [std::cerr]. *)
Theorem X19_V2_main (atoi strtoull : string → Z) (rng : Type)
    (rng_seed : Z → rng) (bit : rng → Z * rng)
    (prog : string) (args : list (Z * string)) (entropy : Z) :
  let parsed := V2.parse_options atoi strtoull prog args in
  let r := V2.main_args atoi strtoull rng rng_seed bit prog args entropy in
  let opt := V2.mkOptions (last_value atoi (chr "s") (-1) args)
                          (last_value atoi (chr "r") (-1) args)
                          (last_value atoi (chr "c") (-1) args)
                          (has_flag (chr "f") args) (has_flag (chr "d") args)
                          (has_flag 1 args)
                          (last_value (λ s, u64 (strtoull s)) 1 0 args) in
  (forallb V2_arg_known args = false →
     parsed = inr [V2.print_usage prog] ∧ r = (1, [V2.print_usage prog], None))
  ∧ (forallb V2_arg_known args = true →
     V2.steps opt < 0 ∨ V2.rows opt ≤ 0 ∨ V2.cols opt ≤ 0 →
     parsed = inr [V2.print_usage prog;
                   "Error: steps must be >= 0, rows/cols must be > 0."%string]
     ∧ r = (1, [V2.print_usage prog;
                "Error: steps must be >= 0, rows/cols must be > 0."%string],
            None))
  ∧ (forallb V2_arg_known args = true →
     0 ≤ V2.steps opt → 0 < V2.rows opt → 0 < V2.cols opt →
     parsed = inl opt
     ∧ r = (0, [],
            Some (V2.run (V2_engine rng rng_seed bit opt entropy)
                         (V2.steps opt) (V2.finalOnly opt)))).
Proof.
  cbv zeta. unfold V2.main_args, V2.parse_options.
  rewrite V2_parse_loop_spec.
  cbn [V2.Options_new V2.steps V2.rows V2.cols V2.finalOnly V2.detectCycle
       V2.hasSeed V2.seed orb].
  split; [|split].
  - intros ->. done.
  - intros -> Hbad. cbn [V2.steps V2.rows V2.cols].
    assert ((last_value atoi (chr "s") (-1) args <? 0)
            || (last_value atoi (chr "r") (-1) args <=? 0)
            || (last_value atoi (chr "c") (-1) args <=? 0) = true) as ->;
      [|done].
    cbn [V2.steps V2.rows V2.cols] in Hbad.
    destruct (Z.ltb_spec (last_value atoi (chr "s") (-1) args) 0); [done|].
    destruct (Z.leb_spec (last_value atoi (chr "r") (-1) args) 0); [done|].
    destruct (Z.leb_spec (last_value atoi (chr "c") (-1) args) 0); [done|].
    lia.
  - intros -> Hs Hr Hc. cbn [V2.steps V2.rows V2.cols] in *.
    assert ((last_value atoi (chr "s") (-1) args <? 0)
            || (last_value atoi (chr "r") (-1) args <=? 0)
            || (last_value atoi (chr "c") (-1) args <=? 0) = false) as Hok.
    { destruct (Z.ltb_spec (last_value atoi (chr "s") (-1) args) 0); [lia|].
      destruct (Z.leb_spec (last_value atoi (chr "r") (-1) args) 0); [lia|].
      destruct (Z.leb_spec (last_value atoi (chr "c") (-1) args) 0); [lia|].
      done. }
    rewrite Hok. split; [done|].
    rewrite V2_main_run. cbn [V2.steps V2.rows V2.cols V2.finalOnly].
    by rewrite Hok.
Qed.

(** ** Runs of variant 2 without cycle detection, and runs of no step *)

Lemma V2_noted_off st : V2._detectCycle st = false → V2_noted st = st.
Proof. intros Hd. unfold V2_noted. by rewrite Hd. Qed.

Lemma V2_loop_no_detect n t steps pfo st :
  V2._detectCycle st = false →
  stop (V2.run_loop n t steps pfo st) = Completed
  ∧ generation (V2.run_loop n t steps pfo st) = t + Z.of_nat n - 1
  ∧ final (V2.run_loop n t steps pfo st) = V2_gen n st
  ∧ notices (out (V2.run_loop n t steps pfo st)) = [].
Proof.
  revert t st. induction n as [|n IH]; intros t st Hd.
  { cbn. split; [done|]. split; [lia|]. split; [done|]. by destruct pfo. }
  rewrite V2_loop_go by (by left). cbv zeta.
  rewrite V2_noted_off by done.
  destruct (IH (t + 1) (V2.step st) Hd) as (Hs & Hg & Hf & Hn).
  cbn [emit stop generation final out]. rewrite notices_app, Hn, V2_gen_S.
  split; [done|]. split; [lia|]. split; [done|]. by destruct (negb pfo).
Qed.

(** X20.  Variant 2 without cycle detection makes all the steps of a run
    of fewer than [INT_MAX] steps, for which the counter [t] of the loop
    stays an [int]: the run ends completed, at generation [steps], in the
    engine reached after that many transitions, and prints no notice.
    With no step to make a run shows the initial board only, under the
    header of generation 0 or, in final-only mode, under the final
    header. *)
Theorem X20_V2_plain_run (st : V2.state) (steps : Z) (pfo : bool) :
  let r := V2.run st steps pfo in
  (V2._detectCycle st = false → steps < int_max →
     stop r = Completed ∧ generation r = Z.max 0 steps
     ∧ int_of (generation r + 1) = generation r + 1
     ∧ final r = V2_gen (Z.to_nat steps) st
     ∧ notices (out r) = [])
  ∧ (steps ≤ 0 →
     stop r = Completed ∧ generation r = 0
     ∧ V2._grid (final r) = V2._grid st
     ∧ V2._history (final r)
       = (if V2._detectCycle st
          then {[V2.hashState st]} ∪ V2._history st else V2._history st)
     ∧ out r = if pfo then [FinalHeader steps; Board (V2._grid st)]
               else [Header 0; Board (V2._grid st)]).
Proof.
  cbv zeta. split.
  - intros Hd Hfit. unfold V2.run. rewrite Hd.
    destruct (V2_loop_no_detect (Z.to_nat steps) 1 steps pfo st Hd)
      as (Hs & Hg & Hf & Hn).
    cbn [emit stop generation final out]. rewrite notices_app, Hn.
    split; [done|]. split; [lia|].
    split; [apply int_of_small; unfold int_max in *; lia|].
    split; [done|]. by destruct (negb pfo).
  - intros Hsteps. unfold V2.run.
    replace (Z.to_nat steps) with 0%nat by lia.
    cbn [V2.run_loop emit stop generation final out].
    split; [done|]. split; [done|].
    destruct (V2._detectCycle st), pfo; done.
Qed.

(** ** The transition commutes with translations of the torus *)

Lemma prevIdx_shift n i a :
  0 < n → (prevIdx n i + a) `mod` n = prevIdx n ((i + a) `mod` n).
Proof.
  intros Hn. unfold prevIdx.
  rewrite Z.add_mod_idemp_l by lia.
  replace ((i + a) `mod` n - 1 + n) with ((i + a) `mod` n + (n - 1)) by lia.
  rewrite Z.add_mod_idemp_l by lia. f_equal. lia.
Qed.

Lemma nextIdx_shift n i a :
  0 < n → (nextIdx n i + a) `mod` n = nextIdx n ((i + a) `mod` n).
Proof.
  intros Hn. unfold nextIdx.
  rewrite !Z.add_mod_idemp_l by lia. f_equal. lia.
Qed.

Lemma tally_map alive alive' (σ : Z * Z → Z * Z) ps :
  Forall (λ p, alive' p.1 p.2 = alive (σ p).1 (σ p).2) ps →
  tally alive' ps = tally alive (σ <$> ps).
Proof.
  induction 1 as [|p ps Hp _ IH]; [done|].
  rewrite fmap_cons. unfold tally in *. cbn [foldr]. by rewrite Hp, IH.
Qed.

Lemma index_div_mod cols i j :
  0 ≤ j < cols → 0 ≤ i →
  (i * cols + j) `div` cols = i ∧ (i * cols + j) `mod` cols = j.
Proof.
  intros Hj Hi. split; symmetry.
  - apply (Z.div_unique_pos _ _ i j); lia.
  - apply (Z.mod_unique_pos _ _ i j); lia.
Qed.

Lemma shift_lookup rows cols a b cells i j :
  0 ≤ i < rows → 0 ≤ j < cols →
  shift rows cols a b cells !! Z.to_nat (i * cols + j)
  = Some (V3.at_ cells (((i + a) `mod` rows) * cols + (j + b) `mod` cols)).
Proof.
  intros Hi Hj. unfold shift. rewrite list_lookup_fmap.
  rewrite lookup_seqZ_lt by nia. cbn [fmap option_fmap option_map].
  rewrite Z2Nat.id, Z.add_0_l by nia.
  destruct (index_div_mod cols i j Hj ltac:(lia)) as [-> ->]. done.
Qed.

Lemma length_shift rows cols a b cells :
  length (shift rows cols a b cells) = Z.to_nat (rows * cols).
Proof. unfold shift. by rewrite length_fmap, length_seqZ. Qed.

Lemma V3_next_lookup st i j :
  V3_wf st → 0 ≤ i < V3._row st → 0 ≤ j < V3._col st →
  V3.at_ (V3._cell (V3_next st)) (i * V3._col st + j)
  = rule (V3.at_ (V3._cell st) (i * V3._col st + j))
         (live_neighbours (λ x y, V3.at_ (V3._cell st) (x * V3._col st + y))
                          (V3._row st) (V3._col st) i j).
Proof.
  intros Hwf Hi Hj. unfold V3.at_ at 1.
  change (V3._cell (V3_next st)) with (V3._nextCycle (V3.step st)).
  rewrite V3_step_lookup by (done || apply Hwf).
  by rewrite V3_count_at.
Qed.

(** X21.  The transition commutes with the translations of the torus:
    the next generation of a board moved by [a] rows and [b] columns is the
    next generation of the board, moved the same way. *)
Theorem X21_shift_step (st st' : V3.state) (a b : Z) :
  V3_wf st → V3_wf st' →
  V3._row st' = V3._row st → V3._col st' = V3._col st →
  V3._cell st' = shift (V3._row st) (V3._col st) a b (V3._cell st) →
  V3._cell (V3_next st')
  = shift (V3._row st) (V3._col st) a b (V3._cell (V3_next st)).
Proof.
  intros Hwf Hwf' Hr Hc Hcell.
  pose proof (V3_wf_rows _ Hwf) as Hrows.
  pose proof (V3_wf_cols _ Hwf) as Hcols.
  set (rows := V3._row st) in *. set (cols := V3._col st) in *.
  assert (Halive : ∀ x y, 0 ≤ x < rows → 0 ≤ y < cols →
            V3.at_ (V3._cell st') (x * cols + y)
            = V3.at_ (V3._cell st)
                     (((x + a) `mod` rows) * cols + (y + b) `mod` cols)).
  { intros x y Hx Hy. unfold V3.at_ at 1.
    by rewrite Hcell, shift_lookup. }
  apply list_eq. intros p.
  destruct (decide (p < Z.to_nat (rows * cols))%nat) as [Hp|Hp].
  - destruct (index_decomp _ _ _ Hcols Hp) as (i & j & Hi & Hj & ->).
    rewrite shift_lookup by done.
    pose proof (Z.mod_pos_bound (i + a) rows Hrows) as Hi'.
    pose proof (Z.mod_pos_bound (j + b) cols Hcols) as Hj'.
    rewrite (V3_next_lookup st) by done.
    pose proof (V3_next_lookup st' i j Hwf') as Hnext.
    rewrite Hr, Hc in Hnext. specialize (Hnext Hi Hj).
    unfold V3.at_ at 1 in Hnext.
    assert (Hlen : (Z.to_nat (i * cols + j) < length (V3._cell (V3_next st')))%nat).
    { rewrite (V3_wf_cell _ (V3_next_wf _ Hwf')).
      change (V3._row (V3_next st')) with (V3._row st').
      change (V3._col (V3_next st')) with (V3._col st').
      rewrite Hr, Hc. by apply index_lt. }
    destruct (lookup_lt_is_Some_2 _ _ Hlen) as [x Hx].
    rewrite Hx in Hnext |- *. cbn [from_option id] in Hnext. subst x.
    f_equal.
    rewrite Halive by done. f_equal.
    rewrite !live_neighbours_tally.
    rewrite (tally_map
               (λ x y, V3.at_ (V3._cell st) (x * cols + y))
               (λ x y, V3.at_ (V3._cell st') (x * cols + y))
               (λ p, ((p.1 + a) `mod` rows, (p.2 + b) `mod` cols))).
    + f_equal. unfold neighbours. cbn [fmap list_fmap fst snd].
      by rewrite !prevIdx_shift, !nextIdx_shift.
    + eapply Forall_impl; [apply (neighbours_in_range rows cols i j Hi Hj)|].
      intros [x y] [Hx' Hy']. cbn [fst snd] in *. by apply Halive.
  - rewrite !lookup_ge_None_2; [done|..].
    + rewrite length_shift. lia.
    + rewrite (V3_wf_cell _ (V3_next_wf _ Hwf')).
      change (V3._row (V3_next st')) with (V3._row st').
      change (V3._col (V3_next st')) with (V3._col st').
      rewrite Hr, Hc. lia.
Qed.

(** ** The board with every cell alive *)

Lemma live_neighbours_all rows cols i j :
  live_neighbours (λ _ _, true) rows cols i j = 8.
Proof. by rewrite live_neighbours_tally. Qed.

Lemma V3_next_full st :
  V3_wf st →
  V3._cell st = replicate (Z.to_nat (V3._row st * V3._col st)) true →
  V3._cell (V3_next st) = dead (V3._row st) (V3._col st).
Proof.
  intros Hwf Hfull. apply list_eq. intros p. unfold dead.
  destruct (decide (p < Z.to_nat (V3._row st * V3._col st))%nat) as [Hp|Hp].
  - rewrite lookup_replicate_2 by done.
    destruct (index_decomp _ _ _ (V3_wf_cols _ Hwf) Hp)
      as (i & j & Hi & Hj & ->).
    pose proof (V3_next_lookup st i j Hwf Hi Hj) as Hnext.
    rewrite (live_neighbours_ext _ (λ _ _, true)) in Hnext; [|done..|].
    + rewrite live_neighbours_all in Hnext. unfold V3.at_ at 1 in Hnext.
      assert (Hlen : (Z.to_nat (i * V3._col st + j)
                      < length (V3._cell (V3_next st)))%nat).
      { rewrite (V3_wf_cell _ (V3_next_wf _ Hwf)). by apply index_lt. }
      destruct (lookup_lt_is_Some_2 _ _ Hlen) as [x Hx].
      rewrite Hx in Hnext |- *. cbn [from_option id] in Hnext. subst x.
      f_equal. unfold rule. by rewrite andb_false_r.
    + intros x y Hx Hy. unfold V3.at_. rewrite Hfull.
      rewrite lookup_replicate_2; [done|]. by apply index_lt.
  - rewrite !lookup_ge_None_2; [done| |].
    + rewrite length_replicate. lia.
    + rewrite (V3_wf_cell _ (V3_next_wf _ Hwf)).
      change (V3._row (V3_next st)) with (V3._row st).
      change (V3._col (V3_next st)) with (V3._col st). lia.
Qed.

(** X22.  A board with every cell alive is all dead after one
    transition, whatever its size: every cell counts eight live
    neighbours, a neighbour being counted as often as it occurs on a small
    torus.  With cycle detection a run of variant 3 started on it stops
    there, with the empty-board notice of generation 1. *)
Theorem X22_full_board (st : V3.state) :
  V3_wf st →
  V3._cell st = replicate (Z.to_nat (V3._row st * V3._col st)) true →
  V3._cell (V3_next st) = dead (V3._row st) (V3._col st)
  ∧ (V3._detectCycle st = true → V3._history st = ∅ → 0 < V3._steps st →
     stop (V3.start st) = StoppedEmpty
     ∧ generation (V3.start st) = 1
     ∧ notices (out (V3.start st)) = [EmptyNotice 1]).
Proof.
  intros Hwf Hfull. pose proof (V3_next_full st Hwf Hfull) as Hdead.
  split; [done|]. intros Hd Hh Hs. unfold V3.start.
  destruct (Z.to_nat (V3._steps st)) as [|n] eqn:Hn; [lia|].
  rewrite V3_loop_go by (right; rewrite Hh; apply not_elem_of_empty).
  cbv zeta. rewrite Hd. cbn [negb andb].
  assert (V3_empty_check (V3_next (V3_noted st)) = true) as ->.
  { unfold V3_empty_check, V3.isEmptyBoard.
    rewrite V3_next_noted, Hd.
    change (V3._cell (V3.set_history _ (V3_next st)))
      with (V3._cell (V3_next st)).
    by rewrite Hdead, no_live_dead, orb_true_r. }
  cbn [emit stop generation out]. split; [done|]. split; [done|].
  rewrite notices_app.
  by destruct (negb (V3._finalOnly st)), (V3._finalOnly st).
Qed.

(** ** A torus of one row *)

(** X23.  On a torus of one row the rows above and below a cell are its
    own row: the count of a cell is three times its left neighbour, twice
    the cell itself and three times its right neighbour, and the cell is
    alive in the next generation iff exactly one of the three is alive. *)
Theorem X23_one_row (st : V3.state) (j : Z) :
  V3_wf st → V3._row st = 1 → 0 ≤ j < V3._col st →
  let cell := V3.at_ (V3._cell st) in
  let left := cell (prevIdx (V3._col st) j) in
  let right := cell (nextIdx (V3._col st) j) in
  V3.count_at st 0 j
  = 3 * Z.b2z left + 2 * Z.b2z (cell j) + 3 * Z.b2z right
  ∧ V3.at_ (V3._cell (V3_next st)) j = exactly_one left (cell j) right.
Proof.
  intros Hwf Hrow Hj. cbv zeta.
  assert (Hcount : V3.count_at st 0 j
            = 3 * Z.b2z (V3.at_ (V3._cell st) (prevIdx (V3._col st) j))
              + 2 * Z.b2z (V3.at_ (V3._cell st) j)
              + 3 * Z.b2z (V3.at_ (V3._cell st) (nextIdx (V3._col st) j))).
  { rewrite V3_count_at by (done || lia).
    rewrite live_neighbours_tally, Hrow. unfold neighbours, tally.
    cbn [foldr fst snd].
    change (prevIdx 1 0) with 0. change (nextIdx 1 0) with 0.
    rewrite !Z.mul_0_l, !Z.add_0_l.
    destruct (V3.at_ _ (prevIdx _ j)), (V3.at_ _ j),
      (V3.at_ _ (nextIdx _ j)); reflexivity. }
  split; [done|].
  pose proof (V3_next_lookup st 0 j Hwf ltac:(lia) Hj) as Hnext.
  rewrite <- V3_count_at, Hcount in Hnext by (done || lia).
  rewrite Z.mul_0_l, Z.add_0_l in Hnext. rewrite Hnext.
  destruct (V3.at_ _ (prevIdx _ j)), (V3.at_ _ j),
    (V3.at_ _ (nextIdx _ j)); reflexivity.
Qed.

(** ** The theorems at work on concrete engines

    Each theorem is applied to an engine holding the upright blinker, or
    to a small board of its own, with every hypothesis discharged. *)

Lemma ex_V1_wf d : V1_wf (ex_V1 d).
Proof.
  split; [reflexivity|reflexivity|apply blinker_shape| |reflexivity].
  split; [reflexivity|]. apply Forall_replicate. reflexivity.
Defined.

Lemma ex_V2_wf d : V2_wf (ex_V2 d).
Proof.
  split; try reflexivity.
  apply (bool_decide_unpack _). vm_compute. exact I.
Defined.

Lemma ex_V3_wf d : V3_wf (ex_V3 d).
Proof. split; reflexivity. Defined.

Lemma C1_witness :
  (V1.at_ (V1._nextCycle (V1.step (ex_V1 false))) 2 1 = true
   ↔ next_alive (V1.at_ (V1._cell (ex_V1 false))) 6 6 2 1)
  ∧ (V2_alive (V2.step_pass (ex_V2 false)) 6 2 1 = true
     ↔ next_alive (V2_alive (V2._grid (ex_V2 false)) 6) 6 6 2 1)
  ∧ (V3.at_ (V3._nextCycle (V3.step (ex_V3 false))) (2 * 6 + 1) = true
     ↔ next_alive (λ a b, V3.at_ (V3._cell (ex_V3 false)) (a * 6 + b))
                  6 6 2 1).
Proof.
  destruct C1_step_rule as (H1 & H2 & H3).
  split; [|split].
  - apply (H1 (ex_V1 false) 2 1 (ex_V1_wf false)); cbn; lia.
  - apply (H2 (ex_V2 false) 2 1 (ex_V2_wf false)); cbn; lia.
  - apply (H3 (ex_V3 false) 2 1 (ex_V3_wf false)); cbn; lia.
Defined.

Lemma C10_witness :
  concat (V1._nextCycle (V1.step (ex_V1 false)))
  = V3._nextCycle (V3.step (ex_V3 false))
  ∧ V2._grid (V2.step (ex_V2 false))
    = Z.b2z <$> V3._nextCycle (V3.step (ex_V3 false)).
Proof.
  apply (C10_steps_agree (ex_V1 false) (ex_V2 false) (ex_V3 false)
           (ex_V1_wf false) (ex_V2_wf false) (ex_V3_wf false));
    reflexivity.
Defined.

Lemma C9_witness :
  V1.hashState (ex_V1 false)
  = foldl hash_combine
      (hash_combine (hash_combine hash_seed (u64 6)) (u64 6))
      (words (concat (V1._cell (ex_V1 false))))
  ∧ V1.hashState (V1_board 2 3 (replicate 6 true))
    ≠ V1.hashState (V1_board 3 2 (replicate 6 true)).
Proof.
  destruct C9_fingerprint
    as (_ & _ & _ & _ & _ & _ & _ & Hfp & _ & _ & _ & Hdim).
  split.
  - apply (Hfp (ex_V1 false)); [cbn; lia|cbn; lia|apply blinker_shape].
  - apply (Hdim (V1_board 3 2 (replicate 6 true))
                (V1_board 2 3 (replicate 6 true))).
    + by vm_compute.
    + by vm_compute.
    + by vm_compute.
    + by vm_compute.
    + reflexivity.
    + reflexivity.
    + split; [reflexivity|]. by repeat constructor.
    + split; [reflexivity|]. by repeat constructor.
    + reflexivity.
Defined.

Lemma C7_witness :
  let st := V1_blinker_state 3 false true 2 2
                             (replicate 6 (replicate 6 false)) in
  let st' := V1_blinker_state 2 false false 0 5
                              (replicate 6 (replicate 6 false)) in
  (V1._cell (V1_gen 2 st) = V1._cell st
   ∧ V1.hashState (V1_gen 2 st) = V1.hashState st
   ∧ stop (V1.start st) = StoppedByCycle
   ∧ generation (V1.start st) = 2)
  ∧ (stop (V1.start st') = Completed ∧ generation (V1.start st') = 2).
Proof.
  cbv zeta. split.
  - destruct (C7_blinker true false 2 2 3 (replicate 6 (replicate 6 false)))
      as (_ & Hp & _ & Hf & Hlong & _).
    + lia.
    + lia.
    + split; [reflexivity|]. apply Forall_replicate. reflexivity.
    + destruct Hlong as (Hs & Hg & _); [lia|]. repeat split; assumption.
  - destruct (C7_blinker false false 0 5 2 (replicate 6 (replicate 6 false)))
      as (_ & _ & _ & _ & _ & Hshort).
    + lia.
    + lia.
    + split; [reflexivity|]. apply Forall_replicate. reflexivity.
    + destruct Hshort as (Hs & Hg & _); [lia|]. split; assumption.
Defined.

Lemma C6_witness :
  let st := V3_board 3 4 2 false false (dead 3 4) (dead 3 4) in
  stop (V3.start st) = StoppedStatic ∧ generation (V3.start st) = 1.
Proof.
  cbv zeta.
  destruct (C6_all_dead (V3_board 3 4 2 false false (dead 3 4) (dead 3 4)))
    as (_ & _ & Hoff & _).
  - split; reflexivity.
  - cbn. lia.
  - reflexivity.
  - reflexivity.
  - destruct (Hoff eq_refl) as (Hs & Hg & _). by split.
Defined.

Lemma C5_witness :
  let st := ex_V3 true in
  stop (V3.start st) = StoppedEmpty
  ↔ V3.isEmptyBoard (final (V3.start st)) = true
    ∧ stop (V3.start st) ≠ StoppedStatic.
Proof.
  cbv zeta.
  destruct (C5_empty_stop (ex_V3 true)) as (_ & Hiff & _).
  - cbn. lia.
  - reflexivity.
  - apply Hiff. vm_compute. discriminate.
Defined.

Lemma C4_witness :
  ∃ t : nat,
    generation (V3.start (ex_V3 false)) = Z.of_nat t
    ∧ (stop (V3.start (ex_V3 false)) = StoppedStatic
       ↔ (1 ≤ t)%nat
         ∧ V3.hashState (V3_gen (t - 1) (ex_V3 false))
           = V3.hashState (V3_gen t (ex_V3 false))).
Proof.
  destruct C4_static_stop as (_ & Hrun & _).
  destruct (Hrun (ex_V3 false) eq_refl) as (t & _ & Hg & _ & _ & Hs & _).
  exists t. by split.
Defined.

Lemma C3_witness :
  (∃ t : nat,
     generation (V1.start (ex_V1 true)) = Z.of_nat t
     ∧ NoDup (V1_fps t (ex_V1 true))
     ∧ V1._history (final (V1.start (ex_V1 true)))
       = list_to_set (V1_fps t (ex_V1 true)))
  ∧ stop (V1.start (ex_V1 true)) = StoppedByCycle
  ∧ stop (V2.run (ex_V2 true) 2 false) = StoppedByCycle.
Proof.
  destruct C3_cycle_detection as (Hrun & _ & _ & _ & Hiff1 & Hiff2).
  split; [|split].
  - destruct (Hrun (ex_V1 true) eq_refl) as (t & _ & Hg & Hfin & Hnd & _).
    exists t. split; [done|]. split; [done|].
    rewrite Hfin. cbn [V1._history V1.set_history ex_V1].
    apply (right_id_L ∅ (∪)).
  - apply (Hiff1 (ex_V1 true) eq_refl). exists 2%nat.
    split; [by vm_compute|].
    apply (bool_decide_unpack _). by vm_compute.
  - apply (Hiff2 (ex_V2 true) 2 false eq_refl). exists 1%nat.
    split; [by vm_compute|].
    apply (bool_decide_unpack _). by vm_compute.
Defined.

Lemma C2_witness :
  let r := V3.start (ex_V3 false) in
  frames (out r)
  = (Some 0, V3._cell (ex_V3 false))
    :: V3_frames 0 (Z.to_nat (V3_rendered r)) (ex_V3 false)
  ∧ length (frames (out r)) = Z.to_nat (1 + V3_rendered r).
Proof.
  cbv zeta. destruct C2_rendering as (_ & Hv3).
  destruct (Hv3 (ex_V3 false)) as (_ & Hall & _).
  - cbn. lia.
  - by apply Hall.
Defined.

Lemma C8_witness :
  let opt := V2.mkOptions 3 4 4 false true true 2024 in
  let a := V1.initBoard Z id toy_bit 2 2 1 false false 6
                        (λ _ _, false) (λ _ _, false) in
  let b := V1.initBoard Z id toy_bit 2 2 1 false false 6
                        (λ _ _, true) (λ _ _, true) in
  V2.main Z id toy_bit opt 0 = V2.main Z id toy_bit opt 1
  ∧ (λ st, out (V1.start st)) <$> a = (λ st, out (V1.start st)) <$> b.
Proof.
  cbv zeta. destruct C8_determinism as (Hseeded & Hraw). split.
  - apply (Hseeded Z id toy_bit
             (V2.mkOptions 3 4 4 false true true 2024) 0 1).
    reflexivity.
  - destruct (V1.initBoard Z id toy_bit 2 2 1 false false 6
                           (λ _ _, false) (λ _ _, false)) as [st|] eqn:Ha;
      [|vm_compute in Ha; discriminate].
    destruct (V1.initBoard Z id toy_bit 2 2 1 false false 6
                           (λ _ _, true) (λ _ _, true)) as [st'|] eqn:Hb;
      [|vm_compute in Hb; discriminate].
    cbn [fmap option_fmap option_map]. f_equal.
    apply (Hraw Z id toy_bit 2 2 1 false false 6 _ _ _ _ st st' Ha Hb).
Defined.

Lemma ex_same_board d : same_board (ex_V1 d) (ex_V2 d) (ex_V3 d).
Proof.
  split; [apply ex_V1_wf|apply ex_V2_wf|apply ex_V3_wf|reflexivity..].
Defined.

Lemma pair_V1_wf : V1_wf pair_V1.
Proof.
  split; [reflexivity|reflexivity| | |reflexivity].
  - split; [reflexivity|]. repeat constructor.
  - split; [reflexivity|]. repeat constructor.
Defined.

Lemma pair_V2_wf : V2_wf pair_V2.
Proof.
  split; try reflexivity.
  apply (bool_decide_unpack _). vm_compute. exact I.
Defined.

Lemma pair_V3_wf : V3_wf pair_V3.
Proof. split; reflexivity. Defined.

Lemma X1_mixer_injective_witness :
  0 ≤ splitmix64 1 < 2 ^ 64
  ∧ splitmix64 1 ≠ splitmix64 2
  ∧ hash_combine hash_seed 1 ≠ hash_combine hash_seed 2.
Proof.
  destruct X1_mixer_injective as (Hrange & Hinj & Hcomb).
  split; [apply Hrange|]. split; intros Heq.
  - apply Hinj in Heq; [discriminate|split; (lia || reflexivity)..].
  - apply Hcomb in Heq; [discriminate|split; (lia || reflexivity)..].
Defined.

Lemma X2_fingerprint_small_witness :
  V3.hashState (ex_V3 false) = V3.hashState (V3_next (V3_next (ex_V3 false)))
  ↔ V3._cell (ex_V3 false) = V3._cell (V3_next (V3_next (ex_V3 false))).
Proof.
  destruct X2_fingerprint_small as (_ & _ & H3).
  apply (H3 (ex_V3 false) (V3_next (V3_next (ex_V3 false)))).
  - apply ex_V3_wf.
  - apply V3_next_wf, V3_next_wf, ex_V3_wf.
  - reflexivity.
  - reflexivity.
  - cbn. lia.
Defined.

Lemma X3_V3_cycle_detection_witness :
  ∃ t : nat,
    generation (V3.start (ex_V3 true)) = Z.of_nat t
    ∧ NoDup (V3_fps t (ex_V3 true)).
Proof.
  destruct (X3_V3_cycle_detection (ex_V3 true) eq_refl) as (t & _ & Hg & _ & Hnd & _).
  exists t. by split.
Defined.

Lemma X4_cycle_exact_witness :
  ∃ k t : nat,
    generation (V1.start (ex_V1 true)) = Z.of_nat t ∧ (k < t)%nat
    ∧ V1._cell (V1_gen k (ex_V1 true)) = V1._cell (V1_gen t (ex_V1 true)).
Proof.
  destruct X4_cycle_exact as (H1 & _).
  destruct (H1 (ex_V1 true) (ex_V1_wf true)) as (k & t & Hg & Hk & _ & Hc & _).
  - cbn. lia.
  - reflexivity.
  - reflexivity.
  - vm_compute. reflexivity.
  - exists k, t. by repeat split.
Defined.

Lemma X5_static_exact_witness :
  ∃ t : nat,
    generation (V3.start (ex_V3 false)) = Z.of_nat t
    ∧ (stop (V3.start (ex_V3 false)) = StoppedStatic
       ↔ (1 ≤ t)%nat
         ∧ V3._cell (V3_gen (t - 1) (ex_V3 false))
           = V3._cell (V3_gen t (ex_V3 false))).
Proof.
  destruct (X5_static_exact (ex_V3 false) (ex_V3_wf false))
    as (t & Hg & _ & _ & Hiff & _).
  - cbn. lia.
  - reflexivity.
  - exists t. by split.
Defined.

Lemma X6_must_stop_witness :
  stop (V1.start pair_V1) = StoppedByCycle
  ∧ stop (V2.run pair_V2 4 false) = StoppedByCycle
  ∧ (stop (V3.start pair_V3) = StoppedByCycle
     ∨ stop (V3.start pair_V3) = StoppedEmpty).
Proof.
  destruct X6_must_stop as (H1 & H2 & H3). split; [|split].
  - apply (H1 pair_V1 pair_V1_wf eq_refl). cbn. lia.
  - apply (H2 pair_V2 4 false pair_V2_wf eq_refl). cbn. lia.
  - apply (H3 pair_V3 pair_V3_wf eq_refl). cbn. lia.
Defined.

Lemma X7_history_size_witness :
  Z.of_nat (size (V1._history (final (V1.start (ex_V1 true)))))
  = generation (V1.start (ex_V1 true)).
Proof.
  destruct X7_history_size as (H1 & _).
  destruct (H1 (ex_V1 true) eq_refl) as [Hsize _]. exact Hsize.
Defined.

Lemma X9_V1_rendering_witness :
  frames (out (V1.start (ex_V1 false)))
  = (Some 0, V1._cell (ex_V1 false))
    :: V1_frames 0 (Z.to_nat (generation (V1.start (ex_V1 false))))
                 (ex_V1 false).
Proof.
  destruct (X9_V1_rendering (ex_V1 false)) as (_ & _ & _ & Hall & _).
  - cbn. lia.
  - by apply Hall.
Defined.

Lemma X10_display_agree_witness :
  V1.display (ex_V1 false) = V3.display (ex_V3 false)
  ∧ V2.display (ex_V2 false) = V3.display (ex_V3 false).
Proof.
  apply (X10_display_agree (ex_V1 false) (ex_V2 false) (ex_V3 false)
           (ex_V1_wf false) (ex_V3_wf false));
    reflexivity.
Defined.

Lemma X11_display_read_back_witness :
  read_board (V3.display (ex_V3 false)) = V3._cell (ex_V3 false).
Proof.
  destruct X11_display_read_back as (_ & _ & H3).
  apply (H3 (ex_V3 false) (ex_V3_wf false)).
Defined.

Lemma X12_initBoard_witness :
  (∃ st1 st3,
     V1.initBoard Z id toy_bit 2 3 1 false false 37
                  (λ _ _, true) (λ _ _, true) = Some st1
     ∧ V3.initBoard Z id toy_bit 2 3 1 false false 37 = inr st3
     ∧ concat (V1._cell st1) = V3._cell st3)
  ∧ V3.initBoard Z id toy_bit 46341 46341 1 true false 37
    = inl V3.resize_error
  ∧ V3.initBoard Z id toy_bit 2 2 2147483647 false true 37
    = inl V3.reserve_error.
Proof.
  split; [|split].
  - destruct (X12_initBoard Z id toy_bit 2 3 1 false false 37
                (λ _ _, true) (λ _ _, true)) as (_ & Hok).
    destruct Hok as ((st1 & H1 & _ & Hc1 & _) & Hok3 & _); [lia..|].
    destruct Hok3 as (st3 & H3 & _ & Hc3 & _);
      [by vm_compute|done|].
    exists st1, st3. split; [done|]. split; [done|]. by rewrite Hc1, Hc3.
  - destruct (X12_initBoard Z id toy_bit 46341 46341 1 true false 37
                (λ _ _, true) (λ _ _, true)) as (_ & Hok).
    destruct Hok as (_ & _ & Hresize & _); [lia..|].
    apply Hresize. by vm_compute.
  - destruct (X12_initBoard Z id toy_bit 2 2 2147483647 false true 37
                (λ _ _, true) (λ _ _, true)) as (_ & Hok).
    destruct Hok as (_ & _ & _ & Hreserve); [lia..|].
    apply Hreserve; [by vm_compute|done|by vm_compute].
Defined.

Lemma X13_V2_init_witness :
  V2._grid (V2.init Z toy_bit 3 2 3 false false 37).1
  = V2.u8 <$> (draws toy_bit 6 37).1.
Proof.
  destruct (X13_V2_init Z toy_bit 3 2 3 false false 37) as (Hg & _);
    [lia..|].
  exact Hg.
Defined.

Lemma X14_V2_tables_witness :
  V2.at_ (V2.prev_table 5) 0 = 4 ∧ V2.at_ (V2.next_table 5) 4 = 0.
Proof.
  split.
  - destruct (X14_V2_tables 5 0) as (_ & _ & Hp & _); [lia..|]. exact Hp.
  - destruct (X14_V2_tables 5 4) as (_ & _ & _ & Hn & _); [lia..|]. exact Hn.
Defined.

Lemma X15_runs_agree_witness :
  V1.hashState (V1_gen 3 (ex_V1 false)) = V3.hashState (V3_gen 3 (ex_V3 false))
  ∧ V2.hashState (V2_gen 3 (ex_V2 false))
    = V3.hashState (V3_gen 3 (ex_V3 false)).
Proof.
  destruct (X15_runs_agree (ex_V1 false) (ex_V2 false) (ex_V3 false) 3
              (ex_same_board false)) as (_ & _ & H1 & H2 & _).
  by split.
Defined.

Lemma X16_V1_V2_cycle_witness :
  generation (V1.start (ex_V1 true)) = generation (V2.run (ex_V2 true) 5 false).
Proof.
  destruct (X16_V1_V2_cycle (ex_V1 true) (ex_V2 true) (ex_V3 true) false
              (ex_same_board true) eq_refl eq_refl eq_refl eq_refl)
    as (Hg & _).
  exact Hg.
Defined.

Lemma X17_V3_main_witness :
  let what := (λ _ : V3.exception, "std::exception"%string) in
  let run := [(chr "r", "2"); (chr "c", "3"); (chr "s", "1")]%string in
  let long := [(chr "s", "2147483647"); (chr "r", "2"); (chr "c", "2");
               (chr "d", "")]%string in
  (∃ msg,
     V3.main decimal Z id toy_bit what 3 [(chr "r", "0"%string)] 37
     = (1, [msg], None, None))
  ∧ (∃ gol,
       V3.main decimal Z id toy_bit what 7 run 37
       = (0, [], Some (V3.mkOption 1 2 3 false false), Some (V3.start gol)))
  ∧ V3.main decimal Z id toy_bit what 8 long 37
    = (1, ["Error: std::exception"%string],
       Some (V3.mkOption 2147483647 2 2 false true), None).
Proof.
  cbv zeta. split; [|split].
  - destruct (X17_V3_main decimal Z id toy_bit
                (λ _, "std::exception"%string) 3
                [(chr "r", "0"%string)] 37)
      as (_ & _ & Hbad).
    destruct Hbad as (msg & Hmain & _); [reflexivity|].
    by exists msg.
  - destruct (X17_V3_main decimal Z id toy_bit
                (λ _, "std::exception"%string) 7
                [(chr "r", "2"); (chr "c", "3"); (chr "s", "1")]%string 37)
      as (_ & Hok & _).
    destruct Hok as (_ & _ & _ & _ & Hrun & _); [reflexivity|].
    destruct Hrun as (gol & _ & _ & Hmain); [by vm_compute|done|].
    exists gol. exact Hmain.
  - destruct (X17_V3_main decimal Z id toy_bit
                (λ _, "std::exception"%string) 8
                [(chr "s", "2147483647"); (chr "r", "2"); (chr "c", "2");
                 (chr "d", "")]%string 37)
      as (_ & Hok & _).
    destruct Hok as (_ & _ & _ & _ & _ & Hthrow); [reflexivity|].
    destruct Hthrow as (ex & _ & Hmain).
    { right. split; [reflexivity|by vm_compute]. }
    exact Hmain.
Defined.

Lemma X18_V1_main_witness :
  (V1.main decimal Z id toy_bit 1 [] 37 (λ _ _, true) (λ _ _, true)).2 = None.
Proof.
  destruct (X18_V1_main decimal Z id toy_bit 1 [] 37
              (λ _ _, true) (λ _ _, true)) as (_ & Hnone & _).
  apply Hnone. lia.
Defined.

Lemma X19_V2_main_witness :
  V2.parse_options decimal decimal "gol"
    [(chr "s", "0"); (chr "r", "2"); (chr "c", "3"); (1, "7")]%string
  = inl (V2.mkOptions 0 2 3 false false true 7).
Proof.
  destruct (X19_V2_main decimal decimal Z id toy_bit "gol"
              [(chr "s", "0"); (chr "r", "2"); (chr "c", "3"); (1, "7")]%string
              37) as (_ & _ & Hok).
  destruct Hok as (Hp & _); [reflexivity|by vm_compute..|]. exact Hp.
Defined.

Lemma X20_V2_plain_run_witness :
  final (V2.run (ex_V2 false) 4 true) = V2_gen 4 (ex_V2 false)
  ∧ out (V2.run (ex_V2 false) 0 true)
    = [FinalHeader 0; Board (V2._grid (ex_V2 false))].
Proof.
  split.
  - destruct (X20_V2_plain_run (ex_V2 false) 4 true) as (Hoff & _).
    destruct Hoff as (_ & _ & _ & Hf & _); [reflexivity|by vm_compute|].
    exact Hf.
  - destruct (X20_V2_plain_run (ex_V2 false) 0 true) as (_ & Hzero).
    destruct Hzero as (_ & _ & _ & _ & Ho); [lia|]. exact Ho.
Defined.

Lemma X21_shift_step_witness :
  let st := ex_V3 false in
  let st' := V3_board 6 6 5 false false (shift 6 6 1 2 (V3._cell st))
                      (dead 6 6) in
  V3._cell (V3_next st') = shift 6 6 1 2 (V3._cell (V3_next st)).
Proof.
  cbv zeta.
  apply (X21_shift_step (ex_V3 false)
           (V3_board 6 6 5 false false
                     (shift 6 6 1 2 (V3._cell (ex_V3 false))) (dead 6 6))
           1 2 (ex_V3_wf false)).
  - split; reflexivity.
  - reflexivity.
  - reflexivity.
  - reflexivity.
Defined.

Lemma X22_full_board_witness :
  let st := V3_board 2 3 4 false true (replicate 6 true) (dead 2 3) in
  V3._cell (V3_next st) = dead 2 3
  ∧ stop (V3.start st) = StoppedEmpty.
Proof.
  cbv zeta.
  destruct (X22_full_board
              (V3_board 2 3 4 false true (replicate 6 true) (dead 2 3)))
    as (Hdead & Hrun).
  - split; reflexivity.
  - reflexivity.
  - split; [exact Hdead|].
    destruct Hrun as (Hs & _); [reflexivity|reflexivity|cbn; lia|exact Hs].
Defined.

Lemma X8_cycle_complete_witness :
  stop (V1.start (ex_V1 true)) = StoppedByCycle
  ∧ generation (V1.start (ex_V1 true)) ≤ 2.
Proof.
  destruct X8_cycle_complete as (H1 & _).
  apply (H1 (ex_V1 true) 2%nat eq_refl).
  - lia.
  - vm_compute. reflexivity.
  - cbn. lia.
Defined.

Lemma X23_one_row_witness :
  V3.at_ (V3._cell (V3_next pair_V3)) 1 = exactly_one true false true.
Proof.
  destruct (X23_one_row pair_V3 1 pair_V3_wf eq_refl) as [_ Hnext].
  - cbn. lia.
  - exact Hnext.
Defined.
